(** * Route inspection (Chinese postman) over networkx: postman.py

    A shallow embedding of [src/postman.py] and of the parts of the
    networkx 1.x graph library that the file calls.

    - Python [int] is [Z]; node identifiers are Python ints.
    - A Python [dict] with integer keys is an association list with unique
      keys; iteration follows the list, a new key is appended and an
      assignment to an existing key keeps its place.  The theorems below
      quantify over every graph value, hence over every order in which the
      input graph may store its nodes and neighbours.
    - Exceptions are the [Raise] outcomes of a small error monad; loops that
      Python runs with [while] carry fuel and report [OutOfFuel] when it is
      exhausted (the fuel given is shown to be enough).
    - [nx.max_weight_matching] and [nx.eulerian_circuit] are parameters,
      constrained by the contracts of their networkx documentation. *)

From Stdlib Require Import String Ascii ZArith Arith Lia Bool List Permutation Sorted.
Import ListNotations.

Set Implicit Arguments.

Open Scope Z_scope.

(* ------------------------------------------------------------------ *)
(** ** Outcomes of Python code *)

(** Exception classes.  The first group is raised by the modelled code and
    library; the second group is the error taxonomy named by the
    specification, which no modelled function raises. *)
Inductive exn : Type :=
| IndexError
| KeyError
| ValueError
| TypeError
| IOError
| CsvError
| NetworkXError
| NetworkXPointlessConcept
| InvalidEdgeError
| EmptyGraphError
| NoPerfectMatchingError
| NotEulerianError
| DisconnectedGraphError.

Definition spec_taxonomy (e : exn) : bool :=
  match e with
  | InvalidEdgeError | EmptyGraphError | NoPerfectMatchingError
  | NotEulerianError | DisconnectedGraphError => true
  | _ => false
  end.

Inductive outcome (A : Type) : Type :=
| Ok (a : A)
| Raise (e : exn)
| OutOfFuel.

Arguments Ok {A} a.
Arguments Raise {A} e.
Arguments OutOfFuel {A}.

Definition bind {A B : Type} (m : outcome A) (k : A -> outcome B) : outcome B :=
  match m with
  | Ok a => k a
  | Raise e => Raise e
  | OutOfFuel => OutOfFuel
  end.

Declare Scope py_scope.
Delimit Scope py_scope with py.
Notation "x <- m ;; k" := (bind m (fun x => k))
  (at level 61, m at next level, right associativity) : py_scope.
Notation "' p <- m ;; k" := (bind m (fun x => let p := x in k))
  (at level 61, p pattern, m at next level, right associativity) : py_scope.
Open Scope py_scope.

(** [for x in l: acc = body(acc, x)], stopping at the first exception. *)
Fixpoint for_each {A S : Type} (l : list A) (body : S -> A -> outcome S) (s : S)
  : outcome S :=
  match l with
  | [] => Ok s
  | x :: l' => s' <- body s x ;; for_each l' body s'
  end.

(** [d[k]] on a value that may be absent. *)
Definition lookup_or {A : Type} (e : exn) (o : option A) : outcome A :=
  match o with
  | Some a => Ok a
  | None => Raise e
  end.

(* ------------------------------------------------------------------ *)
(** ** Python dicts keyed by ints *)

(** A vertex is a Python int; a dict maps vertices to values. *)
Abbreviation vertex := Z (only parsing).
Abbreviation dict V := (list (Z * V)) (only parsing).

Section Dict.
Variable V : Type.

Fixpoint get (d : dict V) (k : vertex) : option V :=
  match d with
  | [] => None
  | (k', v) :: d' => if Z.eqb k k' then Some v else get d' k
  end.

(** [d[k] = v] *)
Fixpoint set (d : dict V) (k : vertex) (v : V) : dict V :=
  match d with
  | [] => [(k, v)]
  | (k', v') :: d' =>
      if Z.eqb k k' then (k', v) :: d' else (k', v') :: set d' k v
  end.

Definition keys (d : dict V) : list vertex := map fst d.

Definition values (d : dict V) : list V := map snd d.

(** [k in d] *)
Definition mem (k : vertex) (d : dict V) : bool :=
  match get d k with
  | Some _ => true
  | None => false
  end.

(** [d[k]], raising [KeyError] *)
Definition getitem (d : dict V) (k : vertex) : outcome V :=
  lookup_or KeyError (get d k).
End Dict.

Arguments get {V} d k.
Arguments set {V} d k v.
Arguments keys {V} d.
Arguments values {V} d.
Arguments mem {V} k d.
Arguments getitem {V} d k.

(** [d.update(e)] *)
Definition update {V : Type} (d e : dict V) : dict V :=
  fold_left (fun acc kv => set acc (fst kv) (snd kv)) e d.

(** [x in l] for a list of ints *)
Definition memZ (x : Z) (l : list Z) : bool := existsb (Z.eqb x) l.

(** [l[0]] *)
Definition first {A : Type} (l : list A) : outcome A :=
  match l with
  | [] => Raise IndexError
  | x :: _ => Ok x
  end.

Fixpoint map_m {A B : Type} (f : A -> outcome B) (l : list A)
  : outcome (list B) :=
  match l with
  | [] => Ok []
  | x :: l' => y <- f x ;; ys <- map_m f l' ;; Ok (y :: ys)
  end.

(** [[x for x in l if f(x)]] *)
Fixpoint filter_m {A : Type} (f : A -> outcome bool) (l : list A)
  : outcome (list A) :=
  match l with
  | [] => Ok []
  | x :: l' => b <- f x ;; r <- filter_m f l' ;; Ok (if b then x :: r else r)
  end.

(** [d[u][v]] when both lookups succeed. *)
Definition get2 {X : Type} (a : dict (dict X)) (u v : vertex) : option X :=
  match get a u with
  | Some nb => get nb v
  | None => None
  end.

Fixpoint nodupb (l : list Z) : bool :=
  match l with
  | [] => true
  | x :: l' => negb (memZ x l') && nodupb l'
  end.

Fixpoint list_eqb (l1 l2 : list Z) : bool :=
  match l1, l2 with
  | [], [] => true
  | x :: l1', y :: l2' => Z.eqb x y && list_eqb l1' l2'
  | _, _ => false
  end.

(** [list.sort(key=..., reverse=True)]: stable, greatest key first; elements
    with equal keys keep their relative order. *)
Section Sort.
Variable A : Type.
Variable key : A -> nat.

Fixpoint insert_desc (x : A) (l : list A) : list A :=
  match l with
  | [] => [x]
  | y :: l' =>
      if Nat.ltb (key x) (key y) then y :: insert_desc x l' else x :: y :: l'
  end.

Definition sort_desc (l : list A) : list A := fold_right insert_desc [] l.
End Sort.

(* ------------------------------------------------------------------ *)
(** ** networkx 1.x: Graph *)

Module NX.

(** Node attribute dict of postman.py: the two GPS strings. *)
Record node_attrs : Type := mk_node_attrs
  { longitude : option string;
    latitude : option string }.

Definition no_attrs : node_attrs := mk_node_attrs None None.

(** [Graph]: [node] maps a node to its attributes, [adj] maps a node to the
    dict of its neighbours, each with the edge data of type [E]. *)
Record Graph (E : Type) : Type := mk_graph
  { node : dict node_attrs;
    adj : dict (dict E) }.

Arguments mk_graph {E} node adj.
Arguments node {E} g.
Arguments adj {E} g.

Section GraphOps.
Variable E : Type.
Implicit Types g : Graph E.

(** [nx.Graph()] *)
Definition empty : Graph E := mk_graph [] [].

(** [g.nodes()], [len(g)], [n in g], [g[n]] *)
Definition nodes g : list vertex := keys (node g).
Definition order g : nat := length (node g).
Definition has_node g (n : vertex) : bool := mem n (node g).
Definition nbrs g (n : vertex) : outcome (dict E) := getitem (adj g) n.

(** The part of [add_edge]/[add_node] that creates a missing node. *)
Definition touch g (n : vertex) : Graph E :=
  if mem n (node g) then g
  else mk_graph (set (node g) n no_attrs) (set (adj g) n []).

Definition add_node g (n : vertex) : Graph E := touch g n.

Definition set_adj g (u v : vertex) (d : E) : Graph E :=
  match get (adj g) u with
  | Some nb => mk_graph (node g) (set (adj g) u (set nb v d))
  | None => g
  end.

(** [g.add_edge(u, v, **attrs)] where [attrs] gives every field of [E]:
    no check on the endpoints or on the data. *)
Definition add_edge g (u v : vertex) (d : E) : Graph E :=
  set_adj (set_adj (touch (touch g u) v) u v d) v u d.

(** [g.degree(n)]: a self-loop counts twice. *)
Definition degree_of (nb : dict E) (n : vertex) : nat :=
  (length nb + (if mem n nb then 1 else 0))%nat.

Definition degree g (n : vertex) : outcome nat :=
  nb <- nbrs g n ;; Ok (degree_of nb n).

(** [g.edges(data=True)]: each edge once, from the endpoint met first in
    the iteration over [adj]. *)
Fixpoint edges_from (seen : list vertex) (a : dict (dict E))
  : list (vertex * vertex * E) :=
  match a with
  | [] => []
  | (n, nb) :: a' =>
      map (fun vd => (n, fst vd, snd vd))
          (filter (fun vd => negb (memZ (fst vd) seen)) nb)
      ++ edges_from (n :: seen) a'
  end.

Definition edges g : list (vertex * vertex * E) := edges_from [] (adj g).

(** [g.size()]: half the sum of the degrees. *)
Definition size g : nat :=
  Nat.div (list_sum (map (fun e => degree_of (snd e) (fst e)) (adj g))) 2.

(** [g.subgraph(nbunch)] followed by [.copy()]. *)
Definition subgraph_nodes g (bunch : list vertex) : dict node_attrs :=
  fold_left
    (fun h n =>
       if mem n (adj g) then
         match get (node g) n with
         | Some a => set h n a
         | None => h
         end
       else h)
    bunch [].

Definition subgraph_link (n : vertex) (h : dict (dict E)) (vd : vertex * E)
  : dict (dict E) :=
  let '(nbr, d) := vd in
  if mem nbr h then
    let h1 := match get h n with
              | Some hn => set h n (set hn nbr d)
              | None => h
              end in
    match get h1 nbr with
    | Some hb => set h1 nbr (set hb n d)
    | None => h1
    end
  else h.

Definition subgraph_adj g (hnode : dict node_attrs) : dict (dict E) :=
  fold_left
    (fun h n =>
       match get (adj g) n with
       | Some nb => fold_left (subgraph_link n) nb (set h n [])
       | None => h
       end)
    (keys hnode) [].

Definition subgraph g (bunch : list vertex) : Graph E :=
  let hnode := subgraph_nodes g bunch in
  mk_graph hnode (subgraph_adj g hnode).
End GraphOps.

Arguments empty {E}.

(** *** Breadth-first search: [nx.shortest_path] and
    [nx.shortest_path_length] called with [source] only.

    With no [weight] argument networkx dispatches both calls to its
    unweighted routines, [single_source_shortest_path] and
    [single_source_shortest_path_length]: every edge counts for one hop.
    The routines read the adjacency [a] = [G.adj] only.  [thislevel] and
    [nextlevel] are dicts of which only the keys are read; they are kept
    as their lists of keys. *)
Section BFS.
Variable X : Type.
Variable a : dict (dict X).

Definition add_key (l : list vertex) (k : vertex) : list vertex :=
  if memZ k l then l else l ++ [k].

(** [nextlevel.update(G[v])] *)
Definition add_keys (l ks : list vertex) : list vertex :=
  fold_left add_key ks l.

(** Body of [for v in thislevel] in the length routine. *)
Definition visit (level : Z) (st : dict Z * list vertex) (v : vertex)
  : outcome (dict Z * list vertex) :=
  if mem v (fst st) then Ok st
  else nb <- getitem a v ;;
       Ok (set (fst st) v level, add_keys (snd st) (keys nb)).

(** [while nextlevel: ...] *)
Fixpoint length_loop (fuel : nat) (seen : dict Z) (level : Z)
         (nextlevel : list vertex) : outcome (dict Z) :=
  match nextlevel with
  | [] => Ok seen
  | _ :: _ =>
      match fuel with
      | O => OutOfFuel
      | S fuel' =>
          st <- for_each nextlevel (visit level) (seen, []) ;;
          length_loop fuel' (fst st) (level + 1) (snd st)
      end
  end.

Definition single_source_shortest_path_length (source : vertex)
  : outcome (dict Z) :=
  length_loop (S (S (length a))) [] 0 [source].

(** Body of [for w in G[v]] in the path routine. *)
Definition extend (v : vertex) (st : dict (list vertex) * list vertex)
           (w : vertex) : outcome (dict (list vertex) * list vertex) :=
  if mem w (fst st) then Ok st
  else pv <- getitem (fst st) v ;;
       Ok (set (fst st) w (pv ++ [w]), add_key (snd st) w).

Definition expand (st : dict (list vertex) * list vertex) (v : vertex)
  : outcome (dict (list vertex) * list vertex) :=
  nb <- getitem a v ;; for_each (keys nb) (extend v) st.

Fixpoint path_loop (fuel : nat) (paths : dict (list vertex))
         (nextlevel : list vertex) : outcome (dict (list vertex)) :=
  match nextlevel with
  | [] => Ok paths
  | _ :: _ =>
      match fuel with
      | O => OutOfFuel
      | S fuel' =>
          st <- for_each nextlevel expand (paths, []) ;;
          path_loop fuel' (fst st) (snd st)
      end
  end.

Definition single_source_shortest_path (source : vertex)
  : outcome (dict (list vertex)) :=
  path_loop (S (length a)) [(source, [source])] [source].

(** [nx.is_connected], on a graph whose nodes are [ns]. *)
Definition is_connected_adj (ns : list vertex) : outcome bool :=
  match ns with
  | [] => Raise NetworkXPointlessConcept
  | n0 :: _ =>
      seen <- single_source_shortest_path_length n0 ;;
      Ok (Nat.eqb (length seen) (length ns))
  end.
End BFS.

Section Components.
Variable E : Type.
Implicit Types g : Graph E.

Definition shortest_path g (source : vertex) :=
  single_source_shortest_path (adj g) source.

Definition shortest_path_length g (source : vertex) :=
  single_source_shortest_path_length (adj g) source.

Definition is_connected g : outcome bool :=
  is_connected_adj (adj g) (nodes g).

Definition component_step g (st : dict Z * list (list vertex))
           (v : vertex) : outcome (dict Z * list (list vertex)) :=
  if mem v (fst st) then Ok st
  else c <- shortest_path_length g v ;;
       Ok (update (fst st) c, snd st ++ [keys c]).

(** [nx.connected_components]: node lists, largest first. *)
Definition connected_components g : outcome (list (list vertex)) :=
  st <- for_each (nodes g) (component_step g) ([], []) ;;
  Ok (sort_desc (@length vertex) (snd st)).

(** [nx.connected_component_subgraphs]: a list, in the same order. *)
Definition connected_component_subgraphs g : outcome (list (Graph E)) :=
  cc <- connected_components g ;;
  Ok (map (subgraph g) cc).
End Components.

(** *** MultiGraph

    The key dict of a pair of neighbours maps the keys 0, 1, ... to edge
    data.  Keys are handed out as [len(keydict)] and no edge is removed
    from the graphs built here, so a key dict is kept as the list of its
    values. *)
Record MultiGraph (E : Type) : Type := mk_multigraph
  { mnode : dict node_attrs;
    madj : dict (dict (list E)) }.

Arguments mk_multigraph {E} mnode madj.
Arguments mnode {E} _.
Arguments madj {E} _.

Section MultiGraphOps.
Variable E : Type.
Implicit Types g : MultiGraph E.

Definition mempty : MultiGraph E := mk_multigraph [] [].

Definition mnodes g : list vertex := keys (mnode g).

Definition mtouch g (n : vertex) : MultiGraph E :=
  if mem n (mnode g) then g
  else mk_multigraph (set (mnode g) n no_attrs) (set (madj g) n []).

Definition mset_adj g (u v : vertex) (kd : list E) : MultiGraph E :=
  match get (madj g) u with
  | Some nb => mk_multigraph (mnode g) (set (madj g) u (set nb v kd))
  | None => g
  end.

Definition keydict g (u v : vertex) : option (list E) :=
  match get (madj g) u with
  | Some nb => get nb v
  | None => None
  end.

(** [g.add_edge(u, v, **attrs)] with no key: the edge gets the next key
    of the key dict that both directions share. *)
Definition madd_edge g (u v : vertex) (d : E) : MultiGraph E :=
  let g1 := mtouch (mtouch g u) v in
  let kd := match keydict g1 u v with
            | Some kd => kd ++ [d]
            | None => [d]
            end in
  mset_adj (mset_adj g1 u v kd) v u kd.

Definition mdegree_of (nb : dict (list E)) (n : vertex) : nat :=
  (list_sum (map (@length E) (values nb))
   + match get nb n with Some kd => length kd | None => 0 end)%nat.

Definition mdegree g (n : vertex) : outcome nat :=
  nb <- getitem (madj g) n ;; Ok (mdegree_of nb n).

Fixpoint medges_from (seen : list vertex) (a : dict (dict (list E)))
  : list (vertex * vertex * E) :=
  match a with
  | [] => []
  | (n, nb) :: a' =>
      flat_map (fun vk => map (fun d => (n, fst vk, d)) (snd vk))
               (filter (fun vk => negb (memZ (fst vk) seen)) nb)
      ++ medges_from (n :: seen) a'
  end.

(** [g.edges(data=True)] *)
Definition medges g : list (vertex * vertex * E) := medges_from [] (madj g).

(** [g.size()] *)
Definition msize g : nat :=
  Nat.div (list_sum (map (fun e => mdegree_of (snd e) (fst e)) (madj g))) 2.

Definition m_is_connected g : outcome bool :=
  is_connected_adj (madj g) (mnodes g).
End MultiGraphOps.

Arguments mempty {E}.

(** [nx.MultiGraph(graph)]: the nodes of [graph.adj] are added, then each
    edge once (the reverse direction is remembered in [seen]), its data
    copied by [conv]; the node dict is replaced by a copy of
    [graph.node]. *)
Section Convert.
Variables E E' : Type.
Variable conv : E -> E'.

Definition seen_pair (p : vertex * vertex) (seen : list (vertex * vertex))
  : bool :=
  existsb (fun q => Z.eqb (fst p) (fst q) && Z.eqb (snd p) (snd q)) seen.

Definition convert_edge (u : vertex)
           (st : MultiGraph E' * list (vertex * vertex)) (vd : vertex * E)
  : MultiGraph E' * list (vertex * vertex) :=
  if seen_pair (u, fst vd) (snd st) then st
  else (madd_edge (fst st) u (fst vd) (conv (snd vd)),
        (fst vd, u) :: snd st).

Definition convert_node (st : MultiGraph E' * list (vertex * vertex))
           (un : vertex * dict E)
  : MultiGraph E' * list (vertex * vertex) :=
  fold_left (convert_edge (fst un)) (snd un) st.

Definition to_multigraph (g : Graph E) : MultiGraph E' :=
  let g0 := fold_left (@mtouch E') (keys (adj g)) mempty in
  let g1 := fst (fold_left convert_node (adj g) (g0, [])) in
  mk_multigraph (node g) (madj g1).
End Convert.

(** *** Walks and the well-formedness of an adjacency

    What every graph built through the networkx interface satisfies: the
    keys of a dict are distinct, and [adj[u][v]] and [adj[v][u]] are the
    same object. *)
Section Adjacency.
Variable X : Type.
Variable a : dict (dict X).

Definition adjacent (u v : vertex) : bool :=
  match get2 a u v with
  | Some _ => true
  | None => false
  end.

(** Consecutive vertices of [p] are joined by an edge. *)
Fixpoint is_walk (p : list vertex) : bool :=
  match p with
  | u :: ((v :: _) as p') => adjacent u v && is_walk p'
  | _ => true
  end.

(** [p] is a walk from [u] to [v]. *)
Definition walk_between (u v : vertex) (p : list vertex) : Prop :=
  hd_error p = Some u /\ last p u = v /\ mem u a = true
  /\ is_walk p = true.

Definition reachable (u v : vertex) : Prop :=
  exists p, walk_between u v p.

(** Every neighbour is a node. *)
Definition closed_adj : Prop :=
  forall u v, adjacent u v = true -> mem v a = true.

Variable eqb : X -> X -> bool.

Definition symmetric_entry (u : vertex) (vx : vertex * X) : bool :=
  match get2 a (fst vx) u with
  | Some y => eqb (snd vx) y
  | None => false
  end.

Definition wf_adjb : bool :=
  nodupb (keys a)
  && forallb (fun un => nodupb (keys (snd un))) a
  && forallb (fun un => forallb (symmetric_entry (fst un)) (snd un)) a.
End Adjacency.

(** Prop form of the same. *)
Record wf_adj {X : Type} (a : dict (dict X)) : Prop := mk_wf_adj
  { wf_keys : NoDup (keys a);
    wf_inner : forall u nb, get a u = Some nb -> NoDup (keys nb);
    wf_sym : forall u v, get2 a u v = get2 a v u }.

Definition wf_multigraph {E : Type} (g : MultiGraph E) : Prop :=
  keys (mnode g) = keys (madj g) /\ wf_adj (madj g).

(** *** Contract of [nx.is_eulerian] and [nx.eulerian_circuit] *)
Section Eulerian.
Variable E : Type.
Implicit Types G : MultiGraph E.

Fixpoint all_even G (ns : list vertex) : outcome bool :=
  match ns with
  | [] => Ok true
  | v :: ns' =>
      d <- mdegree G v ;;
      if Nat.eqb (Nat.modulo d 2) 0 then all_even G ns' else Ok false
  end.

(** [nx.is_eulerian]: every degree even, then connected. *)
Definition is_eulerian G : outcome bool :=
  ev <- all_even G (mnodes G) ;;
  if ev then m_is_connected G else Ok false.

(** An edge without its direction. *)
Definition undirected (e : vertex * vertex) : vertex * vertex :=
  (Z.min (fst e) (snd e), Z.max (fst e) (snd e)).

Definition edge_pairs G : list (vertex * vertex) :=
  map (fun e => fst e) (medges G).

(** [c] leads from [start] to [stop], each edge starting where the one
    before it ends. *)
Fixpoint chain (start : vertex) (c : list (vertex * vertex)) (stop : vertex)
  : Prop :=
  match c with
  | [] => start = stop
  | e :: c' => fst e = start /\ chain (snd e) c' stop
  end.

Definition closed_chain (c : list (vertex * vertex)) : Prop :=
  match c with
  | [] => True
  | e :: _ => chain (fst e) c (fst e)
  end.

(** [c] is an Eulerian circuit of [G]: a closed chain that uses every
    edge of [G], counted with multiplicity, exactly once. *)
Definition is_eulerian_circuit G (c : list (vertex * vertex)) : Prop :=
  closed_chain c
  /\ Permutation (map undirected c) (map undirected (edge_pairs G)).

(** What the documentation promises of [list(nx.eulerian_circuit(G))]:
    the edges of an Eulerian circuit when [G] is Eulerian,
    [NetworkXError] when it is not. *)
Definition eulerian_circuit_contract G
           (r : outcome (list (vertex * vertex))) : Prop :=
  match is_eulerian G with
  | Ok true => exists c, r = Ok c /\ is_eulerian_circuit G c
  | Ok false => r = Raise NetworkXError
  | Raise e => r = Raise e
  | OutOfFuel => True
  end.
End Eulerian.

(** *** Contract of [nx.max_weight_matching(G, maxcardinality=True)] *)
Section Matching.
Variable E : Type.
Variable wt : E -> Z.
Variable G : Graph E.

Definition has_edge (u v : vertex) : bool := adjacent (adj G) u v.

Definition edge_weight (u v : vertex) : Z :=
  match get2 (adj G) u v with
  | Some d => wt d
  | None => 0
  end.

Definition drop (y : vertex) (ns : list vertex) : list vertex :=
  filter (fun z => negb (Z.eqb z y)) ns.

(** Every matching of [G] on the nodes [ns]: the first node stays
    unmatched, or is matched with a later neighbour. *)
Fixpoint matchings (fuel : nat) (ns : list vertex)
  : list (list (vertex * vertex)) :=
  match fuel, ns with
  | S fuel', x :: ns' =>
      matchings fuel' ns'
      ++ flat_map
           (fun y =>
              if has_edge x y
              then map (cons (x, y)) (matchings fuel' (drop y ns'))
              else [])
           ns'
  | _, _ => [[]]
  end.

Definition all_matchings : list (list (vertex * vertex)) :=
  matchings (length (nodes G)) (nodes G).

Definition matching_weight (M : list (vertex * vertex)) : Z :=
  fold_right (fun uv acc => edge_weight (fst uv) (snd uv) + acc) 0 M.

(** [mate] is a dict with [mate[u] == v] and [mate[v] == u] for the
    matched edges [(u, v)] of [G]. *)
Definition is_mate_entry (mate : dict vertex) (uv : vertex * vertex) : bool :=
  negb (Z.eqb (fst uv) (snd uv))
  && has_edge (fst uv) (snd uv)
  && match get mate (snd uv) with
     | Some w => Z.eqb w (fst uv)
     | None => false
     end.

Definition is_matching (mate : dict vertex) : bool :=
  nodupb (keys mate) && forallb (is_mate_entry mate) mate.

(** Each matched edge once. *)
Definition matched_pairs (mate : dict vertex) : list (vertex * vertex) :=
  filter (fun uv => Z.ltb (fst uv) (snd uv)) mate.

Definition no_better (mate : dict vertex) (M : list (vertex * vertex))
  : bool :=
  let c := length M in
  let c0 := length (matched_pairs mate) in
  Nat.ltb c c0
  || (Nat.eqb c c0
      && Z.leb (matching_weight M) (matching_weight (matched_pairs mate))).

(** The matching has the greatest cardinality, and the greatest weight
    among the matchings of that cardinality. *)
Definition max_weight_matching_contract (mate : dict vertex) : bool :=
  is_matching mate && forallb (no_better mate) all_matchings.
End Matching.

End NX.

(* ------------------------------------------------------------------ *)
(** ** postman.py *)

Module Postman.
Import NX.

(** Edge data of the three graphs of the pipeline.  [base_attrs] is what
    [import_csv_graph] stores ([weight], [id]); [odd_attrs] what
    [odd_graph] stores ([weight], [path]); [multi_attrs] the data of the
    multigraph, where copied edges keep their [id] and duplicated edges
    carry a [weight] only. *)
Record base_attrs : Type := mk_base { b_weight : Z; b_id : string }.
Record odd_attrs : Type := mk_odd { o_weight : Z; o_path : list vertex }.
Record multi_attrs : Type := mk_multi { m_weight : Z; m_id : option string }.

(** [data['weight']] *)
Class HasWeight (E : Type) : Type := weight : E -> Z.
#[export] Instance base_weight : HasWeight base_attrs := b_weight.
#[export] Instance odd_weight : HasWeight odd_attrs := o_weight.
#[export] Instance multi_weight : HasWeight multi_attrs := m_weight.

(** [graph.edges(data=True)], on either kind of graph. *)
Class GraphLike (G E : Type) : Type :=
  edges_data : G -> list (vertex * vertex * E).
#[export] Instance graph_like (E : Type) : GraphLike (Graph E) E := @edges E.
#[export] Instance multigraph_like (E : Type)
  : GraphLike (MultiGraph E) E := @medges E.

(** *** pairs *)

Fixpoint pairs_loop {A : Type} (prev : A) (rest : list A) : list (A * A) :=
  match rest with
  | [] => []
  | item :: rest' => (prev, item) :: pairs_loop item rest'
  end.

(** On an empty list [i.next()] raises [StopIteration] inside the
    generator, which ends it: nothing is yielded. *)
Definition pairs {A : Type} (lst : list A) (circular : bool) : list (A * A) :=
  match lst with
  | [] => []
  | first :: rest =>
      pairs_loop first rest
      ++ (if circular then [(last rest first, first)] else [])
  end.

(** *** import_csv_graph *)

Definition is_digit (c : ascii) : bool :=
  let n := nat_of_ascii c in (Nat.leb 48 n && Nat.leb n 57)%bool.

(** C [isspace]: space, and the controls 9 to 13. *)
Definition is_space (c : ascii) : bool :=
  let n := nat_of_ascii c in
  (Nat.eqb n 32 || (Nat.leb 9 n && Nat.leb n 13))%bool.

Fixpoint all_chars (p : ascii -> bool) (s : string) : bool :=
  match s with
  | EmptyString => true
  | String c s' => (p c && all_chars p s')%bool
  end.

(** [s.isdigit()] *)
Definition isdigit (s : string) : bool :=
  match s with
  | EmptyString => false
  | _ => all_chars is_digit s
  end.

Fixpoint lstrip (s : string) : string :=
  match s with
  | String c s' => if is_space c then lstrip s' else s
  | EmptyString => s
  end.

(** Reads the leading digits; returns their count, value and the rest. *)
Fixpoint digits (s : string) (n : nat) (acc : Z) : nat * Z * string :=
  match s with
  | String c s' =>
      if is_digit c
      then digits s' (S n) (10 * acc + Z.of_nat (nat_of_ascii c) - 48)
      else (n, acc, s)
  | EmptyString => (n, acc, s)
  end.

(** [int(s)] of Python 2 on a [str], base 10: blanks, a sign, blanks,
    digits, blanks. *)
Definition py_int (s : string) : outcome Z :=
  let s1 := lstrip s in
  let '(sign, s2) :=
    match s1 with
    | String "-"%char r => (-1, r)
    | String "+"%char r => (1, r)
    | _ => (1, s1)
    end in
  let '(n, value, rest) := digits (lstrip s2) 0 0 in
  match n with
  | O => Raise ValueError
  | S _ =>
      match lstrip rest with
      | EmptyString => Ok (sign * value)
      | _ => Raise ValueError
      end
  end.

(** [graph.node[n]['longitude'] = s] and the same for the latitude. *)
Definition set_longitude {E : Type} (g : Graph E) (n : vertex) (s : string)
  : outcome (Graph E) :=
  a <- getitem (node g) n ;;
  Ok (mk_graph (set (node g) n (mk_node_attrs (Some s) (latitude a)))
               (adj g)).

Definition set_latitude {E : Type} (g : Graph E) (n : vertex) (s : string)
  : outcome (Graph E) :=
  a <- getitem (node g) n ;;
  Ok (mk_graph (set (node g) n (mk_node_attrs (longitude a) (Some s)))
               (adj g)).

(** One turn of [for row in reader]. *)
Definition import_row (graph : Graph base_attrs) (row : list string)
  : outcome (Graph base_attrs) :=
  r0 <- lookup_or IndexError (nth_error row 0) ;;
  if negb (isdigit r0) then Ok graph
  else
    ints <- map_m py_int (firstn 3 row) ;;
    match ints with
    | [start_node; end_node; length] =>
        match firstn 5 (skipn 3 row) with
        | [id; start_lon; start_lat; end_lon; end_lat] =>
            let graph := add_edge graph start_node end_node
                                  (mk_base length id) in
            graph <- set_longitude graph start_node start_lon ;;
            graph <- set_latitude graph start_node start_lat ;;
            graph <- set_longitude graph end_node end_lon ;;
            set_latitude graph end_node end_lat
        | _ => Raise ValueError
        end
    | _ => Raise ValueError
    end.

(** One step of the iteration over [csv.reader(file)]: the reader yields
    the next row, or raises instead: [csv.Error] ([CsvError]) where the
    parser rejects the input, as on a NUL byte or on a field over the size
    limit, or the [IOError] of the file. *)
Inductive read_result : Type :=
| ReadRow (row : list string)
| ReadError (e : exn).

(** One turn of [for row in reader], the step of the iterator included. *)
Definition import_step (graph : Graph base_attrs) (r : read_result)
  : outcome (Graph base_attrs) :=
  match r with
  | ReadRow row => import_row graph row
  | ReadError e => Raise e
  end.

(** [reader] is what the iteration over [csv.reader(file)] does, step by
    step, until it is exhausted; an exception of the reader ends the loop
    and the call, like one of the body. *)
Definition import_csv_graph (reader : list read_result)
  : outcome (Graph base_attrs) :=
  for_each reader import_step empty.

(** *** validate_graph *)

Definition multiple_components_warning : string :=
  "Warning: input graph contains multiple components, only using the first one".

(** Returns the lines printed to [sys.stderr] and the component. *)
Definition validate_graph (graph : Graph base_attrs)
  : outcome (list string * Graph base_attrs) :=
  components <- connected_component_subgraphs graph ;;
  let components := sort_desc (@size base_attrs) components in
  let stderr :=
    if Nat.ltb 1 (length components) then [multiple_components_warning]
    else [] in
  main_component <- first components ;;
  Ok (stderr, main_component).

(** *** odd_graph *)

Definition is_odd (graph : Graph base_attrs) (n : vertex) : outcome bool :=
  d <- degree graph n ;; Ok (Nat.eqb (Nat.modulo d 2) 1).

Definition odd_edge (u : vertex) (paths : dict (list vertex))
           (lengths : dict Z) (result : Graph odd_attrs) (v : vertex)
  : outcome (Graph odd_attrs) :=
  if Z.leb u v then Ok result
  else
    lv <- getitem lengths v ;;
    pv <- getitem paths v ;;
    Ok (add_edge result u v (mk_odd (- lv) pv)).

Definition odd_row (graph : Graph base_attrs) (odd_nodes : list vertex)
           (result : Graph odd_attrs) (u : vertex)
  : outcome (Graph odd_attrs) :=
  paths <- shortest_path graph u ;;
  lengths <- shortest_path_length graph u ;;
  for_each odd_nodes (odd_edge u paths lengths) result.

Definition odd_graph (graph : Graph base_attrs) : outcome (Graph odd_attrs) :=
  odd_nodes <- filter_m (is_odd graph) (nodes graph) ;;
  for_each odd_nodes (odd_row graph odd_nodes) empty.

(** *** write_csv *)

(** A value handed to [writer.writerow]: an int, a string or [None].  The
    formatting of rows as text is the work of [csv.writer] and is not
    modelled: [out] is the list of the rows handed to the writer. *)
Inductive csv_value : Type :=
| CInt (n : Z)
| CStr (s : string)
| CNone.

Definition csv_header : list csv_value :=
  map CStr ["Start Node"; "End Node"; "Segment Length"; "Segment ID";
            "Start Longitude"; "Start Latitude"; "End Longitude";
            "End Latitude"]%string.

(** [d.get(key)] on a node attribute. *)
Definition csv_attr (o : option string) : csv_value :=
  match o with
  | Some s => CStr s
  | None => CNone
  end.

(** The body of the loop up to the row it hands to the writer. *)
Definition csv_row (graph : Graph base_attrs) (uv : vertex * vertex)
  : outcome (list csv_value) :=
  let u := fst uv in
  let v := snd uv in
  gu <- nbrs graph u ;;
  d <- getitem gu v ;;
  let length := weight d in
  gu <- nbrs graph u ;;
  d <- getitem gu v ;;
  let id := b_id d in
  nu <- getitem (node graph) u ;;
  let start_latitude := latitude nu in
  nu <- getitem (node graph) u ;;
  let start_longitude := longitude nu in
  nv <- getitem (node graph) v ;;
  let end_latitude := latitude nv in
  nv <- getitem (node graph) v ;;
  let end_longitude := longitude nv in
  Ok [CInt u; CInt v; CInt length; CStr id;
      csv_attr start_longitude; csv_attr start_latitude;
      csv_attr end_longitude; csv_attr end_latitude].

(** The loop: the rows written before an exception stay written. *)
Fixpoint write_rows (graph : Graph base_attrs) (ps : list (vertex * vertex))
         (out : list (list csv_value))
  : list (list csv_value) * outcome unit :=
  match ps with
  | [] => (out, Ok tt)
  | uv :: ps' =>
      match csv_row graph uv with
      | Ok row => write_rows graph ps' (out ++ [row])
      | Raise e => (out, Raise e)
      | OutOfFuel => (out, OutOfFuel)
      end
  end.

Definition write_csv (graph : Graph base_attrs) (nodes : list vertex)
           (out : list (list csv_value))
  : list (list csv_value) * outcome unit :=
  write_rows graph (pairs nodes false) (out ++ [csv_header]).

(** *** edge_sum *)

Definition edge_sum {G E : Type} `{GraphLike G E} `{HasWeight E} (graph : G)
  : Z :=
  fold_left (fun total e => total + weight (snd e)) (edges_data graph) 0.

(** *** chinese_postman_path *)

Section Pipeline.
(** [nx.max_weight_matching(G, maxcardinality)]: the [mate] dict. *)
Variable max_weight_matching : Graph odd_attrs -> bool -> dict vertex.
(** [list(nx.eulerian_circuit(G))] *)
Variable eulerian_circuit :
  MultiGraph multi_attrs -> outcome (list (vertex * vertex)).

(** [nx.MultiGraph(graph)] copies each data dict. *)
Definition copy_attrs (d : base_attrs) : multi_attrs :=
  mk_multi (b_weight d) (Some (b_id d)).

Definition duplicate_edge (graph : Graph base_attrs)
           (eulerian_graph : MultiGraph multi_attrs) (pq : vertex * vertex)
  : outcome (MultiGraph multi_attrs) :=
  nb <- nbrs graph (fst pq) ;;
  d <- getitem nb (snd pq) ;;
  Ok (madd_edge eulerian_graph (fst pq) (snd pq) (mk_multi (weight d) None)).

Definition duplicate_path (graph : Graph base_attrs) (odd : Graph odd_attrs)
           (eulerian_graph : MultiGraph multi_attrs) (uv : vertex * vertex)
  : outcome (MultiGraph multi_attrs) :=
  if Z.leb (snd uv) (fst uv) then Ok eulerian_graph
  else
    ou <- nbrs odd (fst uv) ;;
    edge <- getitem ou (snd uv) ;;
    let path := o_path edge in
    for_each (pairs path false) (duplicate_edge graph) eulerian_graph.

Definition augment (graph : Graph base_attrs) (odd : Graph odd_attrs)
           (matching : dict vertex) : outcome (MultiGraph multi_attrs) :=
  for_each matching (duplicate_path graph odd)
           (to_multigraph copy_attrs graph).

Definition chinese_postman_path (graph : Graph base_attrs)
  : outcome (MultiGraph multi_attrs * list vertex) :=
  odd <- odd_graph graph ;;
  let matching := max_weight_matching odd true in
  eulerian_graph <- augment graph odd matching ;;
  circuit <- eulerian_circuit eulerian_graph ;;
  let nodes := map fst circuit in
  c0 <- first circuit ;;
  Ok (eulerian_graph, nodes ++ [fst c0]).
End Pipeline.

(** *** Vocabulary of the claims *)

Definition base_eqb (d e : base_attrs) : bool :=
  Z.eqb (b_weight d) (b_weight e) && String.eqb (b_id d) (b_id e).

(** A graph as networkx builds it: [node] and [adj] have the same keys,
    keys are distinct and both directions of an edge hold the same data. *)
Definition well_formed (graph : Graph base_attrs) : bool :=
  list_eqb (nodes graph) (keys (adj graph))
  && wf_adjb (adj graph) base_eqb.

(** Sum of the edge weights along a sequence of vertices. *)
Definition path_weight (graph : Graph base_attrs) (p : list vertex) : Z :=
  fold_right (fun pq acc => edge_weight weight graph (fst pq) (snd pq) + acc)
             0 (pairs p false).

(** The specification's distance: the least weight of a walk from [u] to
    [v], attained by some walk. *)
Definition shortest_distance (graph : Graph base_attrs) (u v : vertex)
           (d : Z) : Prop :=
  (exists p, walk_between (adj graph) u v p /\ path_weight graph p = d)
  /\ forall p, walk_between (adj graph) u v p -> d <= path_weight graph p.

Definition min_weight_path (graph : Graph base_attrs) (u v : vertex)
           (p : list vertex) : Prop :=
  walk_between (adj graph) u v p
  /\ forall p', walk_between (adj graph) u v p' ->
                path_weight graph p <= path_weight graph p'.

(** The vertices of odd degree. *)
Definition odd_degree (graph : Graph base_attrs) (n : vertex) : bool :=
  match get (adj graph) n with
  | Some nb => Nat.odd (degree_of nb n)
  | None => false
  end.

Definition odd_nodes (graph : Graph base_attrs) : list vertex :=
  filter (odd_degree graph) (nodes graph).

Definition non_negative (graph : Graph base_attrs) : Prop :=
  forall u v d, get2 (adj graph) u v = Some d -> 0 <= b_weight d.

Definition positive (graph : Graph base_attrs) : Prop :=
  forall u v d, get2 (adj graph) u v = Some d -> 0 < b_weight d.

End Postman.

(* ------------------------------------------------------------------ *)
(** ** The same code over a store of objects

    The definitions above pass graphs as values.  Python passes references:
    [chinese_postman_path] receives the very object that its caller goes on
    to use, and [nx.MultiGraph(graph)] hands the data dicts of [graph] to
    [MultiGraph.add_edge].  This module runs the code over a store in which
    every dict and every graph instance is an object with an address, so
    that what the call writes, and where, can be stated. *)

Module Store.
Import NX Postman.

Definition loc : Type := nat.

(** Immutable attribute values: [int], [str], and the vertex lists that
    [odd_graph] stores under ['path'] and that no code updates. *)
Inductive scalar : Type :=
| SInt (n : Z)
| SStr (s : string)
| SPath (p : list vertex).

(** Objects.  [Attrs] is an attribute dict ([{'weight': 5, 'id': 'a'}], the
    attributes of a node or of a graph); [Refs] a dict from ints to
    objects ([G.node], [G.adj], [G.adj[u]], the key dict of a
    multigraph); [GraphObj] a graph instance with its attributes
    [graph], [node] and [adj] ([edge] is another name of [adj]). *)
Inductive cell : Type :=
| Attrs (d : list (string * scalar))
| Refs (d : dict loc)
| GraphObj (graph node adj : loc).

(** The store: object [l] is the [l]-th cell; a new object is appended. *)
Definition heap : Type := list cell.

(** A computation reads and writes the store; the store survives an
    exception. *)
Definition M (A : Type) : Type := heap -> heap * outcome A.

Definition ret {A : Type} (a : A) : M A := fun h => (h, Ok a).

Definition raise {A : Type} (e : exn) : M A := fun h => (h, Raise e).

(** A computation that touches no object. *)
Definition lift {A : Type} (o : outcome A) : M A := fun h => (h, o).

Definition bindM {A B : Type} (m : M A) (k : A -> M B) : M B :=
  fun h =>
    match m h with
    | (h1, Ok a) => k a h1
    | (h1, Raise e) => (h1, Raise e)
    | (h1, OutOfFuel) => (h1, OutOfFuel)
    end.

Declare Scope store_scope.
Delimit Scope store_scope with store.
Notation "x <- m ;; k" := (bindM m (fun x => k))
  (at level 61, m at next level, right associativity) : store_scope.
Notation "' p <- m ;; k" := (bindM m (fun x => let p := x in k))
  (at level 61, p pattern, m at next level, right associativity)
  : store_scope.
Notation "m ;; k" := (bindM m (fun _ => k))
  (at level 61, right associativity) : store_scope.
Local Open Scope store_scope.

(** [for x in l: body(x)] *)
Fixpoint for_eachM {A : Type} (l : list A) (body : A -> M unit) : M unit :=
  match l with
  | [] => ret tt
  | x :: l' => body x ;; for_eachM l' body
  end.

(** [try: m except: raise e] *)
Definition reraise {A : Type} (e : exn) (m : M A) : M A :=
  fun h =>
    match m h with
    | (h1, Raise _) => (h1, Raise e)
    | r => r
    end.

(** *** Objects *)

Definition alloc (c : cell) : M loc := fun h => (h ++ [c], Ok (length h)).

(** An address with no object behind it does not occur in Python; reading
    it is reported as a [TypeError], as is an object of another kind than
    the operation expects. *)
Definition read (l : loc) : M cell :=
  fun h => (h, lookup_or TypeError (nth_error h l)).

Fixpoint replace (l : loc) (c : cell) (h : heap) : heap :=
  match h, l with
  | [], _ => []
  | _ :: h', O => c :: h'
  | x :: h', S l' => x :: replace l' c h'
  end.

Definition write (l : loc) (c : cell) : M unit :=
  fun h =>
    if Nat.ltb l (length h) then (replace l c h, Ok tt)
    else (h, Raise TypeError).

Definition attrs (l : loc) : M (list (string * scalar)) :=
  c <- read l ;;
  match c with
  | Attrs d => ret d
  | _ => raise TypeError
  end.

Definition refs (l : loc) : M (dict loc) :=
  c <- read l ;;
  match c with
  | Refs d => ret d
  | _ => raise TypeError
  end.

(** [self.graph], [self.node], [self.adj] *)
Definition obj (self : loc) : M (loc * loc * loc) :=
  c <- read self ;;
  match c with
  | GraphObj gr nd ad => ret (gr, nd, ad)
  | _ => raise TypeError
  end.

(** *** Dicts with string keys *)

Fixpoint sget (d : list (string * scalar)) (k : string) : option scalar :=
  match d with
  | [] => None
  | (k', v) :: d' => if String.eqb k k' then Some v else sget d' k
  end.

Fixpoint sset (d : list (string * scalar)) (k : string) (v : scalar)
  : list (string * scalar) :=
  match d with
  | [] => [(k, v)]
  | (k', v') :: d' =>
      if String.eqb k k' then (k', v) :: d' else (k', v') :: sset d' k v
  end.

Definition supdate (d e : list (string * scalar)) : list (string * scalar) :=
  fold_left (fun acc kv => sset acc (fst kv) (snd kv)) e d.

(** [d[k]] on an attribute dict *)
Definition attr (l : loc) (k : string) : M scalar :=
  d <- attrs l ;; lift (lookup_or KeyError (sget d k)).

(** [d.update(items)]: [d] is written, whatever [items] holds. *)
Definition update_attrs (l : loc) (items : list (string * scalar)) : M unit :=
  d <- attrs l ;; write l (Attrs (supdate d items)).

(** [d.copy()] *)
Definition copy_attrs (l : loc) : M loc :=
  d <- attrs l ;; alloc (Attrs d).

(** [d[k] = v] on a dict of objects *)
Definition set_ref (l : loc) (k : vertex) (v : loc) : M unit :=
  d <- refs l ;; write l (Refs (set d k v)).

(** [d.clear()] *)
Definition clear (l : loc) : M unit :=
  c <- read l ;;
  match c with
  | Attrs _ => write l (Attrs [])
  | Refs _ => write l (Refs [])
  | GraphObj _ _ _ => raise TypeError
  end.

(** *** Graph *)

(** [nx.Graph()] and the part of [nx.MultiGraph(...)] that precedes the
    conversion of the data. *)
Definition new_graph : M loc :=
  gr <- alloc (Attrs []) ;;
  nd <- alloc (Refs []) ;;
  ad <- alloc (Refs []) ;;
  alloc (GraphObj gr nd ad).

(** [self.adj[u]] *)
Definition adj_at (self : loc) (u : vertex) : M loc :=
  '(_, _, ad) <- obj self ;;
  a <- refs ad ;;
  lift (getitem a u).

(** [self.adj[u][v]], also written [self[u][v]] *)
Definition edge_at (self : loc) (u v : vertex) : M loc :=
  au <- adj_at self u ;;
  nb <- refs au ;;
  lift (getitem nb v).

(** [self.adj[u] = {}; self.node[u] = {}] *)
Definition new_node (self : loc) (u : vertex) : M unit :=
  '(_, nd, ad) <- obj self ;;
  e <- alloc (Refs []) ;;
  set_ref ad u e ;;
  n <- alloc (Attrs []) ;;
  set_ref nd u n.

(** [Graph.add_edge(self, u, v, **attr)] *)
Definition add_edge (self : loc) (u v : vertex)
           (attr : list (string * scalar)) : M unit :=
  '(_, nd, _) <- obj self ;;
  ns <- refs nd ;;
  (if mem u ns then ret tt else new_node self u) ;;
  ns <- refs nd ;;
  (if mem v ns then ret tt else new_node self v) ;;
  au <- adj_at self u ;;
  nb <- refs au ;;
  fresh <- alloc (Attrs []) ;;
  let datadict := match get nb v with Some d => d | None => fresh end in
  update_attrs datadict attr ;;
  au <- adj_at self u ;;
  set_ref au v datadict ;;
  av <- adj_at self v ;;
  set_ref av u datadict.

(** [self.nodes()] *)
Definition nodes (self : loc) : M (list vertex) :=
  '(_, nd, _) <- obj self ;;
  ns <- refs nd ;;
  ret (keys ns).

(** [self.degree(n)] *)
Definition degree (self : loc) (n : vertex) : M nat :=
  au <- adj_at self n ;;
  nb <- refs au ;;
  ret (degree_of nb n).

(** The adjacency that the breadth-first routines read: [G.adj] with each
    [G.adj[v]], the data dicts by their addresses. *)
Fixpoint neighbours (a : dict loc) : M (dict (dict loc)) :=
  match a with
  | [] => ret []
  | (n, l) :: a' =>
      nb <- refs l ;;
      rest <- neighbours a' ;;
      ret ((n, nb) :: rest)
  end.

Definition adjacency (self : loc) : M (dict (dict loc)) :=
  '(_, _, ad) <- obj self ;;
  a <- refs ad ;;
  neighbours a.

(** [nx.shortest_path(G, source=u)]; the dict returned is new and only
    read by the caller. *)
Definition shortest_path (self : loc) (source : vertex)
  : M (dict (list vertex)) :=
  a <- adjacency self ;;
  lift (single_source_shortest_path a source).

Definition shortest_path_length (self : loc) (source : vertex)
  : M (dict Z) :=
  a <- adjacency self ;;
  lift (single_source_shortest_path_length a source).

(** *** MultiGraph *)

(** [key = len(keydict); while key in keydict: key += 1] *)
Fixpoint free_key (fuel : nat) (keydict : dict loc) (key : Z) : outcome Z :=
  if mem key keydict then
    match fuel with
    | O => OutOfFuel
    | S fuel' => free_key fuel' keydict (key + 1)
    end
  else Ok key.

(** What [datadict.update(attr_dict)] reads: the keyword arguments, or the
    dict passed as [attr_dict]. *)
Definition given (attr_dict : option loc) (attr : list (string * scalar))
  : M (list (string * scalar)) :=
  match attr_dict with
  | None => ret attr
  | Some l => attrs l
  end.

(** [MultiGraph.add_edge(self, u, v, attr_dict=None, **attr)], with no
    [key].  When [attr_dict] is given the keyword arguments are first
    merged into it: the caller's dict is written. *)
Definition madd_edge (self : loc) (u v : vertex) (attr_dict : option loc)
           (attr : list (string * scalar)) : M unit :=
  match attr_dict with
  | None => ret tt
  | Some l => reraise NetworkXError (update_attrs l attr)
  end ;;
  '(_, _, ad) <- obj self ;;
  a <- refs ad ;;
  (if mem u a then ret tt else new_node self u) ;;
  a <- refs ad ;;
  (if mem v a then ret tt else new_node self v) ;;
  au <- adj_at self u ;;
  nb <- refs au ;;
  match get nb v with
  | Some keydict =>
      kd <- refs keydict ;;
      key <- lift (free_key (length kd) kd (Z.of_nat (length kd))) ;;
      fresh <- alloc (Attrs []) ;;
      let datadict := match get kd key with Some d => d | None => fresh end in
      items <- given attr_dict attr ;;
      update_attrs datadict items ;;
      set_ref keydict key datadict
  | None =>
      datadict <- alloc (Attrs []) ;;
      items <- given attr_dict attr ;;
      update_attrs datadict items ;;
      keydict <- alloc (Refs [(0, datadict)]) ;;
      au <- adj_at self u ;;
      set_ref au v keydict ;;
      av <- adj_at self v ;;
      set_ref av u keydict
  end.

(** [G.add_nodes_from(d)] with no attributes *)
Definition add_node (self : loc) (n : vertex) : M unit :=
  '(_, nd, ad) <- obj self ;;
  ns <- refs nd ;;
  match get ns n with
  | None =>
      e <- alloc (Refs []) ;;
      set_ref ad n e ;;
      a <- alloc (Attrs []) ;;
      set_ref nd n a
  | Some a => update_attrs a []
  end.

(** The two loops of [from_dict_of_dicts] for a multigraph built from a
    graph: [G.add_edge(u, v, attr_dict=data)] unless the pair was seen from
    its other end. *)
Definition convert_edge (self : loc) (u : vertex)
           (seen : list (vertex * vertex)) (vd : vertex * loc)
  : M (list (vertex * vertex)) :=
  if seen_pair (u, fst vd) seen then ret seen
  else madd_edge self u (fst vd) (Some (snd vd)) [] ;;
       ret ((fst vd, u) :: seen).

Fixpoint convert_edges (self : loc) (u : vertex) (nb : dict loc)
         (seen : list (vertex * vertex)) : M (list (vertex * vertex)) :=
  match nb with
  | [] => ret seen
  | vd :: nb' =>
      seen' <- convert_edge self u seen vd ;;
      convert_edges self u nb' seen'
  end.

Fixpoint convert_nodes (self : loc) (d : dict loc)
         (seen : list (vertex * vertex)) : M (list (vertex * vertex)) :=
  match d with
  | [] => ret seen
  | (u, l) :: d' =>
      nb <- refs l ;;
      seen' <- convert_edges self u nb seen ;;
      convert_nodes self d' seen'
  end.

(** [dict((n, dd.copy()) for n, dd in data.node.items())] *)
Fixpoint copy_nodes (d : dict loc) : M (dict loc) :=
  match d with
  | [] => ret []
  | (n, dd) :: d' =>
      c <- copy_attrs dd ;;
      rest <- copy_nodes d' ;;
      ret ((n, c) :: rest)
  end.

(** [nx.MultiGraph(data)] for a [Graph] instance [data]:
    [to_networkx_graph] clears the new graph, fills it from [data.adj],
    then replaces its [graph] and [node] attributes by copies of those of
    [data]; any exception on the way becomes a [NetworkXError]. *)
Definition to_multigraph (data : loc) : M loc :=
  self <- new_graph ;;
  reraise NetworkXError
    ('(dgr, dnd, dad) <- obj data ;;
     '(gr, nd, ad) <- obj self ;;
     clear ad ;; clear nd ;; clear gr ;;
     d <- refs dad ;;
     for_eachM (keys d) (add_node self) ;;
     convert_nodes self d [] ;;
     gr' <- copy_attrs dgr ;;
     dn <- refs dnd ;;
     copies <- copy_nodes dn ;;
     nd' <- alloc (Refs copies) ;;
     write self (GraphObj gr' nd' ad)) ;;
  '(gr, _, _) <- obj self ;;
  update_attrs gr [] ;;
  ret self.

(** *** postman.py *)

Definition is_odd (graph : loc) (n : vertex) : M bool :=
  d <- degree graph n ;; ret (Nat.eqb (Nat.modulo d 2) 1).

Fixpoint filterM {A : Type} (f : A -> M bool) (l : list A) : M (list A) :=
  match l with
  | [] => ret []
  | x :: l' => b <- f x ;; r <- filterM f l' ;; ret (if b then x :: r else r)
  end.

Definition odd_edge (result : loc) (u : vertex) (paths : dict (list vertex))
           (lengths : dict Z) (v : vertex) : M unit :=
  if Z.leb u v then ret tt
  else
    lv <- lift (getitem lengths v) ;;
    pv <- lift (getitem paths v) ;;
    add_edge result u v [("weight"%string, SInt (- lv));
                         ("path"%string, SPath pv)].

Definition odd_row (graph result : loc) (odd_nodes : list vertex)
           (u : vertex) : M unit :=
  paths <- shortest_path graph u ;;
  lengths <- shortest_path_length graph u ;;
  for_eachM odd_nodes (odd_edge result u paths lengths).

Definition odd_graph (graph : loc) : M loc :=
  result <- new_graph ;;
  ns <- nodes graph ;;
  odd_nodes <- filterM (is_odd graph) ns ;;
  for_eachM odd_nodes (odd_row graph result odd_nodes) ;;
  ret result.

Section Pipeline.
(** The two library routines read the graph they are given and return
    new objects: they are functions of the store. *)
Variable max_weight_matching : heap -> loc -> bool -> dict vertex.
Variable eulerian_circuit :
  heap -> loc -> outcome (list (vertex * vertex)).

(** [edge['path']], iterated by [pairs] *)
Definition path_of (edge : loc) : M (list vertex) :=
  p <- attr edge "path" ;;
  match p with
  | SPath path => ret path
  | _ => raise TypeError
  end.

Definition duplicate_edge (graph eulerian_graph : loc)
           (pq : vertex * vertex) : M unit :=
  d <- edge_at graph (fst pq) (snd pq) ;;
  w <- attr d "weight" ;;
  madd_edge eulerian_graph (fst pq) (snd pq) None [("weight"%string, w)].

Definition duplicate_path (graph odd eulerian_graph : loc)
           (uv : vertex * vertex) : M unit :=
  if Z.leb (snd uv) (fst uv) then ret tt
  else
    edge <- edge_at odd (fst uv) (snd uv) ;;
    path <- path_of edge ;;
    for_eachM (pairs path false) (duplicate_edge graph eulerian_graph).

Definition chinese_postman_path (graph : loc) : M (loc * list vertex) :=
  odd <- odd_graph graph ;;
  matching <- (fun h => (h, Ok (max_weight_matching h odd true))) ;;
  eulerian_graph <- to_multigraph graph ;;
  for_eachM matching (duplicate_path graph odd eulerian_graph) ;;
  circuit <- (fun h => (h, eulerian_circuit h eulerian_graph)) ;;
  let nodes := map fst circuit in
  c0 <- lift (first circuit) ;;
  ret (eulerian_graph, nodes ++ [fst c0]).
End Pipeline.

(** *** import_csv_graph, on the rows already split and converted *)

Definition set_attr (l : loc) (k : string) (v : scalar) : M unit :=
  d <- attrs l ;; write l (Attrs (sset d k v)).

(** [graph.node[n][k] = s] *)
Definition set_node_attr (graph : loc) (n : vertex) (k s : string) : M unit :=
  '(_, nd, _) <- obj graph ;;
  ns <- refs nd ;;
  a <- lift (getitem ns n) ;;
  set_attr a k (SStr s).

Definition import_row (graph : loc) (row : list string) : M unit :=
  r0 <- lift (lookup_or IndexError (nth_error row 0)) ;;
  if negb (isdigit r0) then ret tt
  else
    ints <- lift (map_m py_int (firstn 3 row)) ;;
    match ints with
    | [start_node; end_node; length] =>
        match firstn 5 (skipn 3 row) with
        | [id; start_lon; start_lat; end_lon; end_lat] =>
            add_edge graph start_node end_node
                     [("weight"%string, SInt length);
                      ("id"%string, SStr id)] ;;
            set_node_attr graph start_node "longitude" start_lon ;;
            set_node_attr graph start_node "latitude" start_lat ;;
            set_node_attr graph end_node "longitude" end_lon ;;
            set_node_attr graph end_node "latitude" end_lat
        | _ => raise ValueError
        end
    | _ => raise ValueError
    end.

Definition import_step (graph : loc) (r : read_result) : M unit :=
  match r with
  | ReadRow row => import_row graph row
  | ReadError e => raise e
  end.

Definition import_csv_graph (reader : list read_result) : M loc :=
  graph <- new_graph ;;
  for_eachM reader (import_step graph) ;;
  ret graph.

(** *** The graph that an object denotes *)

Definition and_then {A B : Type} (o : option A) (k : A -> option B)
  : option B :=
  match o with
  | Some a => k a
  | None => None
  end.

Fixpoint traverse {A B : Type} (f : A -> option B) (d : dict A)
  : option (dict B) :=
  match d with
  | [] => Some []
  | (k, x) :: d' =>
      and_then (f x) (fun y =>
      and_then (traverse f d') (fun r => Some ((k, y) :: r)))
  end.

Definition view_attrs (h : heap) (l : loc) : option (list (string * scalar)) :=
  match nth_error h l with
  | Some (Attrs d) => Some d
  | _ => None
  end.

Definition view_refs (h : heap) (l : loc) : option (dict loc) :=
  match nth_error h l with
  | Some (Refs d) => Some d
  | _ => None
  end.

Definition decode_string (o : option scalar) : option (option string) :=
  match o with
  | None => Some None
  | Some (SStr s) => Some (Some s)
  | Some _ => None
  end.

Definition decode_node (d : list (string * scalar)) : option node_attrs :=
  and_then (decode_string (sget d "longitude")) (fun lon =>
  and_then (decode_string (sget d "latitude")) (fun lat =>
  Some (mk_node_attrs lon lat))).

Definition decode_base (d : list (string * scalar)) : option base_attrs :=
  match sget d "weight", sget d "id" with
  | Some (SInt w), Some (SStr i) => Some (mk_base w i)
  | _, _ => None
  end.

Definition decode_odd (d : list (string * scalar)) : option odd_attrs :=
  match sget d "weight", sget d "path" with
  | Some (SInt w), Some (SPath p) => Some (mk_odd w p)
  | _, _ => None
  end.

Definition decode_multi (d : list (string * scalar)) : option multi_attrs :=
  match sget d "weight" with
  | Some (SInt w) =>
      and_then (decode_string (sget d "id")) (fun i => Some (mk_multi w i))
  | _ => None
  end.

Section View.
Variable E : Type.
Variable decode : list (string * scalar) -> option E.
Variable h : heap.

Definition view_data (l : loc) : option E :=
  and_then (view_attrs h l) decode.

Definition view_node (l : loc) : option node_attrs :=
  and_then (view_attrs h l) decode_node.

(** The graph value of a [Graph] instance. *)
Definition view_graph (g : loc) : option (Graph E) :=
  match nth_error h g with
  | Some (GraphObj _ nd ad) =>
      and_then (view_refs h nd) (fun ns =>
      and_then (traverse view_node ns) (fun node =>
      and_then (view_refs h ad) (fun a =>
      and_then (traverse (fun l => and_then (view_refs h l)
                                            (traverse view_data)) a)
               (fun adj => Some (mk_graph node adj)))))
  | _ => None
  end.

(** The key dict of a multigraph, as the list of its values. *)
Definition view_keydict (l : loc) : option (list E) :=
  and_then (view_refs h l) (fun kd =>
  and_then (traverse view_data kd) (fun r => Some (values r))).

Definition view_multigraph (g : loc) : option (MultiGraph E) :=
  match nth_error h g with
  | Some (GraphObj _ nd ad) =>
      and_then (view_refs h nd) (fun ns =>
      and_then (traverse view_node ns) (fun node =>
      and_then (view_refs h ad) (fun a =>
      and_then (traverse (fun l => and_then (view_refs h l)
                                            (traverse view_keydict)) a)
               (fun adj => Some (mk_multigraph node adj)))))
  | _ => None
  end.
End View.

End Store.

(* ------------------------------------------------------------------ *)
(** ** Vocabulary of the proofs and example inputs *)

Import NX.
Import Postman.

Definition two_components : Graph base_attrs :=
  add_edge (add_edge empty 1 2 (mk_base 5 "a")) 3 4 (mk_base 7 "b").

Definition k4_and_p5 : Graph base_attrs :=
  fold_left (fun g e => add_edge g (fst e) (snd e) (mk_base 1 "e"))
            [(1, 2); (1, 3); (1, 4); (2, 3); (2, 4); (3, 4);
             (5, 6); (6, 7); (7, 8); (8, 9)]
            empty.

Definition negative_self_loop_row : list string :=
  ["1"; "1"; "-5"; "loop"; "18.4"; "-33.9"; "18.4"; "-33.9"]%string.

Definition shortcut_graph : Graph base_attrs :=
  fold_left (fun g e => add_edge g (fst (fst e)) (snd (fst e))
                                 (mk_base (snd e) "road"))
            [(1, 2, 10); (1, 3, 3); (3, 2, 3); (1, 4, 3); (2, 4, 3)]
            empty.

Definition detour_graph : Graph base_attrs :=
  fold_left (fun g e => add_edge g (fst (fst e)) (snd (fst e))
                                 (mk_base (snd e) "road"))
            [(1, 2, 100); (3, 4, 100); (1, 4, 100); (2, 3, 100);
             (1, 5, 1); (5, 3, 1); (2, 6, 1); (6, 4, 1)]
            empty.

(** [phi] never drops along an edge by more than the weight of the edge. *)
Definition potential (graph : Graph base_attrs) (phi : vertex -> Z) : bool :=
  forallb (fun un =>
             forallb (fun vd => Z.leb (phi (fst un) - phi (fst vd))
                                      (b_weight (snd vd)))
                     (snd un))
          (adj graph).

Definition sum_over {A : Type} (l : list A) (f : A -> Z) : Z :=
  fold_right (fun x acc => f x + acc) 0 l.

(** Indicator of an equality of vertices. *)
Definition ind (x y : vertex) : Z := if Z.eqb x y then 1 else 0.

(** An adjacency seen as a matrix: the value [f] of the entry, 0 where there
    is none. *)
Definition entry {X : Type} (f : X -> Z) (a : dict (dict X)) (u v : vertex)
  : Z :=
  match get2 a u v with
  | Some x => f x
  | None => 0
  end.

(** The sum over the pairs of [K] that [edges] reports: each unordered pair
    once, from its first endpoint. *)
Fixpoint upper (M : vertex -> vertex -> Z) (K : list vertex) : Z :=
  match K with
  | [] => 0
  | u :: K' => sum_over K (M u) + upper M K'
  end.

(** What [edges] sums, with [seen] as in the library. *)
Fixpoint seen_sum {X : Type} (f : X -> Z) (seen : list vertex)
         (a : dict (dict X)) : Z :=
  match a with
  | [] => 0
  | (n, nb) :: a' =>
      sum_over (filter (fun vx => negb (memZ (fst vx) seen)) nb)
               (fun vx => f (snd vx))
      + seen_sum f (n :: seen) a'
  end.

(** The degree of [n] in the matrix of multiplicities. *)
Definition degree_sum (M : vertex -> vertex -> Z) (K : list vertex)
           (n : vertex) : Z :=
  sum_over K (M n) + M n n.

(** Multiplicity and weight of the entries of the two kinds of graph. *)
Definition one {E : Type} (_ : E) : Z := 1.

Definition count {E : Type} (kd : list E) : Z := Z.of_nat (length kd).

Definition total_weight {E : Type} `{HasWeight E} (kd : list E) : Z :=
  sum_over kd weight.

Definition swap (uv : vertex * vertex) : vertex * vertex := (snd uv, fst uv).

(** The key dict of [(u, v)] after one more edge. *)
Definition extended {E : Type} (g : MultiGraph E) (u v : vertex) (d : E)
  : list E :=
  match get2 (madj g) u v with
  | Some kd => kd ++ [d]
  | None => [d]
  end.

Definition same_edge (u v x y : vertex) : bool :=
  (Z.eqb x u && Z.eqb y v) || (Z.eqb x v && Z.eqb y u).

(** The entries of an adjacency in the order of the double loop. *)
Definition flat {X : Type} (a : dict (dict X)) : list (vertex * vertex * X) :=
  flat_map (fun un => map (fun vd => (fst un, fst vd, snd vd)) (snd un)) a.

Definition convert_step {E E' : Type} (conv : E -> E')
           (st : MultiGraph E' * list (vertex * vertex))
           (e : vertex * vertex * E) : MultiGraph E' * list (vertex * vertex) :=
  convert_edge conv (fst (fst e)) st (snd (fst e), snd e).

(** The key dict that the copy holds for [(x, y)]. *)
Definition copied {E E' : Type} (conv : E -> E') (a : dict (dict E))
           (x y : vertex) : option (list E') :=
  match get2 a x y with
  | Some d => Some [conv d]
  | None => None
  end.

(** How often [n] is an endpoint of the edges [es]. *)
Definition endpoints (n : vertex) (es : list (vertex * vertex)) : Z :=
  sum_over es (fun pq => ind n (fst pq) + ind n (snd pq)).

(** Weight of the path that [odd_graph] attached to the pair [uv]. *)
Definition pair_cost (graph : Graph base_attrs) (og : Graph odd_attrs)
           (uv : vertex * vertex) : Z :=
  match get2 (adj og) (fst uv) (snd uv) with
  | Some e => path_weight graph (o_path e)
  | None => 0
  end.

(** An exhaustive matcher: the best of all matchings, first by cardinality
    and then by weight, as a [mate] dict. *)
Definition better_matching (G : Graph odd_attrs)
           (best M : list (vertex * vertex)) : bool :=
  Nat.ltb (length best) (length M)
  || (Nat.eqb (length best) (length M)
      && Z.ltb (matching_weight weight G best) (matching_weight weight G M)).

Definition best_matching (G : Graph odd_attrs) : list (vertex * vertex) :=
  fold_left (fun best M => if better_matching G best M then M else best)
            (all_matchings G) [].

Definition exhaustive_matching (G : Graph odd_attrs) (maxcardinality : bool)
  : dict vertex :=
  fold_left (fun mate uv => set (set mate (fst uv) (snd uv)) (snd uv) (fst uv))
            (best_matching G) [].

Fixpoint first_some {A B : Type} (f : A -> option B) (l : list A) : option B :=
  match l with
  | [] => None
  | x :: l' =>
      match f x with
      | Some y => Some y
      | None => first_some f l'
      end
  end.

Fixpoint remove_one (e : vertex * vertex) (l : list (vertex * vertex))
  : list (vertex * vertex) :=
  match l with
  | [] => []
  | x :: l' =>
      if (Z.eqb (fst x) (fst e) && Z.eqb (snd x) (snd e))%bool then l'
      else x :: remove_one e l'
  end.

(** A closed trail from [cur] back to [start] through all of [remaining],
    found by trying every edge at [cur]. *)
Fixpoint closed_trail (fuel : nat) (start cur : vertex)
         (remaining : list (vertex * vertex))
  : option (list (vertex * vertex)) :=
  match remaining with
  | [] => if Z.eqb cur start then Some [] else None
  | _ :: _ =>
      match fuel with
      | O => None
      | S fuel' =>
          first_some
            (fun e =>
               if Z.eqb (fst e) cur then
                 option_map (cons (cur, snd e))
                            (closed_trail fuel' start (snd e)
                                          (remove_one e remaining))
               else if Z.eqb (snd e) cur then
                 option_map (cons (cur, fst e))
                            (closed_trail fuel' start (fst e)
                                          (remove_one e remaining))
               else None)
            remaining
      end
  end.

(** An exhaustive [eulerian_circuit]. *)
Definition search_circuit (G : MultiGraph multi_attrs)
  : outcome (list (vertex * vertex)) :=
  eulerian <- is_eulerian G ;;
  if eulerian then
    match mnodes G with
    | [] => Raise NetworkXPointlessConcept
    | n0 :: _ =>
        match closed_trail (length (edge_pairs G)) n0 n0 (edge_pairs G) with
        | Some c => Ok c
        | None => Raise NetworkXError
        end
    end
  else Raise NetworkXError.

Definition single_edge : Graph base_attrs :=
  add_edge empty 1 2 (mk_base 5 "road").

Definition square : Graph base_attrs :=
  fold_left (fun g e => add_edge g (fst e) (snd e) (mk_base 1 "road"))
            [(1, 2); (2, 3); (3, 4); (4, 1)] empty.

Definition zero_edge : Graph base_attrs :=
  add_edge empty 1 2 (mk_base 0 "road").

Definition route (graph : Graph base_attrs) : outcome (Z * Z * list vertex) :=
  r <- chinese_postman_path exhaustive_matching search_circuit graph ;;
  Ok (edge_sum graph, edge_sum (fst r), snd r).

Definition single_vertex (n : vertex) (a : node_attrs) : Graph base_attrs :=
  mk_graph [(n, a)] [(n, [])].

(** Weighted distance from [x] to [t] in [detour_graph], for the odd
    vertices [t] = 1, 2, 3, 4. *)
Definition detour_distance (t x : vertex) : Z :=
  let near := if Z.odd t then 5 else 6 in
  let far := if Z.odd t then 6 else 5 in
  let opposite := if Z.leb t 2 then t + 2 else t - 2 in
  if Z.eqb x t then 0
  else if Z.eqb x near then 1
  else if Z.eqb x opposite then 2
  else if Z.eqb x far then 101
  else 100.

(** The pairs of odd vertices of [detour_graph] joined by one long road. *)
Definition long_pairs : list (vertex * vertex) :=
  [(1, 2); (2, 1); (3, 4); (4, 3); (1, 4); (4, 1); (2, 3); (3, 2)].

(** A cell of the part of the store that the call has allocated refers to
    that part only, [n0] being the first new address. *)
Definition closed_cell (n0 : nat) (c : Store.cell) : Prop :=
  match c with
  | Store.Attrs _ => True
  | Store.Refs d => forall k l, In (k, l) d -> (n0 <= l)%nat
  | Store.GraphObj gr nd ad => (n0 <= gr /\ n0 <= nd /\ n0 <= ad)%nat
  end.

(** The store [h] reached from [h0]: the objects of [h0] are as they
    were, and the new objects refer to new objects. *)
Definition framed (h0 h : Store.heap) : Prop :=
  (forall l, (l < length h0)%nat -> nth_error h l = nth_error h0 l)
  /\ (length h0 <= length h)%nat
  /\ (forall l c, (length h0 <= l)%nat -> nth_error h l = Some c ->
                  closed_cell (length h0) c).

(** [m] keeps [framed], and its result satisfies [Q]. *)
Definition triple (h0 : Store.heap) {A : Type} (m : Store.M A)
           (Q : A -> Prop) : Prop :=
  forall h, framed h0 h ->
            framed h0 (fst (m h)) /\ forall a, snd (m h) = Ok a -> Q a.

Definition anything {A : Type} (_ : A) : Prop := True.

Definition is_new (h0 : Store.heap) (l : Store.loc) : Prop :=
  (length h0 <= l)%nat.

Definition all_new (h0 : Store.heap) (d : dict Store.loc) : Prop :=
  forall k l, In (k, l) d -> is_new h0 l.

(** Every object of [h] is an object of [h'], with the same content. *)
Definition extends (h h' : Store.heap) : Prop :=
  forall l c, nth_error h l = Some c -> nth_error h' l = Some c.

(** The two library routines over the store: the exhaustive matcher and the
    circuit search, on the graphs that the objects denote. *)
Definition store_matching (h : Store.heap) (odd : Store.loc)
           (maxcardinality : bool) : dict vertex :=
  match Store.view_graph Store.decode_odd h odd with
  | Some og => exhaustive_matching og maxcardinality
  | None => []
  end.

Definition store_circuit (h : Store.heap) (eulerian_graph : Store.loc)
  : outcome (list (vertex * vertex)) :=
  match Store.view_multigraph Store.decode_multi h eulerian_graph with
  | Some eg => search_circuit eg
  | None => Raise TypeError
  end.

(** The rows of [shortcut_graph], as [csv.reader] yields them. *)
Definition shortcut_rows : list (list string) :=
  [["Start"; "End"; "Length"; "Name"; "Lon"; "Lat"; "Lon"; "Lat"];
   ["1"; "2"; "10"; "road"; "18.1"; "-33.1"; "18.2"; "-33.2"];
   ["1"; "3"; "3"; "road"; "18.1"; "-33.1"; "18.3"; "-33.3"];
   ["3"; "2"; "3"; "road"; "18.3"; "-33.3"; "18.2"; "-33.2"];
   ["1"; "4"; "3"; "road"; "18.1"; "-33.1"; "18.4"; "-33.4"];
   ["2"; "4"; "3"; "road"; "18.2"; "-33.2"; "18.4"; "-33.4"]]%string.

(** The store after [import_csv_graph] has run in an empty one; the graph
    instance is the fourth object created. *)
Definition shortcut_store : Store.heap :=
  fst (Store.import_csv_graph (map ReadRow shortcut_rows) []).

Definition shortcut_object : Store.loc := 3%nat.

(** The star of C2: centre 1, leaves 2, 3 and 4 at distances 2, 3 and 4. *)
Definition star : Graph base_attrs :=
  fold_left (fun g e => add_edge g 1 (fst e) (mk_base (snd e) "road"))
            [(2, 2); (3, 3); (4, 4)] empty.

(** The [mate] dict of the two pairs [(a, b)] and [(c, d)]. *)
Definition two_pairs (a b c d : vertex) : dict vertex :=
  [(a, b); (b, a); (c, d); (d, c)].

(** The value of a string of decimal digits, most significant first. *)
Fixpoint decimal (s : string) (acc : Z) : Z :=
  match s with
  | String c s' => decimal s' (10 * acc + Z.of_nat (nat_of_ascii c) - 48)
  | EmptyString => acc
  end.

(** What the graph holds and the adjacency satisfies after each row. *)
Definition sound {E : Type} (g : Graph E) : Prop :=
  keys (node g) = keys (adj g) /\ wf_adj (adj g).

(** The node attributes after the four assignments of a row. *)
Definition located (n : vertex) (lon lat : string)
           (nd : dict node_attrs) : dict node_attrs :=
  match get nd n with
  | Some a =>
      let nd1 := set nd n (mk_node_attrs (Some lon) (latitude a)) in
      set nd1 n (mk_node_attrs (Some lon) (Some lat))
  | None => nd
  end.

(** The adjacency induced on the vertices [P]. *)
Definition induced {X : Type} (a : dict (dict X)) (P : list vertex)
           (x y : vertex) : option X :=
  if memZ x P && memZ y P then get2 a x y else None.

(** The entries after [subgraph] has linked [n] with the neighbours [nb]
    that are already in [h]. *)
Definition linked {X : Type} (n : vertex) (nb : dict X) (h : dict (dict X))
           (x y : vertex) : option X :=
  if Z.eqb x n && mem y h && mem y nb then get nb y
  else if Z.eqb y n && mem x h && mem x nb then get nb x
  else get2 h x y.

(** Every inner dict has distinct keys. *)
Definition inner_distinct {X : Type} (h : dict (dict X)) : Prop :=
  forall u hb, get h u = Some hb -> NoDup (keys hb).

(** [c] lists, once each, the vertices that can be reached from one of
    them. *)
Definition is_component {X : Type} (a : dict (dict X)) (c : list vertex)
  : Prop :=
  NoDup c
  /\ exists v, mem v a = true /\ forall x, In x c <-> reachable a v x.

(** A walk from [u] to [v] with [n] edges. *)
Definition walk_of_length {X : Type} (a : dict (dict X)) (u v : vertex)
           (n : nat) : Prop :=
  exists p, walk_between a u v p /\ length p = S n.

(** [n] is the least number of edges of a walk from [u] to [v]. *)
Definition hop_distance {X : Type} (a : dict (dict X)) (u v : vertex)
           (n : nat) : Prop :=
  walk_of_length a u v n /\ forall m, walk_of_length a u v m -> (n <= m)%nat.

(** What [odd_graph] stores for the odd vertices [u > v]: the negated
    number of edges of a shortest walk by hops, and such a walk. *)
Definition hop_edge (graph : Graph base_attrs) (u v : vertex)
           (d : odd_attrs) : Prop :=
  exists k,
    o_weight d = - Z.of_nat k
    /\ hop_distance (adj graph) u v k
    /\ walk_between (adj graph) u v (o_path d)
    /\ length (o_path d) = S k.

(** [G] is [graph] with duplicates: between two vertices [G] has edges
    exactly when [graph] has one, and these are the copy of that edge
    followed by some number of edges of the same weight and no [id]. *)
Definition follows (graph : Graph base_attrs) (G : MultiGraph multi_attrs)
  : Prop :=
  forall x y,
    match get2 (madj G) x y with
    | Some kd =>
        exists b n,
          get2 (adj graph) x y = Some b
          /\ kd = copy_attrs b :: repeat (mk_multi (b_weight b) None) n
    | None => get2 (adj graph) x y = None
    end.

(** [row] is the row of the step [uv]: the two vertices, the weight and
    the id of the edge of [graph] between them, and their positions. *)
Definition csv_row_of (graph : Graph base_attrs) (uv : vertex * vertex)
           (row : list csv_value) : Prop :=
  exists b nu nv,
    get2 (adj graph) (fst uv) (snd uv) = Some b
    /\ get (node graph) (fst uv) = Some nu
    /\ get (node graph) (snd uv) = Some nv
    /\ row = [CInt (fst uv); CInt (snd uv); CInt (b_weight b); CStr (b_id b);
              csv_attr (longitude nu); csv_attr (latitude nu);
              csv_attr (longitude nv); csv_attr (latitude nv)].

(** The [Segment Length] field of a row. *)
Definition segment_length (row : list csv_value) : Z :=
  match nth_error row 2 with
  | Some (CInt n) => n
  | _ => 0
  end.

(** Every vertex is an endpoint of an edge. *)
Definition no_isolated {E : Type} (g : Graph E) : Prop :=
  forall n, In n (keys (adj g)) -> exists v, adjacent (adj g) n v = true.

(** The steps that one turn of the loop over the matching duplicates: the
    consecutive pairs of the path stored for [uv], when [u < v]. *)
Definition steps_of (og : Graph odd_attrs) (uv : vertex * vertex)
  : list (vertex * vertex) :=
  if Z.leb (snd uv) (fst uv) then []
  else match get2 (adj og) (fst uv) (snd uv) with
       | Some e => pairs (o_path e) false
       | None => []
       end.

Definition duplicated_steps (og : Graph odd_attrs) (mate : dict vertex)
  : list (vertex * vertex) :=
  flat_map (steps_of og) mate.

(** How many of the steps [es] run between [x] and [y], in either
    direction. *)
Definition crossings (x y : vertex) (es : list (vertex * vertex)) : nat :=
  length (filter (fun pq => same_edge (fst pq) (snd pq) x y) es).

(** [G] is [graph] with one duplicate for each of the steps [es]: on an
    edge of [graph], the copy of the edge followed by as many edges of its
    weight and without [id] as steps run along it; no edge elsewhere. *)
Definition duplicates (graph : Graph base_attrs)
           (G : MultiGraph multi_attrs) (es : list (vertex * vertex))
  : Prop :=
  forall x y,
    match get2 (madj G) x y with
    | Some kd =>
        exists b,
          get2 (adj graph) x y = Some b
          /\ kd = copy_attrs b
                  :: repeat (mk_multi (b_weight b) None) (crossings x y es)
    | None => get2 (adj graph) x y = None
    end.

(* ================================================================== *)
(** * Properties *)

(** ** The error monad *)

Lemma bind_Ok_inv {A B : Type} (m : outcome A) (k : A -> outcome B) (b : B) :
  bind m k = Ok b -> exists a, m = Ok a /\ k a = Ok b.
Proof.
  destruct m as [a| |]; simpl; intros H; try discriminate.
  exists a; split; [reflexivity | exact H].
Qed.

Lemma for_each_app {A S : Type} (body : S -> A -> outcome S) (l1 l2 : list A)
      (s : S) :
  for_each (l1 ++ l2) body s = bind (for_each l1 body s) (for_each l2 body).
Proof.
  revert s; induction l1 as [|x l1 IH]; intros s; simpl; [reflexivity|].
  destruct (body s x); simpl; auto.
Qed.

(** A loop whose body keeps an invariant and never fails, succeeds. *)
Lemma for_each_invariant {A S : Type} (P : S -> Prop) (Q : A -> Prop)
      (body : S -> A -> outcome S) (l : list A) (s : S) :
  P s -> Forall Q l ->
  (forall s x, P s -> Q x -> exists s', body s x = Ok s' /\ P s') ->
  exists s', for_each l body s = Ok s' /\ P s'.
Proof.
  intros Hs Hl Hbody; revert s Hs.
  induction Hl as [|x l Hx Hl IH]; intros s Hs; simpl.
  - exists s; split; [reflexivity | exact Hs].
  - destruct (Hbody s x Hs Hx) as [s1 [E1 P1]]; rewrite E1; simpl.
    apply IH; exact P1.
Qed.

(** ** Dicts *)

Lemma memZ_In (x : Z) (l : list Z) : memZ x l = true <-> In x l.
Proof.
  unfold memZ; rewrite existsb_exists; split.
  - intros [y [Hy E]]; apply Z.eqb_eq in E; subst; exact Hy.
  - intros H; exists x; split; [exact H | apply Z.eqb_refl].
Qed.

Lemma memZ_false (x : Z) (l : list Z) : memZ x l = false <-> ~ In x l.
Proof.
  rewrite <- memZ_In; destruct (memZ x l); split; intros; congruence.
Qed.

Lemma nodupb_NoDup (l : list Z) : nodupb l = true <-> NoDup l.
Proof.
  induction l as [|x l IH]; simpl.
  - split; [constructor | reflexivity].
  - rewrite andb_true_iff, negb_true_iff, memZ_false, IH; split.
    + intros [H1 H2]; constructor; assumption.
    + intros H; inversion H; subst; split; assumption.
Qed.

Lemma list_eqb_eq (l1 l2 : list Z) : list_eqb l1 l2 = true <-> l1 = l2.
Proof.
  revert l2; induction l1 as [|x l1 IH]; intros [|y l2]; simpl;
    try (split; [reflexivity || discriminate | reflexivity || discriminate]).
  rewrite andb_true_iff, Z.eqb_eq, IH; split.
  - intros [-> ->]; reflexivity.
  - intros H; inversion H; auto.
Qed.

Section DictFacts.
Variable V : Type.
Implicit Types d : dict V.

Lemma get_Some_In d k v : get d k = Some v -> In (k, v) d.
Proof.
  induction d as [|[k' v'] d IH]; simpl; [discriminate|].
  destruct (Z.eqb_spec k k') as [->|Hne].
  - intros H; inversion H; left; reflexivity.
  - intros H; right; auto.
Qed.

Lemma get_Some_keys d k v : get d k = Some v -> In k (keys d).
Proof.
  intros H; apply get_Some_In in H.
  unfold keys; apply in_map_iff; exists (k, v); auto.
Qed.

Lemma get_None_keys d k : get d k = None <-> ~ In k (keys d).
Proof.
  induction d as [|[k' v'] d IH]; simpl.
  - tauto.
  - destruct (Z.eqb_spec k k') as [->|Hne].
    + split; [discriminate | intros H; exfalso; apply H; auto].
    + rewrite IH; split; intros H; [intros [E|E]; [congruence | auto] | auto].
Qed.

Lemma mem_keys k d : mem k d = true <-> In k (keys d).
Proof.
  unfold mem; destruct (get d k) eqn:E.
  - split; [intros _; eapply get_Some_keys; eauto | reflexivity].
  - split; [discriminate | intros H; apply get_None_keys in E; tauto].
Qed.

Lemma mem_false_keys k d : mem k d = false <-> ~ In k (keys d).
Proof.
  rewrite <- mem_keys; destruct (mem k d); split; intros; congruence.
Qed.

Lemma mem_get k d : mem k d = true <-> exists v, get d k = Some v.
Proof.
  unfold mem; destruct (get d k) as [v|]; split; try discriminate; eauto.
  intros [v H]; discriminate.
Qed.

Lemma In_get d k v : NoDup (keys d) -> In (k, v) d -> get d k = Some v.
Proof.
  induction d as [|[k' v'] d IH]; simpl; [tauto|].
  intros Hnd [E|Hin]; inversion Hnd; subst.
  - inversion E; subst; rewrite Z.eqb_refl; reflexivity.
  - destruct (Z.eqb_spec k k') as [->|Hne]; [|auto].
    exfalso; apply H1; unfold keys; apply in_map_iff; exists (k', v); auto.
Qed.

Lemma get_set_eq d k v : get (set d k v) k = Some v.
Proof.
  induction d as [|[k' v'] d IH]; simpl.
  - rewrite Z.eqb_refl; reflexivity.
  - destruct (Z.eqb_spec k k') as [->|Hne]; simpl.
    + rewrite Z.eqb_refl; reflexivity.
    + destruct (Z.eqb_spec k k'); [contradiction | exact IH].
Qed.

Lemma get_set_neq d k k' v : k' <> k -> get (set d k v) k' = get d k'.
Proof.
  intros Hne; induction d as [|[k0 v0] d IH]; simpl.
  - destruct (Z.eqb_spec k' k); [contradiction | reflexivity].
  - destruct (Z.eqb_spec k k0) as [->|Hk]; simpl.
    + destruct (Z.eqb_spec k' k0); [contradiction | reflexivity].
    + destruct (Z.eqb_spec k' k0); [reflexivity | exact IH].
Qed.

Lemma get_set d k k' v :
  get (set d k v) k' = if Z.eqb k' k then Some v else get d k'.
Proof.
  destruct (Z.eqb_spec k' k) as [->|Hne];
    [apply get_set_eq | apply get_set_neq; exact Hne].
Qed.

Lemma mem_set d k k' v :
  mem k' (set d k v) = (Z.eqb k' k || mem k' d)%bool.
Proof.
  unfold mem; rewrite get_set; destruct (Z.eqb k' k); reflexivity.
Qed.

Lemma keys_set_mem d k v : mem k d = true -> keys (set d k v) = keys d.
Proof.
  unfold mem; induction d as [|[k' v'] d IH]; simpl; [discriminate|].
  destruct (Z.eqb_spec k k') as [->|Hne]; simpl; [reflexivity|].
  intros H; rewrite IH; auto.
Qed.

Lemma keys_set_new d k v : mem k d = false -> keys (set d k v) = keys d ++ [k].
Proof.
  unfold mem; induction d as [|[k' v'] d IH]; simpl; [reflexivity|].
  destruct (Z.eqb_spec k k') as [->|Hne]; simpl; [discriminate|].
  intros H; rewrite IH; auto.
Qed.

Lemma keys_set d k v :
  keys (set d k v) = if mem k d then keys d else keys d ++ [k].
Proof.
  destruct (mem k d) eqn:E; [apply keys_set_mem | apply keys_set_new]; exact E.
Qed.

Lemma In_keys_set d k v x : In x (keys (set d k v)) <-> x = k \/ In x (keys d).
Proof.
  rewrite keys_set; destruct (mem k d) eqn:E.
  - apply mem_keys in E; split; [auto | intros [->|H]; auto].
  - rewrite in_app_iff; simpl; split; [intros [H|[H|[]]] | intros [H|H]]; auto.
Qed.

Lemma NoDup_keys_set d k v : NoDup (keys d) -> NoDup (keys (set d k v)).
Proof.
  intros H; rewrite keys_set; destruct (mem k d) eqn:E; [exact H|].
  apply mem_false_keys in E.
  apply NoDup_app; [exact H | constructor; [simpl; tauto | constructor] |].
  intros x Hx [<-|[]]; auto.
Qed.

Lemma length_set d k v :
  length (set d k v) = if mem k d then length d else S (length d).
Proof.
  pose proof (keys_set d k v) as H; apply (f_equal (@length _)) in H.
  unfold keys in H; rewrite length_map in H; rewrite H.
  destruct (mem k d); [apply length_map|].
  rewrite length_app, length_map; simpl; lia.
Qed.
End DictFacts.

(** ** Walks *)

Lemma last_indep {A : Type} (p : list A) (d d' : A) :
  p <> [] -> last p d = last p d'.
Proof.
  induction p as [|x p IH]; [congruence|].
  intros _; destruct p as [|y p]; [reflexivity|].
  change (last (y :: p) d = last (y :: p) d'); apply IH; discriminate.
Qed.

Lemma last_cons {A : Type} (x : A) (p : list A) (d : A) :
  last (x :: p) d = last p x.
Proof.
  destruct p as [|y p]; [reflexivity|].
  change (last (y :: p) d = last (y :: p) x); apply last_indep; discriminate.
Qed.

Section WalkFacts.
Variable X : Type.
Variable a : dict (dict X).

Lemma adjacent_iff u v :
  adjacent a u v = true <-> exists nb, get a u = Some nb /\ In v (keys nb).
Proof.
  unfold adjacent, get2; destruct (get a u) as [nb|].
  - destruct (get nb v) eqn:E; split.
    + intros _; exists nb; split; [reflexivity | eapply get_Some_keys; eauto].
    + reflexivity.
    + discriminate.
    + intros [nb' [H1 H2]]; inversion H1; subst.
      apply get_None_keys in E; contradiction.
  - split; [discriminate | intros [nb [H _]]; discriminate].
Qed.

Lemma adjacent_mem u v : adjacent a u v = true -> mem u a = true.
Proof.
  intros H; apply adjacent_iff in H; destruct H as [nb [H _]].
  apply mem_get; eauto.
Qed.

Lemma is_walk_cons u v p :
  is_walk a (u :: v :: p) = (adjacent a u v && is_walk a (v :: p))%bool.
Proof. reflexivity. Qed.

Lemma is_walk_app p q x :
  is_walk a (p ++ [x]) = true -> is_walk a (x :: q) = true ->
  is_walk a (p ++ x :: q) = true.
Proof.
  induction p as [|y p IH]; intros H1 H2; [exact H2|].
  destruct p as [|z p].
  - simpl app in *. rewrite is_walk_cons in *.
    apply andb_true_iff in H1; destruct H1 as [H1 _]; rewrite H1; exact H2.
  - change ((y :: z :: p) ++ x :: q) with (y :: z :: (p ++ x :: q)).
    change ((y :: z :: p) ++ [x]) with (y :: z :: (p ++ [x])) in H1.
    rewrite is_walk_cons in *.
    apply andb_true_iff in H1; destruct H1 as [H1 H3]; rewrite H1.
    apply (IH H3 H2).
Qed.

Lemma is_walk_snoc p v w :
  is_walk a (p ++ [v]) = true -> adjacent a v w = true ->
  is_walk a ((p ++ [v]) ++ [w]) = true.
Proof.
  intros H1 H2; rewrite <- app_assoc; apply is_walk_app; [exact H1|].
  simpl; rewrite H2; reflexivity.
Qed.

Lemma walk_between_inv u v p :
  walk_between a u v p ->
  exists q, p = u :: q /\ last q u = v /\ mem u a = true
            /\ is_walk a (u :: q) = true.
Proof.
  intros [Hh [Hl [Hm Hw]]]; destruct p as [|x q]; [discriminate|].
  inversion Hh; subst x; exists q; rewrite last_cons in Hl; auto.
Qed.

Lemma walk_between_intro u v q :
  last q u = v -> mem u a = true -> is_walk a (u :: q) = true ->
  walk_between a u v (u :: q).
Proof.
  intros Hl Hm Hw; repeat split; auto; rewrite last_cons; exact Hl.
Qed.

Lemma reachable_refl u : mem u a = true -> reachable a u u.
Proof. intros H; exists [u]; apply walk_between_intro; auto. Qed.

Lemma walk_between_snoc u v w p :
  walk_between a u v p -> adjacent a v w = true ->
  walk_between a u w (p ++ [w]).
Proof.
  intros H Ha; apply walk_between_inv in H.
  destruct H as [q [-> [Hl [Hm Hw]]]].
  change ((u :: q) ++ [w]) with (u :: (q ++ [w])).
  apply walk_between_intro; auto; [apply last_last|].
  destruct (exists_last (l := u :: q)) as [p' [z E]]; [discriminate|].
  assert (z = v).
  { rewrite <- Hl, <- (last_cons u q u), E; symmetry; apply last_last. }
  subst z. change (u :: q ++ [w]) with ((u :: q) ++ [w]).
  rewrite E in *; apply is_walk_snoc; auto.
Qed.

Lemma reachable_step u v w :
  reachable a u v -> adjacent a v w = true -> reachable a u w.
Proof.
  intros [p H] Ha; exists (p ++ [w]); eapply walk_between_snoc; eauto.
Qed.

(** A set of nodes that holds [u] and is closed under adjacency holds all
    that [u] reaches. *)
Lemma reachable_closed (S : vertex -> Prop) u v :
  S u -> (forall x y, S x -> adjacent a x y = true -> S y) ->
  reachable a u v -> S v.
Proof.
  intros Hu Hcl [p H]; apply walk_between_inv in H.
  destruct H as [q [-> [Hl [_ Hw]]]].
  revert u Hu Hl Hw; induction q as [|x q IH]; intros u Hu Hl Hw.
  - simpl in Hl; subst; exact Hu.
  - rewrite is_walk_cons in Hw; apply andb_true_iff in Hw.
    destruct Hw as [H1 H2]; rewrite last_cons in Hl.
    apply (IH x); eauto.
Qed.

Lemma reachable_mem_l u v : reachable a u v -> mem u a = true.
Proof. intros [p [_ [_ [H _]]]]; exact H. Qed.

Lemma reachable_trans u v w :
  reachable a u v -> reachable a v w -> reachable a u w.
Proof.
  intros Huv Hvw.
  apply (reachable_closed (fun x => reachable a u x) (u := v)); auto.
  intros x y Hx Hxy; eapply reachable_step; eauto.
Qed.

Hypothesis Hclosed : closed_adj a.

Lemma reachable_mem_r u v : reachable a u v -> mem v a = true.
Proof.
  intros H.
  apply (reachable_closed (fun x => mem x a = true) (u := u)); auto.
  - eapply reachable_mem_l; eauto.
  - intros x y _ Hxy; eapply Hclosed; eauto.
Qed.

Hypothesis Hsym : forall u v, adjacent a u v = adjacent a v u.

Lemma reachable_sym u v : reachable a u v -> reachable a v u.
Proof.
  intros H.
  apply (reachable_closed (fun x => reachable a x u) (u := u)); auto.
  - apply reachable_refl; eapply reachable_mem_l; eauto.
  - intros x y Hx Hxy.
    apply reachable_trans with (v := x); auto.
    apply reachable_step with (v := y).
    + apply reachable_refl; eapply Hclosed; eauto.
    + rewrite Hsym; exact Hxy.
Qed.
End WalkFacts.

(** ** Breadth-first search: the hop counts *)

Lemma In_add_key (l : list vertex) (k x : vertex) :
  In x (add_key l k) <-> In x l \/ x = k.
Proof.
  unfold add_key; destruct (memZ k l) eqn:E.
  - apply memZ_In in E; split; [auto | intros [H| ->]; auto].
  - rewrite in_app_iff; simpl; split; [intros [H|[H|[]]] | intros [H|H]]; auto.
Qed.

Lemma In_add_keys (ks l : list vertex) (x : vertex) :
  In x (add_keys l ks) <-> In x l \/ In x ks.
Proof.
  unfold add_keys; revert l; induction ks as [|k ks IH]; intros l; simpl.
  - tauto.
  - rewrite IH, In_add_key; split; [intros [[H|H]|H] | intros [H|[H|H]]]; auto.
Qed.

Lemma NoDup_add_key (l : list vertex) (k : vertex) :
  NoDup l -> NoDup (add_key l k).
Proof.
  intros H; unfold add_key; destruct (memZ k l) eqn:E; [exact H|].
  apply memZ_false in E; apply NoDup_app; auto.
  - constructor; [simpl; tauto | constructor].
  - intros x Hx [<-|[]]; auto.
Qed.

Lemma NoDup_incl_le (l l' : list vertex) :
  NoDup l -> incl l l' -> (length l <= length l')%nat.
Proof. apply NoDup_incl_length. Qed.

Section BFSLength.
Variable X : Type.
Variable a : dict (dict X).
Hypothesis Hclosed : closed_adj a.

Lemma visit_loop (level : Z) (l : list vertex) :
  Forall (fun v => mem v a = true) l ->
  forall (seen : dict Z) (next : list vertex),
  exists seen' next',
    for_each l (visit a level) (seen, next) = Ok (seen', next')
    /\ (forall x, In x (keys seen') <-> In x (keys seen) \/ In x l)
    /\ (forall w, In w next' <->
                  In w next
                  \/ exists v, In v l /\ ~ In v (keys seen)
                               /\ adjacent a v w = true)
    /\ (NoDup (keys seen) -> NoDup (keys seen'))
    /\ (length seen <= length seen')%nat
    /\ (length seen' = length seen -> next' = next).
Proof.
  induction 1 as [|x l Hx Hl IH]; intros seen next.
  - exists seen, next; simpl; repeat split; auto; try tauto.
    intros [H|[v [[] _]]]; exact H.
  - simpl; unfold visit at 1; simpl fst; simpl snd.
    destruct (mem x seen) eqn:Ex.
    + simpl; destruct (IH seen next) as [s' [n' [E [H1 [H2 [H3 [H4 H5]]]]]]].
      exists s', n'; split; [exact E|]; apply mem_keys in Ex.
      repeat split; auto.
      * intros H; apply H1 in H; tauto.
      * intros [H|[->|H]]; apply H1; auto.
      * intros H; apply H2 in H; destruct H as [H|[v [Hv [Hn Ha]]]]; auto.
        right; exists v; simpl; auto.
      * intros [H|[v [[->|Hv] [Hn Ha]]]]; apply H2; auto; [tauto|].
        right; exists v; auto.
    + apply mem_get in Hx; destruct Hx as [nb Hnb].
      unfold getitem; rewrite Hnb; simpl.
      destruct (IH (set seen x level) (add_keys next (keys nb)))
        as [s' [n' [E [H1 [H2 [H3 [H4 H5]]]]]]].
      exists s', n'; split; [exact E|]; apply mem_false_keys in Ex.
      assert (Hadj : forall w, In w (keys nb) <-> adjacent a x w = true).
      { intros w; rewrite adjacent_iff; split.
        - intros H; exists nb; auto.
        - intros [nb' [Hg H]]; congruence. }
      rewrite length_set in H4, H5.
      assert (Em : mem x seen = false) by (apply mem_false_keys; exact Ex).
      rewrite Em in H4, H5.
      repeat split.
      * intros H; apply H1 in H; rewrite In_keys_set in H; simpl.
        destruct H as [[->|H]|H]; auto.
      * intros H; apply H1; rewrite In_keys_set; simpl in H.
        destruct H as [H|[->|H]]; auto.
      * intros H; apply H2 in H; rewrite In_add_keys in H.
        destruct H as [[H|H]|[v [Hv [Hn Ha]]]]; auto.
        -- right; exists x; simpl; split; [auto|]; split; [exact Ex|].
           apply Hadj; exact H.
        -- right; exists v; simpl; split; [auto|]; split; [|exact Ha].
           intros Hin; apply Hn; apply In_keys_set; auto.
      * intros H; apply H2; rewrite In_add_keys.
        destruct H as [H|[v [[->|Hv] [Hn Ha]]]]; auto.
        -- left; right; apply Hadj; exact Ha.
        -- destruct (Z.eq_dec v x) as [->|Hne].
           ++ left; right; apply Hadj; exact Ha.
           ++ right; exists v; split; [exact Hv|]; split; [|exact Ha].
              rewrite In_keys_set; intros [?|?]; auto.
      * intros H; apply H3; apply NoDup_keys_set; exact H.
      * lia.
      * intros; lia.
Qed.

Variable source : vertex.

Lemma length_loop_done (seen : dict Z) :
  (forall v w, In v (keys seen) -> adjacent a v w = true -> In w (keys seen)) ->
  (forall v, In v (keys seen) -> reachable a source v) ->
  In source (keys seen) ->
  forall v, In v (keys seen) <-> reachable a source v.
Proof.
  intros Hcl Hs Hsrc v; split; [apply Hs|].
  intros H; apply (reachable_closed (a := a) (fun x => In x (keys seen)) (u := source));
    auto.
Qed.

Lemma length_loop_spec :
  forall fuel (seen : dict Z) level frontier,
    (length a + 2 <= fuel + length seen)%nat ->
    NoDup (keys seen) ->
    (forall v, In v (keys seen) -> mem v a = true) ->
    Forall (fun v => mem v a = true) frontier ->
    (forall v w, In v (keys seen) -> adjacent a v w = true ->
                 In w (keys seen) \/ In w frontier) ->
    (forall v, In v (keys seen) \/ In v frontier -> reachable a source v) ->
    In source (keys seen) \/ In source frontier ->
    exists seen',
      length_loop a fuel seen level frontier = Ok seen'
      /\ NoDup (keys seen')
      /\ forall v, In v (keys seen') <-> reachable a source v.
Proof.
  induction fuel as [|fuel IH]; intros seen level frontier Hf Hnd Hin Hfr Hcl Hs Hsrc.
  - exfalso.
    assert (length (keys seen) <= length (keys a))%nat.
    { apply NoDup_incl_le; auto; intros v Hv; apply mem_keys; auto. }
    unfold keys in H; rewrite !length_map in H; lia.
  - destruct frontier as [|x0 fr0] eqn:Efr.
    + exists seen; split; [reflexivity|]; split; [exact Hnd|].
      apply length_loop_done.
      * intros v w Hv Ha; destruct (Hcl v w Hv Ha) as [H|[]]; exact H.
      * intros v Hv; apply Hs; auto.
      * destruct Hsrc as [H|[]]; exact H.
    + rewrite <- Efr in *; clear Efr.
      assert (Eloop : length_loop a (S fuel) seen level frontier
                      = bind (for_each frontier (visit a level) (seen, []))
                             (fun st => length_loop a fuel (fst st) (level + 1)
                                                    (snd st))).
      { simpl; destruct frontier; [|reflexivity].
        inversion Hfr; subst; simpl; destruct fuel; reflexivity. }
      rewrite Eloop; clear Eloop.
      destruct (visit_loop level Hfr seen [])
        as [s' [n' [E [H1 [H2 [H3 [H4 H5]]]]]]].
      rewrite E; simpl.
      assert (Hin' : forall v, In v (keys s') -> mem v a = true).
      { intros v Hv; apply H1 in Hv; destruct Hv as [Hv|Hv]; auto.
        rewrite Forall_forall in Hfr; auto. }
      assert (Hfr' : Forall (fun v => mem v a = true) n').
      { apply Forall_forall; intros w Hw; apply H2 in Hw.
        destruct Hw as [[]|[v [_ [_ Ha]]]]; eapply Hclosed; eauto. }
      assert (Hcl' : forall v w, In v (keys s') -> adjacent a v w = true ->
                                 In w (keys s') \/ In w n').
      { intros v w Hv Ha; apply H1 in Hv.
        destruct (in_dec Z.eq_dec v (keys seen)) as [Hvs|Hvs].
        - destruct (Hcl v w Hvs Ha) as [H|H]; left; apply H1; auto.
        - destruct Hv as [Hv|Hv]; [contradiction|].
          right; apply H2; right; exists v; auto. }
      assert (Hs' : forall v, In v (keys s') \/ In v n' -> reachable a source v).
      { intros v [Hv|Hv].
        - apply H1 in Hv; apply Hs; exact Hv.
        - apply H2 in Hv; destruct Hv as [[]|[u [Hu [_ Ha]]]].
          apply reachable_step with (v := u); auto. }
      assert (Hsrc' : In source (keys s') \/ In source n').
      { left; apply H1; exact Hsrc. }
      destruct n' as [|y n0] eqn:En.
      * exists s'; split; [destruct fuel; reflexivity|]; split; [auto|].
        apply length_loop_done.
        -- intros v w Hv Ha; destruct (Hcl' v w Hv Ha) as [H|[]]; exact H.
        -- intros v Hv; apply Hs'; auto.
        -- destruct Hsrc' as [H|[]]; exact H.
      * rewrite <- En in *; apply IH; auto.
        assert (length s' <> length seen).
        { intros Heq; apply H5 in Heq; subst n'; discriminate. }
        lia.
Qed.

Lemma shortest_path_length_spec :
  mem source a = true ->
  exists seen,
    single_source_shortest_path_length a source = Ok seen
    /\ NoDup (keys seen)
    /\ forall v, In v (keys seen) <-> reachable a source v.
Proof.
  intros Hm; unfold single_source_shortest_path_length.
  apply length_loop_spec.
  - simpl; lia.
  - constructor.
  - intros v [].
  - constructor; [exact Hm | constructor].
  - intros v w [].
  - intros v [[]|[<-|[]]]; apply reachable_refl; exact Hm.
  - right; left; reflexivity.
Qed.
End BFSLength.

(** ** Breadth-first search: the paths *)

Ltac splits := repeat match goal with |- _ /\ _ => split end.

Section BFSPaths.
Variable X : Type.
Variable a : dict (dict X).
Hypothesis Hclosed : closed_adj a.
Variable source : vertex.

(** Every recorded path is a walk from the source to its key. *)
Let walks (paths : dict (list vertex)) : Prop :=
  forall x p, get paths x = Some p -> walk_between a source x p.

Lemma extend_loop (v : vertex) (ws : list vertex) :
  Forall (fun w => adjacent a v w = true) ws ->
  forall (paths : dict (list vertex)) (next : list vertex),
    walks paths -> mem v paths = true -> incl next (keys paths) ->
    NoDup (keys paths) ->
    exists paths' new,
      for_each ws (extend v) (paths, next) = Ok (paths', next ++ new)
      /\ walks paths'
      /\ keys paths' = keys paths ++ new
      /\ NoDup (keys paths')
      /\ (forall w, In w ws -> In w (keys paths'))
      /\ (forall x, In x new -> mem x a = true).
Proof.
  induction 1 as [|w ws Hw Hws IH]; intros paths next Hwalks Hv Hnext Hnd.
  - exists paths, []; rewrite !app_nil_r; simpl; splits; auto;
      now intros ? [].
  - simpl; unfold extend at 1; simpl fst; simpl snd.
    destruct (mem w paths) eqn:Ew.
    + simpl; destruct (IH paths next Hwalks Hv Hnext Hnd)
        as [p' [new [E [H1 [H2 [H3 [H4 H5]]]]]]].
      exists p', new; splits; auto.
      intros x [<-|Hx]; auto.
      rewrite H2; apply in_or_app; left; apply mem_keys; exact Ew.
    + pose proof Hv as Hv'; apply mem_get in Hv'; destruct Hv' as [pv Hpv].
      unfold getitem; rewrite Hpv; simpl.
      assert (Hnw : ~ In w next).
      { intros Hin; apply Hnext in Hin; apply mem_keys in Hin; congruence. }
      assert (Eadd : add_key next w = next ++ [w]).
      { unfold add_key; apply memZ_false in Hnw; rewrite Hnw; reflexivity. }
      rewrite Eadd.
      destruct (IH (set paths w (pv ++ [w])) (next ++ [w]))
        as [p' [new [E [H1 [H2 [H3 [H4 H5]]]]]]].
      * intros x p; rewrite get_set; destruct (Z.eqb_spec x w) as [->|Hne].
        -- intros Hp; inversion Hp; subst p.
           apply walk_between_snoc with (v := v); auto.
        -- apply Hwalks.
      * rewrite mem_set, Hv; apply orb_true_r.
      * intros x Hx; apply In_keys_set; apply in_app_or in Hx.
        destruct Hx as [Hx|[<-|[]]]; auto.
      * apply NoDup_keys_set; exact Hnd.
      * exists p', (w :: new); rewrite <- app_assoc in E; simpl in E.
        rewrite keys_set_new in H2 by exact Ew.
        rewrite <- app_assoc in H2; simpl in H2.
        splits; auto.
        -- intros x [<-|Hx]; auto.
           rewrite H2; apply in_or_app; right; left; reflexivity.
        -- intros x [<-|Hx]; auto; eapply Hclosed; eauto.
Qed.

Lemma expand_loop (l : list vertex) :
  forall (paths : dict (list vertex)) (next : list vertex),
    Forall (fun v => mem v a = true /\ mem v paths = true) l ->
    walks paths -> incl next (keys paths) -> NoDup (keys paths) ->
    exists paths' new,
      for_each l (expand a) (paths, next) = Ok (paths', next ++ new)
      /\ walks paths'
      /\ keys paths' = keys paths ++ new
      /\ NoDup (keys paths')
      /\ (forall v w, In v l -> adjacent a v w = true -> In w (keys paths'))
      /\ (forall x, In x new -> mem x a = true).
Proof.
  induction l as [|v l IH]; intros paths next Hl Hwalks Hnext Hnd.
  - exists paths, []; rewrite !app_nil_r; simpl; splits; auto;
      first [now intros ? ? [] | now intros ? []].
  - inversion Hl as [|? ? [Hva Hvp] Hl']; subst.
    simpl; unfold expand at 1.
    pose proof Hva as Hnb; apply mem_get in Hnb; destruct Hnb as [nb Hnb].
    unfold getitem; rewrite Hnb; simpl.
    assert (Hadj : forall w, In w (keys nb) <-> adjacent a v w = true).
    { intros w; rewrite adjacent_iff; split.
      - intros H; exists nb; auto.
      - intros [nb' [Hg H]]; congruence. }
    destruct (@extend_loop v (keys nb)) with (paths := paths) (next := next)
      as [p1 [new1 [E1 [W1 [K1 [N1 [C1 M1]]]]]]]; auto.
    { apply Forall_forall; intros w Hw; apply Hadj; exact Hw. }
    rewrite E1; simpl.
    destruct (IH p1 (next ++ new1)) as [p2 [new2 [E2 [W2 [K2 [N2 [C2 M2]]]]]]];
      auto.
    + apply Forall_forall; intros x Hx; rewrite Forall_forall in Hl'.
      destruct (Hl' x Hx) as [Hxa Hxp]; split; auto.
      apply mem_keys; rewrite K1; apply in_or_app; left; apply mem_keys; auto.
    + rewrite K1; intros x Hx; apply in_app_or in Hx; apply in_or_app.
      destruct Hx as [Hx|Hx]; auto.
    + exists p2, (new1 ++ new2); rewrite <- app_assoc in E2.
      rewrite K1, <- app_assoc in K2.
      splits; auto.
      * intros u w [<-|Hu] Ha; [|eapply C2; eauto].
        rewrite K2, app_assoc; apply in_or_app; left; rewrite <- K1.
        apply C1; apply Hadj; exact Ha.
      * intros x Hx; apply in_app_or in Hx; destruct Hx; auto.
Qed.

Lemma path_loop_spec :
  forall fuel (paths : dict (list vertex)) (frontier : list vertex),
    (length a + 1 + length frontier <= fuel + length paths)%nat ->
    NoDup (keys paths) -> walks paths ->
    (forall v, In v (keys paths) -> mem v a = true) ->
    incl frontier (keys paths) ->
    (forall v w, In v (keys paths) -> ~ In v frontier ->
                 adjacent a v w = true -> In w (keys paths)) ->
    In source (keys paths) ->
    exists paths',
      path_loop a fuel paths frontier = Ok paths'
      /\ NoDup (keys paths') /\ walks paths'
      /\ forall v, reachable a source v -> In v (keys paths').
Proof.
  induction fuel as [|fuel IH];
    intros paths frontier Hf Hnd Hwalks Hin Hfr Hcl Hsrc.
  - destruct frontier as [|x fr].
    + exists paths; splits; auto.
      intros v Hv.
      apply (reachable_closed (a := a) (fun x => In x (keys paths))
                              (u := source)); auto.
      intros x y Hx Ha; eapply Hcl; eauto.
    + exfalso.
      assert (length (keys paths) <= length (keys a))%nat.
      { apply NoDup_incl_le; auto; intros v Hv; apply mem_keys; auto. }
      unfold keys in H; rewrite !length_map in H; simpl in Hf; lia.
  - destruct frontier as [|x0 fr0] eqn:Efr.
    + exists paths; splits; auto.
      intros v Hv.
      apply (reachable_closed (a := a) (fun x => In x (keys paths))
                              (u := source)); auto.
      intros x y Hx Ha; eapply Hcl; eauto.
    + rewrite <- Efr in *.
      assert (Eloop : path_loop a (S fuel) paths frontier
                      = bind (for_each frontier (expand a) (paths, []))
                             (fun st => path_loop a fuel (fst st) (snd st))).
      { rewrite Efr; reflexivity. }
      rewrite Eloop; clear Eloop.
      destruct (@expand_loop frontier paths [])
        as [p' [new [E [W [K [N [C M]]]]]]]; auto.
      { apply Forall_forall; intros v Hv; apply Hfr in Hv.
        split; [auto | apply mem_keys; exact Hv]. }
      { intros v []. }
      simpl in E; rewrite E; simpl.
      apply IH; auto.
      * assert (length p' = length paths + length new)%nat.
        { pose proof (f_equal (@length _) K) as HK.
          unfold keys in HK; rewrite length_app, !length_map in HK; exact HK. }
        assert (1 <= length frontier)%nat by (rewrite Efr; simpl; lia).
        lia.
      * intros v Hv; rewrite K in Hv; apply in_app_or in Hv.
        destruct Hv; auto.
      * rewrite K; intros v Hv; apply in_or_app; auto.
      * intros v w Hv Hnv Ha; rewrite K in Hv; apply in_app_or in Hv.
        destruct Hv as [Hv|Hv]; [|contradiction].
        destruct (in_dec Z.eq_dec v frontier) as [Hvf|Hvf].
        -- eapply C; eauto.
        -- rewrite K; apply in_or_app; left; eapply Hcl; eauto.
      * rewrite K; apply in_or_app; auto.
Qed.

Lemma shortest_path_spec :
  mem source a = true ->
  exists paths,
    single_source_shortest_path a source = Ok paths
    /\ NoDup (keys paths)
    /\ (forall x p, get paths x = Some p -> walk_between a source x p)
    /\ forall v, reachable a source v -> In v (keys paths).
Proof.
  intros Hm; unfold single_source_shortest_path.
  apply path_loop_spec.
  - simpl; lia.
  - simpl; constructor; [tauto | constructor].
  - intros x p; simpl; destruct (Z.eqb_spec x source) as [->|]; [|discriminate].
    intros H; inversion H; apply walk_between_intro; auto.
  - intros v [<-|[]]; exact Hm.
  - intros v Hv; exact Hv.
  - intros v w [<-|[]] Hn; exfalso; apply Hn; left; reflexivity.
  - left; reflexivity.
Qed.
End BFSPaths.

(** ** Well-formed adjacencies *)

Section WfFacts.
Variable X : Type.
Variable a : dict (dict X).

Lemma get2_Some u v x :
  get2 a u v = Some x <-> exists nb, get a u = Some nb /\ get nb v = Some x.
Proof.
  unfold get2; destruct (get a u) as [nb|]; split.
  - intros H; exists nb; auto.
  - intros [nb' [H1 H2]]; inversion H1; subst; exact H2.
  - discriminate.
  - intros [nb [H _]]; discriminate.
Qed.

Lemma adjacent_get2 u v :
  adjacent a u v = true <-> exists x, get2 a u v = Some x.
Proof.
  unfold adjacent; destruct (get2 a u v) as [x|]; split; eauto;
    [discriminate | intros [x H]; discriminate].
Qed.

Variable eqb : X -> X -> bool.
Hypothesis eqb_sound : forall x y, eqb x y = true -> x = y.

Lemma wf_adjb_sound : wf_adjb a eqb = true -> wf_adj a.
Proof.
  unfold wf_adjb; rewrite !andb_true_iff, !forallb_forall.
  intros [[H1 H2] H3]; apply nodupb_NoDup in H1.
  assert (Hhalf : forall u v x, get2 a u v = Some x -> get2 a v u = Some x).
  { intros u v x H; apply get2_Some in H; destruct H as [nb [Hu Hv]].
    apply get_Some_In in Hu, Hv.
    specialize (H3 _ Hu); simpl in H3; rewrite forallb_forall in H3.
    specialize (H3 _ Hv); unfold symmetric_entry in H3; simpl in H3.
    destruct (get2 a v u) as [y|]; [|discriminate].
    apply eqb_sound in H3; congruence. }
  constructor; auto.
  - intros u nb Hu; apply get_Some_In in Hu; apply nodupb_NoDup.
    apply (H2 _ Hu).
  - intros u v; destruct (get2 a u v) as [x|] eqn:E.
    + symmetry; apply Hhalf; exact E.
    + destruct (get2 a v u) as [y|] eqn:E'; [|reflexivity].
      apply Hhalf in E'; congruence.
Qed.

Hypothesis Hwf : wf_adj a.

Lemma wf_adjacent_sym u v : adjacent a u v = adjacent a v u.
Proof. unfold adjacent; rewrite (wf_sym Hwf u v); reflexivity. Qed.

Lemma wf_closed : closed_adj a.
Proof.
  intros u v H; rewrite wf_adjacent_sym in H; eapply adjacent_mem; eauto.
Qed.
End WfFacts.

Lemma base_eqb_sound (d e : base_attrs) : base_eqb d e = true -> d = e.
Proof.
  unfold base_eqb; rewrite andb_true_iff, Z.eqb_eq, String.eqb_eq.
  destruct d, e; simpl; intros [-> ->]; reflexivity.
Qed.

Lemma well_formed_spec (g : Graph base_attrs) :
  well_formed g = true -> nodes g = keys (adj g) /\ wf_adj (adj g).
Proof.
  unfold well_formed; rewrite andb_true_iff, list_eqb_eq; intros [H1 H2].
  split; [exact H1 | eapply wf_adjb_sound; eauto using base_eqb_sound].
Qed.

(** ** The stable descending sort *)

Section SortFacts.
Variable A : Type.
Variable key : A -> nat.

Lemma insert_desc_length (x : A) (l : list A) :
  length (insert_desc key x l) = S (length l).
Proof.
  induction l as [|y l IH]; simpl; [reflexivity|].
  destruct (Nat.ltb (key x) (key y)); simpl; auto.
Qed.

Lemma sort_desc_length (l : list A) : length (sort_desc key l) = length l.
Proof.
  induction l as [|x l IH]; simpl; [reflexivity|].
  rewrite insert_desc_length; auto.
Qed.

Lemma insert_desc_perm (x : A) (l : list A) :
  Permutation (x :: l) (insert_desc key x l).
Proof.
  induction l as [|y l IH]; simpl; [reflexivity|].
  destruct (Nat.ltb (key x) (key y)); [|reflexivity].
  rewrite perm_swap; constructor; exact IH.
Qed.

Lemma sort_desc_perm (l : list A) : Permutation l (sort_desc key l).
Proof.
  induction l as [|x l IH]; simpl; [reflexivity|].
  rewrite <- insert_desc_perm; constructor; exact IH.
Qed.

(** The head of the sorted list is the first element of greatest key. *)
Lemma sort_desc_head (l : list A) (x : A) (rest : list A) :
  sort_desc key l = x :: rest ->
  exists before after,
    l = before ++ x :: after
    /\ (forall y, In y before -> (key y < key x)%nat)
    /\ (forall y, In y after -> (key y <= key x)%nat).
Proof.
  revert x rest; induction l as [|y l IH]; intros x rest; simpl;
    [discriminate|].
  destruct (sort_desc key l) as [|z tl] eqn:E.
  - simpl; intros H; inversion H; subst.
    assert (l = []).
    { apply (f_equal (@length _)) in E; rewrite sort_desc_length in E.
      destruct l; [reflexivity | discriminate]. }
    subst l; exists [], []; splits; auto; now intros ? [].
  - destruct (IH z tl eq_refl) as [b [af [El [Hb Ha]]]].
    simpl; destruct (Nat.ltb_spec (key y) (key z)) as [Hlt|Hge].
    + intros H; inversion H; subst.
      exists (y :: b), af; splits; auto.
      intros w [<-|Hw]; auto.
    + intros H; inversion H; subst.
      exists [], (b ++ z :: af); splits; auto; [now intros ? []|].
      intros w Hw; apply in_app_or in Hw.
      destruct Hw as [Hw|[<-|Hw]]; auto.
      * specialize (Hb _ Hw); lia.
      * specialize (Ha _ Hw); lia.
Qed.

Lemma insert_desc_sorted (x : A) (l : list A) :
  StronglySorted (fun u v => (key v <= key u)%nat) l ->
  StronglySorted (fun u v => (key v <= key u)%nat) (insert_desc key x l).
Proof.
  induction 1 as [|y l Hs IH Hy]; simpl.
  - constructor; constructor.
  - destruct (Nat.ltb_spec (key x) (key y)) as [Hlt|Hge].
    + constructor; [exact IH|].
      rewrite <- insert_desc_perm; constructor; [lia | exact Hy].
    + constructor; [constructor; auto|].
      constructor; [exact Hge|].
      rewrite Forall_forall in *; intros z Hz; specialize (Hy _ Hz); lia.
Qed.

Lemma sort_desc_sorted (l : list A) :
  StronglySorted (fun u v => (key v <= key u)%nat) (sort_desc key l).
Proof.
  induction l as [|x l IH]; simpl; [constructor|].
  apply insert_desc_sorted; exact IH.
Qed.

(** Stability: the elements of one key keep their order. *)
Lemma insert_desc_stable (k : nat) (x : A) (l : list A) :
  filter (fun y => Nat.eqb (key y) k) (insert_desc key x l)
  = filter (fun y => Nat.eqb (key y) k) (x :: l).
Proof.
  induction l as [|y l IH]; [reflexivity|].
  simpl insert_desc; destruct (Nat.ltb_spec (key x) (key y)) as [Hlt|Hge];
    [|reflexivity].
  simpl filter in *; rewrite IH.
  destruct (Nat.eqb_spec (key x) k), (Nat.eqb_spec (key y) k);
    try reflexivity; lia.
Qed.

Lemma sort_desc_stable (k : nat) (l : list A) :
  filter (fun y => Nat.eqb (key y) k) (sort_desc key l)
  = filter (fun y => Nat.eqb (key y) k) l.
Proof.
  induction l as [|x l IH]; [reflexivity|].
  simpl sort_desc; rewrite insert_desc_stable; simpl; rewrite IH.
  reflexivity.
Qed.
End SortFacts.

(** ** validate_graph *)

Section ComponentFacts.
Variable E : Type.
Variable g : Graph E.
Hypothesis Hnodes : nodes g = keys (adj g).
Hypothesis Hwf : wf_adj (adj g).

Lemma component_step_ok (st : dict Z * list (list vertex)) (v : vertex) :
  mem v (adj g) = true ->
  exists st', component_step g st v = Ok st'
              /\ (length (snd st) <= length (snd st'))%nat
              /\ (mem v (fst st) = false -> snd st' <> []).
Proof.
  intros Hv; unfold component_step; destruct (mem v (fst st)) eqn:Em.
  - exists st; splits; auto; discriminate.
  - destruct (shortest_path_length_spec (wf_closed Hwf) v Hv)
      as [c [Ec _]].
    unfold shortest_path_length; rewrite Ec; simpl.
    eexists; splits; [reflexivity | |].
    + simpl; rewrite length_app; lia.
    + intros _; simpl; destruct (snd st); discriminate.
Qed.

Lemma connected_components_ok :
  exists cc, connected_components g = Ok cc /\ (nodes g <> [] -> cc <> []).
Proof.
  unfold connected_components.
  assert (Hall : forall l, Forall (fun v => mem v (adj g) = true) l ->
            forall st, exists st',
              for_each l (component_step g) st = Ok st'
              /\ (length (snd st) <= length (snd st'))%nat).
  { induction 1 as [|x l Hx Hl IH]; intros st; simpl.
    - exists st; auto.
    - destruct (component_step_ok st x Hx) as [s1 [E1 [L1 _]]].
      rewrite E1; simpl; destruct (IH s1) as [s2 [E2 L2]].
      exists s2; split; [exact E2 | lia]. }
  assert (Hmem : Forall (fun v => mem v (adj g) = true) (nodes g)).
  { rewrite Hnodes; apply Forall_forall; intros v Hv; apply mem_keys; auto. }
  destruct (nodes g) as [|n0 ns] eqn:En.
  - simpl; exists []; split; [reflexivity | congruence].
  - inversion Hmem as [|? ? H0 Hns]; subst.
    simpl; destruct (component_step_ok ([], []) n0 H0) as [s1 [E1 [_ N1]]].
    rewrite E1; simpl.
    destruct (Hall ns Hns s1) as [s2 [E2 L2]]; rewrite E2; simpl.
    eexists; split; [reflexivity|]; intros _ Hnil.
    apply (f_equal (@length _)) in Hnil; rewrite sort_desc_length in Hnil.
    simpl in Hnil; destruct (snd s1); [apply N1; reflexivity|].
    simpl in L2; lia.
Qed.
End ComponentFacts.

Lemma validate_graph_eq (graph : Graph base_attrs) (cc : list (list vertex)) :
  connected_components graph = Ok cc ->
  validate_graph graph
  = bind (first (sort_desc (@size base_attrs) (map (subgraph graph) cc)))
         (fun main =>
            Ok (if Nat.ltb 1 (length (sort_desc (@size base_attrs)
                                                (map (subgraph graph) cc)))
                then [multiple_components_warning] else [],
                main)).
Proof.
  intros E; unfold validate_graph, connected_component_subgraphs.
  rewrite E; reflexivity.
Qed.

(** On a graph with a vertex the selector returns the head of the sorted
    list of components. *)
Lemma validate_graph_returns (graph : Graph base_attrs) :
  well_formed graph = true -> nodes graph <> [] ->
  exists cc main rest,
    connected_components graph = Ok cc
    /\ sort_desc (@size base_attrs) (map (subgraph graph) cc) = main :: rest
    /\ validate_graph graph
       = Ok (if Nat.ltb 1 (length (map (subgraph graph) cc))
             then [multiple_components_warning] else [],
             main).
Proof.
  intros Hwf Hne; apply well_formed_spec in Hwf; destruct Hwf as [Hn Hwf].
  destruct (connected_components_ok graph Hn Hwf) as [cc [Ecc Hcc]].
  specialize (Hcc Hne); exists cc.
  rewrite (validate_graph_eq graph Ecc).
  set (comps := sort_desc (@size base_attrs) (map (subgraph graph) cc)).
  assert (El : length comps = length (map (subgraph graph) cc))
    by apply sort_desc_length.
  rewrite El; destruct comps as [|c rest].
  - rewrite length_map in El; destruct cc; [congruence | discriminate].
  - exists c, rest; splits; [exact Ecc | reflexivity | reflexivity].
Qed.

(** C7, as the code has it: the component selector fails exactly on the graph
    with no vertex, and there with the [IndexError] of [components[0]]; on
    every other graph it returns a component, after a warning on
    [sys.stderr] when there is more than one. *)
Theorem validate_graph_fails_only_on_empty (graph : Graph base_attrs) :
  well_formed graph = true ->
  (nodes graph = [] -> validate_graph graph = Raise IndexError)
  /\ (nodes graph <> [] ->
      exists components main_component,
        connected_component_subgraphs graph = Ok components
        /\ validate_graph graph
           = Ok (if Nat.ltb 1 (length components)
                 then [multiple_components_warning] else [],
                 main_component)).
Proof.
  intros Hwf; split.
  - intros Hempty; unfold validate_graph, connected_component_subgraphs.
    unfold connected_components; rewrite Hempty; reflexivity.
  - intros Hne.
    destruct (validate_graph_returns graph Hwf Hne)
      as [cc [main [rest [Ecc [_ Ev]]]]].
    exists (map (subgraph graph) cc), main; split; [|exact Ev].
    unfold connected_component_subgraphs; rewrite Ecc; reflexivity.
Qed.

Lemma validate_graph_fails_only_on_empty_witness :
  well_formed two_components = true
  /\ ((nodes two_components = [] ->
       validate_graph two_components = Raise IndexError)
      /\ (nodes two_components <> [] ->
          exists components main_component,
            connected_component_subgraphs two_components = Ok components
            /\ validate_graph two_components
               = Ok (if Nat.ltb 1 (length components)
                     then [multiple_components_warning] else [],
                     main_component))).
Proof.
  split; [vm_compute; reflexivity|].
  apply (validate_graph_fails_only_on_empty two_components).
  vm_compute; reflexivity.
Defined.

(** C7 as stated fails: on the graph with no vertex the outcome is an
    [IndexError], and no [EmptyGraphError] exists in the code. *)
Lemma validate_graph_empty_is_index_error :
  validate_graph (@empty base_attrs) = Raise IndexError
  /\ validate_graph (@empty base_attrs) <> Raise EmptyGraphError.
Proof. split; [reflexivity | discriminate]. Qed.

(** C6, as the code has it: the component returned is one of greatest
    [size()], the number of edges; among those it is the first of the list of
    [nx.connected_component_subgraphs], which holds the components by
    decreasing number of vertices. *)
Theorem validate_graph_selects_most_edges (graph : Graph base_attrs) :
  well_formed graph = true -> nodes graph <> [] ->
  exists cc stderr main before after,
    connected_components graph = Ok cc
    /\ StronglySorted (fun c c' => (length c' <= length c)%nat) cc
    /\ validate_graph graph = Ok (stderr, main)
    /\ map (subgraph graph) cc = before ++ main :: after
    /\ (forall c, In c before -> (size c < size main)%nat)
    /\ (forall c, In c after -> (size c <= size main)%nat).
Proof.
  intros Hwf Hne.
  destruct (validate_graph_returns graph Hwf Hne)
    as [cc [main [rest [Ecc [Hs Ev]]]]].
  destruct (sort_desc_head _ _ Hs) as [before [after [El [Hb Ha]]]].
  exists cc, (if Nat.ltb 1 (length (map (subgraph graph) cc))
              then [multiple_components_warning] else []),
         main, before, after.
  splits; auto.
  unfold connected_components in Ecc.
  destruct (for_each (nodes graph) (component_step graph) ([], []));
    try discriminate.
  simpl in Ecc; inversion Ecc; apply sort_desc_sorted.
Qed.

Lemma validate_graph_selects_most_edges_witness :
  exists cc stderr main before after,
    connected_components k4_and_p5 = Ok cc
    /\ StronglySorted (fun c c' => (length c' <= length c)%nat) cc
    /\ validate_graph k4_and_p5 = Ok (stderr, main)
    /\ map (subgraph k4_and_p5) cc = before ++ main :: after
    /\ (forall c, In c before -> (size c < size main)%nat)
    /\ (forall c, In c after -> (size c <= size main)%nat).
Proof.
  apply (validate_graph_selects_most_edges k4_and_p5).
  - vm_compute; reflexivity.
  - vm_compute; discriminate.
Defined.

(** C6 as stated fails: of a component with 5 vertices and 4 edges and one
    with 4 vertices and 6 edges, the selector returns the second. *)
Lemma validate_graph_prefers_edges_to_vertices :
  exists stderr main,
    validate_graph k4_and_p5 = Ok (stderr, main)
    /\ nodes main = [1; 2; 3; 4]
    /\ connected_components k4_and_p5 = Ok [[5; 6; 7; 8; 9]; [1; 2; 3; 4]].
Proof. vm_compute; eauto. Qed.

(** ** Graph.add_edge *)

Lemma bind_Raise_inv {A B : Type} (m : outcome A) (k : A -> outcome B) (e : exn) :
  bind m k = Raise e -> m = Raise e \/ exists a, m = Ok a /\ k a = Raise e.
Proof.
  destruct m as [a| |]; simpl; intros H; try discriminate.
  - right; exists a; split; [reflexivity | exact H].
  - left; inversion H; reflexivity.
Qed.

Section AddEdgeFacts.
Variable E : Type.
Implicit Types g : Graph E.

Lemma touch_keys g n :
  keys (node g) = keys (adj g) ->
  keys (node (touch g n)) = keys (adj (touch g n)).
Proof.
  intros H; unfold touch; destruct (mem n (node g)) eqn:Em; [exact H|].
  simpl; rewrite !keys_set, Em.
  assert (mem n (adj g) = false) as ->; [|congruence].
  apply mem_false_keys; rewrite <- H; apply mem_false_keys; exact Em.
Qed.

Lemma touch_mem g n m :
  keys (node g) = keys (adj g) ->
  mem m (adj (touch g n)) = (Z.eqb m n || mem m (adj g))%bool.
Proof.
  intros H; unfold touch; destruct (mem n (node g)) eqn:Em; simpl.
  - destruct (Z.eqb_spec m n) as [->|]; [|reflexivity].
    simpl; apply mem_keys; rewrite <- H; apply mem_keys; exact Em.
  - apply mem_set.
Qed.

Lemma touch_get2 g n x y :
  keys (node g) = keys (adj g) ->
  get2 (adj (touch g n)) x y = get2 (adj g) x y.
Proof.
  intros H; unfold touch; destruct (mem n (node g)) eqn:Em; [reflexivity|].
  assert (Ha : get (adj g) n = None).
  { apply get_None_keys; rewrite <- H; apply mem_false_keys; exact Em. }
  simpl; unfold get2; rewrite get_set.
  destruct (Z.eqb_spec x n) as [->|]; [rewrite Ha|]; reflexivity.
Qed.

Lemma set_adj_node g u v d : node (set_adj g u v d) = node g.
Proof. unfold set_adj; destruct (get (adj g) u); reflexivity. Qed.

Lemma set_adj_keys g u v d : keys (adj (set_adj g u v d)) = keys (adj g).
Proof.
  unfold set_adj; destruct (get (adj g) u) eqn:Eu; [|reflexivity].
  simpl; apply keys_set_mem; apply mem_get; eauto.
Qed.

Lemma set_adj_get2 g u v d x y :
  mem u (adj g) = true ->
  get2 (adj (set_adj g u v d)) x y
  = if (Z.eqb x u && Z.eqb y v)%bool then Some d else get2 (adj g) x y.
Proof.
  intros Hu; apply mem_get in Hu; destruct Hu as [nb Hnb].
  unfold set_adj; rewrite Hnb; simpl; unfold get2; rewrite get_set.
  destruct (Z.eqb_spec x u) as [->|]; simpl; [|reflexivity].
  rewrite Hnb, get_set; reflexivity.
Qed.

Lemma set_adj_mem g u v d m :
  mem m (adj (set_adj g u v d)) = mem m (adj g).
Proof.
  destruct (mem m (adj g)) eqn:Em.
  - apply mem_keys; rewrite set_adj_keys; apply mem_keys; exact Em.
  - apply mem_false_keys; rewrite set_adj_keys; apply mem_false_keys; exact Em.
Qed.

Lemma add_edge_keys g u v d :
  keys (node g) = keys (adj g) ->
  keys (node (add_edge g u v d)) = keys (adj (add_edge g u v d)).
Proof.
  intros H; unfold add_edge; rewrite !set_adj_node, !set_adj_keys.
  apply touch_keys, touch_keys, H.
Qed.

Lemma add_edge_mem g u v d m :
  keys (node g) = keys (adj g) ->
  mem m (adj (add_edge g u v d))
  = (Z.eqb m u || Z.eqb m v || mem m (adj g))%bool.
Proof.
  intros H; unfold add_edge; rewrite !set_adj_mem.
  rewrite touch_mem by (apply touch_keys; exact H).
  rewrite touch_mem by exact H.
  destruct (Z.eqb m u), (Z.eqb m v); reflexivity.
Qed.

Lemma add_edge_get2 g u v d x y :
  keys (node g) = keys (adj g) ->
  get2 (adj (add_edge g u v d)) x y
  = if ((Z.eqb x u && Z.eqb y v) || (Z.eqb x v && Z.eqb y u))%bool
    then Some d else get2 (adj g) x y.
Proof.
  intros H; unfold add_edge.
  assert (H1 : keys (node (touch g u)) = keys (adj (touch g u)))
    by (apply touch_keys; exact H).
  rewrite set_adj_get2.
  2:{ rewrite set_adj_mem, touch_mem, Z.eqb_refl by exact H1; reflexivity. }
  rewrite set_adj_get2.
  2:{ rewrite touch_mem, touch_mem, Z.eqb_refl by assumption.
      apply orb_true_r. }
  rewrite !touch_get2 by assumption.
  destruct (Z.eqb x u && Z.eqb y v)%bool, (Z.eqb x v && Z.eqb y u)%bool;
    reflexivity.
Qed.
End AddEdgeFacts.

Lemma py_int_raises (s : string) (e : exn) : py_int s = Raise e -> e = ValueError.
Proof.
  unfold py_int.
  destruct (match lstrip s with
            | String "-"%char r => (-1, r)
            | String "+"%char r => (1, r)
            | _ => (1, lstrip s)
            end) as [sign s2].
  destruct (digits (lstrip s2) 0 0) as [[n value] rest].
  destruct n; [intros H; inversion H; reflexivity|].
  destruct (lstrip rest); intros H; inversion H; reflexivity.
Qed.

Lemma map_m_py_int_raises (l : list string) (e : exn) :
  map_m py_int l = Raise e -> e = ValueError.
Proof.
  induction l as [|s l IH]; simpl; [discriminate|].
  intros H; apply bind_Raise_inv in H.
  destruct H as [H|[z [_ H]]]; [eapply py_int_raises; eauto|].
  apply bind_Raise_inv in H; destruct H as [H|[zs [_ H]]]; [auto | discriminate].
Qed.

Lemma set_longitude_raises (g : Graph base_attrs) n s e :
  set_longitude g n s = Raise e -> e = KeyError.
Proof.
  unfold set_longitude, getitem; destruct (get (node g) n); simpl;
    intros H; inversion H; reflexivity.
Qed.

Lemma set_latitude_raises (g : Graph base_attrs) n s e :
  set_latitude g n s = Raise e -> e = KeyError.
Proof.
  unfold set_latitude, getitem; destruct (get (node g) n); simpl;
    intros H; inversion H; reflexivity.
Qed.

Lemma import_row_raises (g : Graph base_attrs) (row : list string) (e : exn) :
  import_row g row = Raise e ->
  e = IndexError \/ e = ValueError \/ e = KeyError.
Proof.
  unfold import_row; intros H; apply bind_Raise_inv in H.
  destruct H as [H|[r0 [_ H]]].
  { destruct (nth_error row 0); inversion H; auto. }
  destruct (negb (isdigit r0)); [discriminate|].
  apply bind_Raise_inv in H; destruct H as [H|[ints [_ H]]].
  { apply map_m_py_int_raises in H; auto. }
  destruct ints as [|i1 [|i2 [|i3 [|]]]]; try (inversion H; auto; fail).
  destruct (firstn 5 (skipn 3 row)) as [|s1 [|s2 [|s3 [|s4 [|s5 [|]]]]]];
    try (inversion H; auto; fail).
  repeat (apply bind_Raise_inv in H;
          destruct H as [H|[? [_ H]]];
          [first [apply set_longitude_raises in H
                 | apply set_latitude_raises in H]; auto|]).
  apply set_latitude_raises in H; auto.
Qed.

(** C8, as the code has it: the insertion checks nothing.  Whatever the
    weight and the endpoints, [add_edge] stores the data in both directions
    and creates the endpoints that are missing; the ingestion of a row can
    fail with [IndexError], [ValueError] or [KeyError] only, never with an
    [InvalidEdgeError]. *)
Theorem add_edge_is_unchecked (graph : Graph base_attrs) (u v : vertex)
        (d : base_attrs) :
  keys (node graph) = keys (adj graph) ->
  get2 (adj (add_edge graph u v d)) u v = Some d
  /\ get2 (adj (add_edge graph u v d)) v u = Some d
  /\ has_node (add_edge graph u v d) u = true
  /\ has_node (add_edge graph u v d) v = true
  /\ (forall n, has_node graph n = true ->
                has_node (add_edge graph u v d) n = true)
  /\ (forall row e,
         import_row graph row = Raise e ->
         (e = IndexError \/ e = ValueError \/ e = KeyError)
         /\ e <> InvalidEdgeError).
Proof.
  intros H.
  assert (Hn : forall n, has_node (add_edge graph u v d) n
                         = mem n (adj (add_edge graph u v d))).
  { intros n; unfold has_node.
    pose proof (add_edge_keys graph u v d H) as K.
    destruct (mem n (adj (add_edge graph u v d))) eqn:Em.
    - apply mem_keys; rewrite K; apply mem_keys; exact Em.
    - apply mem_false_keys; rewrite K; apply mem_false_keys; exact Em. }
  splits.
  - rewrite add_edge_get2, !Z.eqb_refl by exact H; reflexivity.
  - rewrite add_edge_get2, !Z.eqb_refl by exact H; simpl.
    rewrite orb_true_r; reflexivity.
  - rewrite Hn, add_edge_mem, Z.eqb_refl by exact H; reflexivity.
  - rewrite Hn, add_edge_mem, Z.eqb_refl by exact H.
    rewrite orb_true_r; reflexivity.
  - intros n Hin; rewrite Hn, add_edge_mem by exact H.
    assert (mem n (adj graph) = true) as ->; [|apply orb_true_r].
    apply mem_keys; rewrite <- H; apply mem_keys; exact Hin.
  - intros row e He; apply import_row_raises in He.
    split; [exact He|].
    destruct He as [->|[->| ->]]; discriminate.
Qed.

Lemma add_edge_is_unchecked_witness :
  keys (node two_components) = keys (adj two_components)
  /\ get2 (adj (add_edge two_components 1 1 (mk_base (-5) "loop"))) 1 1
     = Some (mk_base (-5) "loop").
Proof.
  split; [reflexivity|].
  apply (add_edge_is_unchecked two_components 1 1 (mk_base (-5) "loop")).
  reflexivity.
Defined.

(** C8 as stated fails: a row with equal endpoints and a negative length is
    ingested, and the graph holds the self-loop of weight -5. *)
Lemma negative_self_loop_is_inserted :
  exists g, import_csv_graph [ReadRow negative_self_loop_row] = Ok g
            /\ get2 (adj g) 1 1 = Some (mk_base (-5) "loop")
            /\ import_csv_graph [ReadRow negative_self_loop_row]
               <> Raise InvalidEdgeError.
Proof.
  eexists; splits; [vm_compute; reflexivity | reflexivity | discriminate].
Qed.

(** ** Weighted distances, by potentials *)

Section Potentials.
Variable graph : Graph base_attrs.

Lemma path_weight_cons u v p :
  path_weight graph (u :: v :: p)
  = edge_weight weight graph u v + path_weight graph (v :: p).
Proof.
  unfold path_weight; simpl; rewrite !app_nil_r; reflexivity.
Qed.

Variable phi : vertex -> Z.
Hypothesis Hphi : potential graph phi = true.

Lemma potential_edge u v :
  adjacent (adj graph) u v = true ->
  phi u - phi v <= edge_weight weight graph u v.
Proof.
  intros H; apply adjacent_get2 in H; destruct H as [d Hd].
  unfold edge_weight; rewrite Hd.
  apply get2_Some in Hd; destruct Hd as [nb [Hu Hv]].
  apply get_Some_In in Hu, Hv.
  unfold potential in Hphi; rewrite forallb_forall in Hphi.
  specialize (Hphi _ Hu); simpl in Hphi; rewrite forallb_forall in Hphi.
  specialize (Hphi _ Hv); simpl in Hphi; apply Z.leb_le; exact Hphi.
Qed.

Lemma potential_walk u v p :
  walk_between (adj graph) u v p -> phi u - phi v <= path_weight graph p.
Proof.
  intros H; apply walk_between_inv in H.
  destruct H as [q [-> [Hl [_ Hw]]]].
  revert u Hl Hw; induction q as [|x q IH]; intros u Hl Hw.
  - simpl in Hl; subst; unfold path_weight; simpl; lia.
  - rewrite is_walk_cons in Hw; apply andb_true_iff in Hw.
    destruct Hw as [H1 H2]; rewrite last_cons in Hl.
    rewrite path_weight_cons.
    pose proof (potential_edge u x H1); specialize (IH x Hl H2); lia.
Qed.

(** A walk of weight [phi u - phi v] is a shortest one. *)
Lemma potential_distance u v p :
  walk_between (adj graph) u v p -> path_weight graph p = phi u - phi v ->
  shortest_distance graph u v (phi u - phi v)
  /\ min_weight_path graph u v p.
Proof.
  intros Hp Hw; split; [split|split]; auto.
  - exists p; auto.
  - intros q Hq; apply potential_walk; exact Hq.
  - intros q Hq; rewrite Hw; apply potential_walk; exact Hq.
Qed.
End Potentials.

Lemma shortest_distance_unique graph u v d d' :
  shortest_distance graph u v d -> shortest_distance graph u v d' -> d = d'.
Proof.
  intros [[p [Hp Ep]] Hmin] [[p' [Hp' Ep']] Hmin'].
  specialize (Hmin _ Hp'); specialize (Hmin' _ Hp); lia.
Qed.

(** C1 at a graph where the direct road is not the shortest: vertices 1 and 2
    are joined by a road of length 10 and by two roads of length 3 through
    vertex 3.  [odd_graph] stores the weight -1 (one hop) and the path
    [2, 1] of length 10, while the weighted distance is 6, attained by
    [2, 3, 1]. *)
Theorem odd_graph_counts_hops_on_shortcut :
  exists og,
    odd_graph shortcut_graph = Ok og
    /\ odd_nodes shortcut_graph = [1; 2]
    /\ get2 (adj og) 2 1 = Some (mk_odd (-1) [2; 1])
    /\ path_weight shortcut_graph [2; 1] = 10
    /\ shortest_distance shortcut_graph 2 1 6
    /\ min_weight_path shortcut_graph 2 1 [2; 3; 1]
    /\ ~ shortest_distance shortcut_graph 2 1 1
    /\ ~ min_weight_path shortcut_graph 2 1 [2; 1].
Proof.
  eexists; split; [vm_compute; reflexivity|].
  assert (Hw : walk_between (adj shortcut_graph) 2 1 [2; 3; 1])
    by (repeat split).
  pose (phi := fun x : vertex =>
                 if Z.eqb x 2 then 6 else if Z.eqb x 1 then 0 else 3).
  destruct (@potential_distance shortcut_graph phi eq_refl 2 1 [2; 3; 1] Hw eq_refl)
    as [Hd Hm].
  change (phi 2 - phi 1) with 6 in Hd.
  splits; auto.
  - intros H; pose proof (shortest_distance_unique Hd H); discriminate.
  - intros [_ H]; specialize (H _ Hw); vm_compute in H; apply H; reflexivity.
Qed.

(** ** Sums over lists and dicts *)

Section SumFacts.
Variable A : Type.
Implicit Types l : list A.

Lemma sum_over_app l1 l2 f :
  sum_over (l1 ++ l2) f = sum_over l1 f + sum_over l2 f.
Proof. induction l1 as [|x l1 IH]; simpl; [reflexivity | rewrite IH; lia]. Qed.

Lemma sum_over_ext l f g :
  (forall x, In x l -> f x = g x) -> sum_over l f = sum_over l g.
Proof.
  induction l as [|x l IH]; simpl; intros H; [reflexivity|].
  rewrite (H x), IH; auto.
Qed.

Lemma sum_over_plus l f g :
  sum_over l (fun x => f x + g x) = sum_over l f + sum_over l g.
Proof. induction l as [|x l IH]; simpl; [reflexivity | rewrite IH; lia]. Qed.

Lemma sum_over_zero l f : (forall x, In x l -> f x = 0) -> sum_over l f = 0.
Proof.
  induction l as [|x l IH]; simpl; intros H; [reflexivity|].
  rewrite (H x), IH; auto.
Qed.

Lemma sum_over_nonneg l f : (forall x, In x l -> 0 <= f x) -> 0 <= sum_over l f.
Proof.
  induction l as [|x l IH]; simpl; intros H; [lia|].
  specialize (H x (or_introl eq_refl)) as Hx.
  assert (0 <= sum_over l f) by (apply IH; auto); lia.
Qed.

Lemma sum_over_perm l l' f : Permutation l l' -> sum_over l f = sum_over l' f.
Proof. induction 1; simpl; lia. Qed.

Lemma sum_over_map {B : Type} (h : B -> A) (l : list B) f :
  sum_over (map h l) f = sum_over l (fun x => f (h x)).
Proof. induction l as [|x l IH]; simpl; [reflexivity | rewrite IH; lia]. Qed.

Lemma sum_over_filter l (p : A -> bool) f :
  sum_over (filter p l) f = sum_over l (fun x => if p x then f x else 0).
Proof.
  induction l as [|x l IH]; simpl; [reflexivity|].
  destruct (p x); simpl; rewrite IH; lia.
Qed.

Lemma fold_left_sum l (h : A -> Z) (z : Z) :
  fold_left (fun total x => total + h x) l z = z + sum_over l h.
Proof.
  revert z; induction l as [|x l IH]; intros z; simpl; [lia|].
  rewrite IH; lia.
Qed.

Lemma sum_over_length l : sum_over l (fun _ => 1) = Z.of_nat (length l).
Proof.
  induction l as [|x l IH]; [reflexivity|].
  change (length (x :: l)) with (S (length l)); rewrite Nat2Z.inj_succ.
  change (sum_over (x :: l) (fun _ => 1)) with (1 + sum_over l (fun _ => 1)).
  lia.
Qed.
End SumFacts.

Lemma sum_over_swap {A B : Type} (l : list A) (l' : list B) (f : A -> B -> Z) :
  sum_over l (fun x => sum_over l' (f x))
  = sum_over l' (fun y => sum_over l (fun x => f x y)).
Proof.
  induction l as [|x l IH]; simpl.
  - symmetry; apply sum_over_zero; reflexivity.
  - rewrite IH, <- sum_over_plus; reflexivity.
Qed.

Lemma sum_over_ind (K : list vertex) (k : vertex) (c : Z) :
  NoDup K ->
  sum_over K (fun x => if Z.eqb x k then c else 0) = if memZ k K then c else 0.
Proof.
  induction 1 as [|x K Hx Hnd IH]; simpl; [reflexivity|].
  rewrite IH; rewrite (Z.eqb_sym k x).
  destruct (Z.eqb_spec x k) as [->|Hne]; simpl; [|lia].
  apply memZ_false in Hx; rewrite Hx; lia.
Qed.

(** A sum over the entries of a dict is a sum over any duplicate-free list
    that holds its keys. *)
Lemma sum_over_dict {X : Type} (nb : dict X) (K : list vertex)
      (g : vertex -> X -> Z) :
  NoDup (keys nb) -> NoDup K -> incl (keys nb) K ->
  sum_over nb (fun vx => g (fst vx) (snd vx))
  = sum_over K (fun v => match get nb v with
                         | Some x => g v x
                         | None => 0
                         end).
Proof.
  induction nb as [|[v0 x0] nb IH]; intros Hnd HK Hincl.
  - simpl; symmetry; apply sum_over_zero; reflexivity.
  - inversion Hnd; subst.
    simpl sum_over at 1; rewrite IH; auto.
    2:{ intros v Hv; apply Hincl; right; exact Hv. }
    transitivity (sum_over K (fun v => (if Z.eqb v v0 then g v0 x0 else 0)
                                       + match get nb v with
                                         | Some x => g v x
                                         | None => 0
                                         end)).
    + rewrite sum_over_plus, sum_over_ind by exact HK.
      assert (memZ v0 K = true) as ->; [|reflexivity].
      apply memZ_In, Hincl; left; reflexivity.
    + apply sum_over_ext; intros v _; simpl.
      destruct (Z.eqb_spec v v0) as [->|Hne]; [|lia].
      assert (get nb v0 = None) as -> by (apply get_None_keys; assumption).
      lia.
Qed.

Section MatrixFacts.
Variable M : vertex -> vertex -> Z.
Hypothesis Msym : forall u v, M u v = M v u.

(** Twice the sum over the unordered pairs is the sum over the ordered
    pairs plus the diagonal. *)
Lemma upper_symmetric (K : list vertex) :
  2 * upper M K
  = sum_over K (fun u => sum_over K (M u)) + sum_over K (fun u => M u u).
Proof.
  induction K as [|u K IH]; [reflexivity|].
  simpl upper; simpl sum_over.
  rewrite sum_over_plus.
  rewrite (sum_over_ext K (fun x => M x u) (M u)) by (intros; apply Msym).
  lia.
Qed.

Lemma degree_sum_total (K : list vertex) :
  sum_over K (degree_sum M K) = 2 * upper M K.
Proof.
  unfold degree_sum; rewrite sum_over_plus, upper_symmetric; reflexivity.
Qed.
End MatrixFacts.

(** The parity of a sum is the parity of the number of odd terms. *)
Lemma sum_over_parity (K : list vertex) (d : vertex -> Z) :
  Z.even (sum_over K d)
  = Nat.even (length (filter (fun n => Z.odd (d n)) K)).
Proof.
  induction K as [|x K IH]; [reflexivity|].
  simpl sum_over; simpl filter; rewrite Z.even_add, IH.
  rewrite <- Z.negb_odd; destruct (Z.odd (d x)); simpl length.
  - rewrite Nat.even_succ, <- Nat.negb_even.
    destruct (Nat.even (length (filter (fun n => Z.odd (d n)) K))); reflexivity.
  - destruct (Nat.even (length (filter (fun n => Z.odd (d n)) K))); reflexivity.
Qed.

Section AdjacencySums.
Variable X : Type.
Variable f : X -> Z.
Variable a : dict (dict X).
Hypothesis Hwf : wf_adj a.

Lemma entry_sym u v : entry f a u v = entry f a v u.
Proof. unfold entry; rewrite (wf_sym Hwf u v); reflexivity. Qed.

Lemma wf_inner_incl u nb : get a u = Some nb -> incl (keys nb) (keys a).
Proof.
  intros Hu v Hv; apply mem_keys; apply (wf_closed Hwf) with (u := u).
  apply adjacent_iff; exists nb; auto.
Qed.

(** The sum over a row of the dict is the sum of the row of the matrix. *)
Lemma row_sum u nb (p : vertex -> bool) :
  get a u = Some nb ->
  sum_over (filter (fun vx => p (fst vx)) nb) (fun vx => f (snd vx))
  = sum_over (keys a) (fun v => if p v then entry f a u v else 0).
Proof.
  intros Hu; rewrite sum_over_filter.
  rewrite (sum_over_dict nb (K := keys a)
                         (fun v x => if p v then f x else 0)).
  - apply sum_over_ext; intros v _; unfold entry, get2; rewrite Hu.
    destruct (get nb v), (p v); reflexivity.
  - apply (wf_inner Hwf _ Hu).
  - apply (wf_keys Hwf).
  - apply wf_inner_incl with (u := u); exact Hu.
Qed.

Lemma seen_sum_upper (pre : list vertex) (suf : dict (dict X))
      (seen : list vertex) :
  keys a = pre ++ keys suf ->
  (forall n nb, In (n, nb) suf -> get a n = Some nb) ->
  (forall x, In x seen <-> In x pre) ->
  seen_sum f seen suf = upper (entry f a) (keys suf).
Proof.
  revert pre seen; induction suf as [|[n nb] suf IH]; intros pre seen HK Hrows Hseen;
    [reflexivity|].
  change (seen_sum f seen ((n, nb) :: suf))
    with (sum_over (filter (fun vx => negb (memZ (fst vx) seen)) nb)
                   (fun vx => f (snd vx))
          + seen_sum f (n :: seen) suf).
  change (keys ((n, nb) :: suf)) with (n :: keys suf) in *.
  change (upper (entry f a) (n :: keys suf))
    with (sum_over (n :: keys suf) (entry f a n)
          + upper (entry f a) (keys suf)).
  pose proof (wf_keys Hwf) as Hnd; rewrite HK in Hnd.
  f_equal.
  - pose proof (@row_sum n nb (fun v => negb (memZ v seen))
                         (Hrows n nb (or_introl eq_refl))) as R.
    cbv beta in R; rewrite R; clear R.
    rewrite HK; rewrite sum_over_app.
    rewrite sum_over_zero.
    2:{ intros x Hx; apply Hseen, memZ_In in Hx; rewrite Hx; reflexivity. }
    rewrite Z.add_0_l; apply sum_over_ext with (l := n :: keys suf).
    intros x Hx.
    assert (memZ x seen = false) as ->; [|reflexivity].
    apply memZ_false; rewrite Hseen; intros Hin.
    clear - Hnd Hin Hx; induction pre as [|y pre IHp]; [destruct Hin|].
    simpl in Hnd; inversion Hnd; subst; destruct Hin as [->|Hin]; auto.
    apply H1; apply in_or_app; right; exact Hx.
  - apply (IH (pre ++ [n]) (n :: seen)).
    + rewrite HK, <- app_assoc; reflexivity.
    + intros m mb Hin; apply Hrows; right; exact Hin.
    + intros x; simpl; rewrite in_app_iff, Hseen; simpl; tauto.
Qed.

Lemma seen_sum_total : seen_sum f [] a = upper (entry f a) (keys a).
Proof.
  apply seen_sum_upper with (pre := []); auto.
  - intros n nb Hin; apply In_get; [apply (wf_keys Hwf) | exact Hin].
  - intros x; tauto.
Qed.
End AdjacencySums.

Unset Implicit Arguments.

(** ** Degrees and edge sums as matrix sums *)

Lemma row_sum_all {X : Type} (f : X -> Z) (a : dict (dict X)) u nb :
  wf_adj a -> get a u = Some nb ->
  sum_over nb (fun vx => f (snd vx)) = sum_over (keys a) (entry f a u).
Proof.
  intros Hwf Hu.
  rewrite (sum_over_dict nb (K := keys a) (fun _ x => f x)).
  - apply sum_over_ext; intros v _; unfold entry, get2; rewrite Hu; reflexivity.
  - apply (wf_inner Hwf _ Hu).
  - apply (wf_keys Hwf).
  - apply wf_inner_incl with (u := u); auto.
Qed.

Lemma list_sum_Z (l : list nat) : Z.of_nat (list_sum l) = sum_over l Z.of_nat.
Proof.
  induction l as [|x l IH]; [reflexivity|].
  change (list_sum (x :: l)) with (x + list_sum l)%nat.
  change (sum_over (x :: l) Z.of_nat) with (Z.of_nat x + sum_over l Z.of_nat).
  lia.
Qed.

Section GraphSums.
Variable E : Type.
Variable g : Graph E.
Hypothesis Hwf : wf_adj (adj g).

Lemma degree_of_sum n nb :
  get (adj g) n = Some nb ->
  Z.of_nat (degree_of nb n) = degree_sum (entry one (adj g)) (keys (adj g)) n.
Proof.
  intros Hn; unfold degree_of, degree_sum.
  rewrite Nat2Z.inj_add, <- (row_sum_all one _ n nb Hwf Hn).
  unfold one at 1; rewrite sum_over_length; f_equal.
  unfold entry, get2, mem; rewrite Hn; destruct (get nb n); reflexivity.
Qed.

Lemma edges_from_sum (w : E -> Z) (seen : list vertex) (a : dict (dict E)) :
  sum_over (edges_from seen a) (fun e => w (snd e)) = seen_sum w seen a.
Proof.
  revert seen; induction a as [|[n nb] a IH]; intros seen; [reflexivity|].
  change (edges_from seen ((n, nb) :: a))
    with (map (fun vd => (n, fst vd, snd vd))
              (filter (fun vd => negb (memZ (fst vd) seen)) nb)
          ++ edges_from (n :: seen) a).
  rewrite sum_over_app, sum_over_map, IH; reflexivity.
Qed.
End GraphSums.

Section MultiGraphSums.
Variable E : Type.
Variable G : MultiGraph E.
Hypothesis Hwf : wf_adj (madj G).

Lemma mdegree_of_sum n nb :
  get (madj G) n = Some nb ->
  Z.of_nat (mdegree_of nb n)
  = degree_sum (entry count (madj G)) (keys (madj G)) n.
Proof.
  intros Hn; unfold mdegree_of, degree_sum.
  rewrite Nat2Z.inj_add, list_sum_Z, <- (row_sum_all count _ n nb Hwf Hn).
  unfold values; rewrite !sum_over_map; f_equal.
  unfold entry, get2; rewrite Hn; destruct (get nb n); reflexivity.
Qed.

Lemma medges_from_sum (w : E -> Z) (seen : list vertex)
      (a : dict (dict (list E))) :
  sum_over (medges_from seen a) (fun e => w (snd e))
  = seen_sum (fun kd => sum_over kd w) seen a.
Proof.
  revert seen; induction a as [|[n nb] a IH]; intros seen; [reflexivity|].
  change (medges_from seen ((n, nb) :: a))
    with (flat_map (fun vk => map (fun d => (n, fst vk, d)) (snd vk))
                   (filter (fun vk => negb (memZ (fst vk) seen)) nb)
          ++ medges_from (n :: seen) a).
  rewrite sum_over_app, IH.
  change (seen_sum (fun kd => sum_over kd w) seen ((n, nb) :: a))
    with (sum_over (filter (fun vx => negb (memZ (fst vx) seen)) nb)
                   (fun vx => sum_over (snd vx) w)
          + seen_sum (fun kd => sum_over kd w) (n :: seen) a).
  f_equal.
  induction (filter (fun vk => negb (memZ (fst vk) seen)) nb)
    as [|[v kd] l IHl]; [reflexivity|].
  simpl flat_map; rewrite sum_over_app, sum_over_map, IHl; reflexivity.
Qed.
End MultiGraphSums.

Lemma edge_sum_graph (g : Graph base_attrs) :
  wf_adj (adj g) ->
  edge_sum g = upper (entry weight (adj g)) (keys (adj g)).
Proof.
  intros Hwf; unfold edge_sum, edges_data, graph_like, edges.
  rewrite fold_left_sum, edges_from_sum, (seen_sum_total weight Hwf); lia.
Qed.

Lemma edge_sum_multigraph (G : MultiGraph multi_attrs) :
  wf_adj (madj G) ->
  edge_sum G = upper (entry total_weight (madj G)) (keys (madj G)).
Proof.
  intros Hwf; unfold edge_sum, edges_data, multigraph_like, medges.
  rewrite fold_left_sum, medges_from_sum.
  rewrite (seen_sum_total (fun kd => sum_over kd weight) Hwf); unfold total_weight.
  lia.
Qed.

(** ** The handshake lemma *)

Lemma parity_of_nat (n : nat) :
  Z.even (Z.of_nat n) = Nat.even n /\ Z.odd (Z.of_nat n) = Nat.odd n.
Proof.
  induction n as [|n [IH1 IH2]]; [split; reflexivity|].
  rewrite Nat2Z.inj_succ, Z.even_succ, Z.odd_succ, Nat.even_succ, Nat.odd_succ.
  split; assumption.
Qed.

Lemma odd_degree_sum (g : Graph base_attrs) n :
  wf_adj (adj g) -> In n (keys (adj g)) ->
  odd_degree g n = Z.odd (degree_sum (entry one (adj g)) (keys (adj g)) n).
Proof.
  intros Hwf Hn; apply mem_keys, mem_get in Hn; destruct Hn as [nb Hnb].
  unfold odd_degree; rewrite Hnb, <- (degree_of_sum _ g Hwf n nb Hnb).
  symmetry; apply parity_of_nat.
Qed.

Lemma even_number_of_odd_nodes (g : Graph base_attrs) :
  well_formed g = true -> Nat.even (length (odd_nodes g)) = true.
Proof.
  intros H; apply well_formed_spec in H; destruct H as [Hn Hwf].
  unfold odd_nodes; rewrite Hn.
  rewrite (filter_ext_in _ (fun n => Z.odd (degree_sum (entry one (adj g))
                                                        (keys (adj g)) n))).
  2:{ intros n Hin; apply odd_degree_sum; auto. }
  rewrite <- sum_over_parity, degree_sum_total.
  - rewrite Z.even_mul; reflexivity.
  - apply entry_sym; exact Hwf.
Qed.

(** ** Matchings *)

Lemma swap_swap (l : list (vertex * vertex)) : map swap (map swap l) = l.
Proof.
  rewrite map_map; rewrite <- (map_id l) at 2; apply map_ext.
  intros [u v]; reflexivity.
Qed.

Lemma NoDup_swap (l : list (vertex * vertex)) : NoDup l -> NoDup (map swap l).
Proof.
  intros H; apply (NoDup_map_inv swap); rewrite swap_swap; exact H.
Qed.

Lemma filter_split_length {A : Type} (p : A -> bool) (l : list A) :
  length l = (length (filter p l) + length (filter (fun x => negb (p x)) l))%nat.
Proof.
  induction l as [|x l IH]; [reflexivity|].
  simpl; destruct (p x); simpl; lia.
Qed.

Section MatchingFacts.
Variable E : Type.
Variable wt : E -> Z.
Variable G : Graph E.
Variable mate : dict vertex.
Hypothesis Hmate : is_matching G mate = true.

Lemma mate_keys : NoDup (keys mate).
Proof.
  unfold is_matching in Hmate; apply andb_true_iff in Hmate.
  apply nodupb_NoDup; tauto.
Qed.

Lemma mate_entry u v :
  In (u, v) mate -> u <> v /\ has_edge G u v = true /\ In (v, u) mate.
Proof.
  intros Hin; unfold is_matching in Hmate; apply andb_true_iff in Hmate.
  destruct Hmate as [_ H]; rewrite forallb_forall in H.
  specialize (H _ Hin); unfold is_mate_entry in H; simpl in H.
  rewrite !andb_true_iff, negb_true_iff, Z.eqb_neq in H.
  destruct H as [[H1 H2] H3]; splits; auto.
  destruct (get mate v) as [w|] eqn:Ev; [|discriminate].
  apply Z.eqb_eq in H3; subst w; apply get_Some_In; exact Ev.
Qed.

Lemma mate_NoDup : NoDup mate.
Proof. apply (NoDup_map_inv fst); exact mate_keys. Qed.

Lemma mate_swap :
  Permutation (map swap (matched_pairs mate))
              (filter (fun uv => Z.ltb (snd uv) (fst uv)) mate).
Proof.
  apply NoDup_Permutation.
  - apply NoDup_swap, NoDup_filter, mate_NoDup.
  - apply NoDup_filter, mate_NoDup.
  - intros [u v]; unfold matched_pairs; rewrite in_map_iff, filter_In; split.
    + intros [[x y] [Heq Hin]]; apply filter_In in Hin.
      destruct Hin as [Hin Hlt]; simpl in *.
      unfold swap in Heq; simpl in Heq; inversion Heq; subst.
      split; [apply (mate_entry _ _ Hin) | exact Hlt].
    + intros [Hin Hlt]; exists (v, u); split; [reflexivity|].
      apply filter_In; split; [apply (mate_entry _ _ Hin) | exact Hlt].
Qed.

Lemma mate_other_half :
  filter (fun uv => negb (Z.ltb (fst uv) (snd uv))) mate
  = filter (fun uv => Z.ltb (snd uv) (fst uv)) mate.
Proof.
  apply filter_ext_in; intros [u v] Hin; simpl.
  destruct (mate_entry _ _ Hin) as [Hne _].
  destruct (Z.ltb_spec u v), (Z.ltb_spec v u); simpl; auto; lia.
Qed.

Lemma mate_length : (length mate = 2 * length (matched_pairs mate))%nat.
Proof.
  rewrite (filter_split_length (fun uv => Z.ltb (fst uv) (snd uv)) mate).
  rewrite mate_other_half, <- (Permutation_length mate_swap), length_map.
  unfold matched_pairs; lia.
Qed.

(** Over the matched pairs, each vertex is an endpoint once if it is
    matched and never if it is not. *)
Lemma mate_endpoints n :
  sum_over (matched_pairs mate) (fun uv => ind n (fst uv) + ind n (snd uv))
  = if mem n mate then 1 else 0.
Proof.
  rewrite sum_over_plus.
  assert (E2 : sum_over (matched_pairs mate) (fun uv => ind n (snd uv))
               = sum_over (filter (fun uv => Z.ltb (snd uv) (fst uv)) mate)
                          (fun uv => ind n (fst uv))).
  { rewrite <- (sum_over_perm (fun uv => ind n (fst uv)) mate_swap).
    rewrite sum_over_map; reflexivity. }
  rewrite E2; unfold matched_pairs; rewrite !sum_over_filter, <- sum_over_plus.
  transitivity (sum_over mate (fun uv => ind n (fst uv))).
  - apply sum_over_ext; intros [u v] Hin; simpl.
    destruct (mate_entry _ _ Hin) as [Hne _].
    destruct (Z.ltb_spec u v), (Z.ltb_spec v u); lia.
  - rewrite <- (sum_over_map fst mate (ind n)).
    change (map fst mate) with (keys mate).
    unfold ind; rewrite (sum_over_ext _ _ (fun x => if Z.eqb x n then 1 else 0)).
    2:{ intros x _; rewrite Z.eqb_sym; reflexivity. }
    rewrite sum_over_ind by exact mate_keys.
    unfold mem; destruct (memZ n (keys mate)) eqn:Em.
    + apply memZ_In, mem_keys in Em; unfold mem in Em.
      destruct (get mate n); [reflexivity | discriminate].
    + apply memZ_false, mem_false_keys in Em; unfold mem in Em.
      destruct (get mate n); [discriminate | reflexivity].
Qed.

(** In a complete graph on an even number of nodes the enumeration holds a
    perfect matching. *)
Lemma matchings_perfect :
  forall k fuel ns,
    NoDup ns -> length ns = (2 * k)%nat -> (length ns <= fuel)%nat ->
    (forall x y, In x ns -> In y ns -> x <> y -> has_edge G x y = true) ->
    exists M, In M (matchings G fuel ns) /\ length M = k.
Proof.
  induction k as [|k IH]; intros fuel ns Hnd Hlen Hfuel Hcomplete.
  - destruct ns; [|discriminate].
    exists []; split; [destruct fuel; left; reflexivity | reflexivity].
  - destruct ns as [|x [|y rest]]; try (simpl in Hlen; lia).
    destruct fuel as [|fuel]; [simpl in Hfuel; lia|].
    inversion Hnd as [|? ? Hx Hnd']; subst.
    inversion Hnd' as [|? ? Hy Hnd'']; subst.
    destruct (IH fuel rest) as [M [HM HlM]]; auto.
    + simpl in Hlen; lia.
    + simpl in Hfuel; lia.
    + intros a b Ha Hb; apply Hcomplete; right; right; assumption.
    + exists ((x, y) :: M); split; [|simpl; lia].
      change (matchings G (S fuel) (x :: y :: rest))
        with (matchings G fuel (y :: rest)
              ++ flat_map
                   (fun z => if has_edge G x z
                             then map (cons (x, z))
                                      (matchings G fuel (drop z (y :: rest)))
                             else [])
                   (y :: rest)).
      apply in_or_app; right; apply in_flat_map; exists y.
      split; [left; reflexivity|].
      rewrite Hcomplete; [|left; reflexivity | right; left; reflexivity |].
      2:{ intros ->; apply Hx; left; reflexivity. }
      apply in_map.
      assert (drop y (y :: rest) = rest) as ->; [|exact HM].
      unfold drop; simpl; rewrite Z.eqb_refl; simpl.
      clear - Hy; induction rest as [|z rest IHr]; [reflexivity|].
      simpl; destruct (Z.eqb_spec z y) as [->|Hne].
      * exfalso; apply Hy; left; reflexivity.
      * simpl; f_equal; apply IHr; intros H; apply Hy; right; exact H.
Qed.

Hypothesis Hbest : forallb (no_better wt G mate) (all_matchings G) = true.
Hypothesis Hnodes : nodes G = keys (adj G).
Hypothesis Hnd : NoDup (nodes G).
Hypothesis Hcomplete :
  forall x y, In x (nodes G) -> In y (nodes G) -> x <> y ->
              has_edge G x y = true.
Hypothesis Heven : Nat.even (length (nodes G)) = true.

(** A matching of greatest cardinality is then perfect. *)
Lemma mate_perfect n : In n (nodes G) -> In n (keys mate).
Proof.
  apply Nat.even_spec in Heven; destruct Heven as [k Hk].
  destruct (matchings_perfect k (length (nodes G)) (nodes G))
    as [M [HM HlM]]; auto.
  rewrite forallb_forall in Hbest; specialize (Hbest M HM).
  unfold no_better in Hbest; rewrite HlM in Hbest.
  assert (Hc : (k <= length (matched_pairs mate))%nat).
  { apply orb_true_iff in Hbest; destruct Hbest as [H|H].
    - apply Nat.ltb_lt in H; lia.
    - apply andb_true_iff in H; destruct H as [H _].
      apply Nat.eqb_eq in H; lia. }
  apply (NoDup_length_incl mate_keys).
  - unfold keys at 1; rewrite length_map, mate_length; lia.
  - intros u Hu; unfold keys in Hu; apply in_map_iff in Hu.
    destruct Hu as [[u' v] [Heq Hin]]; simpl in Heq; subst u'.
    destruct (mate_entry _ _ Hin) as [_ [He _]].
    rewrite Hnodes; apply mem_keys; eapply adjacent_mem; exact He.
Qed.
End MatchingFacts.

(** ** MultiGraph.add_edge *)

Lemma same_edge_sym u v x y : same_edge u v x y = same_edge u v y x.
Proof.
  unfold same_edge.
  destruct (Z.eqb x u), (Z.eqb y v), (Z.eqb x v), (Z.eqb y u); reflexivity.
Qed.

Section MultiAddEdgeFacts.
Variable E : Type.
Implicit Types g : MultiGraph E.

Lemma mtouch_keys g n :
  keys (mnode g) = keys (madj g) ->
  keys (mnode (mtouch g n)) = keys (madj (mtouch g n)).
Proof.
  intros H; unfold mtouch; destruct (mem n (mnode g)) eqn:Em; [exact H|].
  simpl; rewrite !keys_set, Em.
  assert (mem n (madj g) = false) as ->; [|congruence].
  apply mem_false_keys; rewrite <- H; apply mem_false_keys; exact Em.
Qed.

Lemma mtouch_present g n : mem n (mnode g) = true -> mtouch g n = g.
Proof. intros H; unfold mtouch; rewrite H; reflexivity. Qed.

Lemma mtouch_adj_keys g n :
  keys (mnode g) = keys (madj g) ->
  keys (madj (mtouch g n))
  = if mem n (madj g) then keys (madj g) else keys (madj g) ++ [n].
Proof.
  intros H; unfold mtouch.
  assert (Em : mem n (mnode g) = mem n (madj g)).
  { destruct (mem n (madj g)) eqn:Ea.
    - apply mem_keys; rewrite H; apply mem_keys; exact Ea.
    - apply mem_false_keys; rewrite H; apply mem_false_keys; exact Ea. }
  rewrite Em; destruct (mem n (madj g)) eqn:Ea; [reflexivity|].
  simpl; apply keys_set_new; exact Ea.
Qed.

Lemma mtouch_mem g n m :
  keys (mnode g) = keys (madj g) ->
  mem m (madj (mtouch g n)) = (Z.eqb m n || mem m (madj g))%bool.
Proof.
  intros H; unfold mtouch; destruct (mem n (mnode g)) eqn:Em; simpl.
  - destruct (Z.eqb_spec m n) as [->|]; [|reflexivity].
    simpl; apply mem_keys; rewrite <- H; apply mem_keys; exact Em.
  - apply mem_set.
Qed.

Lemma mtouch_get g n x :
  keys (mnode g) = keys (madj g) ->
  get (madj (mtouch g n)) x
  = if (Z.eqb x n && negb (mem n (madj g)))%bool then Some []
    else get (madj g) x.
Proof.
  intros H; unfold mtouch.
  assert (Em : mem n (mnode g) = mem n (madj g)).
  { destruct (mem n (madj g)) eqn:Ea.
    - apply mem_keys; rewrite H; apply mem_keys; exact Ea.
    - apply mem_false_keys; rewrite H; apply mem_false_keys; exact Ea. }
  rewrite Em; destruct (mem n (madj g)); simpl.
  - rewrite andb_false_r; reflexivity.
  - rewrite get_set, andb_true_r; reflexivity.
Qed.

Lemma mtouch_get2 g n x y :
  keys (mnode g) = keys (madj g) ->
  get2 (madj (mtouch g n)) x y = get2 (madj g) x y.
Proof.
  intros H; unfold get2; rewrite mtouch_get by exact H.
  destruct (Z.eqb_spec x n) as [->|]; simpl; [|reflexivity].
  unfold mem; destruct (get (madj g) n); reflexivity.
Qed.

Lemma mset_adj_node g u v kd : mnode (mset_adj g u v kd) = mnode g.
Proof. unfold mset_adj; destruct (get (madj g) u); reflexivity. Qed.

Lemma mset_adj_keys g u v kd :
  keys (madj (mset_adj g u v kd)) = keys (madj g).
Proof.
  unfold mset_adj; destruct (get (madj g) u) eqn:Eu; [|reflexivity].
  simpl; apply keys_set_mem; apply mem_get; eauto.
Qed.

Lemma mset_adj_get g u v kd x :
  get (madj (mset_adj g u v kd)) x
  = match get (madj g) u with
    | Some nb => if Z.eqb x u then Some (set nb v kd) else get (madj g) x
    | None => get (madj g) x
    end.
Proof.
  unfold mset_adj; destruct (get (madj g) u) as [nb|]; [|reflexivity].
  simpl; apply get_set.
Qed.

Lemma mset_adj_get2 g u v kd x y :
  mem u (madj g) = true ->
  get2 (madj (mset_adj g u v kd)) x y
  = if (Z.eqb x u && Z.eqb y v)%bool then Some kd else get2 (madj g) x y.
Proof.
  intros Hu; apply mem_get in Hu; destruct Hu as [nb Hnb].
  unfold get2; rewrite mset_adj_get, Hnb.
  destruct (Z.eqb_spec x u) as [->|]; simpl; [|reflexivity].
  rewrite Hnb, get_set; reflexivity.
Qed.

Lemma mset_adj_mem g u v kd m :
  mem m (madj (mset_adj g u v kd)) = mem m (madj g).
Proof.
  destruct (mem m (madj g)) eqn:Em.
  - apply mem_keys; rewrite mset_adj_keys; apply mem_keys; exact Em.
  - apply mem_false_keys; rewrite mset_adj_keys; apply mem_false_keys.
    exact Em.
Qed.

Lemma mset_adj_inner g u v kd :
  (forall x nb, get (madj g) x = Some nb -> NoDup (keys nb)) ->
  forall x nb, get (madj (mset_adj g u v kd)) x = Some nb -> NoDup (keys nb).
Proof.
  intros H x nb; rewrite mset_adj_get.
  destruct (get (madj g) u) as [nbu|] eqn:Eu; [|apply H].
  destruct (Z.eqb_spec x u) as [->|]; [|apply H].
  intros Heq; inversion Heq; apply NoDup_keys_set; eapply H; eauto.
Qed.

Lemma mtouch_inner g n :
  keys (mnode g) = keys (madj g) ->
  (forall x nb, get (madj g) x = Some nb -> NoDup (keys nb)) ->
  forall x nb, get (madj (mtouch g n)) x = Some nb -> NoDup (keys nb).
Proof.
  intros K H x nb; rewrite mtouch_get by exact K.
  destruct (Z.eqb x n && negb (mem n (madj g)))%bool; [|apply H].
  intros Heq; inversion Heq; constructor.
Qed.

Variable g : MultiGraph E.
Variables u v : vertex.
Variable d : E.
Hypothesis Hkeys : keys (mnode g) = keys (madj g).

Lemma madd_edge_keys :
  keys (mnode (madd_edge g u v d)) = keys (madj (madd_edge g u v d)).
Proof.
  unfold madd_edge; rewrite !mset_adj_node, !mset_adj_keys.
  apply mtouch_keys, mtouch_keys, Hkeys.
Qed.

Lemma madd_edge_node_present :
  mem u (madj g) = true -> mem v (madj g) = true ->
  mnode (madd_edge g u v d) = mnode g
  /\ keys (madj (madd_edge g u v d)) = keys (madj g).
Proof.
  intros Hu Hv.
  assert (Hu' : mem u (mnode g) = true)
    by (apply mem_keys; rewrite Hkeys; apply mem_keys; exact Hu).
  assert (Hv' : mem v (mnode g) = true)
    by (apply mem_keys; rewrite Hkeys; apply mem_keys; exact Hv).
  unfold madd_edge; rewrite !mset_adj_node, !mset_adj_keys.
  rewrite (mtouch_present g u Hu'), (mtouch_present g v Hv'); auto.
Qed.

Lemma madd_edge_mem m :
  mem m (madj (madd_edge g u v d))
  = (Z.eqb m u || Z.eqb m v || mem m (madj g))%bool.
Proof.
  unfold madd_edge; rewrite !mset_adj_mem.
  rewrite mtouch_mem by (apply mtouch_keys; exact Hkeys).
  rewrite mtouch_mem by exact Hkeys.
  destruct (Z.eqb m u), (Z.eqb m v); reflexivity.
Qed.

Lemma madd_edge_get2 x y :
  get2 (madj (madd_edge g u v d)) x y
  = if same_edge u v x y then Some (extended g u v d)
    else get2 (madj g) x y.
Proof.
  unfold madd_edge, keydict, same_edge.
  assert (H1 : keys (mnode (mtouch g u)) = keys (madj (mtouch g u)))
    by (apply mtouch_keys; exact Hkeys).
  rewrite mset_adj_get2.
  2:{ rewrite mset_adj_mem, mtouch_mem, Z.eqb_refl by exact H1; reflexivity. }
  rewrite mset_adj_get2.
  2:{ rewrite mtouch_mem, mtouch_mem, Z.eqb_refl by assumption.
      apply orb_true_r. }
  rewrite !mtouch_get2 by assumption.
  change (match get (madj (mtouch (mtouch g u) v)) u with
          | Some nb => get nb v
          | None => None
          end) with (get2 (madj (mtouch (mtouch g u) v)) u v).
  rewrite !mtouch_get2 by assumption.
  unfold extended.
  destruct (Z.eqb x u && Z.eqb y v)%bool, (Z.eqb x v && Z.eqb y u)%bool;
    reflexivity.
Qed.

Hypothesis Hwf : wf_adj (madj g).

Lemma madd_edge_wf : wf_adj (madj (madd_edge g u v d)).
Proof.
  constructor.
  - unfold madd_edge; rewrite !mset_adj_keys.
    rewrite !mtouch_adj_keys by (try apply mtouch_keys; exact Hkeys).
    pose proof (wf_keys Hwf) as Hnd.
    assert (Hnd1 : NoDup (if mem u (madj g) then keys (madj g)
                          else keys (madj g) ++ [u])).
    { destruct (mem u (madj g)) eqn:Eu; [exact Hnd|].
      apply mem_false_keys in Eu; apply NoDup_app; auto.
      - constructor; [simpl; tauto | constructor].
      - intros x Hx [<-|[]]; auto. }
    rewrite <- (mtouch_adj_keys g u Hkeys) in *.
    destruct (mem v (madj (mtouch g u))) eqn:Ev; [exact Hnd1|].
    apply mem_false_keys in Ev; apply NoDup_app; auto.
    + constructor; [simpl; tauto | constructor].
    + intros x Hx [<-|[]]; auto.
  - unfold madd_edge; apply mset_adj_inner, mset_adj_inner, mtouch_inner.
    + apply mtouch_keys; exact Hkeys.
    + apply mtouch_inner; [exact Hkeys | apply (wf_inner Hwf)].
  - intros x y; rewrite !madd_edge_get2, (same_edge_sym u v x y).
    rewrite (wf_sym Hwf x y); reflexivity.
Qed.

(** The multiplicity and the weight of an entry after the insertion. *)
Lemma madd_edge_entry (f : list E -> Z) (inc : Z) x y :
  (forall kd, f (kd ++ [d]) = f kd + inc) -> f [d] = inc ->
  entry f (madj (madd_edge g u v d)) x y
  = entry f (madj g) x y + (if same_edge u v x y then inc else 0).
Proof.
  intros Hf Hf0; unfold entry; rewrite madd_edge_get2.
  destruct (same_edge u v x y) eqn:Es; [|lia].
  assert (Exy : get2 (madj g) x y = get2 (madj g) u v).
  { unfold same_edge in Es; apply orb_true_iff in Es.
    destruct Es as [H|H]; apply andb_true_iff in H; destruct H as [H1 H2];
      apply Z.eqb_eq in H1, H2; subst; [reflexivity | apply (wf_sym Hwf)]. }
  unfold extended; rewrite Exy.
  destruct (get2 (madj g) u v) as [kd|]; [apply Hf | lia].
Qed.
End MultiAddEdgeFacts.

(** One more edge adds one to the degree of each of its endpoints (two for
    a self-loop) and its weight to the total. *)
Lemma same_edge_row (K : list vertex) (u v n : vertex) (c : Z) :
  NoDup K -> In u K -> In v K ->
  sum_over K (fun y => if same_edge u v n y then c else 0)
  + (if same_edge u v n n then c else 0)
  = c * (ind n u + ind n v).
Proof.
  intros Hnd Hu Hv; unfold same_edge, ind.
  apply memZ_In in Hu, Hv.
  destruct (Z.eqb_spec n u) as [Hnu|Hnu], (Z.eqb_spec n v) as [Hnv|Hnv];
    simpl.
  - rewrite (sum_over_ext K (fun y => if (Z.eqb y v || Z.eqb y u)%bool
                                      then c else 0)
                          (fun y => if Z.eqb y v then c else 0)).
    2:{ intros y _; replace u with v by congruence.
        destruct (Z.eqb y v); reflexivity. }
    rewrite sum_over_ind, Hv by exact Hnd; lia.
  - rewrite (sum_over_ext K (fun y => if (Z.eqb y v || false)%bool
                                      then c else 0)
                          (fun y => if Z.eqb y v then c else 0)).
    2:{ intros y _; destruct (Z.eqb y v); reflexivity. }
    rewrite sum_over_ind, Hv by exact Hnd; lia.
  - rewrite sum_over_ind, Hu by exact Hnd; lia.
  - rewrite sum_over_zero by reflexivity; lia.
Qed.

(** ** nx.MultiGraph(graph) *)

Lemma set_new {V : Type} (d : dict V) (k : vertex) (v : V) :
  mem k d = false -> set d k v = d ++ [(k, v)].
Proof.
  unfold mem; induction d as [|[k' v'] d IH]; simpl; [reflexivity|].
  destruct (Z.eqb_spec k k'); [discriminate|].
  intros H; rewrite IH; auto.
Qed.

Lemma seen_pair_In (x y : vertex) (seen : list (vertex * vertex)) :
  seen_pair (x, y) seen = true <-> In (x, y) seen.
Proof.
  unfold seen_pair; rewrite existsb_exists; simpl; split.
  - intros [[a b] [Hin H]]; simpl in H; apply andb_true_iff in H.
    destruct H as [H1 H2]; apply Z.eqb_eq in H1, H2; subst; exact Hin.
  - intros Hin; exists (x, y); simpl; rewrite !Z.eqb_refl; auto.
Qed.

Section FlatFacts.
Variable X : Type.
Variable a : dict (dict X).
Hypothesis Hwf : wf_adj a.

Lemma In_flat u v d : In (u, v, d) (flat a) <-> get2 a u v = Some d.
Proof.
  unfold flat; rewrite in_flat_map; split.
  - intros [[n nb] [Hn Hin]]; simpl in Hin; apply in_map_iff in Hin.
    destruct Hin as [[w x] [Heq Hw]]; simpl in Heq; inversion Heq; subst.
    apply get2_Some; exists nb; split.
    + apply In_get; [apply (wf_keys Hwf) | exact Hn].
    + apply In_get; [|exact Hw].
      apply (wf_inner Hwf u), In_get; [apply (wf_keys Hwf) | exact Hn].
  - intros H; apply get2_Some in H; destruct H as [nb [Hu Hv]].
    exists (u, nb); split; [apply get_Some_In; exact Hu|].
    simpl; apply in_map_iff; exists (v, d); split; [reflexivity|].
    apply get_Some_In; exact Hv.
Qed.

Lemma flat_functional u v d d' :
  In (u, v, d) (flat a) -> In (u, v, d') (flat a) -> d = d'.
Proof. rewrite !In_flat; congruence. Qed.
End FlatFacts.

Lemma NoDup_flat {X : Type} (a : dict (dict X)) :
  wf_adj a -> NoDup (map fst (flat a)).
Proof.
  intros [Hk Hi _]; revert Hk Hi; induction a as [|[n nb] a IH]; intros Hk Hi;
    [constructor|].
  unfold flat; simpl flat_map; rewrite map_app; inversion Hk; subst.
  apply NoDup_app.
  - rewrite map_map; simpl.
    assert (Hnb : NoDup (keys nb)).
    { apply (Hi n); simpl; rewrite Z.eqb_refl; reflexivity. }
    clear - Hnb; induction nb as [|[v d] nb IHn]; [constructor|].
    inversion Hnb; subst; simpl; constructor; [|apply IHn; assumption].
    intros Hin; apply in_map_iff in Hin; destruct Hin as [[w x] [Heq Hw]].
    simpl in Heq; inversion Heq; subst.
    apply H1; unfold keys; apply in_map_iff; exists (v, x); auto.
  - apply IH; [assumption|].
    intros u nbu Hu; apply (Hi u); simpl.
    destruct (Z.eqb_spec u n) as [->|]; [|exact Hu].
    exfalso; apply H1; eapply get_Some_keys; eauto.
  - intros [u v] H1' H2'.
    rewrite map_map in H1'; apply in_map_iff in H1'.
    destruct H1' as [[w x] [Heq _]]; simpl in Heq; inversion Heq; subst.
    apply in_map_iff in H2'; destruct H2' as [[[u' v'] d] [Heq' Hin]].
    simpl in Heq'; inversion Heq'; subst.
    apply in_flat_map in Hin; destruct Hin as [[m mb] [Hm Hin]].
    simpl in Hin; apply in_map_iff in Hin; destruct Hin as [[w' x'] [Heq'' _]].
    simpl in Heq''; inversion Heq''; subst.
    apply H1; unfold keys; apply in_map_iff; exists (u, mb); auto.
Qed.

Section ConvertFacts.
Variables E E' : Type.
Variable conv : E -> E'.
Variable g : Graph E.
Hypothesis Hnodes : nodes g = keys (adj g).
Hypothesis Hwf : wf_adj (adj g).

Lemma convert_flat (a : dict (dict E)) st :
  fold_left (convert_node conv) a st = fold_left (convert_step conv) (flat a) st.
Proof.
  revert st; induction a as [|[u nb] a IH]; intros st; [reflexivity|].
  unfold flat; simpl flat_map; rewrite fold_left_app; simpl fold_left at 1.
  rewrite IH; f_equal; unfold convert_node; simpl.
  clear; revert st; induction nb as [|[v d] nb IHn]; intros st; [reflexivity|].
  simpl; rewrite IHn; reflexivity.
Qed.

Lemma touch_all (ks pre : list vertex) :
  NoDup (pre ++ ks) ->
  fold_left (@mtouch E') ks
            (mk_multigraph (map (fun k => (k, no_attrs)) pre)
                           (map (fun k => (k, [])) pre))
  = mk_multigraph (map (fun k => (k, no_attrs)) (pre ++ ks))
                  (map (fun k => (k, [])) (pre ++ ks)).
Proof.
  revert pre; induction ks as [|k ks IH]; intros pre Hnd.
  - rewrite app_nil_r; reflexivity.
  - simpl fold_left; unfold mtouch at 2; simpl mnode; simpl madj.
    assert (Hk : ~ In k pre).
    { apply NoDup_remove_2 in Hnd; intros H; apply Hnd, in_or_app; auto. }
    assert (Em : forall V (v : V), mem k (map (fun k => (k, v)) pre) = false).
    { intros V v; apply mem_false_keys; unfold keys; rewrite map_map; simpl.
      rewrite map_id; exact Hk. }
    rewrite Em, !set_new by apply Em.
    replace (pre ++ k :: ks) with ((pre ++ [k]) ++ ks)
      by (rewrite <- app_assoc; reflexivity).
    rewrite <- IH by (rewrite <- app_assoc; exact Hnd).
    rewrite !map_app; reflexivity.
Qed.

Let target := copied conv (adj g).

(** What holds after the entries [P] of the double loop. *)
Let inv (P : list (vertex * vertex * E))
    (st : MultiGraph E' * list (vertex * vertex)) : Prop :=
  keys (mnode (fst st)) = keys (madj (fst st))
  /\ keys (madj (fst st)) = keys (adj g)
  /\ wf_adj (madj (fst st))
  /\ (forall x y kd, get2 (madj (fst st)) x y = Some kd ->
                     (exists d, In (x, y, d) P \/ In (y, x, d) P)
                     /\ target x y = Some kd)
  /\ (forall x y d, In (x, y, d) P \/ In (y, x, d) P ->
                    get2 (madj (fst st)) x y = target x y)
  /\ (forall x y, In (x, y) (snd st) -> exists d, In (y, x, d) P)
  /\ (forall x y d, In (y, x, d) P -> (forall d', ~ In (x, y, d') P) ->
                    In (x, y) (snd st)).

Lemma target_sym x y : target x y = target y x.
Proof. unfold target, copied; rewrite (wf_sym Hwf x y); reflexivity. Qed.

Lemma convert_step_inv P u v d R st :
  flat (adj g) = P ++ (u, v, d) :: R -> inv P st ->
  inv (P ++ [(u, v, d)]) (convert_step conv st (u, v, d)).
Proof.
  intros HF (K1 & K2 & W & E1 & E2 & S1 & S2).
  assert (Hin : In (u, v, d) (flat (adj g)))
    by (rewrite HF; apply in_or_app; right; left; reflexivity).
  assert (Huv : get2 (adj g) u v = Some d) by (apply In_flat; assumption).
  assert (Hfresh : forall d', ~ In (u, v, d') P).
  { intros d' Hd'; pose proof (NoDup_flat (adj g) Hwf) as Hnd.
    rewrite HF, map_app in Hnd; simpl in Hnd.
    apply NoDup_remove_2 in Hnd; apply Hnd, in_or_app; left.
    apply in_map_iff; exists (u, v, d'); auto. }
  assert (Htu : target u v = Some [conv d])
    by (unfold target, copied; rewrite Huv; reflexivity).
  unfold convert_step, convert_edge; simpl fst; simpl snd.
  destruct (seen_pair (u, v) (snd st)) eqn:Es.
  - apply seen_pair_In, S1 in Es; destruct Es as [d' Hd'].
    unfold inv; splits; auto.
    + intros x y kd Hg; destruct (E1 x y kd Hg) as [[d0 H0] Ht]; split; auto.
      exists d0; destruct H0; [left | right]; apply in_or_app; auto.
    + intros x y d0 H0; rewrite !in_app_iff in H0; simpl in H0.
      destruct H0 as [[H0|[H0|[]]]|[H0|[H0|[]]]];
        try (apply (E2 x y d0); auto; fail);
        inversion H0; subst; apply (E2 _ _ d'); auto.
    + intros x y Hs; destruct (S1 x y Hs) as [d0 H0]; exists d0.
      apply in_or_app; auto.
    + intros x y d0 H0 Hn; apply in_app_or in H0.
      destruct H0 as [H0|[H0|[]]].
      * apply (S2 x y d0 H0); intros d1 H1; apply (Hn d1), in_or_app; auto.
      * inversion H0; subst; exfalso; apply (Hn d'), in_or_app; auto.
  - assert (Hnone : get2 (madj (fst st)) u v = None).
    { destruct (get2 (madj (fst st)) u v) as [kd|] eqn:Eg; [|reflexivity].
      destruct (E1 u v kd Eg) as [[d0 [H0|H0]] _].
      - exfalso; apply (Hfresh d0 H0).
      - apply (S2 u v d0 H0), seen_pair_In in Hfresh; congruence. }
    assert (Hu : mem u (madj (fst st)) = true).
    { apply mem_keys; rewrite K2; apply mem_keys.
      eapply adjacent_mem, adjacent_get2; eauto. }
    assert (Hv : mem v (madj (fst st)) = true).
    { apply mem_keys; rewrite K2; apply mem_keys.
      apply (wf_closed Hwf u v), adjacent_get2; eauto. }
    destruct (madd_edge_node_present E' (fst st) u v (conv d) K1 Hu Hv)
      as [N1 N2].
    assert (Hget : forall x y,
               get2 (madj (madd_edge (fst st) u v (conv d))) x y
               = if same_edge u v x y then Some [conv d]
                 else get2 (madj (fst st)) x y).
    { intros x y; rewrite madd_edge_get2 by exact K1.
      unfold extended; rewrite Hnone; reflexivity. }
    assert (Hsame : forall x y, same_edge u v x y = true ->
                                target x y = Some [conv d]).
    { intros x y H; unfold same_edge in H; apply orb_true_iff in H.
      destruct H as [H|H]; apply andb_true_iff in H; destruct H as [H1 H2];
        apply Z.eqb_eq in H1, H2; subst; [|rewrite target_sym]; exact Htu. }
    unfold inv; simpl fst; simpl snd; splits.
    + apply madd_edge_keys; exact K1.
    + rewrite N2; exact K2.
    + apply madd_edge_wf; assumption.
    + intros x y kd; rewrite Hget.
      destruct (same_edge u v x y) eqn:Ese.
      * intros Heq; inversion Heq; subst; split; [|apply Hsame; exact Ese].
        exists d; unfold same_edge in Ese; apply orb_true_iff in Ese.
        destruct Ese as [H|H]; apply andb_true_iff in H; destruct H as [H1 H2];
          apply Z.eqb_eq in H1, H2; subst; [left | right];
          apply in_or_app; right; left; reflexivity.
      * intros Hg; destruct (E1 x y kd Hg) as [[d0 H0] Ht]; split; auto.
        exists d0; destruct H0; [left | right]; apply in_or_app; auto.
    + intros x y d0 H0; rewrite Hget.
      destruct (same_edge u v x y) eqn:Ese; [symmetry; apply Hsame; exact Ese|].
      rewrite !in_app_iff in H0; simpl in H0.
      destruct H0 as [[H0|[H0|[]]]|[H0|[H0|[]]]];
        try (apply (E2 x y d0); auto; fail);
        inversion H0; subst; unfold same_edge in Ese;
        rewrite !Z.eqb_refl in Ese; simpl in Ese;
        try discriminate; rewrite orb_true_r in Ese; discriminate.
    + intros x y [Heq|Hs].
      * inversion Heq; subst; exists d; apply in_or_app; right; left.
        reflexivity.
      * destruct (S1 x y Hs) as [d0 H0]; exists d0; apply in_or_app; auto.
    + intros x y d0 H0 Hn; apply in_app_or in H0.
      destruct H0 as [H0|[H0|[]]].
      * right; apply (S2 x y d0 H0); intros d1 H1.
        apply (Hn d1), in_or_app; auto.
      * inversion H0; subst; left; reflexivity.
Qed.

Lemma convert_loop_inv R :
  forall P st, flat (adj g) = P ++ R -> inv P st ->
               inv (flat (adj g)) (fold_left (convert_step conv) R st).
Proof.
  induction R as [|[[u v] d] R IH]; intros P st HF Hinv.
  - rewrite app_nil_r in HF; rewrite HF; exact Hinv.
  - simpl fold_left; apply (IH (P ++ [(u, v, d)])).
    + rewrite <- app_assoc; exact HF.
    + eapply convert_step_inv; eauto.
Qed.

(** The copy has the nodes of the graph and, for each pair of neighbours,
    a key dict with the one copied edge. *)
Lemma to_multigraph_spec :
  mnode (to_multigraph conv g) = node g
  /\ keys (madj (to_multigraph conv g)) = keys (adj g)
  /\ wf_adj (madj (to_multigraph conv g))
  /\ forall x y, get2 (madj (to_multigraph conv g)) x y = target x y.
Proof.
  unfold to_multigraph; simpl mnode; simpl madj.
  rewrite convert_flat.
  pose proof (touch_all (keys (adj g)) [] (wf_keys Hwf)) as H0.
  simpl in H0; change (mk_multigraph [] []) with (@mempty E') in H0.
  rewrite H0; clear H0.
  set (g0 := mk_multigraph (map (fun k => (k, no_attrs)) (keys (adj g)))
                           (map (fun k => (k, @nil (vertex * list E')))
                                (keys (adj g)))).
  assert (K0 : keys (madj g0) = keys (adj g)).
  { unfold g0, keys; simpl; rewrite map_map; simpl; apply map_id. }
  assert (G0 : forall x y, get2 (madj g0) x y = None).
  { intros x y; unfold get2; destruct (get (madj g0) x) as [nb|] eqn:Ex;
      [|reflexivity].
    apply get_Some_In in Ex; unfold g0 in Ex; simpl in Ex.
    apply in_map_iff in Ex; destruct Ex as [k [Heq _]].
    inversion Heq; reflexivity. }
  assert (Hinv0 : inv [] (g0, [])).
  { unfold inv; simpl fst; simpl snd; splits.
    - unfold g0, keys; simpl; rewrite !map_map; reflexivity.
    - exact K0.
    - constructor.
      + rewrite K0; apply (wf_keys Hwf).
      + intros u nb Hu; apply get_Some_In in Hu; unfold g0 in Hu.
        simpl in Hu; apply in_map_iff in Hu; destruct Hu as [k [Heq _]].
        inversion Heq; constructor.
      + intros u v; rewrite !G0; reflexivity.
    - intros x y kd; rewrite G0; discriminate.
    - intros x y d [[]|[]].
    - intros x y [].
    - intros x y d []. }
  pose proof (convert_loop_inv (flat (adj g)) [] (g0, []) eq_refl Hinv0)
    as (K1 & K2 & W & E1 & E2 & _).
  splits; auto.
  intros x y.
  destruct (target x y) as [kd|] eqn:Et.
  - rewrite <- Et; unfold target, copied in Et.
    destruct (get2 (adj g) x y) as [d|] eqn:Eg; [|discriminate].
    apply (E2 x y d); left; apply In_flat; assumption.
  - destruct (get2 (madj (fst (fold_left (convert_step conv) (flat (adj g))
                                         (g0, [])))) x y) as [kd|] eqn:Eg;
      [|reflexivity].
    destruct (E1 x y kd Eg) as [_ Ht]; congruence.
Qed.
End ConvertFacts.

(** ** Connectivity *)

Section ConnectedFacts.
Variable X : Type.
Variable a : dict (dict X).
Hypothesis Hwf : wf_adj a.

Lemma is_connected_reachable :
  is_connected_adj a (keys a) = Ok true ->
  forall u v, In u (keys a) -> In v (keys a) -> reachable a u v.
Proof.
  unfold is_connected_adj; destruct (keys a) as [|n0 ns] eqn:Ek;
    [discriminate|].
  assert (H0 : mem n0 a = true)
    by (apply mem_keys; rewrite Ek; left; reflexivity).
  destruct (shortest_path_length_spec (wf_closed Hwf) n0 H0)
    as [seen [Es [Hnd Hreach]]].
  rewrite Es; simpl; intros Hlen; inversion Hlen as [Hl]; clear Hlen.
  apply Nat.eqb_eq in Hl.
  assert (Hall : forall v, In v (n0 :: ns) -> reachable a n0 v).
  { intros v Hv; apply Hreach.
    apply (@NoDup_length_incl _ (keys seen) (n0 :: ns) Hnd); [| |exact Hv].
    - unfold keys at 1; rewrite length_map; simpl; lia.
    - intros x Hx; rewrite <- Ek; apply mem_keys.
      apply (reachable_mem_r (wf_closed Hwf)) with (u := n0).
      apply Hreach; exact Hx. }
  intros u v Hu Hv; apply reachable_trans with (v := n0).
  - apply (reachable_sym (wf_closed Hwf) (wf_adjacent_sym Hwf)); auto.
  - auto.
Qed.

Lemma reachable_is_connected n0 ns :
  keys a = n0 :: ns ->
  (forall v, In v (keys a) -> reachable a n0 v) ->
  is_connected_adj a (keys a) = Ok true.
Proof.
  intros Ek Hall; unfold is_connected_adj; rewrite Ek.
  assert (H0 : mem n0 a = true)
    by (apply mem_keys; rewrite Ek; left; reflexivity).
  destruct (shortest_path_length_spec (wf_closed Hwf) n0 H0)
    as [seen [Es [Hnd Hreach]]].
  rewrite Es; cbn [bind]; f_equal; apply Nat.eqb_eq.
  rewrite <- Ek.
  assert (Hp : Permutation (keys seen) (keys a)).
  { apply NoDup_Permutation; [exact Hnd | apply (wf_keys Hwf) |].
    intros x; rewrite Hreach; split; [|apply Hall].
    intros H; apply mem_keys.
    apply (reachable_mem_r (wf_closed Hwf)) with (u := n0); exact H. }
  apply Permutation_length in Hp; unfold keys in Hp.
  rewrite !length_map in Hp; unfold keys; rewrite length_map; exact Hp.
Qed.
End ConnectedFacts.

(** A walk of an adjacency is a walk of any adjacency that holds its
    edges. *)
Lemma reachable_mono {X Y : Type} (a : dict (dict X)) (b : dict (dict Y)) u v :
  (forall x y, adjacent a x y = true -> adjacent b x y = true) ->
  (forall x, mem x a = true -> mem x b = true) ->
  reachable a u v -> reachable b u v.
Proof.
  intros Hadj Hmem [p [Hh [Hl [Hm Hw]]]]; exists p.
  unfold walk_between; splits; auto.
  clear - Hadj Hw; induction p as [|x p IH]; [reflexivity|].
  destruct p as [|y p]; [reflexivity|].
  change (is_walk a (x :: y :: p))
    with (adjacent a x y && is_walk a (y :: p))%bool in Hw.
  change (is_walk b (x :: y :: p))
    with (adjacent b x y && is_walk b (y :: p))%bool.
  apply andb_true_iff in Hw; destruct Hw as [H1 H2].
  rewrite (Hadj _ _ H1); simpl andb; apply IH; exact H2.
Qed.

(** ** odd_graph *)

Lemma In_keys_get {V : Type} (d : dict V) (k : vertex) :
  In k (keys d) -> exists v, get d k = Some v.
Proof. intros H; apply mem_get, mem_keys; exact H. Qed.

Lemma mod2_odd (d : nat) : Nat.eqb (Nat.modulo d 2) 1 = Nat.odd d.
Proof.
  rewrite <- Nat.bit0_mod, Nat.bit0_odd; destruct (Nat.odd d); reflexivity.
Qed.

Lemma is_odd_spec (g : Graph base_attrs) n :
  In n (keys (adj g)) -> is_odd g n = Ok (odd_degree g n).
Proof.
  intros Hn; apply mem_keys, mem_get in Hn; destruct Hn as [nb Hnb].
  unfold is_odd, degree, nbrs, getitem, odd_degree; rewrite Hnb.
  cbn [bind lookup_or]; rewrite mod2_odd; reflexivity.
Qed.

Lemma filter_m_spec {A : Type} (f : A -> outcome bool) (p : A -> bool)
      (l : list A) :
  (forall x, In x l -> f x = Ok (p x)) -> filter_m f l = Ok (filter p l).
Proof.
  induction l as [|x l IH]; intros H; [reflexivity|].
  simpl; rewrite (H x) by (left; reflexivity).
  rewrite IH by (intros y Hy; apply H; right; exact Hy); simpl.
  destruct (p x); reflexivity.
Qed.

Section TouchFacts.
Variable E : Type.
Implicit Types g : Graph E.

Lemma touch_adj_keys g n :
  keys (node g) = keys (adj g) ->
  keys (adj (touch g n))
  = if mem n (adj g) then keys (adj g) else keys (adj g) ++ [n].
Proof.
  intros H; unfold touch.
  assert (Em : mem n (node g) = mem n (adj g)).
  { destruct (mem n (adj g)) eqn:Ea.
    - apply mem_keys; rewrite H; apply mem_keys; exact Ea.
    - apply mem_false_keys; rewrite H; apply mem_false_keys; exact Ea. }
  rewrite Em; destruct (mem n (adj g)) eqn:Ea; [reflexivity|].
  simpl; apply keys_set_new; exact Ea.
Qed.

Lemma touch_NoDup g n :
  keys (node g) = keys (adj g) -> NoDup (keys (adj g)) ->
  NoDup (keys (adj (touch g n))).
Proof.
  intros H Hnd; rewrite touch_adj_keys by exact H.
  destruct (mem n (adj g)) eqn:Ea; [exact Hnd|].
  apply mem_false_keys in Ea; apply NoDup_app; auto.
  - constructor; [simpl; tauto | constructor].
  - intros x Hx [<-|[]]; auto.
Qed.

Lemma add_edge_NoDup g u v d :
  keys (node g) = keys (adj g) -> NoDup (keys (adj g)) ->
  NoDup (keys (adj (add_edge g u v d))).
Proof.
  intros H Hnd; unfold add_edge; rewrite !set_adj_keys.
  apply touch_NoDup; [apply touch_keys; exact H|].
  apply touch_NoDup; assumption.
Qed.
End TouchFacts.

Section OddGraphFacts.
Variable graph : Graph base_attrs.
Hypothesis Hnodes : nodes graph = keys (adj graph).
Hypothesis Hwf : wf_adj (adj graph).
Hypothesis Hconn : is_connected graph = Ok true.

Let odd := odd_nodes graph.

Lemma odd_nodes_in n : In n odd -> In n (keys (adj graph)).
Proof.
  unfold odd, odd_nodes; rewrite filter_In, Hnodes; tauto.
Qed.

Lemma odd_nodes_NoDup : NoDup odd.
Proof.
  unfold odd, odd_nodes; apply NoDup_filter; rewrite Hnodes.
  apply (wf_keys Hwf).
Qed.

Lemma all_reachable u v :
  In u (keys (adj graph)) -> In v (keys (adj graph)) ->
  reachable (adj graph) u v.
Proof.
  apply is_connected_reachable; auto.
  unfold is_connected in Hconn; rewrite Hnodes in Hconn; exact Hconn.
Qed.

(** What [odd_graph] has built so far. *)
Let built (r : Graph odd_attrs) : Prop :=
  keys (node r) = keys (adj r)
  /\ NoDup (keys (adj r))
  /\ (forall x, In x (keys (adj r)) -> In x odd)
  /\ forall x y d,
      get2 (adj r) x y = Some d ->
      x <> y /\ In x odd /\ In y odd
      /\ walk_between (adj graph) (Z.max x y) (Z.min x y) (o_path d).

Lemma odd_edge_loop u paths lengths :
  In u odd ->
  (forall x p, get paths x = Some p -> walk_between (adj graph) u x p) ->
  (forall v, In v (keys (adj graph)) -> In v (keys paths)) ->
  (forall v, In v (keys (adj graph)) -> In v (keys lengths)) ->
  forall vs r,
    incl vs odd -> built r ->
    exists r',
      for_each vs (odd_edge u paths lengths) r = Ok r'
      /\ built r'
      /\ (forall x y, adjacent (adj r) x y = true ->
                      adjacent (adj r') x y = true)
      /\ (forall v, In v vs -> v < u ->
                    adjacent (adj r') u v = true
                    /\ adjacent (adj r') v u = true).
Proof.
  intros Hu Hpaths Hpk Hlk; induction vs as [|v vs IH]; intros r Hvs Hr.
  - exists r; splits; auto; intros v [].
  - simpl; unfold odd_edge at 1.
    assert (Hv : In v odd) by (apply Hvs; left; reflexivity).
    assert (Hvs' : incl vs odd) by (intros x Hx; apply Hvs; right; exact Hx).
    destruct (Z.leb_spec u v) as [Hle|Hlt].
    + simpl; destruct (IH r Hvs' Hr) as [r' [E [B [M C]]]].
      exists r'; splits; auto.
      intros w [->|Hw] Hwu; [lia | apply C; auto].
    + pose proof (odd_nodes_in v Hv) as Hvk.
      destruct (In_keys_get lengths v (Hlk v Hvk)) as [lv Elv].
      destruct (In_keys_get paths v (Hpk v Hvk)) as [pv Epv].
      unfold getitem; rewrite Elv, Epv; simpl.
      destruct Hr as (K & N & I & S).
      set (r1 := add_edge r u v (mk_odd (- lv) pv)).
      assert (Hg1 : forall x y,
                 get2 (adj r1) x y
                 = if ((Z.eqb x u && Z.eqb y v) || (Z.eqb x v && Z.eqb y u))%bool
                   then Some (mk_odd (- lv) pv) else get2 (adj r) x y).
      { intros x y; apply add_edge_get2; exact K. }
      assert (B1 : built r1).
      { unfold built; splits.
        - apply add_edge_keys; exact K.
        - apply add_edge_NoDup; assumption.
        - intros x Hx; apply mem_keys in Hx; unfold r1 in Hx.
          rewrite add_edge_mem in Hx by exact K.
          apply orb_true_iff in Hx; destruct Hx as [Hx|Hx].
          + apply orb_true_iff in Hx; destruct Hx as [Hx|Hx];
              apply Z.eqb_eq in Hx; subst; assumption.
          + apply I, mem_keys; exact Hx.
        - intros x y d; rewrite Hg1.
          destruct ((Z.eqb x u && Z.eqb y v) || (Z.eqb x v && Z.eqb y u))%bool
                   eqn:Ec; [|apply S].
          intros Heq; inversion Heq; subst d; simpl.
          apply orb_true_iff in Ec; destruct Ec as [H|H];
            apply andb_true_iff in H; destruct H as [H1 H2];
            apply Z.eqb_eq in H1, H2; subst x y.
          + rewrite Z.max_l, Z.min_r by lia; splits; auto; lia.
          + rewrite Z.max_r, Z.min_l by lia; splits; auto; lia. }
      destruct (IH r1 Hvs' B1) as [r' [E [B [M C]]]].
      exists r'; splits; auto.
      * intros x y Hxy; apply M; apply adjacent_get2 in Hxy.
        destruct Hxy as [d Hd]; apply adjacent_get2; rewrite Hg1.
        destruct ((Z.eqb x u && Z.eqb y v) || (Z.eqb x v && Z.eqb y u))%bool;
          eauto.
      * intros w [->|Hw] Hwu; [|apply C; auto].
        split; apply M, adjacent_get2; rewrite Hg1, !Z.eqb_refl; simpl;
          [|rewrite orb_true_r]; eauto.
Qed.

Lemma odd_row_loop :
  forall us r,
    incl us odd -> built r ->
    exists r',
      for_each us (odd_row graph odd) r = Ok r'
      /\ built r'
      /\ (forall x y, adjacent (adj r) x y = true ->
                      adjacent (adj r') x y = true)
      /\ (forall u v, In u us -> In v odd -> v < u ->
                      adjacent (adj r') u v = true
                      /\ adjacent (adj r') v u = true).
Proof.
  induction us as [|u us IH]; intros r Hus Hr.
  - exists r; splits; auto; intros u v [].
  - simpl; unfold odd_row at 1.
    assert (Hu : In u odd) by (apply Hus; left; reflexivity).
    assert (Hus' : incl us odd) by (intros x Hx; apply Hus; right; exact Hx).
    pose proof (odd_nodes_in u Hu) as Huk.
    assert (Hum : mem u (adj graph) = true) by (apply mem_keys; exact Huk).
    destruct (shortest_path_spec (wf_closed Hwf) u Hum)
      as [paths [Ep [_ [Hwalks Hpk]]]].
    destruct (shortest_path_length_spec (wf_closed Hwf) u Hum)
      as [lengths [El [_ Hlk]]].
    unfold shortest_path, shortest_path_length; rewrite Ep, El; simpl.
    destruct (odd_edge_loop u paths lengths Hu Hwalks) with (vs := odd) (r := r)
      as [r1 [E1 [B1 [M1 C1]]]]; auto.
    { intros v Hv; apply Hpk, all_reachable; auto. }
    { intros v Hv; apply Hlk, all_reachable; auto. }
    { intros x Hx; exact Hx. }
    rewrite E1; simpl.
    destruct (IH r1 Hus' B1) as [r' [E [B [M C]]]].
    exists r'; splits; auto.
    intros w v [->|Hw] Hv Hlt; [|apply C; auto].
    destruct (C1 v Hv Hlt); split; apply M; assumption.
Qed.

(** [odd_graph] returns the complete graph on the odd vertices; each edge
    carries a walk of the base graph between its endpoints. *)
Lemma odd_graph_spec :
  exists og,
    odd_graph graph = Ok og
    /\ nodes og = keys (adj og)
    /\ NoDup (nodes og)
    /\ (forall x, In x (nodes og) -> In x odd)
    /\ (forall x y d,
           get2 (adj og) x y = Some d ->
           x <> y /\ In x odd /\ In y odd
           /\ walk_between (adj graph) (Z.max x y) (Z.min x y) (o_path d))
    /\ (forall x y, In x odd -> In y odd -> x <> y ->
                    has_edge og x y = true).
Proof.
  unfold odd_graph.
  rewrite (filter_m_spec (is_odd graph) (odd_degree graph)).
  2:{ intros x Hx; apply is_odd_spec; rewrite <- Hnodes; exact Hx. }
  simpl; fold (odd_nodes graph); fold odd.
  destruct (odd_row_loop odd empty) as [og [E [(K & N & I & S) [_ C]]]].
  - intros x Hx; exact Hx.
  - unfold built; splits; [reflexivity | constructor | intros x [] |].
    intros x y d H; discriminate.
  - exists og; unfold nodes; rewrite K; splits; auto.
    intros x y Hx Hy Hne; unfold has_edge.
    destruct (Z.lt_total x y) as [Hlt|[Heq|Hgt]]; [|contradiction|].
    + apply (C y x); auto.
    + apply (C x y); auto.
Qed.
End OddGraphFacts.

(** ** The augmentation *)

Lemma sum_over_ind_l (K : list vertex) (p : vertex) :
  NoDup K -> In p K -> sum_over K (fun n => ind n p) = 1.
Proof.
  intros Hnd Hp; unfold ind; rewrite sum_over_ind by exact Hnd.
  apply memZ_In in Hp; rewrite Hp; reflexivity.
Qed.

Section IncrementFacts.
Variable E : Type.
Variable G : MultiGraph E.
Variables p q : vertex.
Variable d : E.
Variable f : list E -> Z.
Variable inc : Z.
Hypothesis Hkeys : keys (mnode G) = keys (madj G).
Hypothesis Hwf : wf_adj (madj G).
Hypothesis Hp : In p (keys (madj G)).
Hypothesis Hq : In q (keys (madj G)).
Hypothesis Hf : forall kd, f (kd ++ [d]) = f kd + inc.
Hypothesis Hf0 : f [d] = inc.

Lemma madd_edge_degree_sum n :
  degree_sum (entry f (madj (madd_edge G p q d))) (keys (madj G)) n
  = degree_sum (entry f (madj G)) (keys (madj G)) n
    + inc * (ind n p + ind n q).
Proof.
  unfold degree_sum.
  rewrite (sum_over_ext _ _ (fun y => entry f (madj G) n y
                                      + (if same_edge p q n y then inc else 0))).
  2:{ intros y _; apply madd_edge_entry; assumption. }
  rewrite sum_over_plus, (madd_edge_entry E G p q d Hkeys Hwf f inc n n Hf Hf0).
  pose proof (same_edge_row (keys (madj G)) p q n inc (wf_keys Hwf) Hp Hq).
  lia.
Qed.

Lemma madd_edge_upper :
  upper (entry f (madj (madd_edge G p q d))) (keys (madj G))
  = upper (entry f (madj G)) (keys (madj G)) + inc.
Proof.
  pose proof (madd_edge_wf E G p q d Hkeys Hwf) as Hwf'.
  pose proof (degree_sum_total (entry f (madj (madd_edge G p q d)))
                               (entry_sym f Hwf') (keys (madj G))) as H1.
  pose proof (degree_sum_total (entry f (madj G)) (entry_sym f Hwf)
                               (keys (madj G))) as H2.
  rewrite (sum_over_ext _ _ (fun n => degree_sum (entry f (madj G))
                                                 (keys (madj G)) n
                                      + inc * (ind n p + ind n q))) in H1
    by (intros n _; apply madd_edge_degree_sum).
  rewrite sum_over_plus in H1.
  assert (Hs : sum_over (keys (madj G)) (fun n => inc * (ind n p + ind n q))
               = 2 * inc).
  { rewrite (sum_over_ext _ _ (fun n => inc * ind n p + inc * ind n q))
      by (intros; lia).
    rewrite sum_over_plus.
    assert (Hm : forall r, In r (keys (madj G)) ->
                 sum_over (keys (madj G)) (fun n => inc * ind n r) = inc).
    { intros r Hr; unfold ind.
      rewrite (sum_over_ext _ _ (fun n => if Z.eqb n r then inc else 0))
        by (intros n _; destruct (Z.eqb n r); lia).
      rewrite sum_over_ind by apply (wf_keys Hwf).
      apply memZ_In in Hr; rewrite Hr; reflexivity. }
    rewrite (Hm p Hp), (Hm q Hq); lia. }
  lia.
Qed.
End IncrementFacts.

Lemma count_snoc {E : Type} (d : E) (kd : list E) :
  count (kd ++ [d]) = count kd + 1.
Proof. unfold count; rewrite length_app; simpl; lia. Qed.

Lemma total_weight_snoc (d : multi_attrs) (kd : list multi_attrs) :
  total_weight (kd ++ [d]) = total_weight kd + m_weight d.
Proof.
  unfold total_weight; rewrite sum_over_app; simpl; unfold weight, multi_weight.
  lia.
Qed.

Lemma pairs_cons {A : Type} (u v : A) (p : list A) :
  pairs (u :: v :: p) false = (u, v) :: pairs (v :: p) false.
Proof. simpl; rewrite !app_nil_r; reflexivity. Qed.

Lemma pairs_walk {X : Type} (a : dict (dict X)) (p : list vertex) :
  is_walk a p = true ->
  Forall (fun pq => adjacent a (fst pq) (snd pq) = true) (pairs p false).
Proof.
  induction p as [|u p IH]; [constructor|].
  destruct p as [|v p]; [constructor|].
  rewrite is_walk_cons, pairs_cons; intros H; apply andb_true_iff in H.
  destruct H as [H1 H2]; constructor; [exact H1 | apply IH; exact H2].
Qed.

(** Along a walk from [u] to [v] every vertex is an endpoint an even number
    of times, but for [u] and [v], which are so once more. *)
Lemma endpoints_walk (n u v : vertex) (q : list vertex) :
  last q u = v ->
  exists k, endpoints n (pairs (u :: q) false) = ind n u + ind n v + 2 * k.
Proof.
  revert u; induction q as [|x q IH]; intros u Hl.
  - simpl in Hl; subst v; exists (- ind n u).
    replace (endpoints n (pairs [u] false)) with 0 by reflexivity; lia.
  - rewrite last_cons in Hl; destruct (IH x Hl) as [k Hk].
    rewrite pairs_cons.
    change (endpoints n ((u, x) :: pairs (x :: q) false))
      with (ind n u + ind n x + endpoints n (pairs (x :: q) false)).
    rewrite Hk; exists (k + ind n x); lia.
Qed.

Section AugmentFacts.
Variable graph : Graph base_attrs.
Hypothesis Hwf : wf_adj (adj graph).

Let K := keys (adj graph).

(** The multigraph under construction: the nodes of the base graph, a
    well-formed adjacency. *)
Let shaped (G : MultiGraph multi_attrs) : Prop :=
  keys (mnode G) = keys (madj G) /\ keys (madj G) = K /\ wf_adj (madj G).

(** [G'] is [G] and the edges [es]. *)
Let grown (G G' : MultiGraph multi_attrs) (es : list (vertex * vertex))
  : Prop :=
  shaped G'
  /\ mnode G' = mnode G
  /\ (forall x y, adjacent (madj G) x y = true ->
                  adjacent (madj G') x y = true)
  /\ (forall n, degree_sum (entry count (madj G')) K n
                = degree_sum (entry count (madj G)) K n + endpoints n es)
  /\ upper (entry count (madj G')) K
     = upper (entry count (madj G)) K + Z.of_nat (length es)
  /\ upper (entry total_weight (madj G')) K
     = upper (entry total_weight (madj G)) K
       + sum_over es (fun pq => edge_weight weight graph (fst pq) (snd pq)).

Lemma grown_refl G : shaped G -> grown G G [].
Proof.
  intros H; unfold grown; splits; auto;
    try (intros n; unfold endpoints); simpl; lia.
Qed.

Lemma grown_trans G1 G2 G3 es1 es2 :
  grown G1 G2 es1 -> grown G2 G3 es2 -> grown G1 G3 (es1 ++ es2).
Proof.
  intros (S2 & N2 & A2 & D2 & C2 & W2) (S3 & N3 & A3 & D3 & C3 & W3).
  unfold grown; splits; auto.
  - congruence.
  - intros n; rewrite D3, D2; unfold endpoints; rewrite sum_over_app; lia.
  - rewrite C3, C2, length_app, Nat2Z.inj_add; lia.
  - rewrite W3, W2, sum_over_app; lia.
Qed.

Lemma duplicate_edge_spec G p q :
  shaped G -> adjacent (adj graph) p q = true ->
  exists G', duplicate_edge graph G (p, q) = Ok G' /\ grown G G' [(p, q)].
Proof.
  intros (K1 & K2 & W) Ha.
  pose proof Ha as Hd; apply adjacent_get2 in Hd; destruct Hd as [d Hd].
  pose proof Hd as Hd'; apply get2_Some in Hd'; destruct Hd' as [nb [Hp Hq]].
  unfold duplicate_edge, nbrs, getitem; simpl fst; simpl snd.
  rewrite Hp; simpl; rewrite Hq; simpl.
  eexists; split; [reflexivity|].
  assert (Pk : In p (keys (madj G))).
  { rewrite K2; eapply get_Some_keys; eauto. }
  assert (Qk : In q (keys (madj G))).
  { rewrite K2; apply mem_keys, (wf_closed Hwf p q Ha). }
  destruct (madd_edge_node_present _ G p q (mk_multi (weight d) None) K1)
    as [N1 N2]; try (apply mem_keys; assumption).
  unfold grown, shaped; splits.
  - apply madd_edge_keys; exact K1.
  - rewrite N2; exact K2.
  - apply madd_edge_wf; assumption.
  - exact N1.
  - intros x y Hxy; apply adjacent_get2 in Hxy; destruct Hxy as [kd Hkd].
    apply adjacent_get2; rewrite madd_edge_get2 by exact K1.
    destruct (same_edge p q x y); eauto.
  - intros n; rewrite <- K2.
    rewrite (madd_edge_degree_sum _ G p q _ count 1 K1 W Pk Qk).
    + change (endpoints n [(p, q)]) with (ind n p + ind n q + 0); lia.
    + intros kd; apply count_snoc.
    + reflexivity.
  - rewrite <- K2.
    rewrite (madd_edge_upper _ G p q _ count 1 K1 W Pk Qk).
    + simpl; lia.
    + intros kd; apply count_snoc.
    + reflexivity.
  - rewrite <- K2.
    rewrite (madd_edge_upper _ G p q _ total_weight (weight d) K1 W Pk Qk).
    + simpl; unfold edge_weight; rewrite Hd; lia.
    + intros kd; apply total_weight_snoc.
    + unfold total_weight; simpl; unfold weight at 1, multi_weight; simpl.
      lia.
Qed.

Lemma duplicate_edges_spec es :
  Forall (fun pq => adjacent (adj graph) (fst pq) (snd pq) = true) es ->
  forall G, shaped G ->
  exists G', for_each es (duplicate_edge graph) G = Ok G' /\ grown G G' es.
Proof.
  induction 1 as [|[p q] es Hpq Hes IH]; intros G HG.
  - exists G; split; [reflexivity | apply grown_refl; exact HG].
  - simpl in Hpq; destruct (duplicate_edge_spec G p q HG Hpq) as [G1 [E1 R1]].
    simpl for_each; rewrite E1; simpl bind.
    destruct (IH G1 (proj1 R1)) as [G2 [E2 R2]].
    exists G2; split; [exact E2|].
    apply (grown_trans G G1 G2 [(p, q)] es); assumption.
Qed.

Variable og : Graph odd_attrs.

(** The pairs that the loop over the matching duplicates a path for. *)
Let usable (uv : vertex * vertex) : Prop :=
  fst uv < snd uv ->
  exists e, get2 (adj og) (fst uv) (snd uv) = Some e
            /\ walk_between (adj graph) (snd uv) (fst uv) (o_path e).

Lemma duplicate_path_spec G uv :
  shaped G -> usable uv ->
  exists G' es,
    duplicate_path graph og G uv = Ok G'
    /\ grown G G' es
    /\ (forall n, exists k,
           endpoints n es
           = (if Z.ltb (fst uv) (snd uv)
              then ind n (fst uv) + ind n (snd uv) else 0) + 2 * k)
    /\ sum_over es (fun pq => edge_weight weight graph (fst pq) (snd pq))
       = if Z.ltb (fst uv) (snd uv) then pair_cost graph og uv else 0.
Proof.
  intros HG Huv; unfold duplicate_path.
  destruct (Z.leb_spec (snd uv) (fst uv)) as [Hle|Hlt].
  - exists G, []; splits; auto; [apply grown_refl; exact HG | |].
    + intros n; exists 0; destruct (Z.ltb_spec (fst uv) (snd uv)); [lia|].
      reflexivity.
    + destruct (Z.ltb_spec (fst uv) (snd uv)); [lia | reflexivity].
  - destruct (Huv Hlt) as [e [He Hw]].
    pose proof He as He'; apply get2_Some in He'.
    destruct He' as [ou [Hu Hv]].
    unfold nbrs, getitem; rewrite Hu; cbn [bind lookup_or].
    rewrite Hv; cbn [bind lookup_or].
    pose proof Hw as Hw'; apply walk_between_inv in Hw'.
    destruct Hw' as [q [Eq [Hl [_ Hwalk]]]].
    destruct (duplicate_edges_spec (pairs (o_path e) false)) with (G := G)
      as [G' [E' R']]; auto.
    { apply pairs_walk; rewrite Eq; exact Hwalk. }
    exists G', (pairs (o_path e) false); splits; auto.
    + intros n; rewrite Eq; destruct (endpoints_walk n _ _ q Hl) as [k Hk].
      exists k; rewrite Hk.
      destruct (Z.ltb_spec (fst uv) (snd uv)); lia.
    + destruct (Z.ltb_spec (fst uv) (snd uv)); [|lia].
      unfold pair_cost; rewrite He; reflexivity.
Qed.

Lemma augment_loop l :
  Forall usable l ->
  forall G, shaped G ->
  exists G' es,
    for_each l (duplicate_path graph og) G = Ok G'
    /\ grown G G' es
    /\ (forall n, exists k,
           endpoints n es
           = sum_over (matched_pairs l)
                      (fun uv => ind n (fst uv) + ind n (snd uv))
             + 2 * k)
    /\ sum_over es (fun pq => edge_weight weight graph (fst pq) (snd pq))
       = sum_over (matched_pairs l) (pair_cost graph og).
Proof.
  induction 1 as [|uv l Huv Hl IH]; intros G HG.
  - exists G, []; splits; auto; [apply grown_refl; exact HG|].
    intros n; exists 0; reflexivity.
  - destruct (duplicate_path_spec G uv HG Huv) as [G1 [es1 [E1 [R1 [P1 C1]]]]].
    simpl for_each; rewrite E1; simpl bind.
    destruct (IH G1 (proj1 R1)) as [G2 [es2 [E2 [R2 [P2 C2]]]]].
    exists G2, (es1 ++ es2); splits; auto.
    + apply (grown_trans G G1 G2); assumption.
    + intros n; destruct (P1 n) as [k1 H1], (P2 n) as [k2 H2].
      exists (k1 + k2); unfold endpoints in *; rewrite sum_over_app, H1, H2.
      unfold matched_pairs; simpl filter.
      destruct (Z.ltb (fst uv) (snd uv)); simpl sum_over; lia.
    + rewrite sum_over_app, C1, C2; unfold matched_pairs; simpl filter.
      destruct (Z.ltb (fst uv) (snd uv)); simpl sum_over; lia.
Qed.
End AugmentFacts.

(** ** The pipeline of chinese_postman_path *)

Lemma upper_ext (M M' : vertex -> vertex -> Z) (K : list vertex) :
  (forall x y, M x y = M' x y) -> upper M K = upper M' K.
Proof.
  intros H; induction K as [|u K IH]; [reflexivity|].
  change (upper M (u :: K)) with (sum_over (u :: K) (M u) + upper M K).
  change (upper M' (u :: K)) with (sum_over (u :: K) (M' u) + upper M' K).
  rewrite IH; f_equal; apply sum_over_ext; intros; apply H.
Qed.

Lemma degree_sum_ext (M M' : vertex -> vertex -> Z) (K : list vertex) n :
  (forall x y, M x y = M' x y) -> degree_sum M K n = degree_sum M' K n.
Proof.
  intros H; unfold degree_sum; rewrite H; f_equal.
  apply sum_over_ext; intros; apply H.
Qed.

Section MultiGraphCount.
Variable E : Type.
Variable G : MultiGraph E.
Hypothesis Hwf : wf_adj (madj G).

Lemma medges_length :
  Z.of_nat (length (medges G))
  = upper (entry count (madj G)) (keys (madj G)).
Proof.
  rewrite <- sum_over_length.
  unfold medges.
  rewrite (medges_from_sum E (fun _ => 1) [] (madj G)).
  rewrite (seen_sum_total (fun kd => sum_over kd (fun _ => 1)) Hwf).
  apply upper_ext; intros x y; unfold entry.
  destruct (get2 (madj G) x y); [apply sum_over_length | reflexivity].
Qed.

Lemma msize_length : msize G = length (medges G).
Proof.
  unfold msize.
  assert (H : Z.of_nat (list_sum (map (fun e => mdegree_of (snd e) (fst e))
                                      (madj G)))
              = 2 * Z.of_nat (length (medges G))).
  { rewrite list_sum_Z, sum_over_map, medges_length.
    rewrite <- (degree_sum_total (entry count (madj G)) (entry_sym count Hwf)).
    unfold keys; rewrite sum_over_map; apply sum_over_ext.
    intros [n nb] Hin; simpl.
    apply (mdegree_of_sum E G Hwf), In_get; [apply (wf_keys Hwf) | exact Hin]. }
  apply Nat2Z.inj; rewrite Nat2Z.inj_div, H; simpl Z.of_nat.
  rewrite Z.mul_comm; apply Z.div_mul; lia.
Qed.
End MultiGraphCount.

Lemma edges_length (g : Graph base_attrs) :
  wf_adj (adj g) ->
  Z.of_nat (length (edges g)) = upper (entry one (adj g)) (keys (adj g)).
Proof.
  intros Hwf; rewrite <- sum_over_length; unfold edges.
  rewrite (edges_from_sum base_attrs (fun _ => 1) [] (adj g)).
  rewrite (seen_sum_total (fun _ => 1) Hwf); reflexivity.
Qed.

Section PipelineFacts.
Variable graph : Graph base_attrs.
Hypothesis Hgood : well_formed graph = true.
Hypothesis Hconn : is_connected graph = Ok true.

Lemma copied_count x y :
  entry count (madj (to_multigraph copy_attrs graph)) x y
  = entry one (adj graph) x y.
Proof.
  destruct (well_formed_spec graph Hgood) as [_ Hwf].
  destruct (to_multigraph_spec _ _ copy_attrs graph Hwf) as (_ & _ & _ & T).
  unfold entry; rewrite T; unfold copied.
  destruct (get2 (adj graph) x y); reflexivity.
Qed.

Lemma copied_weight x y :
  entry total_weight (madj (to_multigraph copy_attrs graph)) x y
  = entry weight (adj graph) x y.
Proof.
  destruct (well_formed_spec graph Hgood) as [_ Hwf].
  destruct (to_multigraph_spec _ _ copy_attrs graph Hwf) as (_ & _ & _ & T).
  unfold entry; rewrite T; unfold copied.
  destruct (get2 (adj graph) x y) as [d|]; [|reflexivity].
  unfold total_weight; simpl; unfold weight, multi_weight, base_weight.
  simpl; lia.
Qed.

Lemma In_odd_nodes n :
  In n (odd_nodes graph)
  <-> In n (keys (adj graph)) /\ odd_degree graph n = true.
Proof.
  destruct (well_formed_spec graph Hgood) as [Hn _].
  unfold odd_nodes; rewrite filter_In, Hn; reflexivity.
Qed.

(** What the stages before the circuit produce: the odd-vertex graph, a
    perfect matching of the odd vertices, and the augmented multigraph. *)
Lemma pipeline :
  exists og,
    odd_graph graph = Ok og
    /\ forall mate,
        max_weight_matching_contract weight og mate = true ->
        (forall n, In n (keys mate) <-> In n (odd_nodes graph))
        /\ (forall u v,
               In (u, v) mate ->
               u <> v
               /\ exists e,
                   get2 (adj og) u v = Some e
                   /\ walk_between (adj graph) (Z.max u v) (Z.min u v)
                                   (o_path e))
        /\ exists eg,
            augment graph og mate = Ok eg
            /\ keys (mnode eg) = keys (madj eg)
            /\ keys (madj eg) = keys (adj graph)
            /\ wf_adj (madj eg)
            /\ mnode eg = node graph
            /\ (forall x y, adjacent (adj graph) x y = true ->
                            adjacent (madj eg) x y = true)
            /\ (forall n, In n (keys (adj graph)) ->
                          exists nb, get (madj eg) n = Some nb
                                     /\ Nat.even (mdegree_of nb n) = true)
            /\ edge_sum eg
               = edge_sum graph
                 + sum_over (matched_pairs mate) (pair_cost graph og)
            /\ (length (edges graph) <= length (medges eg))%nat.
Proof.
  destruct (well_formed_spec graph Hgood) as [Hn Hwf].
  destruct (odd_graph_spec graph Hn Hwf Hconn)
    as [og [Eog [Kog [Nog [Iog [Sog Cog]]]]]].
  exists og; split; [exact Eog|].
  intros mate Hc; unfold max_weight_matching_contract in Hc.
  apply andb_true_iff in Hc; destruct Hc as [Hm Hbest].
  pose proof (mate_entry _ og mate Hm) as Hentry.
  assert (Hpairs : forall u v,
             In (u, v) mate ->
             u <> v
             /\ exists e,
                 get2 (adj og) u v = Some e
                 /\ walk_between (adj graph) (Z.max u v) (Z.min u v)
                                 (o_path e)).
  { intros u v Hin; destruct (Hentry u v Hin) as [Hne [He _]].
    split; [exact Hne|].
    apply adjacent_get2 in He; destruct He as [e He]; exists e.
    split; [exact He | apply (Sog u v e He)]. }
  assert (Hsound : forall n, In n (keys mate) -> In n (odd_nodes graph)).
  { intros n Hk; apply In_keys_get in Hk; destruct Hk as [v Hv].
    apply get_Some_In in Hv; destruct (Hpairs n v Hv) as [_ [e [He _]]].
    apply (Sog n v e He). }
  assert (Hperfect : forall n, In n (odd_nodes graph) -> In n (keys mate)).
  { pose proof (even_number_of_odd_nodes graph Hgood) as Hev.
    pose proof (odd_nodes_NoDup graph Hn Hwf) as Hnd.
    assert (Hother : forall n, In n (odd_nodes graph) ->
                               exists m, In m (odd_nodes graph) /\ m <> n).
    { intros n Hin; destruct (odd_nodes graph) as [|a [|b rest]] eqn:Eo.
      - destruct Hin.
      - simpl in Hev; discriminate.
      - inversion Hnd as [|? ? Ha _]; subst.
        destruct (Z.eq_dec n a) as [->|Hna].
        + exists b; split; [right; left; reflexivity|].
          intros ->; apply Ha; left; reflexivity.
        + exists a; split; [left; reflexivity | congruence]. }
    assert (Hin_og : forall n, In n (odd_nodes graph) -> In n (nodes og)).
    { intros n Hin; destruct (Hother n Hin) as [m [Hm' Hne]].
      rewrite Kog; apply mem_keys.
      eapply adjacent_mem; apply (Cog n m); auto. }
    assert (Hperm : Permutation (nodes og) (odd_nodes graph)).
    { apply NoDup_Permutation; auto; intros x; split; auto. }
    intros n Hin.
    apply (mate_perfect _ weight og mate Hm Hbest Kog Nog);
      [ intros x y Hx Hy Hne; apply Cog; auto
      | rewrite (Permutation_length Hperm); exact Hev
      | apply Hin_og; exact Hin ]. }
  split; [intros n; split; auto|].
  split; [exact Hpairs|].
  destruct (to_multigraph_spec _ _ copy_attrs graph Hwf) as (N0 & K0 & W0 & T0).
  set (G0 := to_multigraph copy_attrs graph) in *.
  assert (S0 : keys (mnode G0) = keys (madj G0)).
  { rewrite N0, K0; exact Hn. }
  destruct (augment_loop graph Hwf og mate) with (G := G0)
    as [eg [es [Eeg [(Sh & Nd & Ad & Dg & Cn & Wt) [Pe Ce]]]]].
  { apply Forall_forall; intros [u v] Hin Hlt; simpl in *.
    destruct (Hpairs u v Hin) as [_ [e [He Hw]]]; exists e.
    rewrite Z.max_r, Z.min_l in Hw by lia; auto. }
  { splits; auto. }
  destruct Sh as (K1 & K2 & W1).
  exists eg; splits; auto; try congruence.
  - intros x y Hxy; apply Ad, adjacent_get2.
    apply adjacent_get2 in Hxy; destruct Hxy as [d Hd].
    rewrite T0; unfold copied; rewrite Hd; eauto.
  - intros n Hin.
    assert (Hk : In n (keys (madj eg))) by (rewrite K2; exact Hin).
    apply In_keys_get in Hk; destruct Hk as [nb Hnb]; exists nb.
    split; [exact Hnb|].
    rewrite <- (proj1 (parity_of_nat _)).
    rewrite (mdegree_of_sum _ eg W1 n nb Hnb), K2, Dg.
    rewrite (degree_sum_ext _ (entry one (adj graph)) _ n copied_count).
    destruct (Pe n) as [k Hk]; rewrite Hk.
    rewrite (mate_endpoints _ og mate Hm n).
    pose proof (odd_degree_sum graph n Hwf Hin) as Hodd.
    assert (Hmem : mem n mate = odd_degree graph n).
    { destruct (odd_degree graph n) eqn:Eo.
      - apply mem_keys, Hperfect, In_odd_nodes; auto.
      - apply mem_false_keys; intros Hk'; apply Hsound, In_odd_nodes in Hk'.
        destruct Hk'; congruence. }
    rewrite Hmem, Z.add_assoc, Z.even_add_mul_2, Z.even_add, <- Z.negb_odd.
    rewrite <- Hodd; destruct (odd_degree graph n); reflexivity.
  - rewrite (edge_sum_multigraph eg W1), (edge_sum_graph graph Hwf), K2, Wt.
    rewrite Ce, (upper_ext _ (entry weight (adj graph)) _ copied_weight).
    reflexivity.
  - apply Nat2Z.inj_le.
    rewrite (medges_length _ eg W1), (edges_length graph Hwf), K2, Cn.
    rewrite (upper_ext _ (entry one (adj graph)) _ copied_count); lia.
Qed.
End PipelineFacts.

(** ** The augmented multigraph is Eulerian *)

Lemma mod2_even (d : nat) : Nat.eqb (Nat.modulo d 2) 0 = Nat.even d.
Proof.
  rewrite <- Nat.negb_odd, <- mod2_odd.
  pose proof (Nat.mod_upper_bound d 2 ltac:(lia)) as H.
  destruct (Nat.modulo d 2) as [|[|m]]; try reflexivity; lia.
Qed.

Lemma all_even_spec {E : Type} (G : MultiGraph E) (ns : list vertex) :
  (forall n, In n ns ->
             exists nb, get (madj G) n = Some nb
                        /\ Nat.even (mdegree_of nb n) = true) ->
  all_even G ns = Ok true.
Proof.
  induction ns as [|n ns IH]; intros H; [reflexivity|].
  destruct (H n (or_introl eq_refl)) as [nb [Hnb Hev]].
  change (all_even G (n :: ns))
    with (bind (mdegree G n)
               (fun d => if Nat.eqb (Nat.modulo d 2) 0 then all_even G ns
                         else Ok false)).
  unfold mdegree, getitem; rewrite Hnb; cbn [bind lookup_or].
  rewrite mod2_even, Hev; apply IH; intros m Hm; apply H; right; exact Hm.
Qed.

(** The node sequence that [chinese_postman_path] builds from a closed chain
    has the edges of the chain as its consecutive pairs. *)
Lemma pairs_of_chain (c : list (vertex * vertex)) :
  forall s t, c <> [] -> chain s c t ->
              pairs_loop s (tl (map fst c) ++ [t]) = c.
Proof.
  induction c as [|e c IH]; intros s t Hne Hc; [congruence|].
  destruct Hc as [Hs Hc]; destruct c as [|e' c].
  - simpl in *; subst; destruct e; reflexivity.
  - pose proof Hc as [Hs' _].
    specialize (IH (snd e) t ltac:(discriminate) Hc).
    simpl in *; rewrite Hs'; rewrite IH; subst s; destruct e; reflexivity.
Qed.

Lemma circuit_nodes (c : list (vertex * vertex)) (c0 : vertex * vertex)
      (rest : list (vertex * vertex)) :
  c = c0 :: rest -> closed_chain c ->
  pairs (map fst c ++ [fst c0]) false = c
  /\ hd_error (map fst c ++ [fst c0]) = Some (fst c0)
  /\ last (map fst c ++ [fst c0]) (fst c0) = fst c0.
Proof.
  intros -> Hc; unfold closed_chain in Hc; splits.
  - pose proof (pairs_of_chain (c0 :: rest) (fst c0) (fst c0)
                               ltac:(discriminate) Hc) as H.
    simpl in *; rewrite app_nil_r; exact H.
  - reflexivity.
  - apply last_last.
Qed.

Section EulerianFacts.
Variable graph : Graph base_attrs.
Hypothesis Hgood : well_formed graph = true.
Hypothesis Hconn : is_connected graph = Ok true.
Variable eg : MultiGraph multi_attrs.
Hypothesis K1 : keys (mnode eg) = keys (madj eg).
Hypothesis K2 : keys (madj eg) = keys (adj graph).
Hypothesis W1 : wf_adj (madj eg).
Hypothesis Hadj : forall x y, adjacent (adj graph) x y = true ->
                              adjacent (madj eg) x y = true.
Hypothesis Heven : forall n, In n (keys (adj graph)) ->
                             exists nb, get (madj eg) n = Some nb
                                        /\ Nat.even (mdegree_of nb n) = true.

Lemma augmented_connected : m_is_connected eg = Ok true.
Proof.
  destruct (well_formed_spec graph Hgood) as [Hn Hwf].
  unfold m_is_connected, mnodes; rewrite K1.
  assert (Hne : exists n0 ns, keys (madj eg) = n0 :: ns).
  { destruct (keys (adj graph)) as [|n0 ns] eqn:Ek.
    - exfalso; unfold is_connected, is_connected_adj in Hconn.
      rewrite Hn in Hconn; discriminate.
    - exists n0, ns; exact K2. }
  destruct Hne as [n0 [ns Ek]].
  apply (reachable_is_connected _ (madj eg) W1 n0 ns Ek).
  intros v Hv; apply (reachable_mono (adj graph)); auto.
  - intros x Hx; apply mem_keys; rewrite K2; apply mem_keys; exact Hx.
  - apply (all_reachable graph Hn Hwf Hconn).
    + rewrite <- K2, Ek; left; reflexivity.
    + rewrite <- K2; exact Hv.
Qed.

Lemma augmented_eulerian : is_eulerian eg = Ok true.
Proof.
  unfold is_eulerian; rewrite all_even_spec.
  - simpl; apply augmented_connected.
  - intros n Hn; apply Heven; unfold mnodes in Hn.
    rewrite K1, K2 in Hn; exact Hn.
Qed.
End EulerianFacts.

(** ** Weights of the duplicated paths *)

Section CostFacts.
Variable graph : Graph base_attrs.

Lemma path_weight_sum p :
  path_weight graph p
  = sum_over (pairs p false)
             (fun pq => edge_weight weight graph (fst pq) (snd pq)).
Proof. reflexivity. Qed.

Lemma edge_weight_nonneg u v :
  non_negative graph -> 0 <= edge_weight weight graph u v.
Proof.
  intros H; unfold edge_weight.
  destruct (get2 (adj graph) u v) as [d|] eqn:E; [|lia].
  apply (H u v d E).
Qed.

Lemma path_weight_nonneg p : non_negative graph -> 0 <= path_weight graph p.
Proof.
  intros H; rewrite path_weight_sum; apply sum_over_nonneg.
  intros pq _; apply edge_weight_nonneg; exact H.
Qed.

Lemma positive_non_negative : positive graph -> non_negative graph.
Proof. intros H u v d E; specialize (H u v d E); lia. Qed.

Lemma path_weight_pos u v p :
  positive graph -> walk_between (adj graph) u v p -> u <> v ->
  0 < path_weight graph p.
Proof.
  intros Hpos Hw Hne; apply walk_between_inv in Hw.
  destruct Hw as [q [-> [Hl [_ Hw]]]].
  destruct q as [|x q]; [simpl in Hl; congruence|].
  rewrite is_walk_cons in Hw; apply andb_true_iff in Hw.
  destruct Hw as [Ha _]; rewrite path_weight_cons.
  pose proof (path_weight_nonneg (x :: q) (positive_non_negative Hpos)).
  apply adjacent_get2 in Ha; destruct Ha as [d Hd].
  unfold edge_weight; rewrite Hd; specialize (Hpos u x d Hd).
  unfold weight, base_weight; lia.
Qed.
End CostFacts.

Lemma sum_over_pos {A : Type} (l : list A) (f : A -> Z) :
  l <> [] -> (forall x, In x l -> 0 < f x) -> 0 < sum_over l f.
Proof.
  destruct l as [|x l]; [congruence|]; intros _ H.
  change (sum_over (x :: l) f) with (f x + sum_over l f).
  pose proof (H x (or_introl eq_refl)).
  assert (0 <= sum_over l f).
  { apply sum_over_nonneg; intros y Hy.
    specialize (H y (or_intror Hy)); lia. }
  lia.
Qed.

(** ** The shape of the augmented multigraph *)

Section AugmentShape.
Variable graph : Graph base_attrs.
Hypothesis Hnodes : nodes graph = keys (adj graph).
Hypothesis Hwf : wf_adj (adj graph).

Let shape (G : MultiGraph multi_attrs) : Prop :=
  keys (mnode G) = keys (madj G)
  /\ keys (madj G) = keys (adj graph)
  /\ wf_adj (madj G)
  /\ mnode G = node graph
  /\ follows graph G.

Lemma to_multigraph_shape : shape (to_multigraph copy_attrs graph).
Proof.
  destruct (to_multigraph_spec _ _ copy_attrs graph Hwf) as (N & K & W & T).
  unfold shape; split; [rewrite N, K; exact Hnodes|].
  split; [exact K|]; split; [exact W|]; split; [exact N|].
  intros x y; rewrite T; unfold copied.
  destruct (get2 (adj graph) x y) as [b|]; [|reflexivity].
  exists b, 0%nat; split; reflexivity.
Qed.

Lemma duplicate_edge_shape (G G' : MultiGraph multi_attrs)
      (pq : vertex * vertex) :
  shape G -> duplicate_edge graph G pq = Ok G' -> shape G'.
Proof.
  intros (K1 & K2 & W & N & F) H; destruct pq as [p q].
  unfold duplicate_edge, nbrs, getitem in H; simpl fst in H; simpl snd in H.
  destruct (get (adj graph) p) as [nb|] eqn:Hp; [|discriminate].
  cbn [lookup_or bind] in H.
  destruct (get nb q) as [d|] eqn:Hq; [|discriminate].
  cbn [lookup_or bind] in H; inversion H; subst G'; clear H.
  assert (Hd : get2 (adj graph) p q = Some d)
    by (apply get2_Some; exists nb; auto).
  assert (Hd' : get2 (adj graph) q p = Some d)
    by (rewrite (wf_sym Hwf q p); exact Hd).
  assert (Pk : mem p (madj G) = true).
  { apply mem_keys; rewrite K2; eapply get_Some_keys; eauto. }
  assert (Qk : mem q (madj G) = true).
  { apply mem_keys; rewrite K2; apply mem_keys.
    apply (wf_closed Hwf p q), adjacent_get2; eauto. }
  destruct (madd_edge_node_present _ G p q (mk_multi (weight d) None) K1 Pk Qk)
    as [N1 N2].
  unfold shape; split; [apply madd_edge_keys; exact K1|].
  split; [rewrite N2; exact K2|].
  split; [apply madd_edge_wf; assumption|].
  split; [rewrite N1; exact N|].
  intros x y; rewrite madd_edge_get2 by exact K1.
  destruct (same_edge p q x y) eqn:Es; [|apply F].
  assert (Hxy : get2 (adj graph) x y = Some d).
  { unfold same_edge in Es; apply orb_true_iff in Es.
    destruct Es as [Es|Es]; apply andb_true_iff in Es; destruct Es as [E1 E2];
      apply Z.eqb_eq in E1, E2; subst; assumption. }
  unfold extended; pose proof (F p q) as Fpq.
  destruct (get2 (madj G) p q) as [kd|]; [|congruence].
  destruct Fpq as (b & n & Hb & Hkd).
  assert (b = d) by congruence; subst b.
  exists d, (S n); split; [exact Hxy|].
  rewrite Hkd; simpl; f_equal.
  change (weight d) with (b_weight d); symmetry; apply repeat_cons.
Qed.

Lemma duplicate_edges_shape (es : list (vertex * vertex)) :
  forall G G', shape G -> for_each es (duplicate_edge graph) G = Ok G' ->
               shape G'.
Proof.
  induction es as [|pq es IH]; intros G G' HG H.
  - inversion H; subst; exact HG.
  - cbn [for_each] in H.
    destruct (duplicate_edge graph G pq) as [G1| |] eqn:E1; try discriminate.
    cbn [bind] in H; apply (IH G1 G'); [|exact H].
    apply (duplicate_edge_shape G G1 pq HG E1).
Qed.

Lemma duplicate_path_shape (og : Graph odd_attrs)
      (G G' : MultiGraph multi_attrs) (uv : vertex * vertex) :
  shape G -> duplicate_path graph og G uv = Ok G' -> shape G'.
Proof.
  intros HG H; unfold duplicate_path in H.
  destruct (Z.leb (snd uv) (fst uv)); [inversion H; subst; exact HG|].
  destruct (nbrs og (fst uv)) as [ou| |]; try discriminate.
  cbn [bind] in H.
  destruct (getitem ou (snd uv)) as [e| |]; try discriminate.
  cbn [bind] in H.
  apply (duplicate_edges_shape _ G G' HG H).
Qed.

Lemma augment_loop_shape (og : Graph odd_attrs) (l : dict vertex) :
  forall G G', shape G -> for_each l (duplicate_path graph og) G = Ok G' ->
               shape G'.
Proof.
  induction l as [|uv l IH]; intros G G' HG H.
  - inversion H; subst; exact HG.
  - cbn [for_each] in H.
    destruct (duplicate_path graph og G uv) as [G1| |] eqn:E1;
      try discriminate.
    cbn [bind] in H; apply (IH G1 G'); [|exact H].
    apply (duplicate_path_shape og G G1 uv HG E1).
Qed.

Lemma augment_shape (og : Graph odd_attrs) (mate : dict vertex)
      (eg : MultiGraph multi_attrs) :
  augment graph og mate = Ok eg ->
  keys (mnode eg) = keys (madj eg)
  /\ keys (madj eg) = keys (adj graph)
  /\ wf_adj (madj eg)
  /\ mnode eg = node graph
  /\ follows graph eg.
Proof.
  intros H; unfold augment in H.
  apply (augment_loop_shape og mate _ eg to_multigraph_shape H).
Qed.
End AugmentShape.

(** The edges that [edges(data=True)] reports are entries of the
    adjacency. *)
Lemma medges_from_In {E : Type} (A : dict (dict (list E))) (x y : vertex)
      (d : E) :
  forall a seen,
    (forall n nb, In (n, nb) a -> get A n = Some nb) ->
    In (x, y, d) (medges_from seen a) ->
    exists nb kd, get A x = Some nb /\ In (y, kd) nb /\ In d kd.
Proof.
  induction a as [|[n nb] a IH]; intros seen Hget Hin; [destruct Hin|].
  cbn [medges_from] in Hin; apply in_app_or in Hin.
  destruct Hin as [Hin|Hin].
  - apply in_flat_map in Hin; destruct Hin as [[v kd] [Hv Hin]].
    apply filter_In in Hv; destruct Hv as [Hv _].
    apply in_map_iff in Hin; destruct Hin as [d' [Heq Hd]].
    simpl in Heq; inversion Heq; subst.
    exists nb, kd; split; [apply Hget; left; reflexivity|]; auto.
  - apply (IH (n :: seen)); [|exact Hin].
    intros n' nb' H'; apply Hget; right; exact H'.
Qed.

Lemma medges_In {E : Type} (G : MultiGraph E) (x y : vertex) (d : E) :
  wf_adj (madj G) ->
  In (x, y, d) (medges G) ->
  exists kd, get2 (madj G) x y = Some kd /\ In d kd.
Proof.
  intros W Hin; unfold medges in Hin.
  destruct (medges_from_In (madj G) x y d (madj G) []) as (nb & kd & H1 & H2 & H3).
  - intros n nb; apply In_get, (wf_keys W).
  - exact Hin.
  - exists kd; split; [|exact H3].
    apply get2_Some; exists nb; split; [exact H1|].
    apply In_get; [apply (wf_inner W x H1) | exact H2].
Qed.

Lemma follows_edge (graph : Graph base_attrs) (G : MultiGraph multi_attrs)
      (x y : vertex) (d : multi_attrs) :
  wf_adj (madj G) -> follows graph G ->
  In (x, y, d) (medges G) ->
  exists b, get2 (adj graph) x y = Some b
            /\ (d = copy_attrs b \/ d = mk_multi (b_weight b) None).
Proof.
  intros W F Hin; destruct (medges_In G x y d W Hin) as [kd [Hkd Hd]].
  pose proof (F x y) as Fxy; rewrite Hkd in Fxy.
  destruct Fxy as (b & n & Hb & ->); exists b; split; [exact Hb|].
  destruct Hd as [<-|Hd]; [left; reflexivity|].
  right; apply repeat_spec in Hd; exact Hd.
Qed.

(** Every entry of the adjacency is reported by [edges(data=True)], from
    the endpoint that the iteration meets first. *)
Lemma medges_from_emits {E : Type} (x y : vertex) (nb : dict (list E))
      (kd : list E) (d : E) (suf : dict (dict (list E))) :
  In (y, kd) nb -> In d kd ->
  forall pre seen,
    ~ In y (keys pre) -> memZ y seen = false ->
    In (x, y, d) (medges_from seen (pre ++ (x, nb) :: suf)).
Proof.
  intros Hy Hd; induction pre as [|[n nb0] pre IH]; intros seen Hpre Hseen.
  - cbn [app medges_from]; apply in_or_app; left.
    apply in_flat_map; exists (y, kd); split.
    + apply filter_In; split; [exact Hy|]; simpl; rewrite Hseen; reflexivity.
    + apply in_map_iff; exists d; split; [reflexivity | exact Hd].
  - cbn [app medges_from]; apply in_or_app; right; apply IH.
    + intros H; apply Hpre; right; exact H.
    + apply memZ_false; intros [<-|H].
      * apply Hpre; left; reflexivity.
      * apply memZ_false in Hseen; contradiction.
Qed.

Lemma medges_complete {E : Type} (G : MultiGraph E) (x y : vertex)
      (kd : list E) (d : E) :
  wf_adj (madj G) ->
  get2 (madj G) x y = Some kd -> In d kd ->
  In (x, y, d) (medges G) \/ In (y, x, d) (medges G).
Proof.
  intros W Hxy Hd.
  pose proof Hxy as Hyx; rewrite (wf_sym W x y) in Hyx.
  apply get2_Some in Hxy; destruct Hxy as [nbx [Gx Gxy]].
  apply get2_Some in Hyx; destruct Hyx as [nby [Gy Gyx]].
  pose proof (get_Some_In _ _ Gx) as Ix.
  apply in_split in Ix; destruct Ix as [pre [suf Ea]].
  pose proof (wf_keys W) as Hnd; unfold medges.
  assert (Hx : ~ In x (keys pre)).
  { intros Hx; rewrite Ea in Hnd; unfold keys in Hnd, Hx.
    rewrite map_app in Hnd; simpl in Hnd.
    apply NoDup_remove_2 in Hnd; apply Hnd, in_or_app; left; exact Hx. }
  destruct (in_dec Z.eq_dec y (keys pre)) as [Hin|Hout].
  - right.
    assert (Iy : In (y, nby) pre).
    { unfold keys in Hin; apply in_map_iff in Hin.
      destruct Hin as [[y' nb'] [Ey Hin]]; simpl in Ey; subst y'.
      assert (Gy' : get (madj G) y = Some nb').
      { apply In_get; [exact Hnd|].
        rewrite Ea; apply in_or_app; left; exact Hin. }
      rewrite Gy in Gy'; inversion Gy'; subst; exact Hin. }
    apply in_split in Iy; destruct Iy as [pre1 [pre2 Ep]].
    rewrite Ea, Ep, <- app_assoc; cbn [app].
    apply (medges_from_emits y x nby kd d).
    + apply get_Some_In; exact Gyx.
    + exact Hd.
    + intros Hx1; apply Hx; rewrite Ep; unfold keys in *.
      rewrite map_app; apply in_or_app; left; exact Hx1.
    + reflexivity.
  - left; rewrite Ea.
    apply (medges_from_emits x y nbx kd d).
    + apply get_Some_In; exact Gxy.
    + exact Hd.
    + exact Hout.
    + reflexivity.
Qed.

(** Every edge of the base graph is an edge of a multigraph that follows
    it. *)
Lemma base_edge_kept (graph : Graph base_attrs) (G : MultiGraph multi_attrs)
      (u v : vertex) :
  wf_adj (madj G) -> follows graph G ->
  adjacent (adj graph) u v = true ->
  In (undirected (u, v)) (map undirected (edge_pairs G)).
Proof.
  intros W F Ha; apply adjacent_get2 in Ha; destruct Ha as [b Hb].
  pose proof (F u v) as Fuv.
  destruct (get2 (madj G) u v) as [kd|] eqn:Hkd; [|congruence].
  destruct Fuv as (b' & n & _ & Ekd).
  destruct (medges_complete G u v kd (copy_attrs b') W Hkd) as [H|H].
  - rewrite Ekd; left; reflexivity.
  - apply in_map_iff; exists (u, v); split; [reflexivity|].
    unfold edge_pairs; apply in_map_iff; exists (u, v, copy_attrs b').
    split; [reflexivity | exact H].
  - apply in_map_iff; exists (v, u); split.
    + unfold undirected; simpl; rewrite Z.min_comm, Z.max_comm; reflexivity.
    + unfold edge_pairs; apply in_map_iff; exists (v, u, copy_attrs b').
      split; [reflexivity | exact H].
Qed.

(** ** The duplicates, counted *)

Lemma crossings_app (x y : vertex) (es es' : list (vertex * vertex)) :
  crossings x y (es ++ es') = (crossings x y es + crossings x y es')%nat.
Proof. unfold crossings; rewrite filter_app, length_app; reflexivity. Qed.

Lemma duplicates_follows (graph : Graph base_attrs)
      (G : MultiGraph multi_attrs) (es : list (vertex * vertex)) :
  duplicates graph G es -> follows graph G.
Proof.
  intros H x y; specialize (H x y).
  destruct (get2 (madj G) x y) as [kd|]; [|exact H].
  destruct H as [b [Hb Hkd]]; exists b, (crossings x y es); auto.
Qed.

Section AugmentCount.
Variable graph : Graph base_attrs.
Hypothesis Hnodes : nodes graph = keys (adj graph).
Hypothesis Hwf : wf_adj (adj graph).

Let counted (G : MultiGraph multi_attrs) (es : list (vertex * vertex))
  : Prop :=
  keys (mnode G) = keys (madj G) /\ duplicates graph G es.

Lemma to_multigraph_counted : counted (to_multigraph copy_attrs graph) [].
Proof.
  destruct (to_multigraph_spec _ _ copy_attrs graph Hwf) as (N & K & W & T).
  split; [rewrite N, K; exact Hnodes|].
  intros x y; rewrite T; unfold copied.
  destruct (get2 (adj graph) x y) as [b|]; [|reflexivity].
  exists b; split; reflexivity.
Qed.

Lemma duplicate_edge_counted (G G' : MultiGraph multi_attrs)
      (es : list (vertex * vertex)) (pq : vertex * vertex) :
  counted G es -> duplicate_edge graph G pq = Ok G' ->
  counted G' (es ++ [pq]).
Proof.
  intros (K1 & F) H; destruct pq as [p q].
  unfold duplicate_edge, nbrs, getitem in H; simpl fst in H; simpl snd in H.
  destruct (get (adj graph) p) as [nb|] eqn:Hp; [|discriminate].
  cbn [lookup_or bind] in H.
  destruct (get nb q) as [d|] eqn:Hq; [|discriminate].
  cbn [lookup_or bind] in H; inversion H; subst G'; clear H.
  assert (Hd : get2 (adj graph) p q = Some d)
    by (apply get2_Some; exists nb; auto).
  assert (Hd' : get2 (adj graph) q p = Some d)
    by (rewrite (wf_sym Hwf q p); exact Hd).
  split; [apply madd_edge_keys; exact K1|].
  intros x y; rewrite madd_edge_get2 by exact K1.
  rewrite crossings_app; unfold crossings at 2; cbn [filter fst snd].
  destruct (same_edge p q x y) eqn:Es.
  - assert (Hxy : get2 (adj graph) x y = Some d
                  /\ crossings x y es = crossings p q es).
    { unfold same_edge in Es; apply orb_true_iff in Es.
      destruct Es as [Es|Es]; apply andb_true_iff in Es;
        destruct Es as [E1 E2]; apply Z.eqb_eq in E1, E2; subst;
        (split; [assumption|]); [reflexivity|].
      unfold crossings; f_equal; apply filter_ext; intros [a b]; simpl.
      apply same_edge_sym. }
    destruct Hxy as [Hxy Hcr].
    unfold extended; pose proof (F p q) as Fpq.
    destruct (get2 (madj G) p q) as [kd|]; [|congruence].
    destruct Fpq as (b & Hb & Hkd).
    assert (b = d) by congruence; subst b.
    exists d; split; [exact Hxy|].
    rewrite Hkd, Hcr; simpl; f_equal.
    change (weight d) with (b_weight d).
    rewrite Nat.add_1_r; symmetry; apply repeat_cons.
  - cbn [length]; rewrite Nat.add_0_r; apply F.
Qed.

Lemma duplicate_edges_counted (es' : list (vertex * vertex)) :
  forall G G' es,
    counted G es -> for_each es' (duplicate_edge graph) G = Ok G' ->
    counted G' (es ++ es').
Proof.
  induction es' as [|pq es' IH]; intros G G' es HG H.
  - inversion H; subst; rewrite app_nil_r; exact HG.
  - cbn [for_each] in H.
    destruct (duplicate_edge graph G pq) as [G1| |] eqn:E1; try discriminate.
    cbn [bind] in H.
    replace (es ++ pq :: es') with ((es ++ [pq]) ++ es')
      by (rewrite <- app_assoc; reflexivity).
    apply (IH G1 G'); [|exact H].
    apply (duplicate_edge_counted G G1 es pq HG E1).
Qed.

Lemma duplicate_path_counted (og : Graph odd_attrs)
      (G G' : MultiGraph multi_attrs) (es : list (vertex * vertex))
      (uv : vertex * vertex) :
  counted G es -> duplicate_path graph og G uv = Ok G' ->
  counted G' (es ++ steps_of og uv).
Proof.
  intros HG H; unfold duplicate_path in H; unfold steps_of.
  destruct (Z.leb (snd uv) (fst uv)).
  { inversion H; subst; rewrite app_nil_r; exact HG. }
  unfold nbrs, getitem in H; unfold get2.
  destruct (get (adj og) (fst uv)) as [ou|]; [|discriminate].
  cbn [lookup_or bind] in H.
  destruct (get ou (snd uv)) as [e|]; [|discriminate].
  cbn [lookup_or bind] in H.
  apply (duplicate_edges_counted _ G G' es HG H).
Qed.

Lemma augment_loop_counted (og : Graph odd_attrs) (l : dict vertex) :
  forall G G' es,
    counted G es -> for_each l (duplicate_path graph og) G = Ok G' ->
    counted G' (es ++ duplicated_steps og l).
Proof.
  induction l as [|uv l IH]; intros G G' es HG H.
  - inversion H; subst; unfold duplicated_steps; simpl.
    rewrite app_nil_r; exact HG.
  - cbn [for_each] in H.
    destruct (duplicate_path graph og G uv) as [G1| |] eqn:E1;
      try discriminate.
    cbn [bind] in H; unfold duplicated_steps; cbn [flat_map].
    rewrite app_assoc; apply (IH G1 G'); [|exact H].
    apply (duplicate_path_counted og G G1 es uv HG E1).
Qed.

Lemma augment_counted (og : Graph odd_attrs) (mate : dict vertex)
      (eg : MultiGraph multi_attrs) :
  augment graph og mate = Ok eg ->
  duplicates graph eg (duplicated_steps og mate).
Proof.
  intros H; unfold augment in H.
  apply (augment_loop_counted og mate _ eg [] to_multigraph_counted H).
Qed.
End AugmentCount.

(** ** The claims on chinese_postman_path *)

(** C4: for a connected graph, the multigraph that [chinese_postman_path]
    augments is the base graph with one duplicate of every edge along the
    path of each matched pair (the same vertices with their attributes,
    and on each edge of the base graph the copy of that edge followed by
    one edge of its weight for each step of those paths along it), and
    every vertex of the base graph has even degree in it, whatever
    matching of greatest cardinality and weight the matcher returns. *)
Theorem augmented_degrees_are_even
        (max_weight_matching : Graph odd_attrs -> bool -> dict vertex)
        (graph : Graph base_attrs) :
  well_formed graph = true ->
  is_connected graph = Ok true ->
  (forall og, odd_graph graph = Ok og ->
              max_weight_matching_contract
                weight og (max_weight_matching og true) = true) ->
  exists og eg,
    odd_graph graph = Ok og
    /\ augment graph og (max_weight_matching og true) = Ok eg
    /\ mnode eg = node graph
    /\ duplicates graph eg
                  (duplicated_steps og (max_weight_matching og true))
    /\ (forall n, In n (nodes graph) ->
                  exists d, mdegree eg n = Ok d /\ Nat.even d = true)
    /\ (forall n, In n (mnodes eg) ->
                  exists d, mdegree eg n = Ok d /\ Nat.even d = true)
    /\ (forall eulerian_circuit r,
           chinese_postman_path max_weight_matching eulerian_circuit graph
           = Ok r -> fst r = eg).
Proof.
  intros Hgood Hconn Hmatch.
  destruct (well_formed_spec graph Hgood) as [Hn Hwf].
  destruct (pipeline graph Hgood Hconn) as [og [Eog Hog]].
  destruct (Hog _ (Hmatch og Eog))
    as (_ & _ & eg & Eeg & K1 & K2 & W1 & N1 & Ad & Ev & _).
  pose proof (augment_counted graph Hn Hwf og _ eg Eeg) as F.
  assert (Hdeg : forall n, In n (keys (adj graph)) ->
                           exists d, mdegree eg n = Ok d
                                     /\ Nat.even d = true).
  { intros n Hin; destruct (Ev n Hin) as [nb [Hnb He]].
    exists (mdegree_of nb n); unfold mdegree, getitem; rewrite Hnb; auto. }
  exists og, eg.
  split; [exact Eog|]; split; [exact Eeg|]; split; [exact N1|].
  split; [exact F|]; split; [|split].
  - intros n Hin; apply Hdeg; rewrite <- Hn; exact Hin.
  - intros n Hin; unfold mnodes in Hin; rewrite K1, K2 in Hin.
    apply Hdeg; exact Hin.
  - intros ec r; unfold chinese_postman_path; rewrite Eog; cbn [bind].
    rewrite Eeg; cbn [bind]; destruct (ec eg) as [c| |]; try discriminate.
    cbn [bind]; destruct (first c); try discriminate.
    cbn [bind]; intros H; inversion H; reflexivity.
Qed.

(** C5, as the code has it: with non-negative weights the augmented
    multigraph weighs at least as much as the base graph; the weights are
    equal when no vertex has odd degree, and, when every weight is
    positive, only then. *)
Theorem augmented_weight_bounds
        (max_weight_matching : Graph odd_attrs -> bool -> dict vertex)
        (graph : Graph base_attrs) :
  well_formed graph = true ->
  is_connected graph = Ok true ->
  (forall og, odd_graph graph = Ok og ->
              max_weight_matching_contract
                weight og (max_weight_matching og true) = true) ->
  non_negative graph ->
  exists og eg,
    odd_graph graph = Ok og
    /\ augment graph og (max_weight_matching og true) = Ok eg
    /\ edge_sum graph <= edge_sum eg
    /\ (odd_nodes graph = [] -> edge_sum eg = edge_sum graph)
    /\ (positive graph -> edge_sum eg = edge_sum graph ->
        odd_nodes graph = []).
Proof.
  intros Hgood Hconn Hmatch Hnn.
  destruct (pipeline graph Hgood Hconn) as [og [Eog Hog]].
  pose proof (Hmatch og Eog) as Hc.
  destruct (Hog _ Hc) as (Hkeys & Hpairs & eg & Eeg & _ & _ & _ & _ & _ & _ & Hsum & _).
  set (mate := max_weight_matching og true) in *.
  assert (Hm : is_matching og mate = true).
  { unfold max_weight_matching_contract in Hc; apply andb_true_iff in Hc.
    tauto. }
  assert (Hcost : forall uv, In uv (matched_pairs mate) ->
            0 <= pair_cost graph og uv
            /\ (positive graph -> 0 < pair_cost graph og uv)).
  { intros [u v] Hin; unfold matched_pairs in Hin; apply filter_In in Hin.
    destruct Hin as [Hin _]; destruct (Hpairs u v Hin) as [Hne [e [He Hw]]].
    unfold pair_cost; simpl; rewrite He; split.
    - apply path_weight_nonneg; exact Hnn.
    - intros Hpos; eapply path_weight_pos; eauto.
      destruct (Z.max_spec u v), (Z.min_spec u v); lia. }
  exists og, eg; splits; auto.
  - rewrite Hsum.
    assert (0 <= sum_over (matched_pairs mate) (pair_cost graph og)); [|lia].
    apply sum_over_nonneg; intros uv Huv; apply Hcost; exact Huv.
  - intros Hodd; rewrite Hsum.
    assert (mate = []) as ->; [|simpl; lia].
    destruct mate as [|[u v] l]; [reflexivity|].
    assert (In u (odd_nodes graph)) by (apply Hkeys; left; reflexivity).
    rewrite Hodd in H; destruct H.
  - intros Hpos Heq; rewrite Hsum in Heq.
    destruct (matched_pairs mate) as [|uv l] eqn:Emp.
    + pose proof (mate_length _ og mate Hm) as Hl; rewrite Emp in Hl.
      destruct mate; [|discriminate].
      destruct (odd_nodes graph) as [|n ns]; [reflexivity|].
      assert (In n (keys (@nil (vertex * vertex))))
        by (apply Hkeys; left; reflexivity).
      destruct H.
    + exfalso.
      assert (0 < sum_over (uv :: l) (pair_cost graph og)); [|lia].
      apply sum_over_pos; [discriminate|].
      intros x Hx; apply Hcost; [exact Hx | exact Hpos].
Qed.

(** C3: for a connected graph with at least one edge the returned node
    sequence is closed, has as many consecutive pairs as the augmented
    multigraph has edges, and its consecutive pairs are the edges of the
    multigraph, each taken once.  The multigraph is the one that the
    augmentation builds on the base graph, so that every edge of the base
    graph is among the steps of the sequence. *)
Theorem circuit_uses_every_edge_once
        (max_weight_matching : Graph odd_attrs -> bool -> dict vertex)
        (eulerian_circuit :
           MultiGraph multi_attrs -> outcome (list (vertex * vertex)))
        (graph : Graph base_attrs) :
  well_formed graph = true ->
  is_connected graph = Ok true ->
  edges graph <> [] ->
  (forall og, odd_graph graph = Ok og ->
              max_weight_matching_contract
                weight og (max_weight_matching og true) = true) ->
  (forall og eg,
      odd_graph graph = Ok og ->
      augment graph og (max_weight_matching og true) = Ok eg ->
      eulerian_circuit_contract eg (eulerian_circuit eg)) ->
  exists og eg nodes first_node,
    odd_graph graph = Ok og
    /\ augment graph og (max_weight_matching og true) = Ok eg
    /\ mnode eg = node graph
    /\ duplicates graph eg
                  (duplicated_steps og (max_weight_matching og true))
    /\ chinese_postman_path max_weight_matching eulerian_circuit graph
       = Ok (eg, nodes)
    /\ hd_error nodes = Some first_node
    /\ last nodes first_node = first_node
    /\ length (pairs nodes false) = length (medges eg)
    /\ msize eg = length (medges eg)
    /\ Permutation (map (@undirected) (pairs nodes false))
                   (map (@undirected) (edge_pairs eg))
    /\ (forall u v, adjacent (adj graph) u v = true ->
                    In (undirected (u, v))
                       (map (@undirected) (pairs nodes false))).
Proof.
  intros Hgood Hconn Hedges Hmatch Heuler.
  destruct (well_formed_spec graph Hgood) as [Hn Hwf].
  destruct (pipeline graph Hgood Hconn) as [og [Eog Hog]].
  destruct (Hog _ (Hmatch og Eog))
    as (_ & _ & eg & Eeg & K1 & K2 & W1 & N1 & Ad & Ev & _ & Hlen).
  pose proof (augment_counted graph Hn Hwf og _ eg Eeg) as F.
  pose proof (Heuler og eg Eog Eeg) as Hc.
  unfold eulerian_circuit_contract in Hc.
  rewrite (augmented_eulerian graph Hgood Hconn eg K1 K2 W1 Ad Ev) in Hc.
  destruct Hc as [c [Ec [Hchain Hperm]]].
  assert (Hc0 : exists c0 rest, c = c0 :: rest).
  { destruct c as [|c0 rest]; [|eauto].
    exfalso; apply Permutation_length in Hperm; simpl in Hperm.
    unfold edge_pairs in Hperm; rewrite !length_map in Hperm.
    destruct (edges graph); [congruence | simpl in Hlen; lia]. }
  destruct Hc0 as [c0 [rest Hc0]].
  destruct (circuit_nodes c c0 rest Hc0 Hchain) as [Hp [Hh Hl]].
  exists og, eg, (map fst c ++ [fst c0]), (fst c0).
  split; [exact Eog|]; split; [exact Eeg|]; split; [exact N1|].
  split; [exact F|]; split; [|split; [exact Hh|]; split; [exact Hl|]].
  - unfold chinese_postman_path; rewrite Eog; cbn [bind].
    rewrite Eeg; cbn [bind]; rewrite Ec; cbn [bind].
    rewrite Hc0; reflexivity.
  - split; [|split; [|split]].
    + rewrite Hp; apply Permutation_length in Hperm.
      unfold edge_pairs in Hperm; rewrite !length_map in Hperm; exact Hperm.
    + apply msize_length; exact W1.
    + rewrite Hp; exact Hperm.
    + intros u v Ha; rewrite Hp.
      apply (Permutation_in _ (Permutation_sym Hperm)).
      apply (base_edge_kept graph eg u v W1 (duplicates_follows _ _ _ F) Ha).
Qed.

(** ** Instances of the two library parameters *)

Example route_single_edge : route single_edge = Ok (5, 10, [1; 2; 1]).
Proof. vm_compute; reflexivity. Qed.

Example route_square : route square = Ok (4, 4, [1; 2; 3; 4; 1]).
Proof. vm_compute; reflexivity. Qed.

Example route_shortcut :
  route shortcut_graph = Ok (22, 32, [1; 2; 1; 3; 2; 4; 1]).
Proof. vm_compute; reflexivity. Qed.

(** ** The claims at concrete graphs *)

(** Permutations of explicit lists. *)
Ltac split_at a r k :=
  lazymatch r with
  | a :: ?t => k (@nil (Z * Z)) t
  | ?b :: ?t => split_at a t ltac:(fun l1 l2 => k (b :: l1) l2)
  end.

Ltac explicit_permutation :=
  lazymatch goal with
  | |- Permutation [] [] => apply perm_nil
  | |- Permutation (?a :: ?l) ?r =>
      split_at a r ltac:(fun l1 l2 =>
        change r with (l1 ++ a :: l2);
        apply Permutation_cons_app; cbn [app]; explicit_permutation)
  end.

Lemma shortcut_matching_contract og :
  odd_graph shortcut_graph = Ok og ->
  max_weight_matching_contract weight og (exhaustive_matching og true) = true.
Proof.
  intros H; vm_compute in H; injection H as <-; vm_compute; reflexivity.
Qed.

Lemma shortcut_circuit_contract og eg :
  odd_graph shortcut_graph = Ok og ->
  augment shortcut_graph og (exhaustive_matching og true) = Ok eg ->
  eulerian_circuit_contract eg (search_circuit eg).
Proof.
  intros H1 H2; vm_compute in H1; injection H1 as <-.
  vm_compute in H2; injection H2 as <-.
  unfold eulerian_circuit_contract.
  match goal with
  | |- context [is_eulerian ?G] =>
      assert (E : is_eulerian G = Ok true) by (vm_compute; reflexivity);
      rewrite E
  end.
  eexists; split; [vm_compute; reflexivity|].
  split; [cbv; tauto|].
  cbv; explicit_permutation.
Qed.

Lemma augmented_degrees_are_even_witness :
  well_formed shortcut_graph = true
  /\ exists og eg,
      odd_graph shortcut_graph = Ok og
      /\ augment shortcut_graph og (exhaustive_matching og true) = Ok eg
      /\ mnode eg = node shortcut_graph
      /\ duplicates shortcut_graph eg
                    (duplicated_steps og (exhaustive_matching og true))
      /\ (forall n, In n (nodes shortcut_graph) ->
                    exists d, mdegree eg n = Ok d /\ Nat.even d = true)
      /\ (forall n, In n (mnodes eg) ->
                    exists d, mdegree eg n = Ok d /\ Nat.even d = true)
      /\ (forall eulerian_circuit r,
             chinese_postman_path exhaustive_matching eulerian_circuit
                                  shortcut_graph = Ok r -> fst r = eg).
Proof.
  split; [vm_compute; reflexivity|].
  apply (augmented_degrees_are_even exhaustive_matching shortcut_graph).
  - vm_compute; reflexivity.
  - vm_compute; reflexivity.
  - exact shortcut_matching_contract.
Defined.

Lemma shortcut_positive : positive shortcut_graph.
Proof.
  intros u v d H; apply get2_Some in H; destruct H as [nb [Hu Hv]].
  apply get_Some_In in Hu; vm_compute in Hu.
  repeat (destruct Hu as [Hu|Hu];
          [injection Hu as <- <-; apply get_Some_In in Hv; vm_compute in Hv;
           repeat (destruct Hv as [Hv|Hv];
                   [injection Hv as <- <-; reflexivity|]);
           destruct Hv|]).
  destruct Hu.
Qed.

Lemma augmented_weight_bounds_witness :
  non_negative shortcut_graph
  /\ exists og eg,
      odd_graph shortcut_graph = Ok og
      /\ augment shortcut_graph og (exhaustive_matching og true) = Ok eg
      /\ edge_sum shortcut_graph <= edge_sum eg
      /\ (odd_nodes shortcut_graph = [] ->
          edge_sum eg = edge_sum shortcut_graph)
      /\ (positive shortcut_graph -> edge_sum eg = edge_sum shortcut_graph ->
          odd_nodes shortcut_graph = []).
Proof.
  split; [apply positive_non_negative, shortcut_positive|].
  apply (augmented_weight_bounds exhaustive_matching shortcut_graph).
  - vm_compute; reflexivity.
  - vm_compute; reflexivity.
  - exact shortcut_matching_contract.
  - apply positive_non_negative, shortcut_positive.
Defined.

Lemma circuit_uses_every_edge_once_witness :
  edges shortcut_graph <> []
  /\ exists og eg nodes first_node,
      odd_graph shortcut_graph = Ok og
      /\ augment shortcut_graph og (exhaustive_matching og true) = Ok eg
      /\ mnode eg = node shortcut_graph
      /\ duplicates shortcut_graph eg
                    (duplicated_steps og (exhaustive_matching og true))
      /\ chinese_postman_path exhaustive_matching search_circuit
                              shortcut_graph
         = Ok (eg, nodes)
      /\ hd_error nodes = Some first_node
      /\ last nodes first_node = first_node
      /\ length (pairs nodes false) = length (medges eg)
      /\ msize eg = length (medges eg)
      /\ Permutation (map (@undirected) (pairs nodes false))
                     (map (@undirected) (edge_pairs eg))
      /\ (forall u v, adjacent (adj shortcut_graph) u v = true ->
                      In (undirected (u, v))
                         (map (@undirected) (pairs nodes false))).
Proof.
  split; [vm_compute; discriminate|].
  apply (circuit_uses_every_edge_once exhaustive_matching search_circuit
                                      shortcut_graph).
  - vm_compute; reflexivity.
  - vm_compute; reflexivity.
  - vm_compute; discriminate.
  - exact shortcut_matching_contract.
  - exact shortcut_circuit_contract.
Defined.

(** C5 as stated fails where a duplicated road has length 0: the single
    edge of weight 0 has two odd vertices, and the augmented multigraph
    weighs as much as the base graph whatever the matcher returns. *)
Lemma zero_weight_edge_keeps_total :
  well_formed zero_edge = true
  /\ is_connected zero_edge = Ok true
  /\ edges zero_edge <> []
  /\ non_negative zero_edge
  /\ odd_nodes zero_edge = [1; 2]
  /\ exists og,
      odd_graph zero_edge = Ok og
      /\ max_weight_matching_contract weight og (exhaustive_matching og true)
         = true
      /\ forall mate,
          max_weight_matching_contract weight og mate = true ->
          exists eg, augment zero_edge og mate = Ok eg
                     /\ edge_sum eg = edge_sum zero_edge.
Proof.
  assert (Hgood : well_formed zero_edge = true) by (vm_compute; reflexivity).
  assert (Hconn : is_connected zero_edge = Ok true)
    by (vm_compute; reflexivity).
  assert (Hzero : forall u v, edge_weight weight zero_edge u v = 0).
  { intros u v; unfold edge_weight.
    destruct (get2 (adj zero_edge) u v) as [d|] eqn:E; [|reflexivity].
    apply get2_Some in E; destruct E as [nb [Hu Hv]].
    apply get_Some_In in Hu; vm_compute in Hu.
    destruct Hu as [Hu|[Hu|[]]]; injection Hu as <- <-;
      apply get_Some_In in Hv; vm_compute in Hv;
      destruct Hv as [Hv|[]]; injection Hv as <- <-; reflexivity. }
  splits; auto.
  - vm_compute; discriminate.
  - intros u v d H; specialize (Hzero u v); unfold edge_weight in Hzero.
    rewrite H in Hzero; unfold weight, base_weight in Hzero; lia.
  - destruct (pipeline zero_edge Hgood Hconn) as [og [Eog Hog]].
    exists og; splits; auto.
    + vm_compute in Eog; injection Eog as <-; vm_compute; reflexivity.
    + intros mate Hc.
      destruct (Hog mate Hc) as (_ & _ & eg & Eeg & _ & _ & _ & _ & _ & _ & Hsum & _).
      exists eg; split; [exact Eeg|].
      rewrite Hsum, sum_over_zero; [lia|].
      intros uv _; unfold pair_cost.
      destruct (get2 (adj og) (fst uv) (snd uv)); [|reflexivity].
      rewrite path_weight_sum; apply sum_over_zero; intros pq _; apply Hzero.
Qed.

(** ** A graph of one vertex *)

Lemma single_vertex_odd_graph n a : odd_graph (single_vertex n a) = Ok empty.
Proof.
  unfold odd_graph, single_vertex, nodes, is_odd, degree, nbrs, getitem.
  repeat (progress (cbv - [Z.eqb]; rewrite ?Z.eqb_refl)); reflexivity.
Qed.

Lemma single_vertex_multigraph n a :
  to_multigraph copy_attrs (single_vertex n a)
  = mk_multigraph [(n, a)] [(n, [])].
Proof. reflexivity. Qed.

Lemma single_vertex_eulerian n a :
  is_eulerian (to_multigraph copy_attrs (single_vertex n a)) = Ok true.
Proof.
  rewrite single_vertex_multigraph.
  unfold is_eulerian, mnodes, m_is_connected, is_connected_adj, mdegree,
    getitem, single_source_shortest_path_length.
  repeat (progress (cbv - [Z.eqb]; rewrite ?Z.eqb_refl)); reflexivity.
Qed.

Lemma single_vertex_validate n a :
  validate_graph (single_vertex n a) = Ok ([], single_vertex n a).
Proof.
  unfold validate_graph, connected_component_subgraphs, connected_components,
    single_vertex, nodes, component_step, shortest_path_length,
    single_source_shortest_path_length, subgraph.
  repeat (progress (cbv - [Z.eqb]; rewrite ?Z.eqb_refl)); reflexivity.
Qed.

(** C10: on a graph of one vertex and no edge, which the component selector
    returns as it is, [chinese_postman_path] raises the [IndexError] of
    [circuit[0][0]]: the circuit of the edgeless multigraph is empty. *)
Theorem single_vertex_raises_index_error
        (max_weight_matching : Graph odd_attrs -> bool -> dict vertex)
        (eulerian_circuit :
           MultiGraph multi_attrs -> outcome (list (vertex * vertex)))
        (n : vertex) (a : node_attrs) :
  max_weight_matching_contract weight empty (max_weight_matching empty true)
  = true ->
  eulerian_circuit_contract
    (to_multigraph copy_attrs (single_vertex n a))
    (eulerian_circuit (to_multigraph copy_attrs (single_vertex n a))) ->
  validate_graph (single_vertex n a) = Ok ([], single_vertex n a)
  /\ edges (single_vertex n a) = []
  /\ chinese_postman_path max_weight_matching eulerian_circuit
                          (single_vertex n a) = Raise IndexError
  /\ spec_taxonomy IndexError = false.
Proof.
  intros Hm He; splits; [apply single_vertex_validate | reflexivity | |
                         reflexivity].
  unfold chinese_postman_path; rewrite single_vertex_odd_graph; cbn [bind].
  assert (Hmate : max_weight_matching empty true = []).
  { unfold max_weight_matching_contract in Hm; apply andb_true_iff in Hm.
    destruct Hm as [Hm _].
    destruct (max_weight_matching empty true) as [|[u v] l]; [reflexivity|].
    destruct (mate_entry _ empty _ Hm u v (or_introl eq_refl)) as [_ [H _]].
    discriminate. }
  rewrite Hmate; unfold augment; cbn [for_each bind].
  unfold eulerian_circuit_contract in He.
  rewrite single_vertex_eulerian in He; destruct He as [c [Ec [_ Hp]]].
  rewrite Ec; cbn [bind].
  assert (c = []) as ->; [|reflexivity].
  rewrite single_vertex_multigraph in Hp.
  apply Permutation_sym, Permutation_nil in Hp.
  destruct c; [reflexivity | discriminate].
Qed.

Lemma single_vertex_raises_index_error_witness :
  validate_graph (single_vertex 7 no_attrs) = Ok ([], single_vertex 7 no_attrs)
  /\ edges (single_vertex 7 no_attrs) = []
  /\ chinese_postman_path exhaustive_matching search_circuit
                          (single_vertex 7 no_attrs) = Raise IndexError
  /\ spec_taxonomy IndexError = false.
Proof.
  apply (single_vertex_raises_index_error exhaustive_matching search_circuit
                                          7 no_attrs).
  - vm_compute; reflexivity.
  - unfold eulerian_circuit_contract.
    rewrite single_vertex_eulerian.
    exists []; split; [vm_compute; reflexivity|].
    split; [exact I | apply perm_nil].
Defined.

(** ** The matching on a graph with detours *)

Lemma detour_long u v :
  In (u, v) long_pairs -> shortest_distance detour_graph u v 100.
Proof.
  intros H; unfold long_pairs in H.
  repeat (destruct H as [H|H];
          [injection H as <- <-;
           match goal with
           | |- shortest_distance _ ?a ?b _ =>
               assert (Hw : walk_between (adj detour_graph) a b [a; b])
                 by (repeat split);
               exact (proj1 (@potential_distance
                               detour_graph (detour_distance b) eq_refl
                               a b [a; b] Hw eq_refl))
           end|]).
  destruct H.
Qed.

Lemma detour_short :
  shortest_distance detour_graph 1 3 2 /\ shortest_distance detour_graph 2 4 2.
Proof.
  split.
  - assert (Hw : walk_between (adj detour_graph) 1 3 [1; 5; 3])
      by (repeat split).
    exact (proj1 (@potential_distance detour_graph (detour_distance 3)
                                      eq_refl 1 3 [1; 5; 3] Hw eq_refl)).
  - assert (Hw : walk_between (adj detour_graph) 2 4 [2; 6; 4])
      by (repeat split).
    exact (proj1 (@potential_distance detour_graph (detour_distance 4)
                                      eq_refl 2 4 [2; 6; 4] Hw eq_refl)).
Qed.

Lemma sum_over_below {A : Type} (l : list A) (f : A -> Z) (p : A) :
  (forall q, In q l -> f q <= -1) -> In p l -> f p <= -2 ->
  sum_over l f <= - Z.of_nat (length l) - 1.
Proof.
  intros Hall Hin Hp.
  assert (Hle : forall l', (forall q, In q l' -> f q <= -1) ->
                           sum_over l' f <= - Z.of_nat (length l')).
  { induction l' as [|x l' IH]; intros H; [simpl; lia|].
    change (sum_over (x :: l') f) with (f x + sum_over l' f).
    change (length (x :: l')) with (S (length l')); rewrite Nat2Z.inj_succ.
    pose proof (H x (or_introl eq_refl)).
    specialize (IH (fun q Hq => H q (or_intror Hq))); lia. }
  induction l as [|x l IH]; [destruct Hin|].
  change (sum_over (x :: l) f) with (f x + sum_over l f).
  change (length (x :: l)) with (S (length l)); rewrite Nat2Z.inj_succ.
  destruct Hin as [->|Hin].
  - specialize (Hle l (fun q Hq => Hall q (or_intror Hq))); lia.
  - pose proof (Hall x (or_introl eq_refl)).
    specialize (IH (fun q Hq => Hall q (or_intror Hq)) Hin); lia.
Qed.

(** C2 at a graph where the short ways have more hops: the odd vertices 1,
    2, 3, 4 are joined in a ring by roads of length 100, and 1 to 3 and 2 to
    4 by two roads of length 1 each.  Every matching that the matcher may
    return pairs vertices at weighted distance 100, total 200, while the
    pairs (1, 3) and (2, 4) have total distance 4. *)
Theorem matching_counts_hops_on_detour :
  exists og,
    odd_graph detour_graph = Ok og
    /\ odd_nodes detour_graph = [1; 2; 3; 4]
    /\ max_weight_matching_contract weight og (exhaustive_matching og true)
       = true
    /\ (forall mate,
           max_weight_matching_contract weight og mate = true ->
           forall u v, In (u, v) mate ->
                       shortest_distance detour_graph u v 100)
    /\ shortest_distance detour_graph 1 3 2
    /\ shortest_distance detour_graph 2 4 2.
Proof.
  destruct (odd_graph detour_graph) as [og| |] eqn:Eog;
    try (vm_compute in Eog; discriminate).
  exists og; vm_compute in Eog; injection Eog as Eog.
  split; [reflexivity|].
  split; [reflexivity|].
  split; [subst og; vm_compute; reflexivity|].
  split; [|exact detour_short].
  intros mate Hc; unfold max_weight_matching_contract in Hc.
  apply andb_true_iff in Hc; destruct Hc as [Hm Hbest].
  assert (Hedge : forall u v,
             has_edge og u v = true ->
             edge_weight weight og u v <= -1
             /\ edge_weight weight og v u = edge_weight weight og u v
             /\ In u (keys (adj og))
             /\ (In (u, v) long_pairs \/ edge_weight weight og u v <= -2)).
  { intros u v H; apply adjacent_get2 in H; destruct H as [e He].
    apply get2_Some in He; destruct He as [nb [Hu Hv]].
    apply get_Some_In in Hu; rewrite <- Eog in Hu; simpl in Hu.
    repeat (destruct Hu as [Hu|Hu];
            [injection Hu as <- <-; apply get_Some_In in Hv; simpl in Hv;
             repeat (destruct Hv as [Hv|Hv];
                     [injection Hv as <- <-; subst og;
                      vm_compute; intuition (discriminate || auto)|]);
             destruct Hv|]).
    destruct Hu. }
  assert (Hlen : (length (matched_pairs mate) = 2)%nat
                 /\ -2 <= matching_weight weight og (matched_pairs mate)).
  { assert (Hin : In [(2, 1); (3, 4)] (all_matchings og)).
    { subst og; vm_compute; intuition reflexivity. }
    rewrite forallb_forall in Hbest; specialize (Hbest _ Hin).
    unfold no_better in Hbest; simpl length in Hbest.
    assert (Hle : (length mate <= 4)%nat).
    { replace (length mate) with (length (keys mate))
        by (unfold keys; apply length_map).
      change 4%nat with (length [2; 1; 3; 4]).
      apply NoDup_incl_length; [apply (mate_keys _ og mate Hm)|].
      intros u Hu; apply In_keys_get in Hu; destruct Hu as [v Hv].
      apply get_Some_In in Hv.
      destruct (mate_entry _ og mate Hm u v Hv) as [_ [He _]].
      destruct (Hedge u v He) as [_ [_ [Hk _]]].
      rewrite <- Eog in Hk; exact Hk. }
    pose proof (mate_length _ og mate Hm) as Hl.
    apply orb_true_iff in Hbest; destruct Hbest as [H|H].
    - apply Nat.ltb_lt in H; lia.
    - apply andb_true_iff in H; destruct H as [H1 H2].
      apply Nat.eqb_eq in H1; apply Z.leb_le in H2; split; [lia|].
      replace (matching_weight weight og [(2, 1); (3, 4)]) with (-2) in H2
        by (subst og; vm_compute; reflexivity).
      exact H2. }
  destruct Hlen as [Hlen Hw].
  intros u v Hin; destruct (mate_entry _ og mate Hm u v Hin) as [Hne [He Hsym]].
  destruct (Hedge u v He) as [_ [Hrev [_ [Hlong|Hshort]]]];
    [apply detour_long; exact Hlong|].
  exfalso.
  assert (Hp : exists p, In p (matched_pairs mate)
                         /\ edge_weight weight og (fst p) (snd p) <= -2).
  { destruct (Z.lt_total u v) as [Hlt|[Heq|Hgt]]; [|contradiction|].
    - exists (u, v); split; [|exact Hshort].
      apply filter_In; split; [exact Hin | apply Z.ltb_lt; exact Hlt].
    - exists (v, u); simpl; split; [|rewrite Hrev; exact Hshort].
      apply filter_In; split; [exact Hsym | apply Z.ltb_lt; simpl; lia]. }
  destruct Hp as [p [Hp1 Hp2]].
  pose proof (sum_over_below (matched_pairs mate)
                (fun uv => edge_weight weight og (fst uv) (snd uv)) p) as Hs.
  change (sum_over (matched_pairs mate)
                   (fun uv => edge_weight weight og (fst uv) (snd uv)))
    with (matching_weight weight og (matched_pairs mate)) in Hs.
  rewrite Hlen in Hs; simpl in Hs.
  assert (matching_weight weight og (matched_pairs mate) <= -3); [|lia].
  apply Hs; auto.
  intros [a b] Hq; apply filter_In in Hq; destruct Hq as [Hq _].
  destruct (mate_entry _ og mate Hm a b Hq) as [_ [Hab _]].
  apply (Hedge a b Hab).
Qed.

(** On the star the three perfect matchings tie, in hops (3) and in weighted
    distance (9): each of them is a matching that the matcher may return,
    and which leaves are paired is the choice of the library. *)
Example star_matchings_tie :
  exists og,
    odd_graph star = Ok og
    /\ odd_nodes star = [1; 2; 3; 4]
    /\ forall mate,
        In mate [two_pairs 1 4 2 3; two_pairs 1 3 2 4; two_pairs 1 2 3 4] ->
        max_weight_matching_contract weight og mate = true
        /\ sum_over (matched_pairs mate) (pair_cost star og) = 9.
Proof.
  eexists; split; [vm_compute; reflexivity|].
  split; [vm_compute; reflexivity|].
  intros mate [<-|[<-|[<-|[]]]]; split; vm_compute; reflexivity.
Qed.

(** ** The store: what a call writes *)

Lemma nth_error_replace (l l' : nat) (c : Store.cell) (h : Store.heap) :
  nth_error (Store.replace l c h) l'
  = if Nat.eqb l' l then
      match nth_error h l with Some _ => Some c | None => None end
    else nth_error h l'.
Proof.
  revert l l'; induction h as [|x h IH]; intros l l'.
  - destruct l, l'; simpl; try reflexivity.
    destruct (Nat.eqb l' l); reflexivity.
  - destruct l as [|l], l' as [|l']; try reflexivity.
    simpl; rewrite IH; reflexivity.
Qed.

Lemma length_replace (l : nat) (c : Store.cell) (h : Store.heap) :
  length (Store.replace l c h) = length h.
Proof.
  revert l; induction h as [|x h IH]; intros [|l]; simpl; auto.
Qed.

Lemma replace_same (l : nat) (c : Store.cell) (h : Store.heap) :
  nth_error h l = Some c -> Store.replace l c h = h.
Proof.
  revert l; induction h as [|x h IH]; intros [|l]; simpl;
    try discriminate; intros H.
  - inversion H; reflexivity.
  - rewrite IH; auto.
Qed.

Section Triples.
Variable h0 : Store.heap.

Lemma framed_start : framed h0 h0.
Proof.
  split; [reflexivity|]; split; [lia|].
  intros l c Hl H.
  assert (nth_error h0 l = None) by (apply nth_error_None; lia).
  congruence.
Qed.

(** *** The rules of the monad *)

Lemma triple_ret {A : Type} (a : A) (Q : A -> Prop) :
  Q a -> triple h0 (Store.ret a) Q.
Proof. intros H h Hi; split; [exact Hi|]; simpl; intros b E; congruence. Qed.

Lemma triple_raise {A : Type} (e : exn) (Q : A -> Prop) :
  triple h0 (Store.raise e) Q.
Proof. intros h Hi; split; [exact Hi|]; simpl; discriminate. Qed.

Lemma triple_lift {A : Type} (o : outcome A) (Q : A -> Prop) :
  (forall a, o = Ok a -> Q a) -> triple h0 (Store.lift o) Q.
Proof. intros H h Hi; split; [exact Hi|]; simpl; exact H. Qed.

(** A routine that reads the store and writes nothing. *)
Lemma triple_reader {A : Type} (f : Store.heap -> outcome A) :
  triple h0 (fun h => (h, f h)) anything.
Proof. intros h Hi; split; [exact Hi|]; intros; exact I. Qed.

Lemma triple_weaken {A : Type} (m : Store.M A) (P Q : A -> Prop) :
  triple h0 m P -> (forall a, P a -> Q a) -> triple h0 m Q.
Proof.
  intros Hm HPQ h Hi; destruct (Hm h Hi) as [H1 H2]; split; auto.
Qed.

Lemma triple_bind {A B : Type} (m : Store.M A) (k : A -> Store.M B)
      (P : A -> Prop) (Q : B -> Prop) :
  triple h0 m P -> (forall a, P a -> triple h0 (k a) Q) ->
  triple h0 (Store.bindM m k) Q.
Proof.
  intros Hm Hk h Hi; unfold Store.bindM.
  destruct (Hm h Hi) as [H1 H2].
  destruct (m h) as [h1 [a| |]]; simpl in *.
  - apply Hk; auto.
  - split; [exact H1 | discriminate].
  - split; [exact H1 | discriminate].
Qed.

Lemma triple_reraise {A : Type} (e : exn) (m : Store.M A) (Q : A -> Prop) :
  triple h0 m Q -> triple h0 (Store.reraise e m) Q.
Proof.
  intros Hm h Hi; unfold Store.reraise.
  destruct (Hm h Hi) as [H1 H2].
  destruct (m h) as [h1 [a| |]]; simpl in *; split; auto; discriminate.
Qed.

Lemma triple_for_each {A : Type} (l : list A) (body : A -> Store.M unit) :
  (forall x, In x l -> triple h0 (body x) anything) ->
  triple h0 (Store.for_eachM l body) anything.
Proof.
  induction l as [|x l IH]; intros H; simpl.
  - apply triple_ret; exact I.
  - apply triple_bind with (P := anything); [apply H; left; reflexivity|].
    intros _ _; apply IH; intros y Hy; apply H; right; exact Hy.
Qed.

Lemma triple_filter {A : Type} (f : A -> Store.M bool) (l : list A) :
  (forall x, triple h0 (f x) anything) -> triple h0 (Store.filterM f l) anything.
Proof.
  intros H; induction l as [|x l IH]; simpl.
  - apply triple_ret; exact I.
  - apply triple_bind with (P := anything); [apply H|]; intros b _.
    apply triple_bind with (P := anything); [exact IH|]; intros r _.
    apply triple_ret; exact I.
Qed.

(** *** Objects *)

Lemma triple_alloc (c : Store.cell) :
  closed_cell (length h0) c -> triple h0 (Store.alloc c) (is_new h0).
Proof.
  intros Hc h (Hold & Hlen & Hnew); unfold Store.alloc; simpl; split.
  - split; [|split].
    + intros l Hl; rewrite nth_error_app1 by lia; apply Hold; exact Hl.
    + rewrite length_app; simpl; lia.
    + intros l c' Hl E.
      destruct (Nat.lt_ge_cases l (length h)) as [Hlt|Hge].
      * rewrite nth_error_app1 in E by exact Hlt; eapply Hnew; eauto.
      * rewrite nth_error_app2 in E by exact Hge.
        destruct (l - length h)%nat as [|[|n]]; simpl in E;
          try discriminate.
        inversion E; subst; exact Hc.
  - intros a E; inversion E; subst; exact Hlen.
Qed.

Lemma triple_read (l : Store.loc) : triple h0 (Store.read l) anything.
Proof. apply triple_reader. Qed.

Lemma triple_read_new (l : Store.loc) :
  is_new h0 l -> triple h0 (Store.read l) (closed_cell (length h0)).
Proof.
  intros Hl h Hi; split; [exact Hi|]; unfold Store.read; simpl.
  destruct Hi as (_ & _ & Hnew).
  destruct (nth_error h l) as [c|] eqn:E; simpl; [|discriminate].
  intros a Ha; inversion Ha; subst; eapply Hnew; eauto.
Qed.

Lemma triple_write (l : Store.loc) (c : Store.cell) :
  is_new h0 l -> closed_cell (length h0) c -> triple h0 (Store.write l c) anything.
Proof.
  intros Hl Hc h (Hold & Hlen & Hnew); unfold Store.write.
  destruct (Nat.ltb l (length h)) eqn:E; simpl;
    [|split; [repeat split; assumption | discriminate]].
  split; [|intros; exact I].
  split; [|split].
  - intros l' Hl'; rewrite nth_error_replace.
    destruct (Nat.eqb_spec l' l) as [->|_]; [unfold is_new in Hl; lia|].
    apply Hold; exact Hl'.
  - rewrite length_replace; exact Hlen.
  - intros l' c' Hl' E'; rewrite nth_error_replace in E'.
    destruct (Nat.eqb_spec l' l) as [->|_]; [|eapply Hnew; eauto].
    destruct (nth_error h l); inversion E'; subst; exact Hc.
Qed.

Lemma triple_attrs (l : Store.loc) : triple h0 (Store.attrs l) anything.
Proof.
  unfold Store.attrs.
  apply triple_bind with (P := anything); [apply triple_read|].
  intros [d|d|gr nd ad] _;
    [apply triple_ret; exact I | apply triple_raise | apply triple_raise].
Qed.

Lemma triple_refs (l : Store.loc) : triple h0 (Store.refs l) anything.
Proof.
  unfold Store.refs.
  apply triple_bind with (P := anything); [apply triple_read|].
  intros [d|d|gr nd ad] _;
    [apply triple_raise | apply triple_ret; exact I | apply triple_raise].
Qed.

Lemma triple_refs_new (l : Store.loc) :
  is_new h0 l -> triple h0 (Store.refs l) (all_new h0).
Proof.
  intros Hl; unfold Store.refs.
  apply triple_bind with (P := closed_cell (length h0));
    [apply triple_read_new; exact Hl|].
  intros [d|d|gr nd ad] Hc;
    [apply triple_raise | apply triple_ret; exact Hc | apply triple_raise].
Qed.

Lemma triple_obj (self : Store.loc) : triple h0 (Store.obj self) anything.
Proof.
  unfold Store.obj.
  apply triple_bind with (P := anything); [apply triple_read|].
  intros [d|d|gr nd ad] _;
    [apply triple_raise | apply triple_raise | apply triple_ret; exact I].
Qed.

Lemma triple_obj_new (self : Store.loc) :
  is_new h0 self ->
  triple h0 (Store.obj self)
         (fun r => is_new h0 (fst (fst r)) /\ is_new h0 (snd (fst r))
                   /\ is_new h0 (snd r)).
Proof.
  intros Hl; unfold Store.obj.
  apply triple_bind with (P := closed_cell (length h0));
    [apply triple_read_new; exact Hl|].
  intros [d|d|gr nd ad] Hc;
    [apply triple_raise | apply triple_raise | apply triple_ret; exact Hc].
Qed.

Lemma triple_attr (l : Store.loc) (k : string) :
  triple h0 (Store.attr l k) anything.
Proof.
  unfold Store.attr.
  apply triple_bind with (P := anything); [apply triple_attrs|]; intros d _.
  apply triple_lift; intros; exact I.
Qed.

Lemma triple_update_attrs (l : Store.loc) (items : list (string * Store.scalar)) :
  is_new h0 l -> triple h0 (Store.update_attrs l items) anything.
Proof.
  intros Hl; unfold Store.update_attrs.
  apply triple_bind with (P := anything); [apply triple_attrs|]; intros d _.
  apply triple_write; [exact Hl | exact I].
Qed.

(** [d.update({})] writes back what [d] holds: the store is the same,
    whichever object [d] is. *)
Lemma update_attrs_nil (l : Store.loc) (h : Store.heap) :
  fst (Store.update_attrs l [] h) = h.
Proof.
  unfold Store.update_attrs, Store.attrs, Store.read, Store.bindM.
  destruct (nth_error h l) as [[d|d|gr nd ad]|] eqn:E; simpl; auto.
  unfold Store.write.
  destruct (Nat.ltb l (length h)); simpl; [|reflexivity].
  apply replace_same; exact E.
Qed.

Lemma triple_update_attrs_nil (l : Store.loc) :
  triple h0 (Store.update_attrs l []) anything.
Proof.
  intros h Hi; rewrite update_attrs_nil; split; [exact Hi|].
  intros; exact I.
Qed.

Lemma triple_copy_attrs (l : Store.loc) :
  triple h0 (Store.copy_attrs l) (is_new h0).
Proof.
  unfold Store.copy_attrs.
  apply triple_bind with (P := anything); [apply triple_attrs|]; intros d _.
  apply triple_alloc; exact I.
Qed.

Lemma all_new_set (d : dict Store.loc) (k : vertex) (v : Store.loc) :
  all_new h0 d -> is_new h0 v -> all_new h0 (set d k v).
Proof.
  intros Hd Hv; induction d as [|[k' v'] d IH]; simpl.
  - intros k0 l [E|[]]; inversion E; subst; exact Hv.
  - destruct (Z.eqb k k').
    + intros k0 l [E|H]; [inversion E; subst; exact Hv|].
      apply (Hd k0 l); right; exact H.
    + intros k0 l [E|H]; [apply (Hd k0 l); left; exact E|].
      refine (IH _ k0 l H).
      intros k1 l1 H1; apply (Hd k1 l1); right; exact H1.
Qed.

Lemma triple_set_ref (l : Store.loc) (k : vertex) (v : Store.loc) :
  is_new h0 l -> is_new h0 v -> triple h0 (Store.set_ref l k v) anything.
Proof.
  intros Hl Hv; unfold Store.set_ref.
  apply triple_bind with (P := all_new h0);
    [apply triple_refs_new; exact Hl|]; intros d Hd.
  apply triple_write; [exact Hl|].
  apply all_new_set; assumption.
Qed.

Lemma triple_clear (l : Store.loc) :
  is_new h0 l -> triple h0 (Store.clear l) anything.
Proof.
  intros Hl; unfold Store.clear.
  apply triple_bind with (P := anything); [apply triple_read|].
  intros [d|d|gr nd ad] _.
  - apply triple_write; [exact Hl | exact I].
  - apply triple_write; [exact Hl | intros k l' []].
  - apply triple_raise.
Qed.

(** *** Graph *)

Lemma triple_new_graph : triple h0 Store.new_graph (is_new h0).
Proof.
  unfold Store.new_graph.
  apply triple_bind with (P := is_new h0); [apply triple_alloc; exact I|].
  intros gr Hgr.
  apply triple_bind with (P := is_new h0);
    [apply triple_alloc; intros k l []|].
  intros nd Hnd.
  apply triple_bind with (P := is_new h0);
    [apply triple_alloc; intros k l []|].
  intros ad Had.
  apply triple_alloc; repeat split; assumption.
Qed.

Lemma getitem_all_new (d : dict Store.loc) (k : vertex) (l : Store.loc) :
  all_new h0 d -> getitem d k = Ok l -> is_new h0 l.
Proof.
  intros Hd H; unfold getitem in H.
  destruct (get d k) as [l'|] eqn:E; simpl in H; [|discriminate].
  inversion H; subst; apply (Hd k l), get_Some_In; exact E.
Qed.

Lemma triple_adj_at (self : Store.loc) (u : vertex) :
  triple h0 (Store.adj_at self u) anything.
Proof.
  unfold Store.adj_at.
  apply triple_bind with (P := anything); [apply triple_obj|].
  intros [[gr nd] ad] _.
  apply triple_bind with (P := anything); [apply triple_refs|]; intros a _.
  apply triple_lift; intros; exact I.
Qed.

Lemma triple_adj_at_new (self : Store.loc) (u : vertex) :
  is_new h0 self -> triple h0 (Store.adj_at self u) (is_new h0).
Proof.
  intros Hs; unfold Store.adj_at.
  eapply triple_bind; [apply triple_obj_new; exact Hs|].
  intros [[gr nd] ad] (Hgr & Hnd & Had); simpl in *.
  apply triple_bind with (P := all_new h0);
    [apply triple_refs_new; exact Had|]; intros a Ha.
  apply triple_lift; intros l; apply getitem_all_new; exact Ha.
Qed.

Lemma triple_edge_at (self : Store.loc) (u v : vertex) :
  triple h0 (Store.edge_at self u v) anything.
Proof.
  unfold Store.edge_at.
  apply triple_bind with (P := anything); [apply triple_adj_at|]; intros au _.
  apply triple_bind with (P := anything); [apply triple_refs|]; intros nb _.
  apply triple_lift; intros; exact I.
Qed.

Lemma triple_edge_at_new (self : Store.loc) (u v : vertex) :
  is_new h0 self -> triple h0 (Store.edge_at self u v) (is_new h0).
Proof.
  intros Hs; unfold Store.edge_at.
  apply triple_bind with (P := is_new h0);
    [apply triple_adj_at_new; exact Hs|]; intros au Hau.
  apply triple_bind with (P := all_new h0);
    [apply triple_refs_new; exact Hau|]; intros nb Hnb.
  apply triple_lift; intros l; apply getitem_all_new; exact Hnb.
Qed.

Lemma triple_new_node (self : Store.loc) (u : vertex) :
  is_new h0 self -> triple h0 (Store.new_node self u) anything.
Proof.
  intros Hs; unfold Store.new_node.
  eapply triple_bind; [apply triple_obj_new; exact Hs|].
  intros [[gr nd] ad] (Hgr & Hnd & Had); simpl in *.
  apply triple_bind with (P := is_new h0);
    [apply triple_alloc; intros k l []|]; intros e He.
  apply triple_bind with (P := anything);
    [apply triple_set_ref; assumption|]; intros _ _.
  apply triple_bind with (P := is_new h0);
    [apply triple_alloc; exact I|]; intros n Hn.
  apply triple_set_ref; assumption.
Qed.

Lemma triple_ensure (self : Store.loc) (u : vertex) (b : bool) :
  is_new h0 self ->
  triple h0 (if b then Store.ret tt else Store.new_node self u) anything.
Proof.
  intros Hs; destruct b; [apply triple_ret; exact I|].
  apply triple_new_node; exact Hs.
Qed.

Lemma triple_add_edge (self : Store.loc) (u v : vertex)
      (attr : list (string * Store.scalar)) :
  is_new h0 self -> triple h0 (Store.add_edge self u v attr) anything.
Proof.
  intros Hs; unfold Store.add_edge.
  eapply triple_bind; [apply triple_obj_new; exact Hs|].
  intros [[gr nd] ad] (Hgr & Hnd & Had); simpl in *.
  apply triple_bind with (P := anything); [apply triple_refs|]; intros ns _.
  apply triple_bind with (P := anything);
    [apply triple_ensure; exact Hs|]; intros _ _.
  apply triple_bind with (P := anything); [apply triple_refs|]; intros ns' _.
  apply triple_bind with (P := anything);
    [apply triple_ensure; exact Hs|]; intros _ _.
  apply triple_bind with (P := is_new h0);
    [apply triple_adj_at_new; exact Hs|]; intros au Hau.
  apply triple_bind with (P := all_new h0);
    [apply triple_refs_new; exact Hau|]; intros nb Hnb.
  apply triple_bind with (P := is_new h0);
    [apply triple_alloc; exact I|]; intros fresh Hfresh.
  assert (Hd : is_new h0 match get nb v with Some d => d | None => fresh end).
  { destruct (get nb v) as [d|] eqn:E; [|exact Hfresh].
    apply (Hnb v d), get_Some_In; exact E. }
  apply triple_bind with (P := anything);
    [apply triple_update_attrs; exact Hd|]; intros _ _.
  apply triple_bind with (P := is_new h0);
    [apply triple_adj_at_new; exact Hs|]; intros au' Hau'.
  apply triple_bind with (P := anything);
    [apply triple_set_ref; assumption|]; intros _ _.
  apply triple_bind with (P := is_new h0);
    [apply triple_adj_at_new; exact Hs|]; intros av Hav.
  apply triple_set_ref; assumption.
Qed.

Lemma triple_nodes (self : Store.loc) : triple h0 (Store.nodes self) anything.
Proof.
  unfold Store.nodes.
  apply triple_bind with (P := anything); [apply triple_obj|].
  intros [[gr nd] ad] _.
  apply triple_bind with (P := anything); [apply triple_refs|]; intros ns _.
  apply triple_ret; exact I.
Qed.

Lemma triple_degree (self : Store.loc) (n : vertex) :
  triple h0 (Store.degree self n) anything.
Proof.
  unfold Store.degree.
  apply triple_bind with (P := anything); [apply triple_adj_at|]; intros au _.
  apply triple_bind with (P := anything); [apply triple_refs|]; intros nb _.
  apply triple_ret; exact I.
Qed.

Lemma triple_neighbours (a : dict Store.loc) :
  triple h0 (Store.neighbours a) anything.
Proof.
  induction a as [|[n l] a IH]; simpl; [apply triple_ret; exact I|].
  apply triple_bind with (P := anything); [apply triple_refs|]; intros nb _.
  apply triple_bind with (P := anything); [exact IH|]; intros rest _.
  apply triple_ret; exact I.
Qed.

Lemma triple_adjacency (self : Store.loc) :
  triple h0 (Store.adjacency self) anything.
Proof.
  unfold Store.adjacency.
  apply triple_bind with (P := anything); [apply triple_obj|].
  intros [[gr nd] ad] _.
  apply triple_bind with (P := anything); [apply triple_refs|]; intros a _.
  apply triple_neighbours.
Qed.

Lemma triple_shortest_path (self : Store.loc) (source : vertex) :
  triple h0 (Store.shortest_path self source) anything.
Proof.
  unfold Store.shortest_path.
  apply triple_bind with (P := anything); [apply triple_adjacency|]; intros a _.
  apply triple_lift; intros; exact I.
Qed.

Lemma triple_shortest_path_length (self : Store.loc) (source : vertex) :
  triple h0 (Store.shortest_path_length self source) anything.
Proof.
  unfold Store.shortest_path_length.
  apply triple_bind with (P := anything); [apply triple_adjacency|]; intros a _.
  apply triple_lift; intros; exact I.
Qed.

(** *** MultiGraph *)

Lemma triple_given (attr_dict : option Store.loc)
      (attr : list (string * Store.scalar)) :
  triple h0 (Store.given attr_dict attr) anything.
Proof.
  destruct attr_dict as [l|]; simpl;
    [apply triple_attrs | apply triple_ret; exact I].
Qed.

(** [add_edge] on a new multigraph: with keyword arguments only, or with
    an [attr_dict] and no keyword argument. *)
Lemma triple_madd_edge (self : Store.loc) (u v : vertex)
      (attr_dict : option Store.loc) (attr : list (string * Store.scalar)) :
  is_new h0 self -> attr_dict = None \/ attr = [] ->
  triple h0 (Store.madd_edge self u v attr_dict attr) anything.
Proof.
  intros Hs Hattr; unfold Store.madd_edge.
  apply triple_bind with (P := anything).
  { destruct attr_dict as [l|]; [|apply triple_ret; exact I].
    destruct Hattr as [Hn | ->]; [discriminate|].
    apply triple_reraise, triple_update_attrs_nil. }
  intros _ _.
  eapply triple_bind; [apply triple_obj_new; exact Hs|].
  intros [[gr nd] ad] (Hgr & Hnd & Had); simpl in *.
  apply triple_bind with (P := anything); [apply triple_refs|]; intros a _.
  apply triple_bind with (P := anything);
    [apply triple_ensure; exact Hs|]; intros _ _.
  apply triple_bind with (P := anything); [apply triple_refs|]; intros a' _.
  apply triple_bind with (P := anything);
    [apply triple_ensure; exact Hs|]; intros _ _.
  apply triple_bind with (P := is_new h0);
    [apply triple_adj_at_new; exact Hs|]; intros au Hau.
  apply triple_bind with (P := all_new h0);
    [apply triple_refs_new; exact Hau|]; intros nb Hnb.
  destruct (get nb v) as [keydict|] eqn:E.
  - assert (Hk : is_new h0 keydict) by (apply (Hnb v), get_Some_In; exact E).
    apply triple_bind with (P := all_new h0);
      [apply triple_refs_new; exact Hk|]; intros kd Hkd.
    apply triple_bind with (P := anything);
      [apply triple_lift; intros; exact I|]; intros key _.
    apply triple_bind with (P := is_new h0);
      [apply triple_alloc; exact I|]; intros fresh Hfresh.
    assert (Hd : is_new h0 match get kd key with
                        | Some d => d
                        | None => fresh
                        end).
    { destruct (get kd key) as [d|] eqn:Ed; [|exact Hfresh].
      apply (Hkd key d), get_Some_In; exact Ed. }
    apply triple_bind with (P := anything); [apply triple_given|];
      intros items _.
    apply triple_bind with (P := anything);
      [apply triple_update_attrs; exact Hd|]; intros _ _.
    apply triple_set_ref; assumption.
  - apply triple_bind with (P := is_new h0);
      [apply triple_alloc; exact I|]; intros datadict Hd.
    apply triple_bind with (P := anything); [apply triple_given|];
      intros items _.
    apply triple_bind with (P := anything);
      [apply triple_update_attrs; exact Hd|]; intros _ _.
    apply triple_bind with (P := is_new h0).
    { apply triple_alloc; intros k l [H|[]]; inversion H; subst; exact Hd. }
    intros keydict Hk.
    apply triple_bind with (P := is_new h0);
      [apply triple_adj_at_new; exact Hs|]; intros au' Hau'.
    apply triple_bind with (P := anything);
      [apply triple_set_ref; assumption|]; intros _ _.
    apply triple_bind with (P := is_new h0);
      [apply triple_adj_at_new; exact Hs|]; intros av Hav.
    apply triple_set_ref; assumption.
Qed.

Lemma triple_add_node (self : Store.loc) (n : vertex) :
  is_new h0 self -> triple h0 (Store.add_node self n) anything.
Proof.
  intros Hs; unfold Store.add_node.
  eapply triple_bind; [apply triple_obj_new; exact Hs|].
  intros [[gr nd] ad] (Hgr & Hnd & Had); simpl in *.
  apply triple_bind with (P := anything); [apply triple_refs|]; intros ns _.
  destruct (get ns n) as [a|]; [apply triple_update_attrs_nil|].
  apply triple_bind with (P := is_new h0);
    [apply triple_alloc; intros k l []|]; intros e He.
  apply triple_bind with (P := anything);
    [apply triple_set_ref; assumption|]; intros _ _.
  apply triple_bind with (P := is_new h0);
    [apply triple_alloc; exact I|]; intros a Ha.
  apply triple_set_ref; assumption.
Qed.

Lemma triple_convert_edge (self : Store.loc) (u : vertex)
      (seen : list (vertex * vertex)) (vd : vertex * Store.loc) :
  is_new h0 self -> triple h0 (Store.convert_edge self u seen vd) anything.
Proof.
  intros Hs; unfold Store.convert_edge.
  destruct (seen_pair (u, fst vd) seen); [apply triple_ret; exact I|].
  apply triple_bind with (P := anything);
    [apply triple_madd_edge; [exact Hs | right; reflexivity]|].
  intros _ _; apply triple_ret; exact I.
Qed.

Lemma triple_convert_edges (self : Store.loc) (u : vertex)
      (nb : dict Store.loc) (seen : list (vertex * vertex)) :
  is_new h0 self -> triple h0 (Store.convert_edges self u nb seen) anything.
Proof.
  intros Hs; revert seen; induction nb as [|vd nb IH]; intros seen; simpl.
  - apply triple_ret; exact I.
  - apply triple_bind with (P := anything);
      [apply triple_convert_edge; exact Hs|]; intros seen' _; apply IH.
Qed.

Lemma triple_convert_nodes (self : Store.loc) (d : dict Store.loc)
      (seen : list (vertex * vertex)) :
  is_new h0 self -> triple h0 (Store.convert_nodes self d seen) anything.
Proof.
  intros Hs; revert seen; induction d as [|[u l] d IH]; intros seen; simpl.
  - apply triple_ret; exact I.
  - apply triple_bind with (P := anything); [apply triple_refs|]; intros nb _.
    apply triple_bind with (P := anything);
      [apply triple_convert_edges; exact Hs|]; intros seen' _; apply IH.
Qed.

Lemma triple_copy_nodes (d : dict Store.loc) :
  triple h0 (Store.copy_nodes d) (all_new h0).
Proof.
  induction d as [|[n dd] d IH]; simpl.
  - apply triple_ret; intros k l [].
  - apply triple_bind with (P := is_new h0); [apply triple_copy_attrs|].
    intros c Hc.
    apply triple_bind with (P := all_new h0); [exact IH|]; intros rest Hr.
    apply triple_ret; intros k l [E|H];
      [inversion E; subst; exact Hc | apply (Hr k l H)].
Qed.

Lemma triple_to_multigraph (data : Store.loc) :
  triple h0 (Store.to_multigraph data) (is_new h0).
Proof.
  unfold Store.to_multigraph.
  apply triple_bind with (P := is_new h0); [apply triple_new_graph|].
  intros self Hs.
  apply triple_bind with (P := anything).
  { apply triple_reraise.
    apply triple_bind with (P := anything); [apply triple_obj|].
    intros [[dgr dnd] dad] _.
    eapply triple_bind; [apply triple_obj_new; exact Hs|].
    intros [[gr nd] ad] (Hgr & Hnd & Had); simpl in *.
    apply triple_bind with (P := anything);
      [apply triple_clear; exact Had|]; intros _ _.
    apply triple_bind with (P := anything);
      [apply triple_clear; exact Hnd|]; intros _ _.
    apply triple_bind with (P := anything);
      [apply triple_clear; exact Hgr|]; intros _ _.
    apply triple_bind with (P := anything); [apply triple_refs|]; intros d _.
    apply triple_bind with (P := anything).
    { apply triple_for_each; intros n _; apply triple_add_node; exact Hs. }
    intros _ _.
    apply triple_bind with (P := anything);
      [apply triple_convert_nodes; exact Hs|]; intros _ _.
    apply triple_bind with (P := is_new h0); [apply triple_copy_attrs|].
    intros gr' Hgr'.
    apply triple_bind with (P := anything); [apply triple_refs|]; intros dn _.
    apply triple_bind with (P := all_new h0); [apply triple_copy_nodes|].
    intros copies Hcopies.
    apply triple_bind with (P := is_new h0);
      [apply triple_alloc; exact Hcopies|]; intros nd' Hnd'.
    apply triple_write; [exact Hs | repeat split; assumption]. }
  intros _ _.
  eapply triple_bind; [apply triple_obj_new; exact Hs|].
  intros [[gr nd] ad] (Hgr & Hnd & Had); simpl in *.
  apply triple_bind with (P := anything);
    [apply triple_update_attrs; exact Hgr|]; intros _ _.
  apply triple_ret; exact Hs.
Qed.

(** *** postman.py *)

Lemma triple_is_odd (graph : Store.loc) (n : vertex) :
  triple h0 (Store.is_odd graph n) anything.
Proof.
  unfold Store.is_odd.
  apply triple_bind with (P := anything); [apply triple_degree|]; intros d _.
  apply triple_ret; exact I.
Qed.

Lemma triple_odd_edge (result : Store.loc) (u : vertex)
      (paths : dict (list vertex)) (lengths : dict Z) (v : vertex) :
  is_new h0 result ->
  triple h0 (Store.odd_edge result u paths lengths v) anything.
Proof.
  intros Hr; unfold Store.odd_edge.
  destruct (Z.leb u v); [apply triple_ret; exact I|].
  apply triple_bind with (P := anything);
    [apply triple_lift; intros; exact I|]; intros lv _.
  apply triple_bind with (P := anything);
    [apply triple_lift; intros; exact I|]; intros pv _.
  apply triple_add_edge; exact Hr.
Qed.

Lemma triple_odd_row (graph result : Store.loc) (odd_nodes : list vertex)
      (u : vertex) :
  is_new h0 result -> triple h0 (Store.odd_row graph result odd_nodes u) anything.
Proof.
  intros Hr; unfold Store.odd_row.
  apply triple_bind with (P := anything); [apply triple_shortest_path|].
  intros paths _.
  apply triple_bind with (P := anything); [apply triple_shortest_path_length|].
  intros lengths _.
  apply triple_for_each; intros v _; apply triple_odd_edge; exact Hr.
Qed.

Lemma triple_odd_graph (graph : Store.loc) :
  triple h0 (Store.odd_graph graph) (is_new h0).
Proof.
  unfold Store.odd_graph.
  apply triple_bind with (P := is_new h0); [apply triple_new_graph|].
  intros result Hr.
  apply triple_bind with (P := anything); [apply triple_nodes|]; intros ns _.
  apply triple_bind with (P := anything);
    [apply triple_filter; intros n; apply triple_is_odd|].
  intros odd_nodes _.
  apply triple_bind with (P := anything).
  { apply triple_for_each; intros u _; apply triple_odd_row; exact Hr. }
  intros _ _; apply triple_ret; exact Hr.
Qed.

Section PipelineTriples.
Variable max_weight_matching : Store.heap -> Store.loc -> bool -> dict vertex.
Variable eulerian_circuit :
  Store.heap -> Store.loc -> outcome (list (vertex * vertex)).

Lemma triple_path_of (edge : Store.loc) :
  triple h0 (Store.path_of edge) anything.
Proof.
  unfold Store.path_of.
  apply triple_bind with (P := anything); [apply triple_attr|].
  intros [n|s|p] _;
    [apply triple_raise | apply triple_raise | apply triple_ret; exact I].
Qed.

Lemma triple_duplicate_edge (graph eulerian_graph : Store.loc)
      (pq : vertex * vertex) :
  is_new h0 eulerian_graph ->
  triple h0 (Store.duplicate_edge graph eulerian_graph pq) anything.
Proof.
  intros He; unfold Store.duplicate_edge.
  apply triple_bind with (P := anything); [apply triple_edge_at|]; intros d _.
  apply triple_bind with (P := anything); [apply triple_attr|]; intros w _.
  apply triple_madd_edge; [exact He | left; reflexivity].
Qed.

Lemma triple_duplicate_path (graph odd eulerian_graph : Store.loc)
      (uv : vertex * vertex) :
  is_new h0 eulerian_graph ->
  triple h0 (Store.duplicate_path graph odd eulerian_graph uv) anything.
Proof.
  intros He; unfold Store.duplicate_path.
  destruct (Z.leb (snd uv) (fst uv)); [apply triple_ret; exact I|].
  apply triple_bind with (P := anything); [apply triple_edge_at|].
  intros edge _.
  apply triple_bind with (P := anything); [apply triple_path_of|].
  intros path _.
  apply triple_for_each; intros pq _.
  apply triple_duplicate_edge; exact He.
Qed.

Lemma triple_chinese_postman_path (graph : Store.loc) :
  triple h0 (Store.chinese_postman_path max_weight_matching
                                        eulerian_circuit graph) anything.
Proof.
  unfold Store.chinese_postman_path.
  apply triple_bind with (P := is_new h0); [apply triple_odd_graph|].
  intros odd Hodd.
  apply triple_bind with (P := anything).
  { apply (triple_reader (fun h => Ok (max_weight_matching h odd true))). }
  intros matching _.
  apply triple_bind with (P := is_new h0); [apply triple_to_multigraph|].
  intros eulerian_graph He.
  apply triple_bind with (P := anything).
  { apply triple_for_each; intros uv _.
    apply triple_duplicate_path; exact He. }
  intros _ _.
  apply triple_bind with (P := anything).
  { apply (triple_reader (fun h => eulerian_circuit h eulerian_graph)). }
  intros circuit _.
  apply triple_bind with (P := anything);
    [apply triple_lift; intros; exact I|]; intros c0 _.
  apply triple_ret; exact I.
Qed.
End PipelineTriples.
End Triples.

(** *** What the objects denote *)

Lemma framed_firstn (h0 h : Store.heap) : framed h0 h -> firstn (length h0) h = h0.
Proof.
  intros (Hold & Hlen & _).
  apply nth_error_ext; intros l.
  destruct (Nat.lt_ge_cases l (length h0)) as [Hlt|Hge].
  - rewrite nth_error_firstn.
    destruct (Nat.ltb_spec l (length h0)); [apply Hold; exact Hlt | lia].
  - rewrite nth_error_firstn.
    destruct (Nat.ltb_spec l (length h0)); [lia|].
    symmetry; apply nth_error_None; exact Hge.
Qed.

Lemma firstn_extends (h h' : Store.heap) :
  firstn (length h) h' = h -> extends h h'.
Proof.
  intros H l c E.
  assert (Hl : (l < length h)%nat) by (apply nth_error_Some; congruence).
  rewrite <- H in E; rewrite nth_error_firstn in E.
  destruct (Nat.ltb_spec l (length h)); [exact E | lia].
Qed.

Section ViewFacts.
Variables h h' : Store.heap.
Hypothesis Hext : extends h h'.

Lemma view_attrs_extends l d :
  Store.view_attrs h l = Some d -> Store.view_attrs h' l = Some d.
Proof.
  unfold Store.view_attrs.
  destruct (nth_error h l) as [c|] eqn:E; [|discriminate].
  rewrite (Hext l c E); auto.
Qed.

Lemma view_refs_extends l d :
  Store.view_refs h l = Some d -> Store.view_refs h' l = Some d.
Proof.
  unfold Store.view_refs.
  destruct (nth_error h l) as [c|] eqn:E; [|discriminate].
  rewrite (Hext l c E); auto.
Qed.

Lemma and_then_extends {A B : Type} (o o' : option A)
      (k k' : A -> option B) (b : B) :
  (forall a, o = Some a -> o' = Some a) ->
  (forall a b, k a = Some b -> k' a = Some b) ->
  Store.and_then o k = Some b -> Store.and_then o' k' = Some b.
Proof.
  intros Ho Hk; destruct o as [a|]; simpl; [|discriminate].
  rewrite (Ho a eq_refl); simpl; apply Hk.
Qed.

Lemma traverse_extends {A B : Type} (f f' : A -> option B) (d : dict A)
      (r : dict B) :
  (forall a b, f a = Some b -> f' a = Some b) ->
  Store.traverse f d = Some r -> Store.traverse f' d = Some r.
Proof.
  intros Hf; revert r; induction d as [|[k x] d IH]; intros r; simpl;
    [auto|].
  apply and_then_extends; [apply Hf|].
  intros y b; apply and_then_extends; [apply IH|]; auto.
Qed.

Section Decoded.
Variable E : Type.
Variable decode : list (string * Store.scalar) -> option E.

Lemma view_data_extends l e :
  Store.view_data decode h l = Some e ->
  Store.view_data decode h' l = Some e.
Proof.
  unfold Store.view_data; apply and_then_extends; auto.
  apply view_attrs_extends.
Qed.

Lemma view_node_extends l a :
  Store.view_node h l = Some a -> Store.view_node h' l = Some a.
Proof.
  unfold Store.view_node; apply and_then_extends; auto.
  apply view_attrs_extends.
Qed.

Lemma view_graph_extends g G :
  Store.view_graph decode h g = Some G ->
  Store.view_graph decode h' g = Some G.
Proof.
  unfold Store.view_graph.
  destruct (nth_error h g) as [c|] eqn:Eg; [|discriminate].
  rewrite (Hext g c Eg).
  destruct c as [d|d|gr nd ad]; try discriminate.
  apply and_then_extends; [apply view_refs_extends|]; intros ns G1.
  apply and_then_extends;
    [intros node; apply traverse_extends; apply view_node_extends|].
  intros node G2.
  apply and_then_extends; [apply view_refs_extends|]; intros a G3.
  apply and_then_extends; [|auto].
  intros adj; apply traverse_extends; intros l nb.
  apply and_then_extends; [apply view_refs_extends|].
  intros d r; apply traverse_extends; apply view_data_extends.
Qed.
End Decoded.
End ViewFacts.

(** C9: [chinese_postman_path] writes to no object that exists when it is
    called.  Whatever the store [h], the address [graph] and the two library
    routines, and whether the call returns or raises, the store after the
    call begins with [h] itself: the objects of the base graph (the
    instance, its node and adjacency dicts, the data dict of each edge and
    node) hold what they held, and every object written is one that the call
    has created (the odd graph, the multigraph copy and their dicts).  Hence
    a base graph that denotes the graph value [G] before the call, with its
    nodes, edges, weights, ids and coordinates, denotes [G] after it. *)
Theorem chinese_postman_path_keeps_base_graph
        (max_weight_matching : Store.heap -> Store.loc -> bool -> dict vertex)
        (eulerian_circuit :
           Store.heap -> Store.loc -> outcome (list (vertex * vertex)))
        (h : Store.heap) (graph : Store.loc) :
  let h' := fst (Store.chinese_postman_path max_weight_matching
                                            eulerian_circuit graph h) in
  firstn (length h) h' = h
  /\ forall G, Store.view_graph Store.decode_base h graph = Some G ->
               Store.view_graph Store.decode_base h' graph = Some G.
Proof.
  intros h'.
  assert (H : firstn (length h) h' = h).
  { apply framed_firstn.
    apply (triple_chinese_postman_path h max_weight_matching eulerian_circuit
                                       graph h (framed_start h)). }
  split; [exact H|].
  intros G; apply view_graph_extends, firstn_extends; exact H.
Qed.

(** ** The store at a concrete input *)

(** [import_csv_graph] over the store builds an object that denotes the
    graph value of [import_csv_graph] above. *)
Example store_import_agrees :
  exists G,
    import_csv_graph (map ReadRow shortcut_rows) = Ok G
    /\ snd (Store.import_csv_graph (map ReadRow shortcut_rows) []) = Ok shortcut_object
    /\ Store.view_graph Store.decode_base shortcut_store shortcut_object
       = Some G.
Proof.
  eexists.
  split; [vm_compute; reflexivity|].
  split; vm_compute; reflexivity.
Qed.

(** On that object [chinese_postman_path] over the store returns the node
    sequence of [chinese_postman_path] above, and a multigraph object that
    denotes the same multigraph value. *)
Example store_run_agrees :
  exists G EG nodes h eulerian_graph,
    import_csv_graph (map ReadRow shortcut_rows) = Ok G
    /\ chinese_postman_path exhaustive_matching search_circuit G
       = Ok (EG, nodes)
    /\ Store.chinese_postman_path store_matching store_circuit
                                  shortcut_object shortcut_store
       = (h, Ok (eulerian_graph, nodes))
    /\ Store.view_multigraph Store.decode_multi h eulerian_graph = Some EG
    /\ nodes = [1; 2; 1; 3; 2; 4; 1].
Proof.
  do 5 eexists.
  split; [vm_compute; reflexivity|].
  split; [vm_compute; reflexivity|].
  split; [vm_compute; reflexivity|].
  split; vm_compute; reflexivity.
Qed.

Lemma chinese_postman_path_keeps_base_graph_witness :
  exists G,
    Store.view_graph Store.decode_base shortcut_store shortcut_object = Some G
    /\ Store.view_graph
         Store.decode_base
         (fst (Store.chinese_postman_path store_matching store_circuit
                                          shortcut_object shortcut_store))
         shortcut_object
       = Some G.
Proof.
  eexists; split; [vm_compute; reflexivity|].
  apply (proj2 (chinese_postman_path_keeps_base_graph
                  store_matching store_circuit shortcut_store
                  shortcut_object)).
  vm_compute; reflexivity.
Defined.

(* ================================================================== *)
(** * Further properties of the code *)

(** ** pairs *)

Lemma pairs_loop_components {A : Type} (prev : A) (rest : list A) :
  map fst (pairs_loop prev rest) = removelast (prev :: rest)
  /\ map snd (pairs_loop prev rest) = rest.
Proof.
  revert prev; induction rest as [|item rest IH]; intros prev;
    [split; reflexivity|].
  destruct (IH item) as [H1 H2].
  change (pairs_loop prev (item :: rest))
    with ((prev, item) :: pairs_loop item rest).
  change (removelast (prev :: item :: rest))
    with (prev :: removelast (item :: rest)).
  simpl map; rewrite H1, H2; split; reflexivity.
Qed.

(** X1: without [circular], the first components of [pairs(lst)] are [lst]
    without its last item and the second components are [lst] without its
    first: a list of [n + 1] items gives [n] pairs, and a list of one item
    or none gives no pair. *)
Theorem pairs_components {A : Type} (lst : list A) :
  map fst (pairs lst false) = removelast lst
  /\ map snd (pairs lst false) = tl lst
  /\ length (pairs lst false) = Nat.pred (length lst).
Proof.
  destruct lst as [|first rest]; [repeat split; reflexivity|].
  unfold pairs; rewrite app_nil_r.
  destruct (pairs_loop_components first rest) as [H1 H2].
  split; [exact H1|]; split; [exact H2|].
  rewrite <- (length_map snd), H2; reflexivity.
Qed.

(** X2: with [circular=True] the first components of [pairs(lst)] are
    [lst] itself and the second components are [lst] rotated by one place:
    every item is paired with its successor, the last with the first, and
    a list of one item [x] gives the pair [(x, x)]. *)
Theorem pairs_circular_components {A : Type} (lst : list A) :
  map fst (pairs lst true) = lst
  /\ map snd (pairs lst true) = tl lst ++ firstn 1 lst.
Proof.
  destruct lst as [|first rest]; [split; reflexivity|].
  unfold pairs; rewrite !map_app.
  destruct (pairs_loop_components first rest) as [H1 H2].
  rewrite H1, H2; split; [|reflexivity].
  simpl map; rewrite <- (last_cons first rest first).
  symmetry; apply app_removelast_last; discriminate.
Qed.

(** ** The node sequence and the circuit *)

Lemma chinese_postman_path_inv
      (max_weight_matching : Graph odd_attrs -> bool -> dict vertex)
      (eulerian_circuit :
         MultiGraph multi_attrs -> outcome (list (vertex * vertex)))
      (graph : Graph base_attrs) (eg : MultiGraph multi_attrs)
      (nodes : list vertex) :
  chinese_postman_path max_weight_matching eulerian_circuit graph
  = Ok (eg, nodes) ->
  exists og c0 rest,
    odd_graph graph = Ok og
    /\ augment graph og (max_weight_matching og true) = Ok eg
    /\ eulerian_circuit eg = Ok (c0 :: rest)
    /\ nodes = map fst (c0 :: rest) ++ [fst c0].
Proof.
  unfold chinese_postman_path; intros H.
  destruct (odd_graph graph) as [og| |]; try discriminate; cbn [bind] in H.
  destruct (augment graph og (max_weight_matching og true)) as [eg'| |] eqn:Ea;
    try discriminate; cbn [bind] in H.
  destruct (eulerian_circuit eg') as [c| |] eqn:Ec; try discriminate.
  cbn [bind] in H; destruct c as [|c0 rest]; [discriminate|].
  cbn [first bind] in H; inversion H; subst.
  exists og, c0, rest; repeat split; assumption.
Qed.

(** X3: the consecutive pairs of the returned node sequence, which
    [write_csv] iterates with [pairs(nodes, False)], are the edges of the
    circuit that [nx.eulerian_circuit] returned, in the same order, as soon
    as each edge of that circuit starts where the one before it ends. *)
Theorem pairs_of_route_are_the_circuit
        (max_weight_matching : Graph odd_attrs -> bool -> dict vertex)
        (eulerian_circuit :
           MultiGraph multi_attrs -> outcome (list (vertex * vertex)))
        (graph : Graph base_attrs) (eg : MultiGraph multi_attrs)
        (nodes : list vertex) :
  chinese_postman_path max_weight_matching eulerian_circuit graph
  = Ok (eg, nodes) ->
  (forall c, eulerian_circuit eg = Ok c -> closed_chain c) ->
  eulerian_circuit eg = Ok (pairs nodes false).
Proof.
  intros H Hc.
  destruct (chinese_postman_path_inv _ _ _ _ _ H)
    as [og [c0 [rest [_ [_ [Ec ->]]]]]].
  destruct (circuit_nodes (c0 :: rest) c0 rest eq_refl (Hc _ Ec)) as [Hp _].
  rewrite Hp; exact Ec.
Qed.

Lemma pairs_of_route_are_the_circuit_witness :
  exists eg nodes,
    chinese_postman_path exhaustive_matching search_circuit shortcut_graph
    = Ok (eg, nodes)
    /\ search_circuit eg = Ok (pairs nodes false).
Proof.
  eexists; eexists; split; [vm_compute; reflexivity|].
  apply (pairs_of_route_are_the_circuit exhaustive_matching search_circuit
                                        shortcut_graph).
  - vm_compute; reflexivity.
  - intros c H; vm_compute in H; injection H as <-; cbv; tauto.
Defined.

(** ** import_csv_graph *)

Lemma digits_all (s : string) (n : nat) (acc : Z) :
  all_chars is_digit s = true ->
  digits s n acc = ((n + String.length s)%nat, decimal s acc, EmptyString).
Proof.
  revert n acc; induction s as [|c s IH]; intros n acc;
    cbn [digits decimal all_chars String.length].
  - intros _; rewrite Nat.add_0_r; reflexivity.
  - intros H; apply andb_true_iff in H; destruct H as [Hc Hs].
    rewrite Hc, IH by exact Hs.
    rewrite Nat.add_succ_r; reflexivity.
Qed.

Lemma decimal_nonneg (s : string) (acc : Z) :
  all_chars is_digit s = true -> 0 <= acc -> 0 <= decimal s acc.
Proof.
  revert acc; induction s as [|c s IH]; intros acc; cbn [decimal all_chars];
    [auto|].
  intros H Hacc; apply andb_true_iff in H; destruct H as [Hc Hs].
  apply IH; [exact Hs|].
  unfold is_digit in Hc; apply andb_true_iff in Hc; destruct Hc as [H1 _].
  apply Nat.leb_le in H1; lia.
Qed.

Lemma digit_not_space (c : ascii) : is_digit c = true -> is_space c = false.
Proof.
  unfold is_digit, is_space; intros H.
  apply andb_true_iff in H; destruct H as [H1 H2].
  apply Nat.leb_le in H1, H2.
  destruct (Nat.eqb_spec (nat_of_ascii c) 32); [lia|].
  destruct (Nat.leb_spec 9 (nat_of_ascii c)); [|reflexivity].
  destruct (Nat.leb_spec (nat_of_ascii c) 13); [lia | reflexivity].
Qed.

Lemma py_int_digits (s : string) :
  isdigit s = true -> py_int s = Ok (decimal s 0) /\ 0 <= decimal s 0.
Proof.
  intros H; destruct s as [|c s]; [discriminate|].
  unfold isdigit in H.
  split; [|apply decimal_nonneg; [exact H | lia]].
  pose proof H as Hall; simpl in H; apply andb_true_iff in H.
  destruct H as [Hc Hs].
  assert (Hl : lstrip (String c s) = String c s).
  { simpl; rewrite (digit_not_space c Hc); reflexivity. }
  unfold py_int; rewrite Hl.
  assert (Hsign : (match String c s with
                   | String "-"%char r => (-1, r)
                   | String "+"%char r => (1, r)
                   | _ => (1, String c s)
                   end) = (1, String c s)).
  { destruct c as [[] [] [] [] [] [] [] []]; try reflexivity;
      vm_compute in Hc; discriminate. }
  rewrite Hsign, Hl, (digits_all _ 0 0 Hall).
  cbn [Nat.add String.length lstrip]; rewrite Z.mul_1_l; reflexivity.
Qed.

(** X4: the header test guards the first field: when [row[0].isdigit()]
    holds, [int(row[0])] returns the decimal value of the field, which is
    not negative, so no start node of an ingested row has a negative
    identifier; a field such as [-5] fails the test and its row is skipped
    as a header row. *)
Theorem isdigit_guards_first_field (graph : Graph base_attrs) (r0 : string)
        (rest : list string) :
  (isdigit r0 = true ->
   py_int r0 = Ok (decimal r0 0) /\ 0 <= decimal r0 0)
  /\ (isdigit r0 = false -> import_row graph (r0 :: rest) = Ok graph)
  /\ (forall digits, isdigit (String "-" digits) = false).
Proof.
  split; [apply py_int_digits|]; split.
  - intros H; unfold import_row; simpl; rewrite H; reflexivity.
  - reflexivity.
Qed.

Lemma isdigit_guards_first_field_witness :
  py_int "042" = Ok 42
  /\ import_row two_components ["-5"; "7"; "12"]%string = Ok two_components.
Proof.
  split.
  - apply (proj1 (isdigit_guards_first_field two_components "042" [])).
    reflexivity.
  - apply (proj1 (proj2 (isdigit_guards_first_field
                           two_components "-5" ["7"; "12"]%string))).
    reflexivity.
Defined.

(** *** What [add_edge] keeps *)

Section SoundFacts.
Variable E : Type.
Implicit Types g : Graph E.

Lemma touch_inner g n u nb :
  keys (node g) = keys (adj g) ->
  (forall x xb, get (adj g) x = Some xb -> NoDup (keys xb)) ->
  get (adj (touch g n)) u = Some nb -> NoDup (keys nb).
Proof.
  intros Hk Hin; unfold touch; destruct (mem n (node g)) eqn:Em;
    [apply Hin|].
  simpl; rewrite get_set.
  destruct (Z.eqb u n); [|apply Hin].
  intros H; inversion H; constructor.
Qed.

Lemma set_adj_inner g u v d x nb :
  (forall y yb, get (adj g) y = Some yb -> NoDup (keys yb)) ->
  get (adj (set_adj g u v d)) x = Some nb -> NoDup (keys nb).
Proof.
  intros Hin; unfold set_adj; destruct (get (adj g) u) as [ub|] eqn:Eu;
    [|apply Hin].
  simpl; rewrite get_set.
  destruct (Z.eqb x u); [|apply Hin].
  intros H; inversion H; apply NoDup_keys_set; apply (Hin u ub Eu).
Qed.

Lemma add_edge_sound g u v d : sound g -> sound (add_edge g u v d).
Proof.
  intros [Hk [Hnd Hin Hsym]]; split; [apply add_edge_keys; exact Hk|].
  constructor.
  - apply add_edge_NoDup; assumption.
  - intros x nb; unfold add_edge.
    apply set_adj_inner; intros y yb; apply set_adj_inner; intros z zb.
    apply touch_inner; [apply touch_keys; exact Hk|].
    intros w wb; apply touch_inner; assumption.
  - intros x y; rewrite !add_edge_get2 by exact Hk.
    rewrite (Hsym x y).
    destruct (Z.eqb x u), (Z.eqb y v), (Z.eqb x v), (Z.eqb y u);
      reflexivity.
Qed.

Lemma set_longitude_spec g n s :
  mem n (node g) = true ->
  exists a,
    get (node g) n = Some a
    /\ set_longitude g n s
       = Ok (mk_graph (set (node g) n (mk_node_attrs (Some s) (latitude a)))
                      (adj g)).
Proof.
  intros H; apply mem_get in H; destruct H as [a Ha]; exists a.
  unfold set_longitude, getitem; rewrite Ha; split; reflexivity.
Qed.

Lemma set_latitude_spec g n s :
  mem n (node g) = true ->
  exists a,
    get (node g) n = Some a
    /\ set_latitude g n s
       = Ok (mk_graph (set (node g) n (mk_node_attrs (longitude a) (Some s)))
                      (adj g)).
Proof.
  intros H; apply mem_get in H; destruct H as [a Ha]; exists a.
  unfold set_latitude, getitem; rewrite Ha; split; reflexivity.
Qed.
End SoundFacts.

Lemma wf_adjb_complete {X : Type} (a : dict (dict X)) (eqb : X -> X -> bool) :
  (forall x, eqb x x = true) -> wf_adj a -> wf_adjb a eqb = true.
Proof.
  intros Hrefl [Hnd Hin Hsym]; unfold wf_adjb.
  rewrite !andb_true_iff, !forallb_forall; repeat split.
  - apply nodupb_NoDup; exact Hnd.
  - intros [u nb] Hu; apply nodupb_NoDup; apply (Hin u).
    apply In_get; assumption.
  - intros [u nb] Hu; apply forallb_forall; intros [v x] Hv.
    unfold symmetric_entry; simpl.
    assert (Hg : get a u = Some nb) by (apply In_get; assumption).
    assert (H2 : get2 a u v = Some x).
    { apply get2_Some; exists nb; split; [exact Hg|].
      apply In_get; [apply (Hin u nb Hg) | exact Hv]. }
    rewrite <- (Hsym u v), H2; apply Hrefl.
Qed.

Lemma base_eqb_refl (d : base_attrs) : base_eqb d d = true.
Proof.
  unfold base_eqb; rewrite Z.eqb_refl, String.eqb_refl; reflexivity.
Qed.

Lemma sound_well_formed (g : Graph base_attrs) :
  sound g -> well_formed g = true.
Proof.
  intros [Hk Hwf]; unfold well_formed, nodes.
  apply andb_true_iff; split.
  - apply list_eqb_eq; exact Hk.
  - apply wf_adjb_complete; [apply base_eqb_refl | exact Hwf].
Qed.

Lemma well_formed_sound (g : Graph base_attrs) :
  well_formed g = true -> sound g.
Proof. apply well_formed_spec. Qed.

Lemma located_get (n : vertex) (lon lat : string) (nd : dict node_attrs)
      (m : vertex) :
  mem n nd = true ->
  get (located n lon lat nd) m
  = if Z.eqb m n then Some (mk_node_attrs (Some lon) (Some lat))
    else get nd m.
Proof.
  intros H; apply mem_get in H; destruct H as [a Ha].
  unfold located; rewrite Ha, !get_set.
  destruct (Z.eqb m n); reflexivity.
Qed.

Lemma located_keys (n : vertex) (lon lat : string) (nd : dict node_attrs) :
  keys (located n lon lat nd) = keys nd.
Proof.
  unfold located; destruct (get nd n) as [a|] eqn:E; [|reflexivity].
  rewrite !keys_set_mem; [reflexivity | apply mem_get; eauto |].
  rewrite mem_set, Z.eqb_refl; reflexivity.
Qed.

Lemma locate_spec (g : Graph base_attrs) (n : vertex) (lon lat : string) :
  mem n (node g) = true ->
  bind (set_longitude g n lon) (fun g1 => set_latitude g1 n lat)
  = Ok (mk_graph (located n lon lat (node g)) (adj g)).
Proof.
  intros H; destruct (set_longitude_spec _ g n lon H) as [a [Ha ->]].
  cbn [bind]; unfold set_latitude, getitem; simpl node; simpl adj.
  rewrite get_set_eq; cbn [bind lookup_or longitude].
  unfold located; rewrite Ha; reflexivity.
Qed.

(** A data row that converts: what [import_row] returns. *)
Lemma import_row_eq (graph : Graph base_attrs) (s e len id slon slat elon elat : string)
      (extra : list string) (ns ne nl : Z) :
  keys (node graph) = keys (adj graph) ->
  isdigit s = true ->
  py_int s = Ok ns -> py_int e = Ok ne -> py_int len = Ok nl ->
  import_row graph (s :: e :: len :: id :: slon :: slat :: elon :: elat
                      :: extra)
  = Ok (let g1 := add_edge graph ns ne (mk_base nl id) in
        mk_graph (located ne elon elat (located ns slon slat (node g1)))
                 (adj g1)).
Proof.
  intros Hk Hd Hs He Hl; unfold import_row.
  cbn [nth_error lookup_or bind]; rewrite Hd; cbn [negb].
  cbn [firstn map_m]; rewrite Hs, He, Hl; cbn [bind skipn firstn].
  set (g1 := add_edge graph ns ne (mk_base nl id)).
  assert (K1 : keys (node g1) = keys (adj g1)) by (apply add_edge_keys, Hk).
  assert (Hm : forall n, mem n (node g1) = mem n (adj g1)).
  { intros n; destruct (mem n (adj g1)) eqn:Em.
    - apply mem_keys; rewrite K1; apply mem_keys; exact Em.
    - apply mem_false_keys; rewrite K1; apply mem_false_keys; exact Em. }
  assert (Ms : mem ns (node g1) = true).
  { rewrite Hm; unfold g1; rewrite add_edge_mem, Z.eqb_refl by exact Hk.
    reflexivity. }
  assert (Me : mem ne (node g1) = true).
  { rewrite Hm; unfold g1; rewrite add_edge_mem, Z.eqb_refl by exact Hk.
    rewrite orb_true_r; reflexivity. }
  pose proof (locate_spec g1 ns slon slat Ms) as L1.
  destruct (set_longitude g1 ns slon) as [g2| |]; try discriminate.
  cbn [bind] in L1 |- *; rewrite L1; cbn [bind].
  set (g3 := mk_graph (located ns slon slat (node g1)) (adj g1)).
  assert (Me3 : mem ne (node g3) = true).
  { apply mem_keys; unfold g3; simpl node; rewrite located_keys.
    apply mem_keys; exact Me. }
  pose proof (locate_spec g3 ne elon elat Me3) as L2.
  destruct (set_longitude g3 ne elon) as [g4| |]; try discriminate.
  cbn [bind] in L2 |- *; rewrite L2; reflexivity.
Qed.

Lemma import_row_sound (graph : Graph base_attrs) (row : list string)
      (g' : Graph base_attrs) :
  sound graph -> import_row graph row = Ok g' -> sound g'.
Proof.
  intros Hs H0; pose proof Hs as [Hk Hwf]; pose proof H0 as H.
  unfold import_row in H.
  destruct row as [|r0 row]; [discriminate|].
  cbn [nth_error lookup_or bind] in H.
  destruct (isdigit r0) eqn:Hd; cbn [negb] in H;
    [|inversion H; subst; exact Hs].
  destruct (map_m py_int (firstn 3 (r0 :: row))) as [ints| |] eqn:Ei;
    try discriminate.
  cbn [bind] in H.
  destruct ints as [|ns [|ne [|nl [|]]]]; try discriminate.
  destruct row as [|e [|len row]]; try discriminate.
  cbn [firstn map_m] in Ei.
  destruct (py_int r0) as [ns'| |] eqn:E1; try discriminate.
  destruct (py_int e) as [ne'| |] eqn:E2; try discriminate.
  destruct (py_int len) as [nl'| |] eqn:E3; try discriminate.
  cbn [bind] in Ei; inversion Ei; subst ns' ne' nl'.
  destruct row as [|id [|slon [|slat [|elon [|elat extra]]]]];
    try discriminate.
  rewrite (import_row_eq graph r0 e len id slon slat elon elat extra ns ne nl
                         Hk Hd E1 E2 E3) in H0.
  inversion H0; subst g'; clear H0 H.
  destruct (add_edge_sound _ graph ns ne (mk_base nl id) Hs) as [K1 W1].
  split; [|exact W1].
  simpl node; simpl adj; rewrite !located_keys; exact K1.
Qed.

(** The four ways a row can go. *)
Lemma import_row_cases (graph : Graph base_attrs) (row : list string) :
  keys (node graph) = keys (adj graph) ->
  (row = [] /\ import_row graph row = Raise IndexError)
  \/ (exists r0 rest, row = r0 :: rest /\ isdigit r0 = false
                      /\ import_row graph row = Ok graph)
  \/ (exists r0 rest, row = r0 :: rest /\ isdigit r0 = true
                      /\ import_row graph row = Raise ValueError
                      /\ ((length row < 8)%nat
                          \/ exists f, In f (firstn 3 row)
                                       /\ py_int f = Raise ValueError))
  \/ (exists s e len id slon slat elon elat extra ns ne nl,
         row = s :: e :: len :: id :: slon :: slat :: elon :: elat :: extra
         /\ isdigit s = true
         /\ py_int s = Ok ns /\ py_int e = Ok ne /\ py_int len = Ok nl
         /\ import_row graph row
            = Ok (let g1 := add_edge graph ns ne (mk_base nl id) in
                  mk_graph (located ne elon elat
                                    (located ns slon slat (node g1)))
                           (adj g1))).
Proof.
  intros Hk; destruct row as [|r0 row]; [left; split; reflexivity|].
  right; destruct (isdigit r0) eqn:Hd.
  2:{ left; exists r0, row; repeat split; auto.
      unfold import_row; simpl; rewrite Hd; reflexivity. }
  right.
  assert (Hint : forall f, (exists n, py_int f = Ok n)
                           \/ py_int f = Raise ValueError).
  { intros f; destruct (py_int f) as [n|e|] eqn:E; [left; eauto| |].
    - right; rewrite (@py_int_raises f e E); reflexivity.
    - exfalso; unfold py_int in E.
      destruct (match lstrip f with
                | String "-"%char r => (-1, r)
                | String "+"%char r => (1, r)
                | _ => (1, lstrip f)
                end) as [sign s2].
      destruct (digits (lstrip s2) 0 0) as [[n value] rest].
      destruct n; [discriminate|]; destruct (lstrip rest); discriminate. }
  assert (Hhead : forall k,
             import_row graph (r0 :: row)
             = bind (map_m py_int (firstn 3 (r0 :: row))) k ->
             forall f, In f (firstn 3 (r0 :: row)) ->
                       py_int f = Raise ValueError ->
                       map_m py_int (firstn 3 (r0 :: row))
                       = Raise ValueError).
  { intros _ _ f Hf Ef; revert Hf; generalize (firstn 3 (r0 :: row)).
    induction l as [|x l IH]; intros Hf; [destruct Hf|].
    cbn [map_m]; destruct (Hint x) as [[n En]|En]; rewrite En; cbn [bind];
      [|reflexivity].
    destruct Hf as [->|Hf]; [congruence|].
    rewrite (IH Hf); reflexivity. }
  assert (Hun : import_row graph (r0 :: row)
                = bind (map_m py_int (firstn 3 (r0 :: row)))
                       (fun ints =>
                          match ints with
                          | [start_node; end_node; length] =>
                              match firstn 5 (skipn 3 (r0 :: row)) with
                              | [id; start_lon; start_lat; end_lon; end_lat] =>
                                  let graph := add_edge graph start_node
                                                        end_node
                                                        (mk_base length id) in
                                  graph <- set_longitude graph start_node
                                                         start_lon ;;
                                  graph <- set_latitude graph start_node
                                                        start_lat ;;
                                  graph <- set_longitude graph end_node
                                                         end_lon ;;
                                  set_latitude graph end_node end_lat
                              | _ => Raise ValueError
                              end
                          | _ => Raise ValueError
                          end)).
  { unfold import_row; cbn [nth_error lookup_or bind]; rewrite Hd.
    reflexivity. }
  assert (Hbad : forall f, In f (firstn 3 (r0 :: row)) ->
                           py_int f = Raise ValueError ->
                           import_row graph (r0 :: row) = Raise ValueError).
  { intros f Hf Ef; rewrite Hun, (Hhead _ Hun f Hf Ef); reflexivity. }
  destruct (Hint r0) as [[ns E1]|E1].
  2:{ left; exists r0, row; repeat split; auto.
      - apply (Hbad r0); [left; reflexivity | exact E1].
      - right; exists r0; split; [left; reflexivity | exact E1]. }
  destruct row as [|e row].
  { left; exists r0, []; repeat split; auto; [|left; simpl; lia].
    rewrite Hun; cbn [firstn map_m]; rewrite E1; reflexivity. }
  destruct (Hint e) as [[ne E2]|E2].
  2:{ left; exists r0, (e :: row); repeat split; auto.
      - apply (Hbad e); [right; left; reflexivity | exact E2].
      - right; exists e; split; [right; left; reflexivity | exact E2]. }
  destruct row as [|len row].
  { left; exists r0, [e]; repeat split; auto; [|left; simpl; lia].
    rewrite Hun; cbn [firstn map_m]; rewrite E1, E2; reflexivity. }
  destruct (Hint len) as [[nl E3]|E3].
  2:{ left; exists r0, (e :: len :: row); repeat split; auto.
      - apply (Hbad len); [right; right; left; reflexivity | exact E3].
      - right; exists len; split; [right; right; left; reflexivity|].
        exact E3. }
  destruct row as [|id [|slon [|slat [|elon [|elat extra]]]]];
    try (left; eexists; eexists; repeat split; auto;
         first [left; simpl; lia
               | rewrite Hun; cbn [firstn map_m]; rewrite E1, E2, E3;
                 reflexivity]).
  right; exists r0, e, len, id, slon, slat, elon, elat, extra, ns, ne, nl.
  repeat split; auto.
  apply import_row_eq; assumption.
Qed.

Lemma import_loop_sound (reader : list read_result)
      (g g' : Graph base_attrs) :
  sound g -> for_each reader import_step g = Ok g' -> sound g'.
Proof.
  revert g; induction reader as [|[row|e] reader IH]; intros g Hs H.
  - inversion H; subst; exact Hs.
  - cbn [for_each import_step] in H.
    destruct (import_row g row) as [g1| |] eqn:E1; try discriminate.
    cbn [bind] in H; apply (IH g1); [|exact H].
    apply (import_row_sound g row g1 Hs E1).
  - discriminate.
Qed.

Lemma sound_empty : sound (@empty base_attrs).
Proof.
  split; [reflexivity|]; constructor; [constructor | discriminate|].
  intros u v; reflexivity.
Qed.

(** X5: every graph that [import_csv_graph] returns is well formed: [node]
    and [adj] hold the same, pairwise distinct vertices, no vertex has two
    entries for one neighbour (a second row for the same endpoints
    overwrites the first), and [adj[u][v]] and [adj[v][u]] hold the same
    data. *)
Theorem import_csv_graph_well_formed (reader : list read_result)
        (graph : Graph base_attrs) :
  import_csv_graph reader = Ok graph -> well_formed graph = true.
Proof.
  intros H; apply sound_well_formed.
  apply (import_loop_sound reader empty graph sound_empty H).
Qed.

Lemma import_csv_graph_well_formed_witness :
  exists graph,
    import_csv_graph (map ReadRow shortcut_rows) = Ok graph
    /\ well_formed graph = true.
Proof.
  eexists; split; [vm_compute; reflexivity|].
  apply (import_csv_graph_well_formed (map ReadRow shortcut_rows)).
  vm_compute; reflexivity.
Defined.

(** X6: a data row is found again in the graph.  After a row whose first
    three fields convert to the integers [ns], [ne] and [nl], the edge
    data of [ns] and [ne] is the weight [nl] with the id of the row, in
    both directions; the end node has the end coordinates of the row, and
    the start node its start coordinates unless it is the end node too;
    every other edge and node is as before, and fields after the eighth are
    ignored. *)
Theorem import_row_stores_the_row
        (graph : Graph base_attrs)
        (s e len id slon slat elon elat : string) (extra : list string)
        (ns ne nl : Z) :
  keys (node graph) = keys (adj graph) ->
  isdigit s = true ->
  py_int s = Ok ns -> py_int e = Ok ne -> py_int len = Ok nl ->
  exists g',
    import_row graph (s :: e :: len :: id :: slon :: slat :: elon :: elat
                        :: extra) = Ok g'
    /\ get2 (adj g') ns ne = Some (mk_base nl id)
    /\ get2 (adj g') ne ns = Some (mk_base nl id)
    /\ get (node g') ne = Some (mk_node_attrs (Some elon) (Some elat))
    /\ (ns <> ne ->
        get (node g') ns = Some (mk_node_attrs (Some slon) (Some slat)))
    /\ (forall x y, ~ (x = ns /\ y = ne) -> ~ (x = ne /\ y = ns) ->
                    get2 (adj g') x y = get2 (adj graph) x y)
    /\ (forall n, n <> ns -> n <> ne ->
                  has_node graph n = true ->
                  get (node g') n = get (node graph) n).
Proof.
  intros Hk Hd Hs He Hl.
  rewrite (import_row_eq graph s e len id slon slat elon elat extra ns ne nl
                         Hk Hd Hs He Hl).
  eexists; split; [reflexivity|].
  set (g1 := add_edge graph ns ne (mk_base nl id)).
  assert (K1 : keys (node g1) = keys (adj g1)) by (apply add_edge_keys, Hk).
  assert (Hm : forall n, mem n (node g1)
                         = (Z.eqb n ns || Z.eqb n ne || mem n (adj graph))%bool).
  { intros n.
    rewrite <- (add_edge_mem graph ns ne (mk_base nl id) n Hk); fold g1.
    destruct (mem n (adj g1)) eqn:Em.
    - apply mem_keys; rewrite K1; apply mem_keys; exact Em.
    - apply mem_false_keys; rewrite K1; apply mem_false_keys; exact Em. }
  assert (Ms : mem ns (node g1) = true)
    by (rewrite Hm, Z.eqb_refl; reflexivity).
  assert (Me : mem ne (located ns slon slat (node g1)) = true).
  { apply mem_keys; rewrite located_keys; apply mem_keys.
    rewrite Hm, Z.eqb_refl, orb_true_r; reflexivity. }
  cbv zeta; simpl node; simpl adj; fold g1.
  repeat split.
  - unfold g1; rewrite add_edge_get2, !Z.eqb_refl by exact Hk; reflexivity.
  - unfold g1; rewrite add_edge_get2, !Z.eqb_refl by exact Hk.
    rewrite orb_true_r; reflexivity.
  - rewrite located_get, Z.eqb_refl by exact Me; reflexivity.
  - intros Hne; rewrite located_get by exact Me.
    destruct (Z.eqb_spec ns ne) as [|_]; [contradiction|].
    rewrite located_get, Z.eqb_refl by exact Ms; reflexivity.
  - intros x y H1 H2; unfold g1; rewrite add_edge_get2 by exact Hk.
    destruct (Z.eqb_spec x ns), (Z.eqb_spec y ne), (Z.eqb_spec x ne),
      (Z.eqb_spec y ns); simpl; try reflexivity; exfalso; tauto.
  - intros n H1 H2 Hn; rewrite located_get by exact Me.
    destruct (Z.eqb_spec n ne) as [|_]; [contradiction|].
    rewrite located_get by exact Ms.
    destruct (Z.eqb_spec n ns) as [|_]; [contradiction|].
    unfold g1, add_edge; rewrite !set_adj_node.
    unfold has_node in Hn.
    assert (Ht : forall (g : Graph base_attrs) m,
               mem n (node g) = true ->
               get (node (touch g m)) n = get (node g) n
               /\ mem n (node (touch g m)) = true).
    { intros g m Hg; unfold touch; destruct (mem m (node g)) eqn:Em;
        [auto|].
      simpl; rewrite get_set, mem_set, Hg, orb_true_r.
      destruct (Z.eqb_spec n m) as [->|]; [congruence | auto]. }
    destruct (Ht graph ns Hn) as [G1 M1].
    destruct (Ht (touch graph ns) ne M1) as [G2 _].
    rewrite G2, G1; reflexivity.
Qed.

Lemma import_row_stores_the_row_witness :
  exists g',
    import_row two_components
               ["1"; "3"; "12"; "new"; "18.1"; "-33.1"; "18.3"; "-33.3"]%string
    = Ok g'
    /\ get2 (adj g') 1 3 = Some (mk_base 12 "new").
Proof.
  destruct (import_row_stores_the_row
              two_components "1" "3" "12" "new" "18.1" "-33.1" "18.3" "-33.3"
              [] 1 3 12 eq_refl eq_refl eq_refl eq_refl eq_refl)
    as [g' [H1 [H2 _]]].
  exists g'; split; assumption.
Defined.

Lemma import_loop_raises (reader : list read_result)
      (g : Graph base_attrs) (e : exn) :
  sound g -> for_each reader import_step g = Raise e ->
  (e = IndexError /\ In (ReadRow []) reader)
  \/ e = ValueError
  \/ In (ReadError e) reader.
Proof.
  revert g; induction reader as [|[row|e0] reader IH]; intros g Hs H;
    [discriminate| |].
  2:{ cbn [for_each import_step bind] in H; inversion H; subst.
      right; right; left; reflexivity. }
  cbn [for_each import_step] in H.
  assert (Hlater :
            forall g1, sound g1 -> for_each reader import_step g1 = Raise e ->
                       (e = IndexError /\ In (ReadRow []) (ReadRow row :: reader))
                       \/ e = ValueError
                       \/ In (ReadError e) (ReadRow row :: reader)).
  { intros g1 Hs1 H1; destruct (IH g1 Hs1 H1) as [[H2 H3]|[H2|H2]].
    - left; split; [exact H2 | right; exact H3].
    - right; left; exact H2.
    - right; right; right; exact H2. }
  destruct (import_row_cases g row (proj1 Hs))
    as [[-> E]|[(r0 & rest & _ & _ & E)|[(r0 & rest & _ & _ & E & _)|C]]].
  - rewrite E in H; inversion H; left; split; [reflexivity | left; reflexivity].
  - rewrite E in H; cbn [bind] in H; apply (Hlater g Hs H).
  - rewrite E in H; inversion H; right; left; reflexivity.
  - destruct C as (s & e' & len & id & slon & slat & elon & elat & extra
                   & ns & ne & nl & -> & Hd & E1 & E2 & E3 & E).
    pose proof (import_row_sound g _ _ Hs E) as Hs'.
    rewrite E in H; cbn [bind] in H; apply (Hlater _ Hs' H).
Qed.

(** X7: the only failures of [import_csv_graph].  An exception that the
    reader raises while it is iterated ([csv.Error] on a NUL byte or an
    over-long field, an [IOError] of the file) ends the import with that
    exception.  The body of the loop adds [IndexError] and [ValueError]
    and nothing else: [IndexError] only if the reader yields an empty row
    (a blank line), which stops the import at that row whatever precedes
    it; [ValueError] for a row that starts with digits and has fewer than
    eight fields. *)
Theorem import_csv_graph_failures (reader : list read_result) :
  (forall e, import_csv_graph reader = Raise e ->
             (e = IndexError /\ In (ReadRow []) reader)
             \/ e = ValueError
             \/ In (ReadError e) reader)
  /\ import_csv_graph reader <> OutOfFuel
  /\ (forall graph rest,
         import_csv_graph reader = Ok graph ->
         import_csv_graph (reader ++ ReadRow [] :: rest) = Raise IndexError)
  /\ (forall graph row rest,
         import_csv_graph reader = Ok graph ->
         isdigit (hd EmptyString row) = true -> (length row < 8)%nat ->
         import_csv_graph (reader ++ ReadRow row :: rest) = Raise ValueError)
  /\ (forall graph e rest,
         import_csv_graph reader = Ok graph ->
         import_csv_graph (reader ++ ReadError e :: rest) = Raise e)
  /\ (forall graph,
         import_csv_graph reader = Ok graph ->
         forall e, ~ In (ReadError e) reader).
Proof.
  unfold import_csv_graph.
  split; [|split; [|split; [|split; [|split]]]].
  - intros e H; apply (import_loop_raises reader empty e sound_empty H).
  - assert (H : forall g, for_each reader import_step g <> OutOfFuel).
    { induction reader as [|[row|e0] reader IH]; intros g;
        [discriminate| |cbn [for_each import_step bind]; discriminate].
      cbn [for_each import_step]; destruct (import_row g row) as [g1|e|] eqn:E;
        cbn [bind]; [apply IH | discriminate|].
      exfalso; unfold import_row in E.
      destruct (nth_error row 0) as [r0|]; [|discriminate].
      cbn [lookup_or bind] in E.
      destruct (negb (isdigit r0)); [discriminate|].
      destruct (map_m py_int (firstn 3 row)) as [ints|e|] eqn:Ei.
      - cbn [bind] in E.
        destruct ints as [|i1 [|i2 [|i3 [|]]]]; try discriminate.
        destruct (firstn 5 (skipn 3 row))
          as [|s1 [|s2 [|s3 [|s4 [|s5 [|]]]]]]; try discriminate.
        unfold set_longitude, set_latitude, getitem in E.
        repeat match type of E with
               | context [lookup_or KeyError ?o] =>
                   destruct o; cbn [lookup_or bind node adj] in E;
                   try discriminate
               end.
      - discriminate.
      - clear E; revert Ei; generalize (firstn 3 row).
        induction l as [|x l IHl]; [discriminate|].
        cbn [map_m]; destruct (py_int x) as [n|e|] eqn:Ex; cbn [bind].
        + destruct (map_m py_int l); cbn [bind]; try discriminate.
          intros _; apply IHl; reflexivity.
        + discriminate.
        + intros _; unfold py_int in Ex.
          destruct (match lstrip x with
                    | String "-"%char r => (-1, r)
                    | String "+"%char r => (1, r)
                    | _ => (1, lstrip x)
                    end) as [sign s2].
          destruct (digits (lstrip s2) 0 0) as [[n value] rest].
          destruct n; [discriminate|]; destruct (lstrip rest); discriminate. }
    apply H.
  - intros graph rest H; rewrite for_each_app, H; reflexivity.
  - intros graph row rest H Hd Hlen; rewrite for_each_app, H.
    cbn [bind for_each import_step].
    pose proof (import_loop_sound reader empty graph sound_empty H) as Hs.
    destruct (import_row_cases graph row (proj1 Hs))
      as [[-> E]|[(r0 & rest' & -> & Hd' & E)
                 |[(r0 & rest' & _ & _ & E & _)|C]]].
    + discriminate.
    + simpl in Hd; congruence.
    + rewrite E; reflexivity.
    + destruct C as (s & e' & len & id & slon & slat & elon & elat & extra
                     & ns & ne & nl & -> & _).
      simpl in Hlen; lia.
  - intros graph e rest H; rewrite for_each_app, H; reflexivity.
  - intros graph H e; generalize (@empty base_attrs) H; clear H.
    induction reader as [|[row|e0] reader IH]; intros g H Hin;
      [destruct Hin| |discriminate].
    cbn [for_each import_step] in H.
    destruct (import_row g row) as [g1| |]; try discriminate.
    cbn [bind] in H; destruct Hin as [Hin|Hin]; [discriminate|].
    apply (IH g1 H Hin).
Qed.

Lemma import_csv_graph_failures_witness :
  import_csv_graph (map ReadRow shortcut_rows ++ [ReadRow []])
  = Raise IndexError
  /\ import_csv_graph
       (map ReadRow shortcut_rows ++ [ReadRow ["1"; "2"; "5"]%string])
     = Raise ValueError
  /\ import_csv_graph
       (map ReadRow shortcut_rows ++ [ReadError CsvError; ReadRow []])
     = Raise CsvError.
Proof.
  destruct (import_csv_graph (map ReadRow shortcut_rows)) as [g| |] eqn:E;
    try (vm_compute in E; discriminate).
  destruct (import_csv_graph_failures (map ReadRow shortcut_rows))
    as (_ & _ & H1 & H2 & H3 & _).
  split; [|split].
  - apply (H1 g []); exact E.
  - apply (H2 g ["1"; "2"; "5"]%string []); [exact E | reflexivity|].
    simpl; lia.
  - apply (H3 g CsvError [ReadRow []]); exact E.
Defined.

(** ** Graph.subgraph *)

Section SubgraphFacts.
Variable E : Type.
Variable g : Graph E.
Hypothesis Hk : keys (node g) = keys (adj g).
Hypothesis Hwf : wf_adj (adj g).

Lemma subgraph_link_spec (n : vertex) (h : dict (dict E)) (nbr : vertex)
      (d : E) :
  mem n h = true -> inner_distinct h ->
  keys (subgraph_link n h (nbr, d)) = keys h
  /\ inner_distinct (subgraph_link n h (nbr, d))
  /\ forall x y,
      get2 (subgraph_link n h (nbr, d)) x y
      = if mem nbr h
           && ((Z.eqb x n && Z.eqb y nbr) || (Z.eqb x nbr && Z.eqb y n))
        then Some d else get2 h x y.
Proof.
  intros Hn Hin; unfold subgraph_link.
  destruct (mem nbr h) eqn:Hnbr; [|repeat split; auto].
  pose proof Hn as Hn'; apply mem_get in Hn'; destruct Hn' as [hn Ehn].
  rewrite Ehn.
  set (h1 := set h n (set hn nbr d)).
  assert (K1 : keys h1 = keys h) by (apply keys_set_mem; exact Hn).
  assert (M1 : mem nbr h1 = true).
  { apply mem_keys; rewrite K1; apply mem_keys; exact Hnbr. }
  pose proof M1 as M1'; apply mem_get in M1'; destruct M1' as [hb Ehb].
  rewrite Ehb.
  assert (I1 : inner_distinct h1).
  { intros u ub; unfold h1; rewrite get_set.
    destruct (Z.eqb u n); [|apply Hin].
    intros H; inversion H; apply NoDup_keys_set, (Hin n hn Ehn). }
  split; [rewrite keys_set_mem by exact M1; exact K1|].
  split.
  - intros u ub; rewrite get_set.
    destruct (Z.eqb u nbr); [|apply I1].
    intros H; inversion H; apply NoDup_keys_set, (I1 nbr hb Ehb).
  - intros x y; unfold get2; rewrite get_set.
    assert (G1 : forall z, get h1 z
                           = if Z.eqb z n then Some (set hn nbr d)
                             else get h z)
      by (intros z; unfold h1; apply get_set).
    rewrite G1 in Ehb.
    destruct (Z.eqb_spec x nbr) as [->|Hx].
    + rewrite get_set.
      destruct (Z.eqb_spec nbr n) as [->|Hne].
      * inversion Ehb; subst hb; rewrite get_set.
        destruct (Z.eqb_spec y n) as [->|Hy]; simpl; [reflexivity|].
        rewrite Ehn; reflexivity.
      * simpl; rewrite Ehb.
        destruct (Z.eqb_spec y n) as [->|Hy]; reflexivity.
    + rewrite G1; simpl; rewrite orb_false_r.
      destruct (Z.eqb_spec x n) as [->|Hx']; simpl.
      * rewrite get_set, Ehn.
        destruct (Z.eqb_spec y nbr); reflexivity.
      * reflexivity.
Qed.

Lemma subgraph_links_spec (n : vertex) (nb : dict E) :
  NoDup (keys nb) ->
  forall h,
    mem n h = true -> inner_distinct h ->
    keys (fold_left (subgraph_link n) nb h) = keys h
    /\ inner_distinct (fold_left (subgraph_link n) nb h)
    /\ forall x y,
        get2 (fold_left (subgraph_link n) nb h) x y = linked n nb h x y.
Proof.
  induction nb as [|[nbr d] nb IH]; intros Hnd h Hn Hin.
  - repeat split; auto.
    intros x y; unfold linked, mem; simpl.
    rewrite !andb_false_r; reflexivity.
  - inversion Hnd as [|? ? Hnot Hnd']; subst.
    destruct (subgraph_link_spec n h nbr d Hn Hin) as [K1 [I1 G1]].
    assert (M1 : forall z, mem z (subgraph_link n h (nbr, d)) = mem z h).
    { intros z; destruct (mem z h) eqn:Ez.
      - apply mem_keys; rewrite K1; apply mem_keys; exact Ez.
      - apply mem_false_keys; rewrite K1; apply mem_false_keys; exact Ez. }
    destruct (IH Hnd' (subgraph_link n h (nbr, d))) as [K2 [I2 G2]];
      [rewrite M1; exact Hn | exact I1|].
    cbn [fold_left]; split; [rewrite K2; exact K1|]; split; [exact I2|].
    intros x y; rewrite G2; unfold linked; rewrite !M1, G1.
    assert (Hnb : forall z, mem z ((nbr, d) :: nb)
                            = (Z.eqb z nbr || mem z nb)%bool).
    { intros z; unfold mem; simpl; destruct (Z.eqb z nbr); reflexivity. }
    assert (Hget : forall z, get ((nbr, d) :: nb) z
                             = if Z.eqb z nbr then Some d else get nb z)
      by (intros z; reflexivity).
    assert (Hfresh : mem nbr nb = false) by (apply mem_false_keys; exact Hnot).
    rewrite !Hnb, !Hget.
    repeat match goal with
           | |- context [Z.eqb ?a ?b] =>
               destruct (Z.eqb_spec a b); subst; try congruence
           end;
      rewrite ?Hn, ?Hfresh; simpl;
      repeat match goal with
             | |- context [mem ?a ?b] => destruct (mem a b) eqn:?
             end;
      simpl; try reflexivity; try congruence.
Qed.

Lemma memZ_app (z : vertex) (l1 l2 : list vertex) :
  memZ z (l1 ++ l2) = (memZ z l1 || memZ z l2)%bool.
Proof. unfold memZ; apply existsb_app. Qed.

Lemma mem_memZ {V : Type} (z : vertex) (d : dict V) :
  mem z d = memZ z (keys d).
Proof.
  destruct (memZ z (keys d)) eqn:Ez.
  - apply mem_keys, memZ_In; exact Ez.
  - apply mem_false_keys, memZ_false; exact Ez.
Qed.

Lemma mem_get_None {V : Type} (z : vertex) (d : dict V) :
  mem z d = false -> get d z = None.
Proof. unfold mem; destruct (get d z); [discriminate | reflexivity]. Qed.

Lemma subgraph_nodes_loop (l : list vertex) :
  (forall n, In n l -> In n (keys (adj g))) ->
  forall h,
    NoDup (keys h ++ l) ->
    keys (fold_left
            (fun h n =>
               if mem n (adj g) then
                 match get (node g) n with
                 | Some a => set h n a
                 | None => h
                 end
               else h) l h) = keys h ++ l
    /\ forall n,
        get (fold_left
               (fun h n =>
                  if mem n (adj g) then
                    match get (node g) n with
                    | Some a => set h n a
                    | None => h
                    end
                  else h) l h) n
        = if memZ n l then get (node g) n else get h n.
Proof.
  induction l as [|m l IH]; intros Hin h Hnd.
  - cbn [fold_left]; rewrite app_nil_r; split; reflexivity.
  - assert (Hm : mem m (adj g) = true)
      by (apply mem_keys, Hin; left; reflexivity).
    assert (Hm' : exists a, get (node g) m = Some a).
    { apply mem_get, mem_keys; rewrite Hk; apply mem_keys; exact Hm. }
    destruct Hm' as [a Ha].
    assert (Hnew : mem m h = false).
    { apply mem_false_keys; intros H.
      apply NoDup_remove_2 in Hnd; apply Hnd, in_or_app; left; exact H. }
    cbn [fold_left]; rewrite Hm, Ha.
    destruct (IH (fun n H => Hin n (or_intror H)) (set h m a)) as [K G].
    { rewrite keys_set_new by exact Hnew.
      rewrite <- app_assoc; exact Hnd. }
    split.
    + rewrite K, keys_set_new by exact Hnew.
      rewrite <- app_assoc; reflexivity.
    + intros n; rewrite G, get_set; cbn [memZ existsb].
      fold (memZ n l).
      destruct (Z.eqb_spec n m) as [->|Hne]; simpl.
      * destruct (memZ m l); [reflexivity | symmetry; exact Ha].
      * reflexivity.
Qed.

Lemma subgraph_nodes_spec (bunch : list vertex) :
  NoDup bunch -> (forall n, In n bunch -> In n (keys (adj g))) ->
  keys (subgraph_nodes g bunch) = bunch
  /\ forall n, In n bunch ->
                get (subgraph_nodes g bunch) n = get (node g) n.
Proof.
  intros Hnd Hin; unfold subgraph_nodes.
  destruct (subgraph_nodes_loop bunch Hin [] Hnd) as [K G].
  split; [exact K|].
  intros n Hn; rewrite G.
  apply memZ_In in Hn; rewrite Hn; reflexivity.
Qed.

Lemma induced_step (P0 : list vertex) (n : vertex) (nb : dict E)
      (h : dict (dict E)) :
  ~ In n P0 -> get (adj g) n = Some nb ->
  keys h = P0 ->
  (forall x y, get2 h x y = induced (adj g) P0 x y) ->
  forall x y,
    linked n nb (set h n []) x y = induced (adj g) (P0 ++ [n]) x y.
Proof.
  intros Hnew Hnb Hkeys Hget x y.
  assert (Hn : memZ n P0 = false) by (apply memZ_false; exact Hnew).
  assert (Hmem : forall z, mem z (set h n [])
                           = (memZ z P0 || Z.eqb z n)%bool).
  { intros z; rewrite mem_set, mem_memZ, Hkeys; apply orb_comm. }
  assert (Hg0 : forall a b, get2 (set h n []) a b = induced (adj g) P0 a b).
  { intros a b; unfold get2; rewrite get_set.
    destruct (Z.eqb_spec a n) as [->|Hne].
    - simpl; unfold induced; rewrite Hn; reflexivity.
    - apply (Hget a b). }
  assert (Hrow : forall z, get2 (adj g) n z = get nb z)
    by (intros z; unfold get2; rewrite Hnb; reflexivity).
  assert (Hcol : forall z, get2 (adj g) z n = get nb z)
    by (intros z; rewrite (wf_sym Hwf z n); apply Hrow).
  assert (Hnone : forall z, mem z nb = false -> get nb z = None)
    by (intros z; apply mem_get_None).
  unfold linked; rewrite !Hmem, Hg0; unfold induced.
  rewrite !memZ_app; cbn [memZ existsb]; rewrite !orb_false_r.
  destruct (Z.eqb_spec x n) as [->|Hx].
  - rewrite Hn, Hrow; simpl.
    destruct (Z.eqb_spec y n) as [->|Hy]; simpl.
    + rewrite Hn; simpl.
      destruct (mem n nb) eqn:Em; [reflexivity|].
      symmetry; apply Hnone; exact Em.
    + rewrite !orb_false_r.
      destruct (memZ y P0); simpl; [|reflexivity].
      destruct (mem y nb) eqn:Em; [reflexivity|].
      symmetry; apply Hnone; exact Em.
  - simpl; rewrite !orb_false_r.
    destruct (Z.eqb_spec y n) as [->|Hy]; simpl.
    + rewrite Hn, Hcol, andb_true_r; simpl.
      destruct (memZ x P0); simpl; [|reflexivity].
      destruct (mem x nb) eqn:Em; [reflexivity|].
      symmetry; apply Hnone; exact Em.
    + rewrite !orb_false_r; reflexivity.
Qed.

Lemma subgraph_adj_loop (l : list vertex) :
  (forall n, In n l -> In n (keys (adj g))) ->
  forall h,
    NoDup (keys h ++ l) -> inner_distinct h ->
    (forall x y, get2 h x y = induced (adj g) (keys h) x y) ->
    let r := fold_left
               (fun h n =>
                  match get (adj g) n with
                  | Some nb => fold_left (subgraph_link n) nb (set h n [])
                  | None => h
                  end) l h in
    keys r = keys h ++ l
    /\ inner_distinct r
    /\ forall x y, get2 r x y = induced (adj g) (keys h ++ l) x y.
Proof.
  induction l as [|n l IH]; intros Hin h Hnd Hid Hget.
  - cbn [fold_left]; rewrite app_nil_r; repeat split; auto.
  - assert (Hn : exists nb, get (adj g) n = Some nb).
    { apply mem_get, mem_keys, Hin; left; reflexivity. }
    destruct Hn as [nb Hnb].
    assert (Hnew : ~ In n (keys h)).
    { intros H; apply NoDup_remove_2 in Hnd; apply Hnd, in_or_app.
      left; exact H. }
    assert (Hnew' : mem n h = false) by (apply mem_false_keys; exact Hnew).
    cbn [fold_left]; rewrite Hnb.
    set (h0 := set h n []).
    assert (K0 : keys h0 = keys h ++ [n])
      by (apply keys_set_new; exact Hnew').
    assert (I0 : inner_distinct h0).
    { intros u ub; unfold h0; rewrite get_set.
      destruct (Z.eqb u n); [|apply Hid].
      intros H; inversion H; constructor. }
    assert (M0 : mem n h0 = true)
      by (unfold h0; rewrite mem_set, Z.eqb_refl; reflexivity).
    destruct (subgraph_links_spec n nb (wf_inner Hwf n Hnb) h0 M0 I0)
      as [K1 [I1 G1]].
    set (h1 := fold_left (subgraph_link n) nb h0) in *.
    destruct (IH (fun m H => Hin m (or_intror H)) h1) as [K2 [I2 G2]].
    + rewrite K1, K0, <- app_assoc; exact Hnd.
    + exact I1.
    + intros x y; rewrite G1, K1, K0.
      apply induced_step; auto.
    + rewrite K1, K0, <- app_assoc in K2, G2.
      repeat split; assumption.
Qed.

(** The subgraph on distinct vertices of the graph: its vertices in the
    order given, their attributes, and the edges between them. *)
Lemma subgraph_spec (bunch : list vertex) :
  NoDup bunch -> (forall n, In n bunch -> In n (keys (adj g))) ->
  keys (node (subgraph g bunch)) = bunch
  /\ keys (adj (subgraph g bunch)) = bunch
  /\ (forall n, In n bunch ->
                get (node (subgraph g bunch)) n = get (node g) n)
  /\ inner_distinct (adj (subgraph g bunch))
  /\ forall x y,
      get2 (adj (subgraph g bunch)) x y = induced (adj g) bunch x y.
Proof.
  intros Hnd Hin; unfold subgraph; simpl node; simpl adj.
  destruct (subgraph_nodes_spec bunch Hnd Hin) as [K G].
  unfold subgraph_adj; rewrite K.
  destruct (subgraph_adj_loop bunch Hin []) as [K1 [I1 G1]].
  - exact Hnd.
  - intros u ub H; discriminate.
  - intros x y; reflexivity.
  - repeat split; assumption.
Qed.
End SubgraphFacts.

(** ** Connected components *)

Lemma update_keys {V : Type} (e d : dict V) (z : vertex) :
  In z (keys (update d e)) <-> In z (keys d) \/ In z (keys e).
Proof.
  unfold update; revert d; induction e as [|[k v] e IH]; intros d.
  - cbn [fold_left]; split; [auto | intros [H|[]]; exact H].
  - cbn [fold_left fst snd]; rewrite IH, In_keys_set.
    change (keys ((k, v) :: e)) with (k :: keys e).
    split; [intros [[->|H]|H] | intros [H|[<-|H]]]; simpl; auto.
Qed.

Section ComponentsFacts.
Variable E : Type.
Variable g : Graph E.
Hypothesis Hk : nodes g = keys (adj g).
Hypothesis Hwf : wf_adj (adj g).

Lemma component_step_spec (st st' : dict Z * list (list vertex))
      (v : vertex) :
  mem v (adj g) = true ->
  component_step g st v = Ok st' ->
  (mem v (fst st) = true /\ st' = st)
  \/ (mem v (fst st) = false
      /\ exists c, NoDup (keys c)
                   /\ (forall x, In x (keys c) <-> reachable (adj g) v x)
                   /\ st' = (update (fst st) c, snd st ++ [keys c])).
Proof.
  intros Hv; unfold component_step.
  destruct (mem v (fst st)) eqn:Em.
  - intros H; inversion H; left; split; reflexivity.
  - destruct (shortest_path_length_spec (wf_closed Hwf) v Hv)
      as [c [Ec [Hnd Hreach]]].
    unfold shortest_path_length; rewrite Ec; cbn [bind].
    intros H; inversion H; right; split; [reflexivity|].
    exists c; repeat split; auto; apply Hreach.
Qed.

Lemma components_loop (l : list vertex) :
  Forall (fun v => mem v (adj g) = true) l ->
  forall st st',
    for_each l (component_step g) st = Ok st' ->
    Forall (is_component (adj g)) (snd st) ->
    Forall (is_component (adj g)) (snd st')
    /\ (forall z, In z (keys (fst st)) -> In z (keys (fst st')))
    /\ (forall z, In z l -> In z (keys (fst st'))).
Proof.
  induction 1 as [|v l Hv Hl IH]; intros st st' H Hc.
  - inversion H; subst; repeat split; auto; intros z [].
  - cbn [for_each] in H.
    destruct (component_step g st v) as [s1| |] eqn:E1; try discriminate.
    cbn [bind] in H.
    destruct (component_step_spec st s1 v Hv E1)
      as [[Hm ->]|[Hm [c [Hnd [Hreach ->]]]]].
    + destruct (IH st st' H Hc) as [F [K1 K2]]; repeat split; auto.
      intros z [<-|Hz]; [|auto].
      apply K1, mem_keys; exact Hm.
    + destruct (IH _ st' H) as [F [K1 K2]].
      * cbn [snd]; apply Forall_app; split; [exact Hc|].
        constructor; [|constructor].
        split; [exact Hnd|]; exists v; split; [exact Hv | exact Hreach].
      * repeat split; auto.
        -- intros z Hz; apply K1; cbn [fst]; apply update_keys; auto.
        -- intros z [<-|Hz]; [|auto].
           apply K1; cbn [fst]; apply update_keys; right.
           apply Hreach, reachable_refl; exact Hv.
Qed.

Lemma nodes_mem : Forall (fun v => mem v (adj g) = true) (nodes g).
Proof.
  rewrite Hk; apply Forall_forall; intros v Hv; apply mem_keys; exact Hv.
Qed.

Lemma connected_components_spec (cc : list (list vertex)) :
  connected_components g = Ok cc -> Forall (is_component (adj g)) cc.
Proof.
  unfold connected_components; intros H.
  destruct (for_each (nodes g) (component_step g) ([], [])) as [st| |]
    eqn:Efor; try discriminate.
  cbn [bind] in H; inversion H; subst cc.
  destruct (components_loop (nodes g) nodes_mem _ _ Efor) as [F _];
    [constructor|].
  rewrite Forall_forall in *; intros c Hc; apply F.
  apply (Permutation_in c (Permutation_sym
                             (sort_desc_perm (@length vertex) (snd st)))).
  exact Hc.
Qed.

(** On a connected graph the first vertex reaches every vertex, and the
    other vertices are skipped: one component. *)
Lemma connected_components_one :
  is_connected g = Ok true ->
  exists c, connected_components g = Ok [c]
            /\ NoDup c /\ forall x, In x c <-> In x (keys (adj g)).
Proof.
  intros Hconn; unfold connected_components.
  pose proof nodes_mem as Hmem.
  assert (Hall : forall u v, In u (keys (adj g)) -> In v (keys (adj g)) ->
                             reachable (adj g) u v).
  { apply (is_connected_reachable _ _ Hwf).
    unfold is_connected in Hconn; rewrite Hk in Hconn; exact Hconn. }
  destruct (nodes g) as [|n0 ns] eqn:En.
  { unfold is_connected, is_connected_adj in Hconn; rewrite En in Hconn.
    discriminate. }
  inversion Hmem as [|? ? H0 Hns]; subst.
  cbn [for_each].
  destruct (shortest_path_length_spec (wf_closed Hwf) n0 H0)
    as [c [Ec [Hnd Hreach]]].
  unfold component_step at 1; cbn [fst mem get snd].
  unfold shortest_path_length; rewrite Ec; cbn [bind app].
  assert (Hc : forall x, In x (keys c) <-> In x (keys (adj g))).
  { intros x; rewrite Hreach; split.
    - intros H; apply mem_keys, (reachable_mem_r (wf_closed Hwf)) with n0.
      exact H.
    - intros H; apply Hall; [apply mem_keys; exact H0 | exact H]. }
  assert (Hskip : forall l,
             Forall (fun v => mem v (adj g) = true) l ->
             for_each l (component_step g) (update [] c, [keys c])
             = Ok (update [] c, [keys c])).
  { induction 1 as [|v l Hv Hl IH]; [reflexivity|].
    cbn [for_each]; unfold component_step at 1; cbn [fst].
    assert (mem v (update [] c) = true) as ->.
    { apply mem_keys, update_keys; right; apply Hc, mem_keys; exact Hv. }
    cbn [bind]; exact IH. }
  rewrite (Hskip ns Hns); cbn [bind snd sort_desc fold_right insert_desc].
  exists (keys c); repeat split; auto; apply Hc.
Qed.
End ComponentsFacts.

(** ** The subgraph of a component *)

Section ComponentSubgraph.
Variable E : Type.
Variable g : Graph E.
Hypothesis Hk : nodes g = keys (adj g).
Hypothesis Hwf : wf_adj (adj g).
Variable c : list vertex.
Hypothesis Hc : is_component (adj g) c.

Lemma component_in (x : vertex) : In x c -> In x (keys (adj g)).
Proof.
  destruct Hc as [_ [v [Hv Hreach]]]; intros Hx.
  apply mem_keys, (reachable_mem_r (wf_closed Hwf)) with v, Hreach, Hx.
Qed.

Lemma component_closed (x y : vertex) :
  In x c -> adjacent (adj g) x y = true -> In y c.
Proof.
  destruct Hc as [_ [v [Hv Hreach]]]; intros Hx Ha.
  apply Hreach, reachable_step with x; [apply Hreach; exact Hx | exact Ha].
Qed.

Lemma component_reach (x y : vertex) :
  In x c -> (In y c <-> reachable (adj g) x y).
Proof.
  destruct Hc as [_ [v [Hv Hreach]]]; intros Hx.
  pose proof (proj1 (Hreach x) Hx) as Hvx.
  rewrite Hreach; split; intros H.
  - apply reachable_trans with v; [|exact H].
    apply (reachable_sym (wf_closed Hwf) (wf_adjacent_sym Hwf)); exact Hvx.
  - apply reachable_trans with x; assumption.
Qed.

Lemma component_nonempty : c <> [].
Proof.
  destruct Hc as [_ [v [Hv Hreach]]]; intros ->.
  apply (proj2 (Hreach v)); apply reachable_refl; exact Hv.
Qed.

Lemma component_get2 (x y : vertex) :
  get2 (adj (subgraph g c)) x y
  = if memZ x c then get2 (adj g) x y else None.
Proof.
  destruct (subgraph_spec E g Hk Hwf c (proj1 Hc) component_in)
    as (_ & _ & _ & _ & G).
  rewrite G; unfold induced.
  destruct (memZ x c) eqn:Ex; [|reflexivity].
  destruct (memZ y c) eqn:Ey; [reflexivity|]; simpl.
  destruct (get2 (adj g) x y) as [d|] eqn:Ed; [|reflexivity].
  exfalso; apply memZ_false in Ey; apply Ey.
  apply component_closed with x; [apply memZ_In; exact Ex|].
  apply adjacent_get2; eauto.
Qed.

Lemma component_sound : sound (subgraph g c).
Proof.
  destruct (subgraph_spec E g Hk Hwf c (proj1 Hc) component_in)
    as (K1 & K2 & _ & I & G).
  split; [congruence|]; constructor.
  - rewrite K2; exact (proj1 Hc).
  - exact I.
  - intros u v; rewrite !G; unfold induced.
    rewrite (andb_comm (memZ u c)), (wf_sym Hwf u v); reflexivity.
Qed.

Lemma component_walk (q : list vertex) :
  forall u, In u c -> is_walk (adj g) (u :: q) = true ->
            is_walk (adj (subgraph g c)) (u :: q) = true.
Proof.
  induction q as [|v q IH]; intros u Hu Hw; [reflexivity|].
  rewrite is_walk_cons in Hw |- *.
  apply andb_true_iff in Hw; destruct Hw as [Ha Hw].
  apply andb_true_iff; split.
  - unfold adjacent in *; rewrite component_get2.
    apply memZ_In in Hu; rewrite Hu; exact Ha.
  - apply IH; [apply component_closed with u; assumption | exact Hw].
Qed.

Lemma component_connected : is_connected (subgraph g c) = Ok true.
Proof.
  destruct (subgraph_spec E g Hk Hwf c (proj1 Hc) component_in)
    as (K1 & K2 & _ & _ & _).
  destruct component_sound as [_ W].
  unfold is_connected, nodes.
  replace (keys (node (subgraph g c))) with (keys (adj (subgraph g c)))
    by congruence.
  pose proof component_nonempty as Hne.
  assert (Hex : exists n0 ns, c = n0 :: ns).
  { clear - Hne; destruct c as [|n0 ns]; [congruence | eauto]. }
  destruct Hex as [n0 [ns Ec]].
  apply (reachable_is_connected _ _ W n0 ns); [congruence|].
  intros v Hv; rewrite K2 in Hv.
  assert (H0 : In n0 c) by (rewrite Ec; left; reflexivity).
  destruct (proj1 (component_reach n0 v H0) Hv) as [p Hp].
  destruct (walk_between_inv Hp) as [q [-> [Hl [Hm Hq]]]].
  exists (n0 :: q); apply walk_between_intro; [exact Hl | |].
  - apply mem_keys; rewrite K2; exact H0.
  - apply component_walk; assumption.
Qed.
End ComponentSubgraph.

(** ** validate_graph returns a connected graph *)

Lemma validate_graph_component (graph : Graph base_attrs) :
  well_formed graph = true -> nodes graph <> [] ->
  exists cc c main,
    connected_components graph = Ok cc
    /\ In c cc
    /\ is_component (adj graph) c
    /\ main = subgraph graph c
    /\ validate_graph graph
       = Ok (if Nat.ltb 1 (length cc) then [multiple_components_warning]
             else [], main).
Proof.
  intros Hgood Hne.
  destruct (validate_graph_returns graph Hgood Hne)
    as [cc [main [rest [Ecc [Hs Ev]]]]].
  destruct (well_formed_spec graph Hgood) as [Hk Hwf].
  pose proof (connected_components_spec _ graph Hk Hwf cc Ecc) as Hall.
  assert (Hin : In main (map (subgraph graph) cc)).
  { apply (Permutation_in main
             (Permutation_sym (sort_desc_perm (@size base_attrs)
                                              (map (subgraph graph) cc)))).
    rewrite Hs; left; reflexivity. }
  apply in_map_iff in Hin; destruct Hin as [c [Hc Hincc]].
  exists cc, c, main; rewrite length_map in Ev.
  split; [exact Ecc|]; split; [exact Hincc|]; split.
  - rewrite Forall_forall in Hall; apply Hall; exact Hincc.
  - split; [symmetry; exact Hc | exact Ev].
Qed.

(** X8: what [validate_graph] returns for a graph with a vertex is a graph
    on which the rest of the program can work: it is well formed and
    connected, its vertices are the vertices that can be reached from any
    one of them in the input graph, and each of them keeps its attributes
    and every edge it has in the input graph, with the same data. *)
Theorem validate_graph_returns_a_component (graph : Graph base_attrs) :
  well_formed graph = true -> nodes graph <> [] ->
  exists stderr main,
    validate_graph graph = Ok (stderr, main)
    /\ well_formed main = true
    /\ is_connected main = Ok true
    /\ (forall n, In n (nodes main) ->
                  In n (nodes graph)
                  /\ get (node main) n = get (node graph) n)
    /\ (forall u v, In u (nodes main) ->
                    get2 (adj main) u v = get2 (adj graph) u v)
    /\ (forall u v, In u (nodes main) ->
                    (In v (nodes main) <-> reachable (adj graph) u v)).
Proof.
  intros Hgood Hne.
  destruct (validate_graph_component graph Hgood Hne)
    as (cc & c & main & _ & _ & Hc & -> & Ev).
  destruct (well_formed_spec graph Hgood) as [Hk Hwf].
  destruct (subgraph_spec _ graph Hk Hwf c (proj1 Hc)
                          (component_in _ graph Hwf c Hc))
    as (K1 & K2 & N & _ & _).
  eexists; eexists; split; [exact Ev|].
  unfold nodes; rewrite K1.
  split; [apply sound_well_formed, component_sound; assumption|].
  split; [apply component_connected; assumption|].
  split; [|split].
  - intros n Hn; split; [|apply N; exact Hn].
    fold (nodes graph); rewrite Hk.
    apply (component_in _ graph Hwf c Hc n Hn).
  - intros u v Hu; rewrite (component_get2 _ graph Hk Hwf c Hc).
    apply memZ_In in Hu; rewrite Hu; reflexivity.
  - intros u v Hu; apply (component_reach _ graph Hwf c Hc u v Hu).
Qed.

Lemma validate_graph_returns_a_component_witness :
  exists stderr main,
    validate_graph k4_and_p5 = Ok (stderr, main)
    /\ well_formed main = true
    /\ is_connected main = Ok true.
Proof.
  destruct (validate_graph_returns_a_component k4_and_p5)
    as (stderr & main & H1 & H2 & H3 & _).
  - vm_compute; reflexivity.
  - vm_compute; discriminate.
  - exists stderr, main; repeat split; assumption.
Defined.

(** X9: a connected graph passes [validate_graph] whole and without a
    warning: the graph returned has the vertices of the input graph (in
    the order in which the breadth-first search from the first one meets
    them), with their attributes, and the same edge data between any two
    vertices. *)
Theorem validate_graph_keeps_a_connected_graph (graph : Graph base_attrs) :
  well_formed graph = true -> is_connected graph = Ok true ->
  exists main,
    validate_graph graph = Ok ([], main)
    /\ Permutation (nodes main) (nodes graph)
    /\ (forall n, get (node main) n = get (node graph) n)
    /\ (forall u v, get2 (adj main) u v = get2 (adj graph) u v).
Proof.
  intros Hgood Hconn.
  destruct (well_formed_spec graph Hgood) as [Hk Hwf].
  destruct (connected_components_one _ graph Hk Hwf Hconn)
    as [c [Ecc [Hnd Hc]]].
  exists (subgraph graph c).
  destruct (subgraph_spec _ graph Hk Hwf c Hnd (fun n H => proj1 (Hc n) H))
    as (K1 & K2 & N & _ & G).
  split; [|split; [|split]].
  - rewrite (validate_graph_eq graph Ecc); reflexivity.
  - unfold nodes at 1; rewrite K1; fold (nodes graph); rewrite Hk.
    apply NoDup_Permutation; [exact Hnd | apply (wf_keys Hwf) | exact Hc].
  - intros n; destruct (in_dec Z.eq_dec n c) as [Hin|Hout];
      [apply N; exact Hin|].
    assert (H1 : get (node (subgraph graph c)) n = None).
    { apply get_None_keys; rewrite K1; exact Hout. }
    assert (H2 : get (node graph) n = None).
    { apply get_None_keys; fold (nodes graph); rewrite Hk.
      intros H; apply Hout, Hc; exact H. }
    congruence.
  - intros u v; rewrite G; unfold induced.
    destruct (get2 (adj graph) u v) as [d|] eqn:Ed;
      [|destruct (memZ u c && memZ v c)%bool; reflexivity].
    assert (Hu : In u c).
    { apply Hc; apply get2_Some in Ed; destruct Ed as [nb [Hu _]].
      eapply get_Some_keys; exact Hu. }
    assert (Hv : In v c).
    { apply Hc, mem_keys, (wf_closed Hwf u v), adjacent_get2; eauto. }
    apply memZ_In in Hu, Hv; rewrite Hu, Hv; reflexivity.
Qed.

Lemma validate_graph_keeps_a_connected_graph_witness :
  exists main,
    validate_graph shortcut_graph = Ok ([], main)
    /\ Permutation (nodes main) (nodes shortcut_graph)
    /\ (forall n, get (node main) n = get (node shortcut_graph) n)
    /\ (forall u v, get2 (adj main) u v = get2 (adj shortcut_graph) u v).
Proof.
  apply (validate_graph_keeps_a_connected_graph shortcut_graph).
  - vm_compute; reflexivity.
  - vm_compute; reflexivity.
Defined.

(** ** Breadth-first search: the levels are hop distances *)

Section HopFacts.
Variable X : Type.
Variable a : dict (dict X).
Hypothesis Hclosed : closed_adj a.

Lemma walk_of_length_refl (u : vertex) :
  mem u a = true -> walk_of_length a u u 0.
Proof.
  intros H; exists [u]; split; [|reflexivity].
  apply walk_between_intro; auto.
Qed.

Lemma walk_of_length_zero (u v : vertex) :
  walk_of_length a u v 0 -> v = u.
Proof.
  intros [p [Hp Hl]]; destruct (walk_between_inv Hp) as [q [-> [Hq _]]].
  destruct q; [simpl in Hq; auto | discriminate].
Qed.

Lemma walk_of_length_step (u v w : vertex) (n : nat) :
  walk_of_length a u v n -> adjacent a v w = true ->
  walk_of_length a u w (S n).
Proof.
  intros [p [Hp Hl]] Ha; exists (p ++ [w]); split.
  - apply walk_between_snoc with v; assumption.
  - rewrite length_app; simpl; lia.
Qed.

Lemma is_walk_unsnoc (p : list vertex) (v w : vertex) :
  is_walk a ((p ++ [v]) ++ [w]) = true ->
  is_walk a (p ++ [v]) = true /\ adjacent a v w = true.
Proof.
  induction p as [|x p IH]; simpl.
  - rewrite andb_true_r; auto.
  - destruct p as [|y p]; simpl in *.
    + intros H; apply andb_true_iff in H; destruct H as [H1 H2].
      rewrite andb_true_r in H2; rewrite H1; auto.
    + intros H; apply andb_true_iff in H; destruct H as [H1 H2].
      destruct (IH H2) as [H3 H4]; rewrite H1, H3; auto.
Qed.

Lemma walk_of_length_last (u w : vertex) (n : nat) :
  walk_of_length a u w (S n) ->
  exists v, walk_of_length a u v n /\ adjacent a v w = true.
Proof.
  intros [p [Hp Hl]].
  destruct (walk_between_inv Hp) as [q [-> [Hq [Hm Hw]]]].
  simpl in Hl; injection Hl as Hl.
  destruct (exists_last (l := q)) as [q' [w' ->]];
    [destruct q; [discriminate | discriminate]|].
  rewrite last_last in Hq; subst w'.
  rewrite length_app in Hl; simpl in Hl.
  assert (Hq' : exists p' v, u :: q' = p' ++ [v]).
  { destruct (exists_last (l := u :: q')) as [p' [v Hv]]; [discriminate|].
    exists p', v; exact Hv. }
  destruct Hq' as [p' [v Hv]].
  change (u :: q' ++ [w]) with ((u :: q') ++ [w]) in Hw.
  rewrite Hv in Hw; destruct (is_walk_unsnoc p' v w Hw) as [W1 W2].
  exists v; split; [|exact W2].
  exists (u :: q'); split; [|simpl; lia].
  apply walk_between_intro; auto.
  - apply (f_equal (fun l => last l u)) in Hv.
    rewrite last_last in Hv; rewrite <- Hv.
    rewrite last_cons; reflexivity.
  - rewrite Hv; exact W1.
Qed.

Variable source : vertex.

Lemma visit_values (level : Z) (l : list vertex) :
  forall (seen : dict Z) (next : list vertex) (seen' : dict Z)
         (next' : list vertex),
    for_each l (visit a level) (seen, next) = Ok (seen', next') ->
    forall x,
      get seen' x
      = match get seen x with
        | Some d => Some d
        | None => if memZ x l then Some level else None
        end.
Proof.
  induction l as [|v l IH]; intros seen next seen' next' H x.
  - inversion H; subst; destruct (get seen' x); reflexivity.
  - cbn [for_each] in H; unfold visit at 1 in H; cbn [fst snd] in H.
    destruct (mem v seen) eqn:Ev.
    + cbn [bind] in H; rewrite (IH _ _ _ _ H x).
      destruct (get seen x) as [d|] eqn:Ex; [reflexivity|].
      cbn [memZ existsb]; fold (memZ x l).
      destruct (Z.eqb_spec x v) as [->|_]; [|reflexivity].
      unfold mem in Ev; rewrite Ex in Ev; discriminate.
    + destruct (getitem a v) as [nb| |]; try discriminate.
      cbn [bind fst snd] in H; rewrite (IH _ _ _ _ H x), get_set.
      cbn [memZ existsb]; fold (memZ x l).
      destruct (Z.eqb_spec x v) as [->|_]; simpl.
      * unfold mem in Ev; destruct (get seen v); [discriminate | reflexivity].
      * reflexivity.
Qed.

(** The levels of [single_source_shortest_path_length]: a vertex seen at
    level [d] is at [d] hops from the source. *)
Lemma length_loop_levels :
  forall fuel (seen : dict Z) (level : Z) (frontier : list vertex)
         (seen' : dict Z),
    0 <= level ->
    Forall (fun v => mem v a = true) frontier ->
    (forall v d, get seen v = Some d ->
                 0 <= d < level /\ hop_distance a source v (Z.to_nat d)) ->
    (forall v n, walk_of_length a source v n -> Z.of_nat n < level ->
                 In v (keys seen)) ->
    (forall v, In v frontier ->
               walk_of_length a source v (Z.to_nat level)) ->
    (forall v, walk_of_length a source v (Z.to_nat level) ->
               In v (keys seen) \/ In v frontier) ->
    length_loop a fuel seen level frontier = Ok seen' ->
    forall v d, get seen' v = Some d ->
                0 <= d /\ hop_distance a source v (Z.to_nat d).
Proof.
  induction fuel as [|fuel IH];
    intros seen level frontier seen' HL Hfr HA HB HC HD H v d Hv.
  - destruct frontier; [|discriminate].
    inversion H; subst; destruct (HA v d Hv) as [[H1 _] H2]; auto.
  - destruct frontier as [|x0 fr0] eqn:Efr.
    { inversion H; subst; destruct (HA v d Hv) as [[H1 _] H2]; auto. }
    rewrite <- Efr in *.
    assert (Eloop : length_loop a (S fuel) seen level frontier
                    = bind (for_each frontier (visit a level) (seen, []))
                           (fun st => length_loop a fuel (fst st) (level + 1)
                                                  (snd st))).
    { rewrite Efr; reflexivity. }
    rewrite Eloop in H; clear Eloop.
    destruct (visit_loop a level Hfr seen [])
      as [s' [n' [E [H1 [H2 _]]]]].
    rewrite E in H; cbn [bind fst snd] in H.
    pose proof (visit_values level frontier seen [] s' n' E) as Hval.
    assert (Hsucc : Z.to_nat (level + 1) = S (Z.to_nat level))
      by (rewrite Z2Nat.inj_add by lia; simpl; lia).
    assert (HB' : forall w n, walk_of_length a source w n ->
                              Z.of_nat n < level + 1 -> In w (keys s')).
    { intros w n Hw Hn; apply H1.
      destruct (Z.lt_ge_cases (Z.of_nat n) level) as [Hlt|Hge].
      - left; apply (HB w n Hw Hlt).
      - assert (n = Z.to_nat level) by lia; subst n.
        destruct (HD w Hw); auto. }
    apply (IH s' (level + 1) n' seen'); auto; try lia.
    + apply Forall_forall; intros w Hw; apply H2 in Hw.
      destruct Hw as [[]|[u [_ [_ Ha]]]]; eapply Hclosed; eauto.
    + intros w e Hw; rewrite Hval in Hw.
      destruct (get seen w) as [e'|] eqn:Ew.
      * inversion Hw; subst e'; destruct (HA w e Ew) as [H3 H4].
        split; [lia | exact H4].
      * destruct (memZ w frontier) eqn:Em; [|discriminate].
        inversion Hw; subst e; split; [lia|].
        apply memZ_In in Em; split; [apply HC; exact Em|].
        intros m Hm.
        destruct (Nat.le_gt_cases (Z.to_nat level) m) as [Hle|Hgt]; auto.
        exfalso; assert (In w (keys seen)) by (apply (HB w m Hm); lia).
        apply In_keys_get in H0; destruct H0 as [? ?]; congruence.
    + intros w Hw; apply H2 in Hw.
      destruct Hw as [[]|[u [Hu [_ Ha]]]].
      rewrite Hsucc; apply walk_of_length_step with u; auto.
    + intros w Hw; rewrite Hsucc in Hw.
      destruct (walk_of_length_last source w _ Hw) as [u [Hu Ha]].
      destruct (in_dec Z.eq_dec u (keys seen)) as [Hin|Hout].
      * left; apply In_keys_get in Hin; destruct Hin as [e He].
        destruct (HA u e He) as [H3 [H4 _]].
        apply (HB' w (S (Z.to_nat e))); [|lia].
        apply walk_of_length_step with u; auto.
      * right; apply H2; right; exists u; repeat split; auto.
        destruct (HD u Hu); [contradiction | assumption].
Qed.

Lemma shortest_path_length_hops (seen : dict Z) :
  mem source a = true ->
  single_source_shortest_path_length a source = Ok seen ->
  forall v d, get seen v = Some d ->
              0 <= d /\ hop_distance a source v (Z.to_nat d).
Proof.
  intros Hm H; unfold single_source_shortest_path_length in H.
  apply (length_loop_levels (S (S (length a))) [] 0 [source] seen).
  - lia.
  - constructor; [exact Hm | constructor].
  - intros v d Hv; discriminate.
  - intros v n _ Hn; lia.
  - intros v [<-|[]]; apply walk_of_length_refl; exact Hm.
  - intros v Hv; right; left; symmetry.
    apply walk_of_length_zero; exact Hv.
  - exact H.
Qed.
End HopFacts.

(** ** Breadth-first search: the paths are shortest by hops *)

Section HopPaths.
Variable X : Type.
Variable a : dict (dict X).
Hypothesis Hclosed : closed_adj a.
Variable source : vertex.

Lemma extend_values (v : vertex) (pv : list vertex) (ws : list vertex) :
  forall (paths : dict (list vertex)) (next : list vertex)
         (paths' : dict (list vertex)) (next' : list vertex),
    get paths v = Some pv ->
    for_each ws (extend v) (paths, next) = Ok (paths', next') ->
    (forall x p, get paths x = Some p -> get paths' x = Some p)
    /\ (forall x p, get paths' x = Some p ->
                    get paths x = Some p
                    \/ (get paths x = None /\ In x ws /\ p = pv ++ [x]
                        /\ In x next'))
    /\ (forall x, In x next -> In x next')
    /\ (forall x, In x next' -> In x next \/ (get paths x = None /\ In x ws))
    /\ (forall w, In w ws -> In w (keys paths')).
Proof.
  induction ws as [|w ws IH]; intros paths next paths' next' Hv H.
  - inversion H; subst; repeat split; auto; intros w [].
  - cbn [for_each] in H; unfold extend at 1 in H; cbn [fst snd] in H.
    destruct (mem w paths) eqn:Ew.
    + cbn [bind] in H.
      destruct (IH _ _ _ _ Hv H) as (P1 & P2 & P3 & P4 & P5).
      repeat split; auto.
      * intros x p Hx; destruct (P2 x p Hx) as [Hl|(Hn & Hi & Hp & Hq)];
          [left; exact Hl|].
        right; repeat split; auto; right; exact Hi.
      * intros x Hx; destruct (P4 x Hx) as [Hl|[Hn Hi]]; [left; exact Hl|].
        right; split; [exact Hn | right; exact Hi].
      * intros x [<-|Hx]; [|apply P5; exact Hx].
        apply mem_get in Ew; destruct Ew as [p Hp].
        eapply get_Some_keys; exact (P1 _ _ Hp).
    + unfold getitem in H; rewrite Hv in H; cbn [lookup_or bind fst snd] in H.
      assert (Hw : get paths w = None).
      { unfold mem in Ew; destruct (get paths w); [discriminate|reflexivity]. }
      assert (Hne : v <> w) by (intros ->; congruence).
      assert (Hv1 : get (set paths w (pv ++ [w])) v = Some pv).
      { rewrite get_set; destruct (Z.eqb_spec v w); [contradiction|].
        exact Hv. }
      destruct (IH _ _ _ _ Hv1 H) as (P1 & P2 & P3 & P4 & P5).
      assert (Hin : In w next') by (apply P3, In_add_key; right; reflexivity).
      repeat split.
      * intros x p Hx; apply P1; rewrite get_set.
        destruct (Z.eqb_spec x w) as [->|_]; [congruence | exact Hx].
      * intros x p Hx; destruct (P2 x p Hx) as [Hl|(Hn & Hi & Hp & Hq)].
        -- rewrite get_set in Hl.
           destruct (Z.eqb_spec x w) as [->|_]; [|left; exact Hl].
           inversion Hl; right; repeat split; auto; left; reflexivity.
        -- rewrite get_set in Hn.
           destruct (Z.eqb_spec x w) as [->|_]; [discriminate|].
           right; repeat split; auto; right; exact Hi.
      * intros x Hx; apply P3, In_add_key; left; exact Hx.
      * intros x Hx; destruct (P4 x Hx) as [Hl|[Hn Hi]].
        -- apply In_add_key in Hl; destruct Hl as [Hl | ->]; [left; exact Hl|].
           right; split; [exact Hw | left; reflexivity].
        -- rewrite get_set in Hn.
           destruct (Z.eqb_spec x w) as [->|_]; [discriminate|].
           right; split; [exact Hn | right; exact Hi].
      * intros x [<-|Hx]; [|apply P5; exact Hx].
        eapply get_Some_keys; exact (P1 w (pv ++ [w]) (get_set_eq paths w _)).
Qed.

Lemma expand_values (l : list vertex) :
  forall (paths : dict (list vertex)) (next : list vertex)
         (paths' : dict (list vertex)) (next' : list vertex),
    (forall v, In v l -> exists pv, get paths v = Some pv) ->
    for_each l (expand a) (paths, next) = Ok (paths', next') ->
    (forall x p, get paths x = Some p -> get paths' x = Some p)
    /\ (forall x p, get paths' x = Some p ->
                    get paths x = Some p
                    \/ (get paths x = None
                        /\ exists v pv, In v l /\ get paths v = Some pv
                                        /\ adjacent a v x = true
                                        /\ p = pv ++ [x] /\ In x next'))
    /\ (forall x, In x next -> In x next')
    /\ (forall x, In x next' ->
                  In x next \/ (get paths x = None /\ In x (keys paths')))
    /\ (forall v w, In v l -> adjacent a v w = true -> In w (keys paths')).
Proof.
  induction l as [|v l IH]; intros paths next paths' next' Hl H.
  - inversion H; subst; repeat split; auto; intros v w [].
  - cbn [for_each] in H; unfold expand at 1 in H.
    destruct (getitem a v) as [nb| |] eqn:Enb; try discriminate.
    cbn [bind] in H.
    destruct (for_each (keys nb) (extend v) (paths, next))
      as [[p1 n1]| |] eqn:E1; try discriminate.
    cbn [bind] in H.
    destruct (Hl v (or_introl eq_refl)) as [pv Hv].
    destruct (extend_values v pv (keys nb) _ _ _ _ Hv E1)
      as (Q1 & Q2 & Q3 & Q4 & Q5).
    assert (Hl1 : forall v', In v' l -> exists pv', get p1 v' = Some pv').
    { intros v' Hv'; destruct (Hl v' (or_intror Hv')) as [pv' Hpv'].
      exists pv'; apply Q1; exact Hpv'. }
    destruct (IH _ _ _ _ Hl1 H) as (P1 & P2 & P3 & P4 & P5).
    assert (Hadj : forall w, In w (keys nb) <-> adjacent a v w = true).
    { unfold getitem in Enb; destruct (get a v) as [nb'|] eqn:Ea;
        [|discriminate].
      inversion Enb; subst nb'.
      intros w; rewrite adjacent_iff; split.
      - intros Hw; exists nb; auto.
      - intros [nb' [Hg Hw]]; congruence. }
    repeat split.
    + intros x p Hx; apply P1, Q1; exact Hx.
    + intros x p Hx.
      destruct (P2 x p Hx) as [H1|(Hn & v' & pv' & Hv' & Hg & Ha & Hp & Hq)].
      * destruct (Q2 x p H1) as [H2|(Hn & Hi & Hp & Hq)]; [left; exact H2|].
        right; split; [exact Hn|]; exists v, pv.
        split; [left; reflexivity|].
        split; [exact Hv|].
        split; [apply Hadj; exact Hi | split; [exact Hp | apply P3, Hq]].
      * assert (Hn0 : get paths x = None).
        { destruct (get paths x) as [q|] eqn:Eq; [|reflexivity].
          rewrite (Q1 x q Eq) in Hn; discriminate. }
        right; split; [exact Hn0|]; exists v', pv'.
        split; [right; exact Hv'|].
        split; [|split; [exact Ha | split; [exact Hp | exact Hq]]].
        destruct (Hl v' (or_intror Hv')) as [pv0 Hpv0].
        rewrite (Q1 _ _ Hpv0) in Hg; congruence.
    + intros x Hx; apply P3, Q3; exact Hx.
    + intros x Hx; destruct (P4 x Hx) as [H1|[Hn Hk]].
      * destruct (Q4 x H1) as [H2|[Hn Hi]]; [left; exact H2|].
        right; split; [exact Hn|].
        destruct (In_keys_get p1 x (Q5 x Hi)) as [q Hq].
        eapply get_Some_keys; exact (P1 x q Hq).
      * right; split; [|exact Hk].
        destruct (get paths x) as [q|] eqn:Eq; [|reflexivity].
        rewrite (Q1 x q Eq) in Hn; discriminate.
    + intros u w [<-|Hu] Ha; [|apply (P5 u w Hu Ha)].
      destruct (In_keys_get p1 w (Q5 w (proj2 (Hadj w) Ha))) as [q Hq].
      eapply get_Some_keys; exact (P1 w q Hq).
Qed.

(** The paths of [single_source_shortest_path]: a path recorded for [v] is
    a walk from the source to [v] with the least number of edges. *)
Lemma path_loop_levels :
  forall fuel (paths : dict (list vertex)) (level : nat)
         (frontier : list vertex) (paths' : dict (list vertex)),
    (forall v p, get paths v = Some p ->
                 walk_between a source v p /\ (length p <= S level)%nat
                 /\ forall m, walk_of_length a source v m ->
                              (length p <= S m)%nat) ->
    (forall v n, walk_of_length a source v n -> (n <= level)%nat ->
                 In v (keys paths)) ->
    (forall v, In v frontier ->
               exists p, get paths v = Some p /\ length p = S level) ->
    (forall v p, get paths v = Some p -> length p = S level ->
                 In v frontier) ->
    path_loop a fuel paths frontier = Ok paths' ->
    forall v p, get paths' v = Some p ->
                walk_between a source v p
                /\ forall m, walk_of_length a source v m ->
                             (length p <= S m)%nat.
Proof.
  induction fuel as [|fuel IH];
    intros paths level frontier paths' HA HB HC HD H v p Hv.
  - destruct frontier; [|discriminate].
    inversion H; subst; destruct (HA v p Hv) as [H1 [_ H2]]; auto.
  - destruct frontier as [|x0 fr0] eqn:Efr.
    { inversion H; subst; destruct (HA v p Hv) as [H1 [_ H2]]; auto. }
    rewrite <- Efr in *.
    assert (Eloop : path_loop a (S fuel) paths frontier
                    = bind (for_each frontier (expand a) (paths, []))
                           (fun st => path_loop a fuel (fst st) (snd st))).
    { rewrite Efr; reflexivity. }
    rewrite Eloop in H; clear Eloop.
    destruct (for_each frontier (expand a) (paths, [])) as [[p1 n1]| |] eqn:E1;
      try discriminate.
    cbn [bind fst snd] in H.
    destruct (expand_values frontier paths [] p1 n1) as (P1 & P2 & _ & P4 & P5);
      [|exact E1|].
    { intros u Hu; destruct (HC u Hu) as [q [Hq _]]; eauto. }
    assert (HB' : forall w n, walk_of_length a source w n ->
                              (n <= S level)%nat -> In w (keys p1)).
    { intros w n Hw Hn.
      destruct (Nat.le_gt_cases n level) as [Hle|Hgt].
      - destruct (In_keys_get paths w (HB w n Hw Hle)) as [q Hq].
        eapply get_Some_keys; exact (P1 w q Hq).
      - assert (n = S level) by lia; subst n.
        destruct (walk_of_length_last X a source w level Hw) as [u [Hu Ha]].
        destruct (In_keys_get paths u (HB u level Hu (le_n _))) as [pu Hpu].
        destruct (HA u pu Hpu) as [Wu [Lu Mu]].
        destruct (Nat.eq_dec (length pu) (S level)) as [Heq|Hneq].
        + apply (P5 u w (HD u pu Hpu Heq) Ha).
        + assert (Hw' : walk_of_length a source w (length pu)).
          { exists (pu ++ [w]); split.
            - apply walk_between_snoc with u; assumption.
            - rewrite length_app; simpl; lia. }
          assert (Hq : (length pu <= level)%nat) by lia.
          destruct (In_keys_get paths w (HB w _ Hw' Hq)) as [pw Hpw].
          eapply get_Some_keys; exact (P1 w pw Hpw). }
    apply (IH p1 (S level) n1 paths'); auto.
    + intros w q Hq.
      destruct (P2 w q Hq) as [H1|(Hn & u & pu & Hu & Hpu & Ha & -> & Hin)].
      * destruct (HA w q H1) as [W [L M]].
        split; [exact W | split; [lia | exact M]].
      * destruct (HC u Hu) as [pu' [Hpu' Lu]].
        assert (pu' = pu) by congruence; subst pu'.
        destruct (HA u pu Hpu) as [Wu _].
        split; [apply walk_between_snoc with u; assumption|].
        rewrite length_app; simpl; split; [lia|].
        intros m Hm.
        destruct (Nat.le_gt_cases m level) as [Hle|Hgt]; [|lia].
        exfalso; destruct (In_keys_get paths w (HB w m Hm Hle)) as [? ?].
        congruence.
    + intros w Hw; destruct (P4 w Hw) as [[]|[Hn Hk]].
      destruct (In_keys_get p1 w Hk) as [q Hq]; exists q; split; [exact Hq|].
      destruct (P2 w q Hq) as [H1|(_ & u & pu & Hu & Hpu & _ & -> & _)];
        [congruence|].
      destruct (HC u Hu) as [pu' [Hpu' Lu]].
      assert (pu' = pu) by congruence; subst pu'.
      rewrite length_app; simpl; lia.
    + intros w q Hq Lq.
      destruct (P2 w q Hq) as [H1|(_ & u & pu & _ & _ & _ & _ & Hin)];
        [|exact Hin].
      destruct (HA w q H1) as [_ [L _]]; lia.
Qed.

Lemma shortest_path_hops (paths : dict (list vertex)) :
  mem source a = true ->
  single_source_shortest_path a source = Ok paths ->
  forall v p, get paths v = Some p ->
              walk_between a source v p
              /\ forall m, walk_of_length a source v m ->
                           (length p <= S m)%nat.
Proof.
  intros Hm H; unfold single_source_shortest_path in H.
  apply (path_loop_levels (S (length a)) [(source, [source])] 0 [source]
                          paths).
  - intros v p; simpl; destruct (Z.eqb_spec v source) as [->|];
      [|discriminate].
    intros Hp; inversion Hp; subst p.
    split; [apply (walk_between_intro a source []); auto|].
    split; [simpl; lia | intros m _; simpl; lia].
  - intros v n Hn Hle; assert (n = 0)%nat by lia; subst n.
    left; symmetry; apply (walk_of_length_zero X a source v Hn).
  - intros v [<-|[]]; exists [source]; simpl; rewrite Z.eqb_refl; auto.
  - intros v p; simpl; destruct (Z.eqb_spec v source) as [->|];
      [auto | discriminate].
  - exact H.
Qed.

(** The two routines agree: the level of [v] is the number of edges of the
    path of [v]. *)
Lemma hop_distance_unique (u v : vertex) (n m : nat) :
  hop_distance a u v n -> hop_distance a u v m -> n = m.
Proof.
  intros [H1 H2] [H3 H4]; specialize (H2 m H3); specialize (H4 n H1); lia.
Qed.

Lemma shortest_path_is_hop_distance (v : vertex) (p : list vertex) :
  walk_between a source v p ->
  (forall m, walk_of_length a source v m -> (length p <= S m)%nat) ->
  hop_distance a source v (Nat.pred (length p)).
Proof.
  intros W M; destruct (walk_between_inv W) as [q [-> _]].
  split; [exists (source :: q); split; [exact W | reflexivity]|].
  intros m Hm; specialize (M m Hm); simpl in *; lia.
Qed.
End HopPaths.

(** ** odd_graph, as the code has it *)

Section OddGraphValues.
Variable graph : Graph base_attrs.
Hypothesis Hnodes : nodes graph = keys (adj graph).
Hypothesis Hwf : wf_adj (adj graph).

Lemma odd_graph_unfold :
  odd_graph graph
  = for_each (odd_nodes graph) (odd_row graph (odd_nodes graph)) empty.
Proof.
  unfold odd_graph.
  rewrite (filter_m_spec (is_odd graph) (odd_degree graph)).
  - reflexivity.
  - intros x Hx; apply is_odd_spec; rewrite <- Hnodes; exact Hx.
Qed.

Lemma odd_mem (u : vertex) : In u (odd_nodes graph) -> mem u (adj graph) = true.
Proof.
  intros H; apply mem_keys, (odd_nodes_in graph Hnodes), H.
Qed.

(** *** One row *)

Lemma odd_edge_loop_values (u : vertex) (paths : dict (list vertex))
      (lengths : dict Z) (vs : list vertex) :
  forall r r',
    keys (node r) = keys (adj r) ->
    for_each vs (odd_edge u paths lengths) r = Ok r' ->
    keys (node r') = keys (adj r')
    /\ (forall v, In v vs -> v < u ->
                  exists lv pv,
                    get lengths v = Some lv /\ get paths v = Some pv
                    /\ get2 (adj r') u v = Some (mk_odd (- lv) pv)
                    /\ get2 (adj r') v u = Some (mk_odd (- lv) pv))
    /\ (forall x y,
           ~ (x = u /\ In y vs /\ y < u) -> ~ (y = u /\ In x vs /\ x < u) ->
           get2 (adj r') x y = get2 (adj r) x y).
Proof.
  induction vs as [|v0 vs IH]; intros r r' Hk H.
  - inversion H; subst; repeat split; auto; intros v [].
  - cbn [for_each] in H; unfold odd_edge at 1 in H.
    destruct (Z.leb_spec u v0) as [Hle|Hlt].
    + cbn [bind] in H; destruct (IH r r' Hk H) as (K & V & P).
      split; [exact K|]; split.
      * intros v [<-|Hv] Hvu; [lia | apply V; assumption].
      * intros x y H1 H2; apply P.
        -- intros (? & ? & ?); apply H1; repeat split; auto; right; auto.
        -- intros (? & ? & ?); apply H2; repeat split; auto; right; auto.
    + unfold getitem in H.
      destruct (get lengths v0) as [lv|] eqn:El; [|discriminate].
      cbn [lookup_or bind] in H.
      destruct (get paths v0) as [pv|] eqn:Ep; [|discriminate].
      cbn [lookup_or bind] in H.
      set (r1 := add_edge r u v0 (mk_odd (- lv) pv)) in *.
      assert (K1 : keys (node r1) = keys (adj r1))
        by (apply add_edge_keys; exact Hk).
      destruct (IH r1 r' K1 H) as (K & V & P).
      assert (G1 : forall x y,
                 get2 (adj r1) x y
                 = if ((Z.eqb x u && Z.eqb y v0)
                       || (Z.eqb x v0 && Z.eqb y u))%bool
                   then Some (mk_odd (- lv) pv) else get2 (adj r) x y)
        by (intros x y; apply add_edge_get2; exact Hk).
      split; [exact K|]; split.
      * intros v [<-|Hv] Hvu; [|apply V; assumption].
        destruct (in_dec Z.eq_dec v0 vs) as [Hin|Hout];
          [destruct (V v0 Hin Hvu) as (lv' & pv' & E1 & E2 & E3 & E4);
           exists lv', pv'; auto|].
        exists lv, pv; split; [exact El|]; split; [exact Ep|].
        rewrite !P, !G1, !Z.eqb_refl; simpl.
        -- rewrite orb_true_r; split; reflexivity.
        -- intros (? & ? & ?); lia.
        -- intros (_ & ? & _); contradiction.
        -- intros (_ & ? & _); contradiction.
        -- intros (? & ? & ?); lia.
      * intros x y H1 H2; rewrite P, G1.
        -- destruct (Z.eqb_spec x u), (Z.eqb_spec y v0), (Z.eqb_spec x v0),
             (Z.eqb_spec y u); simpl; try reflexivity; exfalso; subst;
             first [apply H1; repeat split; auto; left; reflexivity
                   | apply H2; repeat split; auto; left; reflexivity].
        -- intros (? & ? & ?); apply H1; repeat split; auto; right; auto.
        -- intros (? & ? & ?); apply H2; repeat split; auto; right; auto.
Qed.

Lemma odd_row_values (odd : list vertex) (u : vertex) (r r' : Graph odd_attrs) :
  mem u (adj graph) = true ->
  keys (node r) = keys (adj r) ->
  odd_row graph odd r u = Ok r' ->
  keys (node r') = keys (adj r')
  /\ (forall v, In v odd -> v < u ->
                exists d, get2 (adj r') u v = Some d
                          /\ get2 (adj r') v u = Some d
                          /\ hop_edge graph u v d)
  /\ (forall x y,
         ~ (x = u /\ In y odd /\ y < u) -> ~ (y = u /\ In x odd /\ x < u) ->
         get2 (adj r') x y = get2 (adj r) x y).
Proof.
  intros Hu Hk H; unfold odd_row in H.
  destruct (shortest_path graph u) as [paths| |] eqn:Ep; try discriminate.
  cbn [bind] in H.
  destruct (shortest_path_length graph u) as [lengths| |] eqn:El;
    try discriminate.
  cbn [bind] in H.
  destruct (odd_edge_loop_values u paths lengths odd r r' Hk H)
    as (K & V & P).
  split; [exact K|]; split; [|exact P].
  intros v Hv Hvu; destruct (V v Hv Hvu) as (lv & pv & E1 & E2 & E3 & E4).
  exists (mk_odd (- lv) pv); split; [exact E3|]; split; [exact E4|].
  destruct (shortest_path_length_hops _ (adj graph) (wf_closed Hwf) u lengths
                                      Hu El v lv E1) as [Hlv Hd].
  destruct (shortest_path_hops _ (adj graph) u paths Hu Ep v pv E2)
    as [Hw Hmin].
  pose proof (shortest_path_is_hop_distance _ (adj graph) u v pv Hw Hmin)
    as Hd'.
  pose proof (hop_distance_unique _ (adj graph) u v _ _ Hd Hd') as Heq.
  destruct (walk_between_inv Hw) as [q [Eq _]].
  exists (Z.to_nat lv); simpl; repeat split.
  - rewrite Z2Nat.id by exact Hlv; reflexivity.
  - apply Hd.
  - apply Hd.
  - apply Hw.
  - apply Hw.
  - apply Hw.
  - apply Hw.
  - rewrite Heq, Eq; reflexivity.
Qed.

(** *** All rows *)

Lemma odd_rows_values (odd : list vertex) (us : list vertex) :
  forall r r',
    (forall u, In u us -> mem u (adj graph) = true) ->
    NoDup us ->
    keys (node r) = keys (adj r) ->
    for_each us (odd_row graph odd) r = Ok r' ->
    keys (node r') = keys (adj r')
    /\ (forall u v, In u us -> In v odd -> v < u ->
                    exists d, get2 (adj r') u v = Some d
                              /\ get2 (adj r') v u = Some d
                              /\ hop_edge graph u v d)
    /\ (forall x y,
           ~ (In x us /\ In y odd /\ y < x) ->
           ~ (In y us /\ In x odd /\ x < y) ->
           get2 (adj r') x y = get2 (adj r) x y).
Proof.
  induction us as [|u0 us IH]; intros r r' Hmem Hnd Hk H.
  - inversion H; subst; repeat split; auto; intros u v [].
  - cbn [for_each] in H.
    destruct (odd_row graph odd r u0) as [r1| |] eqn:E1; try discriminate.
    cbn [bind] in H; inversion Hnd as [|? ? Hnew Hnd']; subst.
    destruct (odd_row_values odd u0 r r1 (Hmem u0 (or_introl eq_refl)) Hk E1)
      as (K1 & V1 & P1).
    destruct (IH r1 r' (fun u Hu => Hmem u (or_intror Hu)) Hnd' K1 H)
      as (K & V & P).
    split; [exact K|]; split.
    + intros u v [<-|Hu] Hv Hvu; [|apply V; assumption].
      destruct (V1 v Hv Hvu) as (d & G1 & G2 & Hd).
      exists d; rewrite !P; auto.
      * intros (? & ? & ?); lia.
      * intros (? & ? & ?); contradiction.
      * intros (? & ? & ?); contradiction.
      * intros (? & ? & ?); lia.
    + intros x y H1 H2; rewrite P, P1; auto.
      * intros (-> & ? & ?); apply H1; repeat split; auto; left; auto.
      * intros (-> & ? & ?); apply H2; repeat split; auto; left; auto.
      * intros (? & ? & ?); apply H1; repeat split; auto; right; auto.
      * intros (? & ? & ?); apply H2; repeat split; auto; right; auto.
Qed.

Lemma odd_graph_values (og : Graph odd_attrs) :
  odd_graph graph = Ok og ->
  (forall u v, In u (odd_nodes graph) -> In v (odd_nodes graph) -> v < u ->
               exists d, get2 (adj og) u v = Some d
                         /\ get2 (adj og) v u = Some d
                         /\ hop_edge graph u v d)
  /\ (forall x y d, get2 (adj og) x y = Some d ->
                    In x (odd_nodes graph) /\ In y (odd_nodes graph)
                    /\ x <> y).
Proof.
  rewrite odd_graph_unfold; intros H.
  destruct (odd_rows_values (odd_nodes graph) (odd_nodes graph) empty og)
    as (_ & V & P); auto.
  - intros u Hu; apply odd_mem; exact Hu.
  - apply (odd_nodes_NoDup graph Hnodes Hwf).
  - split; [exact V|].
    intros x y d Hd.
    destruct (in_dec Z.eq_dec x (odd_nodes graph)) as [Hx|Hx],
      (in_dec Z.eq_dec y (odd_nodes graph)) as [Hy|Hy],
      (Z.eq_dec x y) as [Hxy|Hxy];
      try (repeat split; assumption);
      exfalso; rewrite P in Hd; try discriminate;
      intros (? & ? & ?); try contradiction; lia.
Qed.

(** *** Success and failure *)

Lemma odd_edge_loop_ok (u : vertex) (paths : dict (list vertex))
      (lengths : dict Z) (vs : list vertex) :
  (forall v, In v vs -> v < u ->
             mem v lengths = true /\ mem v paths = true) ->
  forall r, exists r', for_each vs (odd_edge u paths lengths) r = Ok r'.
Proof.
  induction vs as [|v0 vs IH]; intros Hall r; [exists r; reflexivity|].
  cbn [for_each]; unfold odd_edge at 1.
  destruct (Z.leb_spec u v0) as [Hle|Hlt].
  - cbn [bind]; apply IH; intros v Hv; apply Hall; right; exact Hv.
  - destruct (Hall v0 (or_introl eq_refl) Hlt) as [H1 H2].
    apply mem_get in H1, H2; destruct H1 as [lv H1], H2 as [pv H2].
    unfold getitem; rewrite H1, H2; cbn [lookup_or bind].
    apply IH; intros v Hv; apply Hall; right; exact Hv.
Qed.

Lemma odd_edge_loop_key_error (u : vertex) (paths : dict (list vertex))
      (lengths : dict Z) (vs : list vertex) :
  (forall v, mem v lengths = true -> mem v paths = true) ->
  (exists v, In v vs /\ v < u /\ mem v lengths = false) ->
  forall r, for_each vs (odd_edge u paths lengths) r = Raise KeyError.
Proof.
  intros Hp; induction vs as [|v0 vs IH]; intros [v [Hv [Hvu Hm]]] r;
    [destruct Hv|].
  cbn [for_each]; unfold odd_edge at 1.
  destruct (Z.leb_spec u v0) as [Hle|Hlt].
  - cbn [bind]; apply IH; exists v; repeat split; auto.
    destruct Hv as [->|Hv]; [lia | exact Hv].
  - unfold getitem; destruct (get lengths v0) as [lv|] eqn:El;
      [|reflexivity].
    cbn [lookup_or bind].
    assert (Hm0 : mem v0 paths = true)
      by (apply Hp; unfold mem; rewrite El; reflexivity).
    apply mem_get in Hm0; destruct Hm0 as [pv Hpv]; rewrite Hpv.
    cbn [lookup_or bind]; apply IH; exists v; repeat split; auto.
    destruct Hv as [->|Hv]; [|exact Hv].
    unfold mem in Hm; rewrite El in Hm; discriminate.
Qed.

Lemma odd_row_outcome (odd : list vertex) (u : vertex) (r : Graph odd_attrs) :
  mem u (adj graph) = true ->
  ((forall v, In v odd -> v < u -> reachable (adj graph) u v)
   /\ exists r', odd_row graph odd r u = Ok r')
  \/ ((exists v, In v odd /\ v < u /\ ~ reachable (adj graph) u v)
      /\ odd_row graph odd r u = Raise KeyError).
Proof.
  intros Hu; unfold odd_row.
  destruct (shortest_path_spec (wf_closed Hwf) u Hu)
    as [paths [Ep [_ [_ Hpk]]]].
  destruct (shortest_path_length_spec (wf_closed Hwf) u Hu)
    as [lengths [El [_ Hlk]]].
  unfold shortest_path, shortest_path_length; rewrite Ep, El; cbn [bind].
  assert (Hp : forall v, mem v lengths = true -> mem v paths = true).
  { intros v Hv; apply mem_keys, Hpk, Hlk, mem_keys; exact Hv. }
  destruct (existsb (fun v => Z.ltb v u && negb (mem v lengths)) odd)
    eqn:Ebad.
  - right; apply existsb_exists in Ebad; destruct Ebad as [v [Hv Hb]].
    apply andb_true_iff in Hb; destruct Hb as [H1 H2].
    apply Z.ltb_lt in H1; apply negb_true_iff in H2.
    split.
    + exists v; repeat split; auto.
      intros Hr; apply Hlk, mem_keys in Hr; congruence.
    + apply odd_edge_loop_key_error; [exact Hp|].
      exists v; repeat split; auto.
  - left.
    assert (Hall : forall v, In v odd -> v < u -> mem v lengths = true).
    { intros v Hv Hvu.
      destruct (mem v lengths) eqn:Em; [reflexivity|].
      exfalso; assert (Hex : existsb (fun v => Z.ltb v u
                                               && negb (mem v lengths)) odd
                             = true).
      { apply existsb_exists; exists v; split; [exact Hv|].
        rewrite Em; apply andb_true_iff; split; [|reflexivity].
        apply Z.ltb_lt; exact Hvu. }
      congruence. }
    split.
    + intros v Hv Hvu; apply Hlk, mem_keys, Hall; assumption.
    + apply odd_edge_loop_ok; intros v Hv Hvu; split; [|apply Hp];
        apply Hall; assumption.
Qed.

Lemma odd_rows_outcome (odd : list vertex) (us : list vertex) :
  (forall u, In u us -> mem u (adj graph) = true) ->
  forall r,
    ((forall u v, In u us -> In v odd -> v < u -> reachable (adj graph) u v)
     /\ exists r', for_each us (odd_row graph odd) r = Ok r')
    \/ ((exists u v, In u us /\ In v odd /\ v < u
                     /\ ~ reachable (adj graph) u v)
        /\ for_each us (odd_row graph odd) r = Raise KeyError).
Proof.
  induction us as [|u0 us IH]; intros Hmem r.
  - left; split; [intros u v []|exists r; reflexivity].
  - cbn [for_each].
    destruct (odd_row_outcome odd u0 r (Hmem u0 (or_introl eq_refl)))
      as [[Hall [r1 E1]]|[[v [Hv [Hvu Hn]]] E1]].
    + rewrite E1; cbn [bind].
      destruct (IH (fun u Hu => Hmem u (or_intror Hu)) r1)
        as [[Hall' [r' E']]|[[u [v [Hu [Hv [Hvu Hn]]]]] E']].
      * left; split; [|exists r'; exact E'].
        intros u v [<-|Hu] Hv Hvu; [apply Hall | apply Hall']; assumption.
      * right; split; [|exact E'].
        exists u, v; repeat split; auto; right; exact Hu.
    + right; rewrite E1; split; [|reflexivity].
      exists u0, v; repeat split; auto; left; reflexivity.
Qed.
End OddGraphValues.

(** X10: what [odd_graph] stores.  On a graph as networkx builds it, for
    every two vertices [v < u] of odd degree the graph returned holds, in both
    directions, one edge whose [weight] is minus the least number of edges of
    a walk from [u] to [v] in the input graph and whose [path] is a walk from
    [u] to [v] with that number of edges; the edge weights of the input
    graph play no part.  It has no other edge: every edge joins two distinct
    vertices of odd degree. *)
Theorem odd_graph_stores_hop_counts (graph : Graph base_attrs)
        (og : Graph odd_attrs) :
  well_formed graph = true ->
  odd_graph graph = Ok og ->
  (forall u v, In u (odd_nodes graph) -> In v (odd_nodes graph) -> v < u ->
               exists d, get2 (adj og) u v = Some d
                         /\ get2 (adj og) v u = Some d
                         /\ hop_edge graph u v d)
  /\ (forall x y d, get2 (adj og) x y = Some d ->
                    In x (odd_nodes graph) /\ In y (odd_nodes graph)
                    /\ x <> y).
Proof.
  intros Hgood; destruct (well_formed_spec graph Hgood) as [Hn Hwf].
  apply odd_graph_values; assumption.
Qed.

Lemma odd_graph_stores_hop_counts_witness :
  exists og,
    odd_graph shortcut_graph = Ok og
    /\ exists d, get2 (adj og) 2 1 = Some d
                 /\ get2 (adj og) 1 2 = Some d
                 /\ hop_edge shortcut_graph 2 1 d.
Proof.
  destruct (odd_graph shortcut_graph) as [og| |] eqn:E;
    [|vm_compute in E; discriminate..].
  exists og; split; [reflexivity|].
  destruct (odd_graph_stores_hop_counts shortcut_graph og) as [H _].
  - vm_compute; reflexivity.
  - exact E.
  - apply H; [vm_compute; auto | vm_compute; auto | lia].
Defined.

(** X11: when [odd_graph] succeeds.  On a graph as networkx builds it,
    [odd_graph] returns a graph when every two vertices of odd degree are
    joined by a walk; when two vertices of odd degree are not, the look-up
    [lengths[v]] raises KeyError, and [chinese_postman_path] fails with
    that KeyError before it calls the matching or the circuit routine. *)
Theorem odd_graph_needs_linked_odd_vertices
        (max_weight_matching : Graph odd_attrs -> bool -> dict vertex)
        (eulerian_circuit :
           MultiGraph multi_attrs -> outcome (list (vertex * vertex)))
        (graph : Graph base_attrs) :
  well_formed graph = true ->
  ((forall u v, In u (odd_nodes graph) -> In v (odd_nodes graph) ->
                reachable (adj graph) u v) ->
   exists og, odd_graph graph = Ok og)
  /\ ((exists u v, In u (odd_nodes graph) /\ In v (odd_nodes graph)
                   /\ ~ reachable (adj graph) u v) ->
      odd_graph graph = Raise KeyError
      /\ chinese_postman_path max_weight_matching eulerian_circuit graph
         = Raise KeyError).
Proof.
  intros Hgood; destruct (well_formed_spec graph Hgood) as [Hn Hwf].
  pose proof (odd_rows_outcome graph Hwf (odd_nodes graph) (odd_nodes graph)
                               (odd_mem graph Hn) empty) as Hcases.
  rewrite <- (odd_graph_unfold graph Hn) in Hcases.
  split.
  - intros Hall.
    destruct Hcases as [[_ Hok]|[[u [v [Hu [Hv [_ Hno]]]]] _]];
      [exact Hok | exfalso; apply Hno, Hall; assumption].
  - intros [u [v [Hu [Hv Hno]]]].
    assert (E : odd_graph graph = Raise KeyError).
    { destruct Hcases as [[Hall _]|[_ E]]; [exfalso | exact E].
      apply Hno.
      destruct (Z.lt_trichotomy u v) as [Huv|[Huv|Huv]].
      - apply (reachable_sym (wf_closed Hwf) (wf_adjacent_sym Hwf)).
        apply Hall; assumption.
      - subst v; apply reachable_refl, odd_mem; assumption.
      - apply Hall; assumption. }
    split; [exact E|].
    unfold chinese_postman_path; rewrite E; reflexivity.
Qed.

Lemma odd_graph_needs_linked_odd_vertices_witness :
  odd_graph two_components = Raise KeyError
  /\ chinese_postman_path exhaustive_matching search_circuit two_components
     = Raise KeyError.
Proof.
  assert (Hgood : well_formed two_components = true)
    by (vm_compute; reflexivity).
  apply (odd_graph_needs_linked_odd_vertices
           exhaustive_matching search_circuit two_components Hgood).
  exists 3, 1; split; [vm_compute; auto|]; split; [vm_compute; auto|].
  intros Hr.
  destruct (well_formed_spec two_components Hgood) as [_ Hwf].
  destruct (shortest_path_length_spec (wf_closed Hwf) 3 eq_refl)
    as [seen [E [_ Hseen]]].
  apply Hseen in Hr; vm_compute in E; inversion E; subst seen.
  vm_compute in Hr; destruct Hr as [Hr|[Hr|[]]]; discriminate.
Defined.

(** X12: the multigraph that [chinese_postman_path] returns, whatever the
    matching and the circuit routines return, has the node dict of the base
    graph (the same vertices with their attributes), and between two
    vertices it has edges exactly when the base graph has one: the copy of
    that edge, followed by duplicates that carry its weight and no [id].
    So every edge that [edges(data=True)] reports lies on an edge of the
    base graph and has its weight. *)
Theorem augmented_graph_follows_base_graph
        (max_weight_matching : Graph odd_attrs -> bool -> dict vertex)
        (eulerian_circuit :
           MultiGraph multi_attrs -> outcome (list (vertex * vertex)))
        (graph : Graph base_attrs) (eg : MultiGraph multi_attrs)
        (nodes : list vertex) :
  well_formed graph = true ->
  chinese_postman_path max_weight_matching eulerian_circuit graph
  = Ok (eg, nodes) ->
  mnode eg = node graph
  /\ follows graph eg
  /\ (forall u v d,
         In (u, v, d) (medges eg) ->
         exists b, get2 (adj graph) u v = Some b /\ weight d = weight b).
Proof.
  intros Hgood H; destruct (well_formed_spec graph Hgood) as [Hn Hwf].
  destruct (chinese_postman_path_inv _ _ graph eg nodes H)
    as (og & c0 & rest & _ & Eeg & _ & _).
  destruct (augment_shape graph Hn Hwf og _ eg Eeg) as (_ & _ & W & N & F).
  split; [exact N|]; split; [exact F|].
  intros u v d Hin; destruct (follows_edge graph eg u v d W F Hin)
    as [b [Hb [-> | ->]]]; exists b; split; auto.
Qed.

Lemma augmented_graph_follows_base_graph_witness :
  exists eg nodes,
    chinese_postman_path exhaustive_matching search_circuit shortcut_graph
    = Ok (eg, nodes)
    /\ mnode eg = node shortcut_graph
    /\ follows shortcut_graph eg.
Proof.
  destruct (chinese_postman_path exhaustive_matching search_circuit
                                 shortcut_graph) as [[eg nodes]| |] eqn:E;
    [|vm_compute in E; discriminate..].
  exists eg, nodes; split; [reflexivity|].
  destruct (augmented_graph_follows_base_graph
              exhaustive_matching search_circuit shortcut_graph eg nodes)
    as (H1 & H2 & _).
  - vm_compute; reflexivity.
  - exact E.
  - split; assumption.
Defined.

(** ** write_csv *)

Section WriteCsvFacts.
Variable graph : Graph base_attrs.
Hypothesis Hnodes : nodes graph = keys (adj graph).
Hypothesis Hwf : wf_adj (adj graph).

Lemma csv_row_edge (uv : vertex * vertex) (b : base_attrs) :
  get2 (adj graph) (fst uv) (snd uv) = Some b ->
  exists row, csv_row graph uv = Ok row /\ csv_row_of graph uv row
              /\ segment_length row = b_weight b.
Proof.
  intros Hb; pose proof Hb as Hb'; apply get2_Some in Hb'.
  destruct Hb' as [nb [Hu Hv]].
  assert (Mu : mem (fst uv) (node graph) = true).
  { apply mem_keys; change (keys (node graph)) with (nodes graph).
    rewrite Hnodes; eapply get_Some_keys; eauto. }
  assert (Mv : mem (snd uv) (node graph) = true).
  { apply mem_keys; change (keys (node graph)) with (nodes graph).
    rewrite Hnodes; apply mem_keys.
    apply (wf_closed Hwf (fst uv) (snd uv)), adjacent_get2; eauto. }
  apply mem_get in Mu, Mv; destruct Mu as [nu Gu], Mv as [nv Gv].
  unfold csv_row, nbrs, getitem; rewrite Hu; cbn [lookup_or bind].
  rewrite Hv; cbn [lookup_or bind]; rewrite Gu, Gv; cbn [lookup_or bind].
  eexists; split; [reflexivity|]; split; [|reflexivity].
  exists b, nu, nv; repeat split; assumption.
Qed.

Lemma csv_row_no_edge (uv : vertex * vertex) :
  get2 (adj graph) (fst uv) (snd uv) = None ->
  csv_row graph uv = Raise KeyError.
Proof.
  unfold get2, csv_row, nbrs, getitem.
  destruct (get (adj graph) (fst uv)) as [nb|]; [|reflexivity].
  cbn [lookup_or bind]; intros ->; reflexivity.
Qed.

Lemma write_rows_spec (ps : list (vertex * vertex)) :
  forall out,
  exists done rows,
    Forall2 (csv_row_of graph) done rows
    /\ ((done = ps /\ write_rows graph ps out = (out ++ rows, Ok tt))
        \/ exists uv rest,
            ps = done ++ uv :: rest
            /\ adjacent (adj graph) (fst uv) (snd uv) = false
            /\ write_rows graph ps out = (out ++ rows, Raise KeyError)).
Proof.
  induction ps as [|uv ps IH]; intros out.
  - exists [], []; split; [constructor|]; left.
    rewrite app_nil_r; split; reflexivity.
  - cbn [write_rows].
    destruct (get2 (adj graph) (fst uv) (snd uv)) as [b|] eqn:Hb.
    + destruct (csv_row_edge uv b Hb) as [row [E [Hrow _]]]; rewrite E.
      destruct (IH (out ++ [row])) as (done & rows & F & H).
      exists (uv :: done), (row :: rows); split; [constructor; assumption|].
      rewrite <- app_assoc in H; simpl in H.
      destruct H as [[-> H]|(uv' & rest & -> & Ha & H)].
      * left; split; [reflexivity | exact H].
      * right; exists uv', rest; repeat split; assumption.
    + rewrite (csv_row_no_edge uv Hb).
      exists [], []; split; [constructor|]; right.
      exists uv, ps; rewrite app_nil_r; repeat split.
      unfold adjacent; rewrite Hb; reflexivity.
Qed.

End WriteCsvFacts.

(** X13: [write_csv] on any list of vertices.  It writes the header and
    then one row per step of [nodes] (two consecutive vertices), holding the
    weight and the id of the edge of [graph] between them and the positions
    of the two vertices; it returns when every step is an edge of [graph]
    and otherwise raises KeyError at the first step that is not, the
    header and the rows of the steps before it having been written. *)
Theorem write_csv_needs_edges (graph : Graph base_attrs)
        (nodes : list vertex) (out : list (list csv_value)) :
  well_formed graph = true ->
  exists done rows,
    Forall2 (csv_row_of graph) done rows
    /\ ((done = pairs nodes false
         /\ write_csv graph nodes out = (out ++ csv_header :: rows, Ok tt))
        \/ exists uv rest,
            pairs nodes false = done ++ uv :: rest
            /\ adjacent (adj graph) (fst uv) (snd uv) = false
            /\ write_csv graph nodes out
               = (out ++ csv_header :: rows, Raise KeyError)).
Proof.
  intros Hgood; destruct (well_formed_spec graph Hgood) as [Hn Hwf].
  unfold write_csv.
  destruct (write_rows_spec graph Hn Hwf (pairs nodes false)
                            (out ++ [csv_header]))
    as (done & rows & F & H).
  exists done, rows; split; [exact F|].
  rewrite <- app_assoc in H; exact H.
Qed.

Lemma write_csv_needs_edges_witness :
  exists done rows,
    Forall2 (csv_row_of shortcut_graph) done rows
    /\ ((done = pairs [1; 3; 4] false
         /\ write_csv shortcut_graph [1; 3; 4] []
            = ([] ++ csv_header :: rows, Ok tt))
        \/ exists uv rest,
            pairs [1; 3; 4] false = done ++ uv :: rest
            /\ adjacent (adj shortcut_graph) (fst uv) (snd uv) = false
            /\ write_csv shortcut_graph [1; 3; 4] []
               = ([] ++ csv_header :: rows, Raise KeyError)).
Proof.
  apply (write_csv_needs_edges shortcut_graph [1; 3; 4] []).
  vm_compute; reflexivity.
Defined.

(** ** write_csv on the route *)



Section RouteFacts.
Variable max_weight_matching : Graph odd_attrs -> bool -> dict vertex.
Variable eulerian_circuit :
  MultiGraph multi_attrs -> outcome (list (vertex * vertex)).
Variable graph : Graph base_attrs.
Hypothesis Hgood : well_formed graph = true.
Hypothesis Hconn : is_connected graph = Ok true.
Hypothesis Hedges : edges graph <> [].
Hypothesis Hmatch :
  forall og, odd_graph graph = Ok og ->
             max_weight_matching_contract
               weight og (max_weight_matching og true) = true.
Hypothesis Heuler :
  forall og eg,
    odd_graph graph = Ok og ->
    augment graph og (max_weight_matching og true) = Ok eg ->
    eulerian_circuit_contract eg (eulerian_circuit eg).



End RouteFacts.



(** ** From the CSV rows to the route *)

Lemma sum_over_ge {A : Type} (l : list A) (f : A -> Z) (a : A) :
  (forall x, In x l -> 0 <= f x) -> In a l -> f a <= sum_over l f.
Proof.
  induction l as [|x l IH]; intros Hf Ha; [destruct Ha|].
  cbn [sum_over fold_right]; fold (sum_over l f).
  assert (0 <= sum_over l f)
    by (apply sum_over_nonneg; intros y Hy; apply Hf; right; exact Hy).
  pose proof (Hf x (or_introl eq_refl)).
  destruct Ha as [<-|Ha]; [lia|].
  specialize (IH (fun y Hy => Hf y (or_intror Hy)) Ha); lia.
Qed.

Lemma upper_nonneg (M : vertex -> vertex -> Z) (K : list vertex) :
  (forall u v, 0 <= M u v) -> 0 <= upper M K.
Proof.
  intros HM; induction K as [|u K IH]; [simpl; lia|].
  change (upper M (u :: K)) with (sum_over (u :: K) (M u) + upper M K).
  assert (0 <= sum_over (u :: K) (M u))
    by (apply sum_over_nonneg; intros; apply HM).
  lia.
Qed.

Lemma upper_ge (M : vertex -> vertex -> Z) (K : list vertex) (x y : vertex) :
  (forall u v, 0 <= M u v) -> (forall u v, M u v = M v u) ->
  In x K -> In y K -> M x y <= upper M K.
Proof.
  intros HM Hsym; induction K as [|u K IH]; intros Hx Hy; [destruct Hx|].
  change (upper M (u :: K)) with (sum_over (u :: K) (M u) + upper M K).
  pose proof (upper_nonneg M K HM) as H0.
  assert (H1 : 0 <= sum_over (u :: K) (M u))
    by (apply sum_over_nonneg; intros; apply HM).
  assert (Hrow : forall z, In z (u :: K) -> M u z <= sum_over (u :: K) (M u)).
  { intros z Hz; apply (sum_over_ge (u :: K) (M u) z); [|exact Hz].
    intros; apply HM. }
  destruct Hx as [<-|Hx].
  - specialize (Hrow y Hy); lia.
  - destruct Hy as [<-|Hy].
    + rewrite Hsym; specialize (Hrow x (or_intror Hx)); lia.
    + specialize (IH Hx Hy); lia.
Qed.

Lemma edges_nonempty (g : Graph base_attrs) (x y : vertex) :
  wf_adj (adj g) -> adjacent (adj g) x y = true -> edges g <> [].
Proof.
  intros Hwf Ha He.
  pose proof (edges_length g Hwf) as Hlen; rewrite He in Hlen; simpl in Hlen.
  pose proof Ha as Hd; apply adjacent_get2 in Hd; destruct Hd as [d Hd].
  assert (Hx : In x (keys (adj g))).
  { apply get2_Some in Hd; destruct Hd as [nb [Hx _]].
    eapply get_Some_keys; eauto. }
  assert (Hy : In y (keys (adj g)))
    by (apply mem_keys, (wf_closed Hwf x y Ha)).
  pose proof (upper_ge (entry one (adj g)) (keys (adj g)) x y) as Hge.
  assert (E1 : entry one (adj g) x y = 1)
    by (unfold entry; rewrite Hd; reflexivity).
  rewrite E1 in Hge; rewrite <- Hlen in Hge.
  assert (1 <= 0); [|lia].
  apply Hge; auto.
  - intros u v; unfold entry, one; destruct (get2 (adj g) u v); lia.
  - intros u v; apply (entry_sym one Hwf).
Qed.

(** *** The importer creates vertices only as endpoints *)

Lemma add_edge_no_isolated {E : Type} (g : Graph E) (u v : vertex) (d : E) :
  keys (node g) = keys (adj g) ->
  no_isolated g -> no_isolated (add_edge g u v d).
Proof.
  unfold no_isolated; intros Hk Hg n Hn; apply mem_keys in Hn.
  rewrite (add_edge_mem g u v d n Hk) in Hn.
  assert (Hadj : forall x y,
             adjacent (adj (add_edge g u v d)) x y
             = (((Z.eqb x u && Z.eqb y v) || (Z.eqb x v && Z.eqb y u))
                || adjacent (adj g) x y)%bool).
  { intros x y; unfold adjacent; rewrite (add_edge_get2 g u v d x y Hk).
    destruct ((Z.eqb x u && Z.eqb y v) || (Z.eqb x v && Z.eqb y u))%bool;
      reflexivity. }
  destruct (Z.eqb_spec n u) as [Heq|Hu].
  - subst n; exists v; rewrite Hadj, !Z.eqb_refl; reflexivity.
  - destruct (Z.eqb_spec n v) as [Heq|Hv].
    + subst n; exists u; rewrite Hadj, !Z.eqb_refl; simpl; rewrite orb_true_r.
      reflexivity.
    + simpl in Hn; apply mem_keys in Hn; destruct (Hg n Hn) as [w Hw].
      exists w; rewrite Hadj, Hw; apply orb_true_r.
Qed.

Lemma import_row_no_isolated (graph g' : Graph base_attrs)
      (row : list string) :
  keys (node graph) = keys (adj graph) ->
  no_isolated graph -> import_row graph row = Ok g' -> no_isolated g'.
Proof.
  intros Hk Hg H.
  destruct (import_row_cases graph row Hk)
    as [[_ E]|[(r0 & rest & _ & _ & E)|[(r0 & rest & _ & _ & E & _)
       |(s & e & len & id & slon & slat & elon & elat & extra & ns & ne & nl
         & _ & _ & _ & _ & _ & E)]]];
    rewrite E in H; try discriminate; inversion H; subst; [exact Hg|].
  intros n Hn; simpl adj in *.
  apply (add_edge_no_isolated graph ns ne (mk_base nl id) Hk Hg n Hn).
Qed.

Lemma import_loop_no_isolated (reader : list read_result) :
  forall g g' : Graph base_attrs,
    sound g -> no_isolated g ->
    for_each reader import_step g = Ok g' -> no_isolated g'.
Proof.
  induction reader as [|[row|e] reader IH]; intros g g' Hs Hg H.
  - inversion H; subst; exact Hg.
  - cbn [for_each import_step] in H.
    destruct (import_row g row) as [g1| |] eqn:E1; try discriminate.
    cbn [bind] in H; apply (IH g1 g'); [| |exact H].
    + apply (import_row_sound g row g1 Hs E1).
    + apply (import_row_no_isolated g g1 row (proj1 Hs) Hg E1).
  - discriminate.
Qed.

Lemma import_no_isolated (reader : list read_result)
      (g : Graph base_attrs) :
  import_csv_graph reader = Ok g -> no_isolated g.
Proof.
  intros H; apply (import_loop_no_isolated reader empty g sound_empty); auto.
  intros n [].
Qed.

(** X15: the importer creates vertices only as endpoints of the rows.  In
    a graph that [import_csv_graph] returns every vertex has an edge
    (possibly a self-loop), so that the graph has an edge as soon as it has
    a vertex: the single vertex without an edge, on which
    [chinese_postman_path] raises IndexError, is not the graph of any
    CSV file. *)
Theorem import_csv_graph_no_isolated_vertex (reader : list read_result)
        (graph : Graph base_attrs) :
  import_csv_graph reader = Ok graph ->
  (forall n, In n (nodes graph) ->
             exists v d, get2 (adj graph) n v = Some d)
  /\ (nodes graph <> [] -> edges graph <> []).
Proof.
  intros H.
  pose proof (import_no_isolated reader graph H) as Hiso.
  pose proof (import_loop_sound reader empty graph sound_empty H) as [Hk Hwf].
  assert (Hall : forall n, In n (nodes graph) ->
                           exists v d, get2 (adj graph) n v = Some d).
  { intros n Hn; unfold nodes in Hn; rewrite Hk in Hn.
    destruct (Hiso n Hn) as [v Hv]; apply adjacent_get2 in Hv.
    destruct Hv as [d Hd]; exists v, d; exact Hd. }
  split; [exact Hall|].
  intros Hne; destruct (nodes graph) as [|n ns] eqn:En; [congruence|].
  destruct (Hall n (or_introl eq_refl)) as (v & d & Hd).
  apply (edges_nonempty graph n v Hwf), adjacent_get2; eauto.
Qed.

Lemma import_csv_graph_no_isolated_vertex_witness :
  exists graph,
    import_csv_graph (map ReadRow shortcut_rows) = Ok graph
    /\ (forall n, In n (nodes graph) ->
                  exists v d, get2 (adj graph) n v = Some d)
    /\ (nodes graph <> [] -> edges graph <> []).
Proof.
  eexists; split; [vm_compute; reflexivity|].
  apply (import_csv_graph_no_isolated_vertex (map ReadRow shortcut_rows)).
  vm_compute; reflexivity.
Defined.




(** ** The vertices of odd degree and the duplicated length *)

(** X17: the list of odd vertices that [odd_graph] builds.  On a graph as
    networkx builds it the comprehension raises nothing and yields the
    vertices of odd degree (a self-loop counts twice), each once, in the
    order of [graph.nodes()]; their number is even, so that they can be
    matched in pairs. *)
Theorem odd_vertices_come_in_pairs (graph : Graph base_attrs) :
  well_formed graph = true ->
  filter_m (is_odd graph) (nodes graph) = Ok (odd_nodes graph)
  /\ NoDup (odd_nodes graph)
  /\ (forall n, In n (odd_nodes graph)
                <-> In n (nodes graph)
                    /\ exists d, degree graph n = Ok d /\ Nat.odd d = true)
  /\ Nat.even (length (odd_nodes graph)) = true.
Proof.
  intros Hgood; destruct (well_formed_spec graph Hgood) as [Hn Hwf].
  split; [|split; [|split]].
  - apply filter_m_spec; intros x Hx; apply is_odd_spec.
    rewrite <- Hn; exact Hx.
  - apply odd_nodes_NoDup; assumption.
  - intros n; unfold odd_nodes; rewrite filter_In.
    unfold odd_degree, degree, nbrs, getitem.
    destruct (get (adj graph) n) as [nb|]; cbn [lookup_or bind].
    + split.
      * intros [Hin Hodd]; split; [exact Hin|].
        exists (degree_of nb n); split; [reflexivity | exact Hodd].
      * intros [Hin [d [Hd Hodd]]]; split; [exact Hin|].
        inversion Hd; subst d; exact Hodd.
    + split; [intros [_ H]; discriminate|].
      intros [_ [d [Hd _]]]; discriminate.
  - apply even_number_of_odd_nodes; exact Hgood.
Qed.

Lemma odd_vertices_come_in_pairs_witness :
  filter_m (is_odd detour_graph) (nodes detour_graph)
  = Ok (odd_nodes detour_graph)
  /\ NoDup (odd_nodes detour_graph)
  /\ (forall n, In n (odd_nodes detour_graph)
                <-> In n (nodes detour_graph)
                    /\ exists d, degree detour_graph n = Ok d
                                 /\ Nat.odd d = true)
  /\ Nat.even (length (odd_nodes detour_graph)) = true.
Proof.
  apply (odd_vertices_come_in_pairs detour_graph).
  vm_compute; reflexivity.
Defined.

Lemma matching_of_empty (mate : dict vertex) :
  is_matching (@empty odd_attrs) mate = true -> mate = [].
Proof.
  destruct mate as [|[u v] mate]; [reflexivity|].
  unfold is_matching; intros H; apply andb_true_iff in H.
  destruct H as [_ H]; cbn [forallb] in H; apply andb_true_iff in H.
  destruct H as [H _]; unfold is_mate_entry, has_edge in H.
  cbn in H; rewrite andb_false_r in H; discriminate.
Qed.

(** X18: a graph whose degrees are all even is copied and nothing else.
    The odd graph is empty, no path is duplicated, and the multigraph that
    [chinese_postman_path] hands to the circuit routine and returns is
    [nx.MultiGraph(graph)]: it has as many edges as the graph and the same
    [edge_sum]. *)
Theorem even_graph_is_only_copied
        (max_weight_matching : Graph odd_attrs -> bool -> dict vertex)
        (eulerian_circuit :
           MultiGraph multi_attrs -> outcome (list (vertex * vertex)))
        (graph : Graph base_attrs) :
  well_formed graph = true ->
  odd_nodes graph = [] ->
  max_weight_matching_contract weight empty (max_weight_matching empty true)
  = true ->
  odd_graph graph = Ok empty
  /\ chinese_postman_path max_weight_matching eulerian_circuit graph
     = (circuit <- eulerian_circuit (to_multigraph copy_attrs graph) ;;
        c0 <- first circuit ;;
        Ok (to_multigraph copy_attrs graph, map fst circuit ++ [fst c0]))
  /\ length (medges (to_multigraph copy_attrs graph)) = length (edges graph)
  /\ edge_sum (to_multigraph copy_attrs graph) = edge_sum graph.
Proof.
  intros Hgood Hodd Hc; destruct (well_formed_spec graph Hgood) as [Hn Hwf].
  assert (Eog : odd_graph graph = Ok empty)
    by (rewrite (odd_graph_unfold graph Hn), Hodd; reflexivity).
  assert (Hmate : max_weight_matching empty true = []).
  { apply matching_of_empty.
    unfold max_weight_matching_contract in Hc; apply andb_true_iff in Hc.
    exact (proj1 Hc). }
  destruct (to_multigraph_spec _ _ copy_attrs graph Hwf) as (_ & K & W & _).
  split; [exact Eog|]; split; [|split].
  - unfold chinese_postman_path; rewrite Eog; cbn [bind].
    unfold augment; rewrite Hmate; reflexivity.
  - apply Nat2Z.inj.
    rewrite (medges_length _ _ W), (edges_length graph Hwf), K.
    apply upper_ext; intros x y; apply copied_count; exact Hgood.
  - rewrite (edge_sum_multigraph _ W), (edge_sum_graph graph Hwf), K.
    apply upper_ext; intros x y; apply copied_weight; exact Hgood.
Qed.

Lemma even_graph_is_only_copied_witness :
  odd_graph square = Ok empty
  /\ chinese_postman_path exhaustive_matching search_circuit square
     = (circuit <- search_circuit (to_multigraph copy_attrs square) ;;
        c0 <- first circuit ;;
        Ok (to_multigraph copy_attrs square, map fst circuit ++ [fst c0]))
  /\ length (medges (to_multigraph copy_attrs square)) = length (edges square)
  /\ edge_sum (to_multigraph copy_attrs square) = edge_sum square.
Proof.
  apply (even_graph_is_only_copied exhaustive_matching search_circuit square).
  - vm_compute; reflexivity.
  - vm_compute; reflexivity.
  - vm_compute; reflexivity.
Defined.

(** X19: what is walked twice.  For a connected graph, whatever matching
    of greatest cardinality and weight the matcher returns, the matched
    vertices are exactly the vertices of odd degree, and the [edge_sum] of
    the multigraph exceeds that of the graph by the weights of the paths
    that [odd_graph] stored for the matched pairs: the length that the
    program prints as visited twice. *)
Theorem duplicated_length_is_the_matched_paths
        (max_weight_matching : Graph odd_attrs -> bool -> dict vertex)
        (graph : Graph base_attrs) :
  well_formed graph = true ->
  is_connected graph = Ok true ->
  (forall og, odd_graph graph = Ok og ->
              max_weight_matching_contract
                weight og (max_weight_matching og true) = true) ->
  exists og eg,
    odd_graph graph = Ok og
    /\ augment graph og (max_weight_matching og true) = Ok eg
    /\ (forall n, In n (keys (max_weight_matching og true))
                  <-> In n (odd_nodes graph))
    /\ (forall u v, In (u, v) (max_weight_matching og true) ->
                    exists e, get2 (adj og) u v = Some e
                              /\ pair_cost graph og (u, v)
                                 = path_weight graph (o_path e))
    /\ edge_sum eg - edge_sum graph
       = sum_over (matched_pairs (max_weight_matching og true))
                  (pair_cost graph og).
Proof.
  intros Hgood Hconn Hmatch.
  destruct (pipeline graph Hgood Hconn) as [og [Eog Hog]].
  destruct (Hog _ (Hmatch og Eog))
    as (Hkeys & Hpairs & eg & Eeg & _ & _ & _ & _ & _ & _ & Hsum & _).
  exists og, eg; split; [exact Eog|]; split; [exact Eeg|].
  split; [exact Hkeys|]; split; [|lia].
  intros u v Hin; destruct (Hpairs u v Hin) as [_ [e [He _]]].
  exists e; split; [exact He|].
  unfold pair_cost; simpl; rewrite He; reflexivity.
Qed.

Lemma duplicated_length_is_the_matched_paths_witness :
  exists og eg,
    odd_graph shortcut_graph = Ok og
    /\ augment shortcut_graph og (exhaustive_matching og true) = Ok eg
    /\ (forall n, In n (keys (exhaustive_matching og true))
                  <-> In n (odd_nodes shortcut_graph))
    /\ (forall u v, In (u, v) (exhaustive_matching og true) ->
                    exists e, get2 (adj og) u v = Some e
                              /\ pair_cost shortcut_graph og (u, v)
                                 = path_weight shortcut_graph (o_path e))
    /\ edge_sum eg - edge_sum shortcut_graph
       = sum_over (matched_pairs (exhaustive_matching og true))
                  (pair_cost shortcut_graph og).
Proof.
  apply (duplicated_length_is_the_matched_paths exhaustive_matching
                                                shortcut_graph).
  - vm_compute; reflexivity.
  - vm_compute; reflexivity.
  - exact shortcut_matching_contract.
Defined.
